(** * The multilevel feedback-queue scheduler of [kernel_sched.c]

    A shallow embedding of the scheduler of
    [os/Feedback Queue/kernel_sched.c] and the properties of its
    specification.

    Every region of the C file that runs under [sched_spinlock] is one
    computation of a small state-and-fault monad over the scheduler's
    variables.  Pointers to thread control blocks are keys of a finite map
    (the allocated blocks).  The intrusive lists [SCHED[i]] and
    [TIMEOUT_LIST] are rings of nodes around a head node; the model keeps
    the threads of each ring in the order of the ring, from the head on.

    The hardware layer is left out: contexts and their swap, the timer and
    its interrupt, preemption, halting and restarting cores, and with them
    [run_scheduler] and the idle loop.  The clock is an argument of the
    functions that read it. *)

From Stdlib Require Import ZArith Lia.
From stdpp Require Import base decidable option numbers list sorting gmap.

Open Scope Z_scope.

(** ** Machine integers *)

(** [int] is 32 bits wide.  The C standard leaves signed overflow
    undefined; the model takes the two's complement result.  The theorems
    below say where they need a value to stay in range. *)
Definition INT_MIN : Z := - 2 ^ 31.
Definition INT_MAX : Z := 2 ^ 31 - 1.
Definition wrap_int (z : Z) : Z := (z + 2 ^ 31) mod 2 ^ 32 - 2 ^ 31.

(** [unsigned int] arithmetic is modulo [2 ^ 32]. *)
Definition wrap_uint (z : Z) : Z := z mod 2 ^ 32.

Arguments wrap_int : simpl never.
Arguments wrap_uint : simpl never.

(** ** Thread control blocks *)

Inductive Thread_type := NORMAL_THREAD | IDLE_THREAD.
Inductive Thread_state := INIT | READY | RUNNING | STOPPED | EXITED.
Inductive Thread_phase := CTX_CLEAN | CTX_DIRTY.
Inductive SCHED_CAUSE :=
  SCHED_QUANTUM | SCHED_IO | SCHED_MUTEX | SCHED_PIPE | SCHED_POLL
| SCHED_IDLE | SCHED_USER.

#[global] Instance Thread_type_eq_dec : EqDecision Thread_type.
Proof. solve_decision. Defined.
#[global] Instance Thread_state_eq_dec : EqDecision Thread_state.
Proof. solve_decision. Defined.
#[global] Instance Thread_phase_eq_dec : EqDecision Thread_phase.
Proof. solve_decision. Defined.
#[global] Instance SCHED_CAUSE_eq_dec : EqDecision SCHED_CAUSE.
Proof. solve_decision. Defined.

(** A [TCB*] is the address of a block, a [PCB*] and a [PTCB*] likewise;
    [None] is the null pointer where a pointer may be null. *)
Abbreviation tid := nat.
Abbreviation pid := nat.
Abbreviation ptid := nat.

(** The fields of [TCB] the scheduler reads or writes ([thread_func],
    [context] and the valgrind id belong to the hardware layer).
    [sched_node] is represented by the position of the block's address in
    the lists of the scheduler. *)
Record TCB := mkTCB {
  owner_pcb : pid;
  owner_ptcb : option ptid;
  type : Thread_type;
  state : Thread_state;
  phase : Thread_phase;
  wakeup_time : Z;
  priority : Z;
  mutex_flag : Z;
  prev_queue : Z;
  prev : option tid;
  next : option tid
}.

Definition with_owner_ptcb (v : option ptid) (b : TCB) : TCB :=
  mkTCB (owner_pcb b) v (type b) (state b) (phase b) (wakeup_time b)
        (priority b) (mutex_flag b) (prev_queue b) (prev b) (next b).
Definition with_state (v : Thread_state) (b : TCB) : TCB :=
  mkTCB (owner_pcb b) (owner_ptcb b) (type b) v (phase b) (wakeup_time b)
        (priority b) (mutex_flag b) (prev_queue b) (prev b) (next b).
Definition with_phase (v : Thread_phase) (b : TCB) : TCB :=
  mkTCB (owner_pcb b) (owner_ptcb b) (type b) (state b) v (wakeup_time b)
        (priority b) (mutex_flag b) (prev_queue b) (prev b) (next b).
Definition with_wakeup_time (v : Z) (b : TCB) : TCB :=
  mkTCB (owner_pcb b) (owner_ptcb b) (type b) (state b) (phase b) v
        (priority b) (mutex_flag b) (prev_queue b) (prev b) (next b).
Definition with_priority (v : Z) (b : TCB) : TCB :=
  mkTCB (owner_pcb b) (owner_ptcb b) (type b) (state b) (phase b)
        (wakeup_time b) v (mutex_flag b) (prev_queue b) (prev b) (next b).
Definition with_mutex_flag (v : Z) (b : TCB) : TCB :=
  mkTCB (owner_pcb b) (owner_ptcb b) (type b) (state b) (phase b)
        (wakeup_time b) (priority b) v (prev_queue b) (prev b) (next b).
Definition with_prev_queue (v : Z) (b : TCB) : TCB :=
  mkTCB (owner_pcb b) (owner_ptcb b) (type b) (state b) (phase b)
        (wakeup_time b) (priority b) (mutex_flag b) v (prev b) (next b).
Definition with_prev (v : option tid) (b : TCB) : TCB :=
  mkTCB (owner_pcb b) (owner_ptcb b) (type b) (state b) (phase b)
        (wakeup_time b) (priority b) (mutex_flag b) (prev_queue b) v (next b).
Definition with_next (v : option tid) (b : TCB) : TCB :=
  mkTCB (owner_pcb b) (owner_ptcb b) (type b) (state b) (phase b)
        (wakeup_time b) (priority b) (mutex_flag b) (prev_queue b) (prev b) v.

(** A core control block: the current thread and the address of the idle
    thread embedded in the block. *)
Record CCB := mkCCB {
  current_thread : tid;
  idle_thread : tid
}.

(** ** The scheduler's variables *)

(** [tcbs] holds the allocated thread blocks, [thread_count] the field of
    that name of each process block and [thread_exited] the field of that
    name of each user-level thread handle.  [boost_calls] is a history
    variable, not a variable of the program: it counts the entries into
    [boost]. *)
Record sched := mkSched {
  tcbs : gmap nat TCB;
  SCHED : list (list tid);
  TIMEOUT_LIST : list tid;
  counter_congestion : Z;
  fail_safe : Z;
  active_threads : Z;
  cctx : list CCB;
  thread_count : gmap nat Z;
  thread_exited : gmap nat Z;
  boost_calls : nat
}.

Definition set_tcbs (f : gmap nat TCB → gmap nat TCB) (s : sched) : sched :=
  mkSched (f (tcbs s)) (SCHED s) (TIMEOUT_LIST s) (counter_congestion s)
          (fail_safe s) (active_threads s) (cctx s) (thread_count s)
          (thread_exited s) (boost_calls s).
Definition set_SCHED (f : list (list tid) → list (list tid)) (s : sched) : sched :=
  mkSched (tcbs s) (f (SCHED s)) (TIMEOUT_LIST s) (counter_congestion s)
          (fail_safe s) (active_threads s) (cctx s) (thread_count s)
          (thread_exited s) (boost_calls s).
Definition set_TIMEOUT_LIST (f : list tid → list tid) (s : sched) : sched :=
  mkSched (tcbs s) (SCHED s) (f (TIMEOUT_LIST s)) (counter_congestion s)
          (fail_safe s) (active_threads s) (cctx s) (thread_count s)
          (thread_exited s) (boost_calls s).
Definition set_counter_congestion (f : Z → Z) (s : sched) : sched :=
  mkSched (tcbs s) (SCHED s) (TIMEOUT_LIST s) (f (counter_congestion s))
          (fail_safe s) (active_threads s) (cctx s) (thread_count s)
          (thread_exited s) (boost_calls s).
Definition set_fail_safe (f : Z → Z) (s : sched) : sched :=
  mkSched (tcbs s) (SCHED s) (TIMEOUT_LIST s) (counter_congestion s)
          (f (fail_safe s)) (active_threads s) (cctx s) (thread_count s)
          (thread_exited s) (boost_calls s).
Definition set_active_threads (f : Z → Z) (s : sched) : sched :=
  mkSched (tcbs s) (SCHED s) (TIMEOUT_LIST s) (counter_congestion s)
          (fail_safe s) (f (active_threads s)) (cctx s) (thread_count s)
          (thread_exited s) (boost_calls s).
Definition set_cctx (f : list CCB → list CCB) (s : sched) : sched :=
  mkSched (tcbs s) (SCHED s) (TIMEOUT_LIST s) (counter_congestion s)
          (fail_safe s) (active_threads s) (f (cctx s)) (thread_count s)
          (thread_exited s) (boost_calls s).
Definition set_thread_count (f : gmap nat Z → gmap nat Z) (s : sched) : sched :=
  mkSched (tcbs s) (SCHED s) (TIMEOUT_LIST s) (counter_congestion s)
          (fail_safe s) (active_threads s) (cctx s) (f (thread_count s))
          (thread_exited s) (boost_calls s).
Definition set_thread_exited (f : gmap nat Z → gmap nat Z) (s : sched) : sched :=
  mkSched (tcbs s) (SCHED s) (TIMEOUT_LIST s) (counter_congestion s)
          (fail_safe s) (active_threads s) (cctx s) (thread_count s)
          (f (thread_exited s)) (boost_calls s).
Definition set_boost_calls (f : nat → nat) (s : sched) : sched :=
  mkSched (tcbs s) (SCHED s) (TIMEOUT_LIST s) (counter_congestion s)
          (fail_safe s) (active_threads s) (cctx s) (thread_count s)
          (thread_exited s) (f (boost_calls s)).

(** ** The monad of scheduler code *)

(** What stops a computation: a null pointer is dereferenced, a pointer
    to a block that is not allocated or a pointer that was never set is
    used, an array is indexed outside its bounds, an [assert] fails, or a
    loop of the model runs out of the fuel it was given (the theorems show
    that this last one does not happen).  [Relinked] stops the model, not
    the program: a node that is linked in a ring is spliced into a ring,
    which joins or splits the rings, and the lists of the model no longer
    describe them. *)
Inductive fault :=
  NullDeref | BadPointer | OutOfBounds | AssertFail | OutOfFuel | Relinked.

(** A computation ends with a value and a state, or stops with a fault in
    the state reached at that point. *)
Inductive result (A : Type) : Type :=
| Done (a : A) (s : sched)
| Crash (f : fault) (s : sched).
Arguments Done {A} a s.
Arguments Crash {A} f s.

Definition M (A : Type) : Type := sched → result A.

#[global] Instance M_ret : MRet M := λ A a s, Done a s.
#[global] Instance M_bind : MBind M := λ A B k m s,
  match m s with
  | Done a s' => k a s'
  | Crash f s' => Crash f s'
  end.

Definition get : M sched := λ s, Done s s.
Definition modify (f : sched → sched) : M unit := λ s, Done tt (f s).
Definition crash {A} (f : fault) : M A := λ s, Crash f s.
Definition assert (b : bool) : M unit :=
  if b then mret tt else crash AssertFail.

(** The state in which a computation ends or stops. *)
Definition final {A} (r : result A) : sched :=
  match r with Done _ s => s | Crash _ s => s end.

(** ** Accessors *)

(** Reading and writing through a [TCB*]. *)
Definition get_tcb (t : tid) : M TCB := λ s,
  match tcbs s !! t with
  | Some b => Done b s
  | None => Crash BadPointer s
  end.

Definition upd_tcb (t : tid) (f : TCB → TCB) : M unit := λ s,
  match tcbs s !! t with
  | Some b => Done tt (set_tcbs <[t := f b]> s)
  | None => Crash BadPointer s
  end.

(** [CURCORE] on the core [core], and [CURTHREAD] as an rvalue and as an
    lvalue. *)
Definition CURCORE (core : nat) : M CCB := λ s,
  match cctx s !! core with
  | Some c => Done c s
  | None => Crash OutOfBounds s
  end.

Definition CURTHREAD (core : nat) : M tid :=
  c ← CURCORE core; mret (current_thread c).

Definition set_CURTHREAD (core : nat) (t : tid) : M unit :=
  c ← CURCORE core;
  modify (set_cctx <[core := mkCCB t (idle_thread c)]>).

(** [CURPROC] is a macro of the kernel headers, like [CURCORE] and
    [CURTHREAD]: the process of the current thread,
    [CURTHREAD->owner_pcb]. *)
Definition CURPROC (core : nat) : M pid :=
  t ← CURTHREAD core; b ← get_tcb t; mret (owner_pcb b).

(** ** Intrusive lists *)

(** Modelled from the spec: the list primitives of the kernel's utility
    header ([is_rlist_empty], [rlist_pop_front], [rlist_push_back],
    [rlist_remove], [rl_splice]) are not part of this file.  The ready
    queues are FIFO lists with push-back and pop-front.  What this file
    does with them shows that a list is a ring of nodes around its head:
    the walk of [sched_register_timeout] ends when it is back at
    [&TIMEOUT_LIST], [initialize_scheduler] sets the [tcb] field of every
    head to null, a node that is in no list is its own successor (the
    assertion of [sched_make_ready]), and [sched_queue_select] returns
    [sel->tcb] for the null pointer when the lists are empty.  A pop
    therefore always gives the address of a node: the first node of the
    ring or, on an empty ring, the head itself.  The model gives the node
    by its [tcb] field: [Some t] for the node of the thread [t], [None]
    for a head.  Removing a node removes it from the ring that holds
    it. *)
Definition ready_queue (i : nat) : M (list tid) := λ s,
  match SCHED s !! i with
  | Some q => Done q s
  | None => Crash OutOfBounds s
  end.

(** Modelled from the spec: [is_rlist_empty] on [SCHED[i]]. *)
Definition is_rlist_empty (i : nat) : M bool :=
  q ← ready_queue i; mret (bool_decide (q = [])).

(** Modelled from the spec: [rlist_pop_front] on [SCHED[i]].  The result
    is the [tcb] field of the node that is returned: the first thread of
    the list, which is unlinked, or null, the [tcb] of the head, when the
    list is empty. *)
Definition rlist_pop_front (i : nat) : M (option tid) :=
  q ← ready_queue i;
  match q with
  | [] => mret None
  | t :: q' => modify (set_SCHED <[i := q']>);; mret (Some t)
  end.

(** Modelled from the spec: [rlist_push_back] on [SCHED[i]], for a node
    that is not linked. *)
Definition rlist_push_back (i : nat) (t : tid) : M unit :=
  q ← ready_queue i; modify (set_SCHED <[i := q ++ [t]]>).

Definition unlink (t : tid) (l : list tid) : list tid :=
  filter (λ x, x ≠ t) l.

(** Modelled from the spec: [rlist_remove] of the node of [t], from the
    list that holds it. *)
Definition rlist_remove (t : tid) : M unit :=
  modify (λ s, set_TIMEOUT_LIST (unlink t) (set_SCHED (fmap (unlink t)) s)).

(** [n->next != n]: the node of [t] is linked in some list. *)
Definition is_linked (t : tid) (s : sched) : bool :=
  bool_decide (t ∈ TIMEOUT_LIST s) || bool_decide (t ∈ concat (SCHED s)).

(** ** Tunables *)

(** The constants and types of the kernel headers, which this file takes
    as given.  The priorities are the indices of [SCHED]:
    [LOWEST_PRIORITY] is [0] and [TOP_PRIORITY] is [PRIORITY_LISTS - 1].
    [TimerDuration], the type of the clock, of the timeouts and of
    [wakeup_time], is an unsigned integer type that is [TIMER_BITS]
    wide. *)
Class Tunables := {
  PRIORITY_LISTS : nat;
  MAX_CONGESTION : Z;
  NO_TIMEOUT : Z;
  TIMER_BITS : Z
}.

Definition LOWEST_PRIORITY : Z := 0.
Definition TOP_PRIORITY `{Tunables} : Z := Z.of_nat PRIORITY_LISTS - 1.

(** Arithmetic in [TimerDuration] is modulo [2 ^ TIMER_BITS]. *)
Definition wrap_timer `{Tunables} (z : Z) : Z := z mod 2 ^ TIMER_BITS.
Arguments wrap_timer : simpl never.

Section scheduler.
Context `{Tunables}.

(** ** Allocation *)

(** [spawn_thread]: the allocator returns a block that is not in use, and
    the node of the new thread is not linked in any list.  [raw] is what
    the memory of the block holds when the allocator returns it, which is
    not initialised: the function writes the other fields and leaves
    [owner_ptcb], [prev] and [next] as they are in [raw]. *)
Definition spawn_thread (pcb : pid) (raw : TCB) : M tid := λ s,
  let tcb := fresh (dom (tcbs s)) in
  let b := mkTCB pcb (owner_ptcb raw) NORMAL_THREAD INIT CTX_CLEAN NO_TIMEOUT
                 TOP_PRIORITY 0 TOP_PRIORITY (prev raw) (next raw) in
  Done tcb (set_active_threads (λ n, wrap_uint (n + 1))
             (set_tcbs <[tcb := b]> s)).

Definition release_TCB (tcb : tid) : M unit :=
  (* free_thread(tcb, THREAD_SIZE) *)
  _ ← get_tcb tcb;
  modify (set_tcbs (delete tcb));;
  modify (set_active_threads (λ n, wrap_uint (n - 1))).

(** ** The timeout list *)

(** The loop of [sched_register_timeout]: walk [TIMEOUT_LIST] from its
    head to the first node whose thread wakes up later than [w], and
    splice [t] in before it. *)
Fixpoint splice_before_later (h : gmap nat TCB) (w : Z) (t : tid)
    (l : list tid) : option (list tid) :=
  match l with
  | [] => Some [t]
  | n :: l' =>
      match h !! n with
      | None => None
      | Some bn =>
          if bool_decide (w < wakeup_time bn) then Some (t :: n :: l')
          else cons n <$> splice_before_later h w t l'
      end
  end.

(** [curtime] is the value [bios_clock()] returns; the sum of the clock
    and the timeout is a sum of [TimerDuration].  The walk dereferences
    the [tcb] of the nodes it passes.  [rl_splice] then links the node of
    the thread in front of the node the walk stopped at: that inserts the
    thread into the list when its node is in no list, which is all the
    model describes. *)
Definition sched_register_timeout (curtime : Z) (tcb : tid) (timeout : Z)
    : M unit :=
  if bool_decide (timeout ≠ NO_TIMEOUT) then
    upd_tcb tcb (with_wakeup_time
      (if bool_decide (timeout = NO_TIMEOUT) then NO_TIMEOUT
       else wrap_timer (curtime + timeout)));;
    b ← get_tcb tcb;
    s ← get;
    match splice_before_later (tcbs s) (wakeup_time b) tcb (TIMEOUT_LIST s) with
    | Some l =>
        if is_linked tcb s then crash Relinked
        else modify (set_TIMEOUT_LIST (λ _, l))
    | None => crash BadPointer
    end
  else mret tt.

(** ** The ready queues *)

(** [SCHED[p]] for an [int] index. *)
Definition queue_index (p : Z) : M nat := λ s,
  if bool_decide (0 ≤ p < Z.of_nat (length (SCHED s)))
  then Done (Z.to_nat p) s else Crash OutOfBounds s.

Definition sched_queue_add (tcb : tid) : M unit :=
  b ← get_tcb tcb;
  i ← queue_index (priority b);
  rlist_push_back i tcb
  (* cpu_core_restart_one() *).

Definition sched_make_ready (tcb : tid) : M unit :=
  b ← get_tcb tcb;
  assert (bool_decide (state b = STOPPED ∨ state b = INIT));;
  (if bool_decide (wakeup_time b ≠ NO_TIMEOUT) then
     s ← get;
     assert (is_linked tcb s && bool_decide (state b = STOPPED));;
     rlist_remove tcb;;
     upd_tcb tcb (with_wakeup_time NO_TIMEOUT)
   else mret tt);;
  upd_tcb tcb (with_state READY);;
  b ← get_tcb tcb;
  if bool_decide (phase b = CTX_CLEAN) then sched_queue_add tcb else mret tt.

(** ** Boost *)

(** The [while] loop of [boost] on [SCHED[i]].  It takes one more step
    while the list is not empty; [fuel] bounds the number of steps and is
    the length of the list when the loop is entered. *)
Fixpoint boost_drain (fuel : nat) (i : nat) : M unit :=
  e ← is_rlist_empty i;
  if e : bool then mret tt
  else
    match fuel with
    | O => crash OutOfFuel
    | S fuel' =>
        sel ← rlist_pop_front i;
        match sel with
        | None => crash NullDeref
        | Some t =>
            upd_tcb t (λ b, with_priority (wrap_int (priority b + 1)) b);;
            rlist_push_back (i + 1) t;;
            boost_drain fuel' i
        end
    end.

(** The [for] loop of [boost]: [k] is [i + 1], so that the levels
    [k - 1], ..., [LOWEST_PRIORITY] are still to be drained. *)
Fixpoint boost_levels (k : nat) : M unit :=
  match k with
  | O => mret tt
  | S i =>
      q ← ready_queue i;
      boost_drain (length q) i;;
      boost_levels i
  end.

Definition boost : M unit :=
  modify (set_boost_calls S);;
  modify (set_counter_congestion (λ _, 0));;
  boost_levels (Z.to_nat (TOP_PRIORITY - 1 - LOWEST_PRIORITY + 1)).

(** ** Selection *)

(** The [while] loop at the top of [sched_queue_select].  Every step that
    goes on unlinks the head of [TIMEOUT_LIST] or makes the next step fail
    the assertion of [sched_make_ready], so the length of the list plus
    two is enough fuel. *)
Fixpoint drain_timeouts (fuel : nat) (curtime : Z) : M unit :=
  s ← get;
  match TIMEOUT_LIST s with
  | [] => mret tt
  | tcb :: _ =>
      b ← get_tcb tcb;
      if bool_decide (wakeup_time b > curtime) then mret tt
      else
        match fuel with
        | O => crash OutOfFuel
        | S fuel' => sched_make_ready tcb;; drain_timeouts fuel' curtime
        end
  end.

(** The first [for] loop: [k] is [i + 1], and [sel] is the pointer as it
    is before the round, [None] for a pointer that is null or was never
    set.  [rlist_pop_front] gives the address of a node, which is not
    null, so the test [sel != NULL] holds in the first round and the loop
    ends there, whether the list held a thread or not.  The result is the
    value of [i] after the loop and [sel], a node given by its [tcb]
    field. *)
Fixpoint scan_ready (k : nat) (sel : option (option tid))
    : M (Z * option (option tid)) :=
  match k with
  | O => mret (LOWEST_PRIORITY - 1, sel)
  | S i =>
      node ← rlist_pop_front i;
      let sel := Some node in
      if bool_decide (sel ≠ None) then mret (Z.of_nat i, sel)
      else scan_ready i sel
  end.

(** The second [for] loop, over the lists below the one the thread was
    found in: [k] is [i + 1] after the [i--] that starts the loop. *)
Fixpoint scan_lower (k : nat) : M unit :=
  match k with
  | O => mret tt
  | S i =>
      e ← is_rlist_empty i;
      if negb e : bool then
        modify (set_counter_congestion (λ c, wrap_int (c + 1)))
      else if bool_decide (Z.of_nat i = LOWEST_PRIORITY) then
        modify (set_counter_congestion (λ c, wrap_int (c - 1)))
      else scan_lower i
  end.

(** The congestion update, from the comparison of [i] to the clamp. *)
Definition update_congestion (i : Z) : M unit :=
  (if bool_decide (i ≤ LOWEST_PRIORITY) then
     modify (set_counter_congestion (λ c, wrap_int (c - 1)))
   else scan_lower (Z.to_nat (i - 1 - LOWEST_PRIORITY + 1)));;
  s ← get;
  if bool_decide (counter_congestion s < 0) then
    modify (set_counter_congestion (λ _, 0))
  else mret tt.

(** The test that guards the call of [boost]. *)
Definition boost_needed (s : sched) : bool :=
  bool_decide (counter_congestion s >= MAX_CONGESTION)
  || bool_decide (fail_safe s = 500).

(** [sched_queue_select], from the drain of the timeout list to
    [fail_safe++].  [sel] is declared without a value; the result is
    [sel] after the scan. *)
Definition select_scan (curtime : Z) : M (option (option tid)) :=
  s ← get;
  drain_timeouts (length (TIMEOUT_LIST s) + 2) curtime;;
  '(i, sel) ← scan_ready (Z.to_nat (TOP_PRIORITY - LOWEST_PRIORITY + 1)) None;
  update_congestion i;;
  modify (set_fail_safe (λ n, wrap_int (n + 1)));;
  mret sel.

(** The result is [sel->tcb]: the address of the thread whose node was
    popped, or null when [sel] is the head of the list, which was empty.
    With no ready queue at all the scan does not run and [sel] was never
    set. *)
Definition sched_queue_select (curtime : Z) : M (option tid) :=
  sel ← select_scan curtime;
  s ← get;
  (if boost_needed s then boost else mret tt);;
  match sel with
  | Some node => mret node
  | None => crash BadPointer
  end.

(** ** Sleep and wake *)

Definition wakeup (tcb : tid) : M Z :=
  b ← get_tcb tcb;
  if bool_decide (state b = STOPPED ∨ state b = INIT) then
    sched_make_ready tcb;; mret 1
  else mret 0.

(** ** Context switch *)

(** The priority of the yielding thread: the [switch] on the cause, the
    bounds check and the reinstatement after a mutex wait. *)
Definition adjust_priority (cause : SCHED_CAUSE) (b : TCB) : TCB :=
  match cause with
  | SCHED_QUANTUM => with_priority (wrap_int (priority b - 1)) b
  | SCHED_IO => with_priority (wrap_int (priority b + 1)) b
  | SCHED_MUTEX =>
      let b1 := if bool_decide (mutex_flag b = 0)
                then with_prev_queue (priority b) b else b in
      with_mutex_flag 1 (with_priority LOWEST_PRIORITY b1)
  | SCHED_PIPE | SCHED_POLL | SCHED_IDLE | SCHED_USER => b
  end.

Definition clamp_priority (b : TCB) : TCB :=
  if bool_decide (priority b < LOWEST_PRIORITY)
  then with_priority LOWEST_PRIORITY b
  else if bool_decide (priority b > TOP_PRIORITY)
  then with_priority TOP_PRIORITY b
  else b.

Definition reinstate_priority (cause : SCHED_CAUSE) (b : TCB) : TCB :=
  if bool_decide (mutex_flag b = 1) && bool_decide (cause ≠ SCHED_MUTEX)
  then with_priority (prev_queue b) (with_mutex_flag 0 b)
  else b.

Definition yield_priority (cause : SCHED_CAUSE) (b : TCB) : TCB :=
  reinstate_priority cause (clamp_priority (adjust_priority cause b)).

(** [gain], up to the release of the lock.  The timer that is armed
    afterwards belongs to the hardware layer. *)
Definition gain (core : nat) : M unit :=
  current ← CURTHREAD core;
  b ← get_tcb current;
  let prev := prev b in
  upd_tcb current (λ b, with_phase CTX_DIRTY (with_state RUNNING b));;
  if bool_decide (Some current ≠ prev) then
    match prev with
    | None => crash NullDeref
    | Some prev =>
        upd_tcb prev (with_phase CTX_CLEAN);;
        pb ← get_tcb prev;
        match state pb with
        | READY =>
            if bool_decide (type pb ≠ IDLE_THREAD) then sched_queue_add prev
            else mret tt
        | EXITED =>
            match owner_ptcb pb with
            | Some p => λ s,
                match thread_exited s !! p with
                | Some _ => Done tt (set_thread_exited <[p := 1]> s)
                | None => Crash BadPointer s
                end
            | None => mret tt
            end;;
            proc ← CURPROC core;
            (λ s, match thread_count s !! proc with
                  | Some n =>
                      Done tt (set_thread_count <[proc := wrap_int (n - 1)]> s)
                  | None => Crash BadPointer s
                  end);;
            release_TCB prev
        | STOPPED => mret tt
        | INIT | RUNNING => crash AssertFail
        end
    end
  else mret tt.

(** [yield], from the acquisition of the lock to the switch of
    [CURTHREAD]. *)
Definition yield_switch (core : nat) (cause : SCHED_CAUSE) (curtime : Z)
    : M unit :=
  current ← CURTHREAD core;
  upd_tcb current (yield_priority cause);;
  b ← get_tcb current;
  current_ready ←
    match state b with
    | RUNNING => upd_tcb current (with_state READY);; mret true
    | READY => mret true
    | STOPPED | EXITED => mret false
    | INIT => crash AssertFail
    end;
  next ← sched_queue_select curtime;
  next ←
    match next with
    | Some n => mret n
    | None =>
        if current_ready : bool then mret current
        else c ← CURCORE core; mret (idle_thread c)
    end;
  upd_tcb current (with_next (Some next));;
  upd_tcb next (with_prev (Some current));;
  if bool_decide (current ≠ next) then set_CURTHREAD core next else mret tt.

(** On one core, the thread that is switched in goes on in [gain]: a new
    thread from [thread_start], any other from the end of its own
    [yield]. *)
Definition yield (core : nat) (cause : SCHED_CAUSE) (curtime : Z) : M unit :=
  yield_switch core cause curtime;; gain core.

(** [sleep_releasing], up to the release of the lock; [mx] is unlocked
    outside the scheduler's variables. *)
Definition sleep_releasing_locked (core : nat) (st : Thread_state)
    (timeout : Z) (curtime : Z) : M unit :=
  assert (bool_decide (st = STOPPED ∨ st = EXITED));;
  tcb ← CURTHREAD core;
  upd_tcb tcb (with_state st);;
  if bool_decide (st ≠ EXITED) then sched_register_timeout curtime tcb timeout
  else mret tt.

(** [curtime] is the clock when the timeout is registered, [curtime']
    when the next thread is selected. *)
Definition sleep_releasing (core : nat) (st : Thread_state)
    (cause : SCHED_CAUSE) (timeout : Z) (curtime curtime' : Z) : M unit :=
  sleep_releasing_locked core st timeout curtime;;
  yield core cause curtime'.

(** ** Start *)

Definition initialize_scheduler : M unit :=
  modify (set_SCHED (λ _, replicate PRIORITY_LISTS []));;
  modify (set_TIMEOUT_LIST (λ _, [])).

End scheduler.

(** ** Runs of the scheduler *)

(** The operations of the file that other code and the cores call, one
    for each region that holds [sched_spinlock], and [OpAttach], the
    write of [owner_ptcb] that [spawn_thread] leaves to the code that
    creates the thread. *)
Inductive op :=
| OpSpawn (pcb : pid) (raw : TCB)
| OpAttach (tcb : tid) (handle : option ptid)
| OpWakeup (tcb : tid)
| OpSleep (core : nat) (st : Thread_state) (timeout curtime : Z)
| OpYield (core : nat) (cause : SCHED_CAUSE) (curtime : Z)
| OpGain (core : nat)
| OpBoost.

Section runs.
Context `{Tunables}.

Definition exec (o : op) : M unit :=
  match o with
  | OpSpawn pcb raw => spawn_thread pcb raw;; mret tt
  | OpAttach tcb handle => upd_tcb tcb (with_owner_ptcb handle)
  | OpWakeup tcb => wakeup tcb;; mret tt
  | OpSleep core st timeout curtime =>
      sleep_releasing_locked core st timeout curtime
  | OpYield core cause curtime => yield_switch core cause curtime
  | OpGain core => gain core
  | OpBoost => boost
  end.

(** The state at the start: the static initialisers and
    [initialize_scheduler]. *)
Definition boot (s : sched) : Prop :=
  counter_congestion s = 0 ∧ fail_safe s = 0 ∧ active_threads s = 0
  ∧ boost_calls s = 0%nat.

Inductive initial : sched → Prop :=
| initial_boot s0 s :
    boot s0 → initialize_scheduler s0 = Done tt s → initial s.

(** The number of calls of [sched_queue_select] in a run: one in every
    [yield]. *)
Definition is_yield (o : op) : bool :=
  match o with OpYield _ _ _ => true | _ => false end.

Definition selections (os : list op) : nat := length (filter is_yield os).

(** ** Properties of states *)

(** The wake-up time of the thread at [t]. *)
Definition wakeup_of (s : sched) (t : tid) : option Z :=
  wakeup_time <$> tcbs s !! t.

(** A thread of [TIMEOUT_LIST] is allocated and stopped and has a
    deadline. *)
Definition sleeper (s : sched) (t : tid) : Prop :=
  ∃ b, tcbs s !! t = Some b ∧ state b = STOPPED
       ∧ wakeup_time b ≠ NO_TIMEOUT.

(** [t1] wakes up no later than [t2]. *)
Definition wakes_before (s : sched) (t1 t2 : tid) : Prop :=
  ∃ w1 w2, wakeup_of s t1 = Some w1 ∧ wakeup_of s t2 = Some w2 ∧ w1 ≤ w2.

(** [TIMEOUT_LIST] is in non-decreasing order of the wake-up times: every
    thread in it wakes up no later than the threads behind it. *)
Definition timeouts_sorted (s : sched) : Prop :=
  StronglySorted (wakes_before s) (TIMEOUT_LIST s).

Definition timeouts_ok (s : sched) : Prop :=
  Forall (sleeper s) (TIMEOUT_LIST s) ∧ timeouts_sorted s.

(** The fields of the block at [x] that the timeout list depends on are
    the same in [s] and [s']. *)
Definition same_sleep (s s' : sched) (x : tid) : Prop :=
  state <$> tcbs s' !! x = state <$> tcbs s !! x
  ∧ wakeup_of s' x = wakeup_of s x.

(** The threads in the ready queues are allocated. *)
Definition queued_allocated (s : sched) : Prop :=
  Forall (λ t, is_Some (tcbs s !! t)) (concat (SCHED s)).

(** A thread in [TIMEOUT_LIST] can be made ready: its priority is an
    index of [SCHED] when it is to be queued. *)
Definition wakeable (s : sched) (t : tid) : Prop :=
  ∃ b, tcbs s !! t = Some b ∧ state b = STOPPED
       ∧ wakeup_time b ≠ NO_TIMEOUT
       ∧ (phase b = CTX_CLEAN →
          0 ≤ priority b < Z.of_nat (length (SCHED s))).

(** The deadline of the thread at [t] has passed at [curtime]. *)
Definition expired (s : sched) (curtime : Z) (t : tid) : Prop :=
  ∃ b, tcbs s !! t = Some b ∧ wakeup_time b ≤ curtime.

(** [sched_make_ready] on each thread of [l], in order. *)
Definition wake_all (l : list tid) : M unit :=
  foldr (λ t m, sched_make_ready t;; m) (mret tt) l.

End runs.

(** ** The congestion update in closed form *)

(** The move of the congestion counter when the scan has stopped at the
    list [i]: down by one at the lowest list; above it, up by one when
    some list below [i] is not empty, and down by one when they all
    are. *)
Definition congestion_step (i : nat) (qs : list (list tid)) : Z :=
  match i with
  | O => -1
  | S _ => if bool_decide (Exists (λ q, q ≠ []) (take i qs)) then 1 else -1
  end.
Arguments congestion_step : simpl never.

Section scanning.
Context `{Tunables}.

(** The state of a selection at its test for a boost, given the state
    [s1] that the drain of the timeout list has left: the top list has
    lost its first thread, if it had one, the congestion counter has
    moved, and [fail_safe] is one up. *)
Definition scanned (s1 : sched) : sched :=
  let top := (PRIORITY_LISTS - 1)%nat in
  set_fail_safe (λ n, wrap_int (n + 1))
    (set_counter_congestion
       (λ c, Z.max 0 (wrap_int (c + congestion_step top (SCHED s1))))
       (set_SCHED <[top := tail (default [] (SCHED s1 !! top))]> s1)).

End scanning.

(** ** The threads that [boost] moves *)

(** The priorities of the threads of [q] raised by one, as [boost] does
    for the threads it moves. *)
Definition raise_priority (b : TCB) : TCB :=
  with_priority (wrap_int (priority b + 1)) b.

Definition raise_all (q : list tid) (h : gmap nat TCB) : gmap nat TCB :=
  foldl (λ h t, alter raise_priority t h) h q.

(** ** Assertions on computations *)

(** [hoare P m Q]: from a state in [P], when [m] ends without a fault it
    does so with a value and a state in [Q]. *)
Definition hoare {A} (P : sched → Prop) (m : M A) (Q : A → sched → Prop)
    : Prop :=
  ∀ s, P s → ∀ a s', m s = Done a s' → Q a s'.

(** [m] keeps the property [P] of states. *)
Definition keeps {A} (P : sched → Prop) (m : M A) : Prop :=
  hoare P m (λ _, P).

(** A property of the counters of the scheduler alone: it does not depend
    on the thread blocks, the lists, the core blocks, the process blocks
    or the number of threads. *)
Record counters_only (P : sched → Prop) : Prop := {
  co_tcbs : ∀ g s, P s → P (set_tcbs g s);
  co_SCHED : ∀ g s, P s → P (set_SCHED g s);
  co_TIMEOUT_LIST : ∀ g s, P s → P (set_TIMEOUT_LIST g s);
  co_active_threads : ∀ g s, P s → P (set_active_threads g s);
  co_cctx : ∀ g s, P s → P (set_cctx g s);
  co_thread_count : ∀ g s, P s → P (set_thread_count g s);
  co_thread_exited : ∀ g s, P s → P (set_thread_exited g s)
}.

(** The threads at the head of the list [l] whose deadline has passed at
    [curtime], in the blocks [h]. *)
Fixpoint due_prefix (h : gmap nat TCB) (curtime : Z) (l : list tid)
    : list tid :=
  match l with
  | [] => []
  | t :: l' =>
      match h !! t with
      | Some b =>
          if bool_decide (wakeup_time b ≤ curtime)
          then t :: due_prefix h curtime l' else []
      | None => []
      end
  end.

(** ** The life of a block between two yields of its thread *)

Section mutex_phase.
Context `{Tunables}.


End mutex_phase.

(** ** Sample configurations *)

(** [(TimerDuration)-1] for a clock of 64 bits. *)
Definition never : Z := 2 ^ 64 - 1.

(** Three priority levels, a boost at a congestion of 4, a clock of 64
    bits, and its largest value for no timeout. *)
Definition three_levels : Tunables :=
  {| PRIORITY_LISTS := 3; MAX_CONGESTION := 4; NO_TIMEOUT := never;
     TIMER_BITS := 64 |}.

(** A block of a normal thread of the process [pcb], not waiting on a
    mutex and not linked across a switch. *)
Definition thread_block (pcb : pid) (handle : option ptid)
    (st : Thread_state) (ph : Thread_phase) (wake prio : Z) : TCB :=
  mkTCB pcb handle NORMAL_THREAD st ph wake prio 0 prio None None.

(** Four ready threads on the three levels and two sleepers, due at 10
    and at 20. *)
Definition busy : sched :=
  mkSched
    (list_to_map
       [(1%nat, thread_block 1 None READY CTX_CLEAN never 0);
        (2%nat, thread_block 1 None READY CTX_CLEAN never 1);
        (3%nat, thread_block 1 None READY CTX_CLEAN never 1);
        (4%nat, thread_block 1 None READY CTX_CLEAN never 2);
        (5%nat, thread_block 1 None STOPPED CTX_CLEAN 10 2);
        (6%nat, thread_block 1 None STOPPED CTX_CLEAN 20 1)])
    [[1%nat]; [2%nat; 3%nat]; [4%nat]] [5%nat; 6%nat]
    0 0 6 [] ∅ ∅ 0.

(** [busy] after the first loop of a selection at the time 15: the thread
    5 is ready and queued. *)
Definition busy_drained : sched :=
  Eval vm_compute in final (drain_timeouts (H := three_levels) 4 15 busy).

(** Nothing is ready and the one sleeper is due at 10. *)
Definition asleep : sched :=
  mkSched
    (list_to_map [(5%nat, thread_block 1 None STOPPED CTX_CLEAN 10 2)])
    [[]; []; []] [5%nat] 0 0 1 [] ∅ ∅ 0.

(** The core 0 has switched from the thread 1 of the process 1, which has
    exited, to the thread 2 of the process 2.  The process 1 has three
    threads and the process 2 has five. *)
Definition exiting : sched :=
  mkSched
    (list_to_map
       [(0%nat, mkTCB 0 None IDLE_THREAD READY CTX_CLEAN never 2 0 2 None None);
        (1%nat, mkTCB 1 (Some 7%nat) NORMAL_THREAD EXITED CTX_DIRTY never 2 0 2
                      None (Some 2%nat));
        (2%nat, mkTCB 2 None NORMAL_THREAD READY CTX_CLEAN never 2 0 2
                      (Some 1%nat) None)])
    [[]; []; []] [] 0 0 2 [mkCCB 2 0]
    (list_to_map [(1%nat, 3); (2%nat, 5)])
    (list_to_map [(7%nat, 0)]) 0.

(** A thread at the priority 2 that has not waited on a mutex. *)
Definition fresh_block : TCB :=
  thread_block 1 None RUNNING CTX_DIRTY never 2.

(** The core 0 runs the thread 1 of the process 1, at the level 1.  The
    threads 2 and 3 are ready at the levels 2 and 1, the thread 5 sleeps
    until 10, and the idle thread of the core is the block 0. *)
Definition working : sched :=
  mkSched
    (list_to_map
       [(0%nat, mkTCB 0 None IDLE_THREAD READY CTX_CLEAN never 2 0 2 None None);
        (1%nat, mkTCB 1 None NORMAL_THREAD RUNNING CTX_DIRTY never 1 0 1
                      (Some 0%nat) None);
        (2%nat, thread_block 1 None READY CTX_CLEAN never 2);
        (3%nat, thread_block 1 None READY CTX_CLEAN never 1);
        (5%nat, thread_block 1 None STOPPED CTX_CLEAN 10 2)])
    [[]; [3%nat]; [2%nat]] [5%nat] 0 0 4 [mkCCB 1 0]
    (list_to_map [(0%nat, 1); (1%nat, 4)]) ∅ 0.


(** ** What a selection leaves as it is *)

(** [b'] is the block [b] up to its priority. *)
Definition reprioritised (b b' : TCB) : Prop :=
  b' = with_priority (priority b') b.

(** [s'] is the state [s] up to the order of the threads in the ready
    queues, the priorities of the threads in them and the counters of the
    selection: the timeout list, the core blocks, the process blocks, the
    number of threads and the blocks of the threads outside the ready
    queues are the same. *)
Definition requeued (s s' : sched) : Prop :=
  TIMEOUT_LIST s' = TIMEOUT_LIST s
  ∧ cctx s' = cctx s
  ∧ active_threads s' = active_threads s
  ∧ thread_count s' = thread_count s
  ∧ thread_exited s' = thread_exited s
  ∧ length (SCHED s') = length (SCHED s)
  ∧ concat (SCHED s') ≡ₚ concat (SCHED s)
  ∧ (∀ x, x ∉ concat (SCHED s) → tcbs s' !! x = tcbs s !! x)
  ∧ (∀ x, option_Forall2 reprioritised (tcbs s !! x) (tcbs s' !! x)).

(** No deadline has passed at [curtime]: the first thread of
    [TIMEOUT_LIST], if any, wakes up later. *)
Definition nothing_due (curtime : Z) (s : sched) : Prop :=
  match TIMEOUT_LIST s with
  | [] => True
  | t :: _ => ∃ b, tcbs s !! t = Some b ∧ wakeup_time b > curtime
  end.

Section yielding.
Context `{Tunables}.

(** The block of the yielding thread when the next thread is selected:
    the priority is updated, and a running thread has become ready. *)
Definition yielded (cause : SCHED_CAUSE) (b : TCB) : TCB :=
  match state b with
  | RUNNING => with_state READY (yield_priority cause b)
  | _ => yield_priority cause b
  end.

End yielding.

(** ** Queues and priorities *)

(** Every thread in a ready queue is allocated and has the index of the
    queue as its priority. *)
Definition queued_by_priority (s : sched) : Prop :=
  ∀ i q t, SCHED s !! i = Some q → t ∈ q →
           ∃ b, tcbs s !! t = Some b ∧ priority b = Z.of_nat i.

Section boosting.
Context `{Tunables}.

(** [k] calls of [boost] in a row. *)
Fixpoint boosts (k : nat) : M unit :=
  match k with
  | O => mret tt
  | S k' => boost;; boosts k'
  end.

End boosting.

(** ** Runs under the calling discipline of the kernel *)

Section discipline.
Context `{Tunables}.

(** The block of the thread that is current on [core]. *)
Definition current_block (core : nat) (s : sched) : option TCB :=
  cctx s !! core ≫= λ c, tcbs s !! current_thread c.

(** How the rest of the kernel and the cores call the scheduler.
    [spawn_thread] gets a process block that exists.  The handle of a
    thread block that exists can be set at any time, and that of a
    thread that has exited only to null or to a handle that exists.
    [wakeup] gets a thread block that exists.  [sleep_releasing]
    is called by the thread that runs on the core, which is not an idle
    thread, with [STOPPED] or [EXITED] and with a deadline, if any, that
    is not the [NO_TIMEOUT] value; a thread that exits has no handle or
    one that exists.  [yield] is called by a thread that has gained the
    core: its context is in use.  [gain] is called by a thread that has
    just been switched in, with a context that is still clean, or that
    has just yielded to itself. *)
Definition proper (o : op) (s : sched) : Prop :=
  match o with
  | OpSpawn pcb raw => is_Some (thread_count s !! pcb)
  | OpAttach tcb handle =>
      ∃ b, tcbs s !! tcb = Some b
           ∧ (state b = EXITED →
              ∀ q, handle = Some q → is_Some (thread_exited s !! q))
  | OpWakeup tcb => is_Some (tcbs s !! tcb)
  | OpSleep core st timeout curtime =>
      (∃ b, current_block core s = Some b ∧ state b = RUNNING
            ∧ type b = NORMAL_THREAD
            ∧ (st = EXITED → ∀ q, owner_ptcb b = Some q →
                 is_Some (thread_exited s !! q)))
      ∧ (st = STOPPED ∨ st = EXITED)
      ∧ (timeout ≠ NO_TIMEOUT →
         wrap_timer (curtime + timeout) ≠ NO_TIMEOUT)
  | OpYield core cause curtime =>
      ∃ b, current_block core s = Some b ∧ phase b = CTX_DIRTY
  | OpGain core =>
      ∃ c b, cctx s !! core = Some c
             ∧ tcbs s !! current_thread c = Some b
             ∧ (phase b = CTX_CLEAN
                ∨ (state b = READY ∧ prev b = Some (current_thread c)))
  | OpBoost => True
  end.

(** [disciplined s os s']: the operations [os], each called properly,
    lead from [s] to [s']. *)
Inductive disciplined : sched → list op → sched → Prop :=
| disciplined_nil s : disciplined s [] s
| disciplined_cons s o s1 os s2 :
    proper o s → exec o s = Done tt s1 → disciplined s1 os s2 →
    disciplined s (o :: os) s2.

(** A priority that is an index of [SCHED]. *)
Definition in_range (p : Z) : Prop :=
  LOWEST_PRIORITY ≤ p ≤ TOP_PRIORITY.

(** The ready queues: there are [PRIORITY_LISTS] of them, no thread is
    in them twice, and a thread in [SCHED[i]] is allocated, [READY], not
    an idle thread, has a clean context and has the priority [i]. *)
Definition queues_sound (s : sched) : Prop :=
  length (SCHED s) = PRIORITY_LISTS
  ∧ NoDup (concat (SCHED s))
  ∧ ∀ i q t, SCHED s !! i = Some q → t ∈ q →
      ∃ b, tcbs s !! t = Some b ∧ state b = READY
           ∧ phase b = CTX_CLEAN ∧ priority b = Z.of_nat i
           ∧ type b = NORMAL_THREAD.

(** The timeout list: it is in the order of the wake-up times, it holds
    stopped threads with a deadline, and no thread is in it twice. *)
Definition timeouts_sound (s : sched) : Prop :=
  timeouts_ok s ∧ NoDup (TIMEOUT_LIST s).

(** The thread blocks: the priority and the saved priority are indices
    of [SCHED], a thread with a deadline is in the timeout list, the
    process block of the thread exists, a thread that has exited has no
    handle or one that exists, and an idle thread is [READY] or
    [RUNNING]. *)
Definition blocks_sound (s : sched) : Prop :=
  ∀ t b, tcbs s !! t = Some b →
    in_range (priority b) ∧ in_range (prev_queue b)
    ∧ (wakeup_time b ≠ NO_TIMEOUT → t ∈ TIMEOUT_LIST s)
    ∧ is_Some (thread_count s !! owner_pcb b)
    ∧ (state b = EXITED →
       ∀ q, owner_ptcb b = Some q → is_Some (thread_exited s !! q))
    ∧ (type b = IDLE_THREAD → state b = READY ∨ state b = RUNNING).

(** The threads a core holds: its current thread and, from the switch
    of a [yield] to the [gain] of the next thread, the thread that has
    yielded, which the current thread has as its [prev]. *)
Definition held (s : sched) (core : nat) (t : tid) : Prop :=
  ∃ c, cctx s !! core = Some c
       ∧ (t = current_thread c
          ∨ ∃ b, tcbs s !! current_thread c = Some b
                 ∧ phase b = CTX_CLEAN ∧ prev b = Some t).

(** The cores.  The current thread of a core is allocated and has been
    started.  When its context is clean it has just been selected: it is
    [READY], and the thread that has yielded to it is allocated, has its
    context in use, and is [READY], [STOPPED] or [EXITED].  A thread that
    a core holds is in no ready queue, and no two cores hold the same
    thread. *)
Definition cores_sound (s : sched) : Prop :=
  (∀ core c, cctx s !! core = Some c →
     ∃ b, tcbs s !! current_thread c = Some b ∧ state b ≠ INIT
          ∧ (phase b = CTX_CLEAN →
             state b = READY
             ∧ ∃ p pb, prev b = Some p ∧ tcbs s !! p = Some pb
                       ∧ phase pb = CTX_DIRTY
                       ∧ (state pb = READY ∨ state pb = STOPPED
                          ∨ state pb = EXITED)))
  ∧ (∀ core t, held s core t → t ∉ concat (SCHED s))
  ∧ (∀ core1 core2 t, held s core1 t → held s core2 t → core1 = core2).

(** The idle threads.  The idle thread of a core is allocated and is an
    idle thread, no other core holds it, and while no core holds it, it
    is [READY] with a clean context: its core can switch to it.  No two
    cores have the same idle thread. *)
Definition idle_sound (s : sched) : Prop :=
  (∀ core c, cctx s !! core = Some c →
     ∃ b, tcbs s !! idle_thread c = Some b ∧ type b = IDLE_THREAD
          ∧ (∀ core', held s core' (idle_thread c) → core' = core)
          ∧ ((∀ core', ¬ held s core' (idle_thread c)) →
             state b = READY ∧ phase b = CTX_CLEAN))
  ∧ (∀ core1 core2 c1 c2,
       cctx s !! core1 = Some c1 → cctx s !! core2 = Some c2 →
       idle_thread c1 = idle_thread c2 → core1 = core2).

Definition sound (s : sched) : Prop :=
  queues_sound s ∧ timeouts_sound s ∧ blocks_sound s ∧ cores_sound s
  ∧ idle_sound s.

(** [b'] is the block [b] after changes that leave the type, the phase
    and the [prev] link as they are, and the state as it is unless they
    take it from [STOPPED] to [READY] or from [RUNNING] to another state
    of a thread that has started. *)
Definition steady (b b' : TCB) : Prop :=
  phase b' = phase b ∧ prev b' = prev b ∧ type b' = type b
  ∧ (state b' = state b
     ∨ (state b = STOPPED ∧ state b' = READY)
     ∨ (state b = RUNNING ∧ state b' ≠ INIT)).

(** [b'] is the block [b], as it is or made ready by
    [sched_make_ready]. *)
Definition woken (b b' : TCB) : Prop :=
  b' = b
  ∨ ((state b = STOPPED ∨ state b = INIT)
     ∧ b' = with_state READY (with_wakeup_time NO_TIMEOUT b)).

(** The state when [initialize_scheduler] has run, every core has
    entered [run_scheduler] and no thread has been spawned yet: the
    thread blocks are the idle threads of the cores, as [run_scheduler]
    sets them up, and each is the current thread of its core.  A thread
    that is spawned and woken up before a core has entered
    [run_scheduler] is, in a run, spawned and woken up from this state:
    these calls and the set-up of an idle thread write different blocks
    and lists. *)
Definition cold_start (s : sched) : Prop :=
  initial s
  ∧ (∀ t b, tcbs s !! t = Some b →
       type b = IDLE_THREAD ∧ state b = RUNNING ∧ phase b = CTX_DIRTY
       ∧ wakeup_time b = NO_TIMEOUT
       ∧ priority b = TOP_PRIORITY ∧ prev_queue b = TOP_PRIORITY
       ∧ mutex_flag b = 0 ∧ owner_ptcb b = None
       ∧ is_Some (thread_count s !! owner_pcb b))
  ∧ (∀ core c, cctx s !! core = Some c →
       current_thread c = idle_thread c
       ∧ is_Some (tcbs s !! idle_thread c))
  ∧ (∀ core1 core2 c1 c2,
       cctx s !! core1 = Some c1 → cctx s !! core2 = Some c2 →
       idle_thread c1 = idle_thread c2 → core1 = core2).

End discipline.

Section discipline_steps.
Context `{Tunables}.

(** The state after [sched_make_ready] of the thread at [t], whose block
    is [b]: the thread is [READY] and has no deadline, it is out of the
    timeout list, and with a clean context it is at the back of the ready
    queue of its priority. *)
Definition made_ready (t : tid) (b : TCB) (s : sched) : sched :=
  set_tcbs <[t := with_state READY (with_wakeup_time NO_TIMEOUT b)]>
    (set_TIMEOUT_LIST (unlink t)
       (set_SCHED
          (λ qs, if bool_decide (phase b = CTX_CLEAN)
                 then <[Z.to_nat (priority b) :=
                          default [] (qs !! Z.to_nat (priority b)) ++ [t]]> qs
                 else qs)
          s)).

(** [s'] is the state [s] after some threads have been made ready: the
    core blocks, the process blocks and the counters are the same, the
    same threads are allocated, and their blocks are as they were or
    made ready. *)
Definition wakes (s s' : sched) : Prop :=
  cctx s' = cctx s
  ∧ thread_count s' = thread_count s
  ∧ thread_exited s' = thread_exited s
  ∧ active_threads s' = active_threads s
  ∧ counter_congestion s' = counter_congestion s
  ∧ fail_safe s' = fail_safe s
  ∧ boost_calls s' = boost_calls s
  ∧ length (SCHED s') = length (SCHED s)
  ∧ (∀ x, option_Forall2 woken (tcbs s !! x) (tcbs s' !! x)).

End discipline_steps.

Section conducting.
Context `{Tunables}.

(** [proper], as a test. *)
Definition properb (o : op) (s : sched) : bool :=
  match o with
  | OpSpawn pcb raw => bool_decide (is_Some (thread_count s !! pcb))
  | OpAttach tcb handle =>
      match tcbs s !! tcb with
      | Some b =>
          bool_decide (state b ≠ EXITED)
          || match handle with
             | Some q => bool_decide (is_Some (thread_exited s !! q))
             | None => true
             end
      | None => false
      end
  | OpWakeup tcb => bool_decide (is_Some (tcbs s !! tcb))
  | OpSleep core st timeout curtime =>
      match current_block core s with
      | Some b =>
          bool_decide (state b = RUNNING)
          && bool_decide (type b = NORMAL_THREAD)
          && (bool_decide (st ≠ EXITED)
              || match owner_ptcb b with
                 | Some q => bool_decide (is_Some (thread_exited s !! q))
                 | None => true
                 end)
      | None => false
      end
      && bool_decide (st = STOPPED ∨ st = EXITED)
      && (bool_decide (timeout = NO_TIMEOUT)
          || bool_decide (wrap_timer (curtime + timeout) ≠ NO_TIMEOUT))
  | OpYield core cause curtime =>
      match current_block core s with
      | Some b => bool_decide (phase b = CTX_DIRTY)
      | None => false
      end
  | OpGain core =>
      match cctx s !! core with
      | Some c =>
          match tcbs s !! current_thread c with
          | Some b =>
              bool_decide (phase b = CTX_CLEAN)
              || (bool_decide (state b = READY)
                  && bool_decide (prev b = Some (current_thread c)))
          | None => false
          end
      | None => false
      end
  | OpBoost => true
  end.

(** The state the operations [os] lead to from [s], when each is called
    properly and none faults. *)
Fixpoint conduct (os : list op) (s : sched) : option sched :=
  match os with
  | [] => Some s
  | o :: os' =>
      if properb o s then
        match exec o s with
        | Done _ s' => conduct os' s'
        | Crash _ _ => None
        end
      else None
  end.

End conducting.

(** ** Sample runs *)

(** One core, in its idle thread, the process blocks 0 and 1 and the
    handle 7, before [initialize_scheduler]. *)
Definition cold_kernel : sched :=
  mkSched
    (list_to_map
       [(0%nat, mkTCB 0 None IDLE_THREAD RUNNING CTX_DIRTY never 2 0 2
                      None None)])
    [] [] 0 0 0 [mkCCB 0 0]
    (list_to_map [(0%nat, 1); (1%nat, 2)])
    (list_to_map [(7%nat, 0)]) 0.

Definition ready_kernel : sched :=
  Eval vm_compute in
    final (initialize_scheduler (H := three_levels) cold_kernel).

(** What the allocator may hand out: the block of a thread that has been
    freed, with a handle and links that are stale. *)
Definition stale : TCB :=
  mkTCB 9 (Some 3%nat) IDLE_THREAD EXITED CTX_DIRTY 5 7 1 4
        (Some 8%nat) (Some 9%nat).

(** Two threads of the process 1 are spawned, get their handles and are
    woken up.  The idle thread yields to the first thread, which uses up
    its quantum and yields to the second, and the second goes to sleep at
    the time 2 for 5 ticks. *)
Definition doze : list op :=
  [OpSpawn 1 stale; OpAttach 1 None; OpSpawn 1 stale;
   OpAttach 2 (Some 7%nat); OpWakeup 1; OpWakeup 2;
   OpYield 0 SCHED_IDLE 0; OpGain 0;
   OpYield 0 SCHED_QUANTUM 1; OpGain 0;
   OpSleep 0 STOPPED 5 2].

Definition dozing : sched :=
  Eval vm_compute in
    default ready_kernel (conduct (H := three_levels) doze ready_kernel).

(** The sleeper then yields at the time 3: the top queue is empty, so
    the core goes to its idle thread, with the first thread left in the
    middle queue. *)
Definition doze_on : list op :=
  doze ++ [OpYield 0 SCHED_USER 3; OpGain 0].

Definition idling : sched :=
  Eval vm_compute in
    default ready_kernel (conduct (H := three_levels) doze_on ready_kernel).

(** The idle thread of the one core yields [n] times, with nothing to
    select, and goes on each time. *)
Definition spin (n : nat) : list op :=
  concat (replicate n [OpYield 0 SCHED_IDLE 0; OpGain 0]).

Definition spun (n : nat) : sched :=
  default ready_kernel (conduct (H := three_levels) (spin n) ready_kernel).

(** [busy] with a seventh thread, which runs and is in no list. *)
Definition busy_with_runner : sched :=
  set_tcbs <[7%nat := fresh_block]> busy.

(** The top queue and the middle queue are empty, the thread 1 is ready
    at the lowest level, and the congestion counter is at 2. *)
Definition starved : sched :=
  mkSched
    (list_to_map
       [(0%nat, mkTCB 0 None IDLE_THREAD RUNNING CTX_DIRTY never 2 0 2
                      None None);
        (1%nat, thread_block 1 None READY CTX_CLEAN never 0)])
    [[1%nat]; []; []] [] 2 0 1 [mkCCB 0 0]
    (list_to_map [(0%nat, 1); (1%nat, 1)]) ∅ 0.

(** The top queue is empty, the threads 2 and 3 are ready at the middle
    level and the thread 1 at the lowest, and the threads 5 and 6 sleep
    until 10 and until 20. *)
Definition lower_ready : sched :=
  mkSched
    (list_to_map
       [(1%nat, thread_block 1 None READY CTX_CLEAN never 0);
        (2%nat, thread_block 1 None READY CTX_CLEAN never 1);
        (3%nat, thread_block 1 None READY CTX_CLEAN never 1);
        (5%nat, thread_block 1 None STOPPED CTX_CLEAN 10 1);
        (6%nat, thread_block 1 None STOPPED CTX_CLEAN 20 1)])
    [[1%nat]; [2%nat; 3%nat]; []] [5%nat; 6%nat]
    0 0 5 [] ∅ ∅ 0.

(** * Proofs *)

(** ** Running the monad *)

Lemma bind_Done {A B} (m : M A) (k : A → M B) s a s1 :
  m s = Done a s1 → (m ≫= k) s = k a s1.
Proof. intros E. unfold mbind, M_bind. by rewrite E. Qed.

Lemma bind_Crash {A B} (m : M A) (k : A → M B) s f s1 :
  m s = Crash f s1 → (m ≫= k) s = Crash f s1.
Proof. intros E. unfold mbind, M_bind. by rewrite E. Qed.

Lemma bind_inv_Done {A B} (m : M A) (k : A → M B) s b s' :
  (m ≫= k) s = Done b s' → ∃ a s1, m s = Done a s1 ∧ k a s1 = Done b s'.
Proof.
  unfold mbind, M_bind. destruct (m s) as [a s1|f s1]; [eauto|discriminate].
Qed.

Lemma ret_Done {A} (a : A) s : (mret a : M A) s = Done a s.
Proof. reflexivity. Qed.

Lemma get_tcb_Done t b s : tcbs s !! t = Some b → get_tcb t s = Done b s.
Proof. intros E. unfold get_tcb. by rewrite E. Qed.

Lemma upd_tcb_Done t f b s :
  tcbs s !! t = Some b → upd_tcb t f s = Done tt (set_tcbs <[t := f b]> s).
Proof. intros E. unfold upd_tcb. by rewrite E. Qed.

Lemma ready_queue_Done i q s :
  SCHED s !! i = Some q → ready_queue i s = Done q s.
Proof. intros E. unfold ready_queue. by rewrite E. Qed.

Lemma is_rlist_empty_Done i q s :
  SCHED s !! i = Some q → is_rlist_empty i s = Done (bool_decide (q = [])) s.
Proof.
  intros E. unfold is_rlist_empty. by rewrite (bind_Done _ _ _ _ _ (ready_queue_Done _ _ _ E)).
Qed.

Lemma rlist_pop_front_nil i s :
  SCHED s !! i = Some [] → rlist_pop_front i s = Done None s.
Proof.
  intros E. unfold rlist_pop_front.
  by rewrite (bind_Done _ _ _ _ _ (ready_queue_Done _ _ _ E)).
Qed.

Lemma rlist_pop_front_cons i t q s :
  SCHED s !! i = Some (t :: q) →
  rlist_pop_front i s = Done (Some t) (set_SCHED <[i := q]> s).
Proof.
  intros E. unfold rlist_pop_front.
  by rewrite (bind_Done _ _ _ _ _ (ready_queue_Done _ _ _ E)).
Qed.

Lemma rlist_push_back_Done i t q s :
  SCHED s !! i = Some q →
  rlist_push_back i t s = Done tt (set_SCHED <[i := q ++ [t]]> s).
Proof.
  intros E. unfold rlist_push_back.
  by rewrite (bind_Done _ _ _ _ _ (ready_queue_Done _ _ _ E)).
Qed.

(** Writing a state back field by field. *)
Lemma sched_eq s1 s2 :
  tcbs s1 = tcbs s2 → SCHED s1 = SCHED s2 →
  TIMEOUT_LIST s1 = TIMEOUT_LIST s2 →
  counter_congestion s1 = counter_congestion s2 →
  fail_safe s1 = fail_safe s2 → active_threads s1 = active_threads s2 →
  cctx s1 = cctx s2 → thread_count s1 = thread_count s2 →
  thread_exited s1 = thread_exited s2 → boost_calls s1 = boost_calls s2 →
  s1 = s2.
Proof. destruct s1, s2; simpl; intros; by subst. Qed.

(** ** Lists of lists *)

Lemma lookup_middle {A} (lo hi : list A) x :
  (lo ++ x :: hi) !! length lo = Some x.
Proof. by rewrite list_lookup_middle. Qed.

Lemma insert_middle {A} (lo hi : list A) x y :
  <[length lo := y]> (lo ++ x :: hi) = lo ++ y :: hi.
Proof. by rewrite insert_app_r_alt, Nat.sub_diag by lia. Qed.

Lemma lookup_middle_S {A} (lo hi : list A) x y :
  (lo ++ x :: y :: hi) !! (length lo + 1)%nat = Some y.
Proof.
  rewrite (cons_middle x), (assoc_L (++)).
  replace (length lo + 1)%nat with (length (lo ++ [x]))
    by (rewrite length_app; simpl; lia).
  apply lookup_middle.
Qed.

Lemma insert_middle_S {A} (lo hi : list A) x y z :
  <[(length lo + 1)%nat := z]> (lo ++ x :: y :: hi) = lo ++ x :: z :: hi.
Proof.
  rewrite (cons_middle x), (assoc_L (++)).
  replace (length lo + 1)%nat with (length (lo ++ [x]))
    by (rewrite length_app; simpl; lia).
  rewrite insert_middle. by rewrite <- (assoc_L (++)).
Qed.

(** ** Raising priorities *)

Lemma raise_all_app q1 q2 h :
  raise_all (q1 ++ q2) h = raise_all q2 (raise_all q1 h).
Proof. unfold raise_all. by rewrite foldl_app. Qed.

Lemma raise_all_is_Some q h t :
  is_Some (raise_all q h !! t) ↔ is_Some (h !! t).
Proof.
  revert h. induction q as [|x q IH]; intros h; [done|].
  simpl. rewrite IH. rewrite lookup_alter. case_decide; subst.
  - by rewrite fmap_is_Some.
  - done.
Qed.

Lemma raise_all_notin q h t : t ∉ q → raise_all q h !! t = h !! t.
Proof.
  revert h. induction q as [|x q IH]; intros h Hn; [done|].
  apply not_elem_of_cons in Hn as [Hne Hn]. simpl.
  rewrite IH by done. by rewrite lookup_alter_ne.
Qed.

Lemma raise_all_in q h t :
  NoDup q → t ∈ q → raise_all q h !! t = raise_priority <$> h !! t.
Proof.
  revert h. induction q as [|x q IH]; intros h Hnd Hin.
  - by apply elem_of_nil in Hin.
  - apply NoDup_cons in Hnd as [Hx Hnd]. simpl.
    apply elem_of_cons in Hin as [->|Hin].
    + rewrite raise_all_notin by done. by rewrite lookup_alter_eq.
    + rewrite IH by done. rewrite lookup_alter_ne; [done|].
      intros ->. done.
Qed.

(** ** Boost *)

Section boost_proofs.
Context `{Tunables}.

Lemma boost_drain_unfold fuel i :
  boost_drain fuel i =
  (e ← is_rlist_empty i;
   if e : bool then mret tt
   else
     match fuel with
     | O => crash OutOfFuel
     | S fuel' =>
         sel ← rlist_pop_front i;
         match sel with
         | None => crash NullDeref
         | Some t =>
             upd_tcb t (λ b, with_priority (wrap_int (priority b + 1)) b);;
             rlist_push_back (i + 1) t;;
             boost_drain fuel' i
         end
     end).
Proof. by destruct fuel. Qed.

(** Draining [SCHED[i]] appends its threads, in order, to the list above
    and raises the priority of each. *)
Lemma boost_drain_spec q : ∀ fuel lo x hi s,
  SCHED s = lo ++ q :: x :: hi →
  (length q ≤ fuel)%nat →
  Forall (λ t, is_Some (tcbs s !! t)) q →
  boost_drain fuel (length lo) s =
  Done tt (set_tcbs (raise_all q)
            (set_SCHED (λ _, lo ++ [] :: (x ++ q) :: hi) s)).
Proof.
  induction q as [|t q IH]; intros fuel lo x hi s Hs Hfuel Hall.
  - rewrite boost_drain_unfold.
    erewrite bind_Done;
      [|apply is_rlist_empty_Done; rewrite Hs; apply lookup_middle].
    simpl. f_equal. apply sched_eq; simpl; try done.
    by rewrite app_nil_r.
  - rewrite boost_drain_unfold.
    erewrite bind_Done;
      [|apply is_rlist_empty_Done; rewrite Hs; apply lookup_middle].
    rewrite bool_decide_eq_false_2 by done.
    destruct fuel as [|fuel]; [simpl in Hfuel; lia|].
    erewrite bind_Done;
      [|apply rlist_pop_front_cons; rewrite Hs; apply lookup_middle].
    apply Forall_cons in Hall as [[b Hb] Hall].
    erewrite bind_Done; [|by apply upd_tcb_Done].
    erewrite bind_Done.
    2:{ apply rlist_push_back_Done with (q := x). simpl.
        rewrite Hs, insert_middle. apply lookup_middle_S. }
    rewrite (IH fuel lo (x ++ [t]) hi).
    + f_equal. apply sched_eq; simpl; try done.
      * f_equal. unfold raise_priority.
        apply map_eq. intros j. rewrite lookup_alter, lookup_insert.
        case_decide; subst; [by rewrite Hb|done].
      * by rewrite <- (assoc_L (++) x [t] q).
    + simpl. by rewrite Hs, insert_middle, insert_middle_S.
    + simpl in Hfuel. lia.
    + simpl. eapply Forall_impl; [exact Hall|]. simpl. intros y Hy.
      rewrite lookup_insert. case_decide; [by eexists|done].
Qed.

(** The [for] loop of [boost] from the level below [x] down to the lowest:
    every list moves up by one level, the highest of them to the tail of
    [x], and the lowest list is left empty. *)
Lemma boost_levels_spec lo : ∀ a x hi s,
  SCHED s = (lo ++ [a]) ++ x :: hi →
  Forall (λ t, is_Some (tcbs s !! t)) (concat (lo ++ [a])) →
  boost_levels (length (lo ++ [a])) s =
  Done tt (set_tcbs (raise_all (a ++ concat (reverse lo)))
            (set_SCHED (λ _, [] :: lo ++ (x ++ a) :: hi) s)).
Proof.
  induction lo as [|a' lo IH] using rev_ind; intros a x hi s Hs Hall.
  - simpl in *. rewrite app_nil_r in Hall.
    erewrite bind_Done; [|by apply ready_queue_Done; rewrite Hs].
    erewrite bind_Done;
      [|apply (boost_drain_spec a _ [] x hi); [by rewrite Hs|lia|done]].
    simpl. f_equal. apply sched_eq; simpl; try done.
    by rewrite app_nil_r.
  - rewrite (length_app (lo ++ [a'])). simpl length.
    rewrite Nat.add_1_r. simpl boost_levels.
    rewrite concat_app in Hall. apply Forall_app in Hall as [Hlo Ha].
    simpl in Ha. rewrite app_nil_r in Ha.
    rewrite <- (assoc_L (++) (lo ++ [a'])) in Hs. simpl in Hs.
    erewrite bind_Done;
      [|by apply ready_queue_Done; rewrite Hs; apply lookup_middle].
    erewrite bind_Done;
      [|apply (boost_drain_spec a _ (lo ++ [a']) x hi); [done|lia|done]].
    rewrite (IH a' [] ((x ++ a) :: hi)).
    + f_equal. apply sched_eq; simpl; try done.
      * rewrite reverse_app. simpl. by rewrite (raise_all_app a).
      * by rewrite <- (assoc_L (++) lo [a']).
    + done.
    + simpl. eapply Forall_impl; [exact Hlo|]. simpl. intros y Hy.
      by apply raise_all_is_Some.
Qed.

(** [boost] on a scheduler with at least two levels. *)
Lemma boost_levels_Done lo below top s :
  SCHED s = lo ++ [below; top] →
  length (SCHED s) = PRIORITY_LISTS →
  queued_allocated s →
  boost s =
  Done tt (set_tcbs (raise_all (below ++ concat (reverse lo)))
            (set_SCHED (λ _, [] :: lo ++ [top ++ below])
               (set_counter_congestion (λ _, 0) (set_boost_calls S s)))).
Proof.
  intros Hs Hlen Hall. unfold boost.
  do 2 (erewrite bind_Done; [|reflexivity]).
  replace (Z.to_nat (TOP_PRIORITY - 1 - LOWEST_PRIORITY + 1))
    with (length (lo ++ [below])).
  2:{ unfold TOP_PRIORITY, LOWEST_PRIORITY. rewrite <- Hlen, Hs.
      rewrite !length_app. simpl. lia. }
  rewrite (boost_levels_spec lo below top []).
  - done.
  - simpl. by rewrite Hs, <- (assoc_L (++) lo [below]).
  - simpl. unfold queued_allocated in Hall. rewrite Hs in Hall.
    rewrite (cons_middle below), (assoc_L (++)), concat_app in Hall.
    by apply Forall_app in Hall as [Hall _].
Qed.

(** [boost] on a scheduler with a single level moves nothing. *)
Lemma boost_single_Done s :
  (PRIORITY_LISTS ≤ 1)%nat →
  boost s =
  Done tt (set_counter_congestion (λ _, 0) (set_boost_calls S s)).
Proof.
  intros Hle. unfold boost.
  do 2 (erewrite bind_Done; [|reflexivity]).
  replace (Z.to_nat (TOP_PRIORITY - 1 - LOWEST_PRIORITY + 1)) with 0%nat
    by (unfold TOP_PRIORITY, LOWEST_PRIORITY; lia).
  done.
Qed.

Lemma two_levels {A} (l : list A) :
  (2 ≤ length l)%nat → ∃ lo below top, l = lo ++ [below; top].
Proof.
  intros Hl. destruct l as [|top l _] using rev_ind; [simpl in Hl; lia|].
  destruct l as [|below l _] using rev_ind.
  - simpl in Hl. lia.
  - exists l, below, top. by rewrite <- (assoc_L (++)).
Qed.
End boost_proofs.

Lemma wrap_int_id z : INT_MIN ≤ z ≤ INT_MAX → wrap_int z = z.
Proof.
  unfold INT_MIN, INT_MAX, wrap_int. intros Hz.
  rewrite Z.mod_small; lia.
Qed.

Lemma elem_of_concat {A} (x : A) (ls : list (list A)) :
  x ∈ concat ls ↔ ∃ l, l ∈ ls ∧ x ∈ l.
Proof.
  rewrite list_elem_of_In, in_concat. split.
  - intros (l & Hl & Hx). exists l. by rewrite !list_elem_of_In.
  - intros (l & Hl & Hx). exists l. by rewrite <- !list_elem_of_In.
Qed.

Lemma concat_reverse_perm {A} (ls : list (list A)) :
  concat (reverse ls) ≡ₚ concat ls.
Proof.
  induction ls as [|l ls IH]; [done|].
  rewrite reverse_cons, concat_app. simpl. rewrite app_nil_r, IH.
  apply Permutation_app_comm.
Qed.

Section boost_claims.
Context `{Tunables}.

(** C4. On a scheduler with more than one level, [boost] resets
    [counter_congestion] to 0, keeps the multiset of the threads in the
    ready queues, leaves the lowest list empty, leaves the priorities of
    the members of the top list as they were, and raises the priority of
    every thread of a lower list by exactly one and moves it to the list
    one level up. *)
Theorem boost_conserves_and_raises (s : sched) :
  length (SCHED s) = PRIORITY_LISTS →
  (2 ≤ PRIORITY_LISTS)%nat →
  queued_allocated s →
  NoDup (concat (SCHED s)) →
  (∀ t b, t ∈ concat (SCHED s) → tcbs s !! t = Some b →
          INT_MIN ≤ priority b < INT_MAX) →
  ∃ s', boost s = Done tt s'
    ∧ counter_congestion s' = 0
    ∧ concat (SCHED s') ≡ₚ concat (SCHED s)
    ∧ SCHED s' !! Z.to_nat LOWEST_PRIORITY = Some []
    ∧ (∀ q t, SCHED s !! Z.to_nat TOP_PRIORITY = Some q → t ∈ q →
              tcbs s' !! t = tcbs s !! t)
    ∧ (∀ i q t b, (i < Z.to_nat TOP_PRIORITY)%nat →
         SCHED s !! i = Some q → t ∈ q → tcbs s !! t = Some b →
         tcbs s' !! t = Some (with_priority (priority b + 1) b)
         ∧ ∃ q', SCHED s' !! (i + 1)%nat = Some q' ∧ t ∈ q').
Proof.
  intros Hlen H2 Hall Hnd Hprio.
  destruct (two_levels (SCHED s)) as (lo & below & top & Hs); [lia|].
  assert (Htop : Z.to_nat TOP_PRIORITY = (length lo + 1)%nat).
  { unfold TOP_PRIORITY. rewrite <- Hlen, Hs, length_app. simpl. lia. }
  assert (Hc : concat (SCHED s) = concat lo ++ below ++ top).
  { rewrite Hs, concat_app. simpl. by rewrite app_nil_r. }
  rewrite Hc in Hnd.
  apply NoDup_app in Hnd as (Hndlo & Hlo & Hnd).
  apply NoDup_app in Hnd as (Hndb & Hb & Hndt).
  assert (Hmoved : NoDup (below ++ concat (reverse lo))).
  { apply NoDup_app. split_and!; [done| |by rewrite concat_reverse_perm].
    intros x Hx. rewrite concat_reverse_perm. intros Hx'.
    apply (Hlo x Hx'). apply elem_of_app. by left. }
  eexists. split; [by apply (boost_levels_Done lo below top)|].
  simpl. split_and!.
  - done.
  - rewrite Hc, concat_app. simpl. rewrite app_nil_r.
    f_equiv. apply Permutation_app_comm.
  - done.
  - intros q t Hq Ht. rewrite Htop, Hs, lookup_middle_S in Hq.
    injection Hq as <-. apply raise_all_notin.
    rewrite elem_of_app, concat_reverse_perm. intros [Hx|Hx].
    + by apply (Hb t Hx).
    + apply (Hlo t Hx). apply elem_of_app. by right.
  - intros i q t b Hi Hq Ht Hbt. rewrite Htop in Hi.
    assert (Hin : t ∈ below ++ concat (reverse lo)
                  ∧ ([] :: lo ++ [top ++ below]) !! (i + 1)%nat
                    = Some (if decide (i = length lo) then top ++ below else q)).
    { rewrite Nat.add_1_r. simpl. rewrite Hs in Hq.
      destruct (decide (i = length lo)) as [->|Hne].
      - rewrite lookup_middle in Hq. injection Hq as <-.
        split; [apply elem_of_app; by left|].
        apply lookup_middle.
      - rewrite lookup_app_l in Hq by lia.
        split.
        + apply elem_of_app. right. rewrite concat_reverse_perm.
          apply elem_of_concat. exists q. split; [|done].
          by eapply list_elem_of_lookup_2.
        + by rewrite lookup_app_l by lia. }
    destruct Hin as [Hin Hlk]. split.
    + rewrite raise_all_in, Hbt by done. simpl. unfold raise_priority.
      rewrite wrap_int_id; [done|].
      assert (INT_MIN ≤ priority b < INT_MAX); [|unfold INT_MIN, INT_MAX in *; lia].
      apply (Hprio t); [|done]. rewrite Hc, (assoc_L (++)).
      apply elem_of_app. left. rewrite elem_of_app in Hin.
      rewrite concat_reverse_perm in Hin. rewrite elem_of_app. tauto.
    + eexists. split; [exact Hlk|].
      case_decide; [|done]. subst i. rewrite Hs, lookup_middle in Hq.
      injection Hq as <-. apply elem_of_app. by right.
Qed.

(** C10. [boost] keeps the FIFO order of the threads it moves and moves
    none of them by more than one level: a list below the second highest
    becomes the list one level up as it is, and the second highest list is
    appended, in its order, to the top list. *)
Theorem boost_keeps_fifo_order (s : sched) :
  length (SCHED s) = PRIORITY_LISTS →
  queued_allocated s →
  ∃ s', boost s = Done tt s'
    ∧ (∀ p q, Z.of_nat p + 1 < TOP_PRIORITY → SCHED s !! p = Some q →
              SCHED s' !! (p + 1)%nat = Some q)
    ∧ (∀ p below top, Z.of_nat p + 1 = TOP_PRIORITY →
         SCHED s !! p = Some below → SCHED s !! (p + 1)%nat = Some top →
         SCHED s' !! (p + 1)%nat = Some (top ++ below)).
Proof.
  intros Hlen Hall.
  destruct (decide (2 ≤ PRIORITY_LISTS)%nat) as [H2|H1].
  - destruct (two_levels (SCHED s)) as (lo & below & top & Hs); [lia|].
    assert (Htop : TOP_PRIORITY = Z.of_nat (length lo) + 1).
    { unfold TOP_PRIORITY. rewrite <- Hlen, Hs, length_app. simpl. lia. }
    eexists. split; [by apply (boost_levels_Done lo below top)|].
    simpl. split.
    + intros p q Hp Hq. rewrite Nat.add_1_r. simpl.
      rewrite Hs in Hq. rewrite lookup_app_l in Hq by lia.
      by rewrite lookup_app_l by lia.
    + intros p b t Hp Hb Ht. assert (p = length lo) as -> by lia.
      rewrite Hs in Hb, Ht. rewrite lookup_middle in Hb.
      rewrite lookup_middle_S in Ht. injection Hb as <-. injection Ht as <-.
      rewrite Nat.add_1_r. simpl. apply lookup_middle.
  - eexists. split; [apply boost_single_Done; lia|].
    unfold TOP_PRIORITY. split; intros; lia.
Qed.
End boost_claims.

(** ** The scans of [sched_queue_select] *)

Section select_proofs.
Context `{Tunables}.

(** The first scan stops in its first round, at the top list: it pops
    the first thread of that list, or gets the head of the list when the
    list is empty. *)
Lemma scan_ready_cons i t q sel s :
  SCHED s !! i = Some (t :: q) →
  scan_ready (S i) sel s
  = Done (Z.of_nat i, Some (Some t)) (set_SCHED <[i := q]> s).
Proof.
  intros Hi. simpl scan_ready.
  erewrite bind_Done; [|by apply rlist_pop_front_cons].
  done.
Qed.

Lemma scan_ready_nil i sel s :
  SCHED s !! i = Some [] →
  scan_ready (S i) sel s = Done (Z.of_nat i, Some None) s.
Proof.
  intros Hi. simpl scan_ready.
  erewrite bind_Done; [|by apply rlist_pop_front_nil].
  done.
Qed.

(** The second scan: up by one when a list below is not empty, down by one
    when all of them are empty. *)
Lemma scan_lower_spec k : ∀ s,
  (0 < k ≤ length (SCHED s))%nat →
  scan_lower k s =
  let d := if bool_decide (Exists (λ q, q ≠ []) (take k (SCHED s)))
           then 1 else -1 in
  Done tt (set_counter_congestion (λ c, wrap_int (c + d)) s).
Proof.
  induction k as [|i IH]; intros s Hk; [lia|].
  simpl scan_lower.
  destruct (lookup_lt_is_Some_2 (SCHED s) i) as [q Hq]; [lia|].
  erewrite bind_Done; [|by apply is_rlist_empty_Done].
  rewrite (take_S_r _ _ _ Hq). cbv zeta.
  case_bool_decide as Hempty; simpl negb; cbv iota.
  - subst q. case_bool_decide as Hi.
    + assert (i = 0%nat) as -> by (unfold LOWEST_PRIORITY in Hi; lia).
      simpl take. rewrite (bool_decide_eq_false_2 (Exists _ _)).
      * unfold modify. f_equal.
      * intros [?|?%Exists_nil]%Exists_cons; done.
    + rewrite IH by (unfold LOWEST_PRIORITY in Hi; lia). cbv zeta.
      assert (Exists (λ q, q ≠ []) (take i (SCHED s) ++ [[]])
              ↔ Exists (λ q, q ≠ []) (take i (SCHED s))) as Hiff.
      { rewrite Exists_app. split; [|by left].
        intros [?|[?|?%Exists_nil]%Exists_cons]; done. }
      by rewrite (bool_decide_ext _ _ Hiff).
  - rewrite (bool_decide_eq_true_2 (Exists _ _)).
    + unfold modify. f_equal.
    + apply Exists_app. right. by apply Exists_cons_hd.
Qed.

(** The congestion update after a scan that stopped at [i]: the counter
    moves by [congestion_step] and is clamped at 0. *)
Lemma update_congestion_spec i s :
  (i < length (SCHED s))%nat →
  update_congestion (Z.of_nat i) s =
  Done tt (set_counter_congestion
             (λ c, Z.max 0 (wrap_int (c + congestion_step i (SCHED s)))) s).
Proof.
  intros Hi. unfold update_congestion, congestion_step.
  destruct i as [|i].
  - rewrite bool_decide_eq_true_2 by (unfold LOWEST_PRIORITY; lia).
    erewrite bind_Done; [|reflexivity].
    erewrite bind_Done; [|reflexivity].
    simpl. case_bool_decide; unfold modify, mret, M_ret; f_equal;
      apply sched_eq; simpl; try done;
      replace (counter_congestion s + -1) with (counter_congestion s - 1)
        by lia; lia.
  - rewrite bool_decide_eq_false_2 by (unfold LOWEST_PRIORITY; lia).
    replace (Z.to_nat (Z.of_nat (S i) - 1 - LOWEST_PRIORITY + 1))
      with (S i) by (unfold LOWEST_PRIORITY; lia).
    erewrite bind_Done.
    2:{ apply scan_lower_spec. lia. }
    cbv zeta.
    erewrite bind_Done; [|reflexivity].
    simpl. case_bool_decide; unfold modify, mret, M_ret; f_equal;
      apply sched_eq; simpl; try done; lia.
Qed.

(** What [boost] leaves as it is. *)
Lemma boost_summary s :
  length (SCHED s) = PRIORITY_LISTS →
  queued_allocated s →
  ∃ s', boost s = Done tt s'
    ∧ counter_congestion s' = 0
    ∧ boost_calls s' = S (boost_calls s)
    ∧ concat (SCHED s') ≡ₚ concat (SCHED s)
    ∧ length (SCHED s') = length (SCHED s)
    ∧ fail_safe s' = fail_safe s
    ∧ TIMEOUT_LIST s' = TIMEOUT_LIST s
    ∧ (∀ t, is_Some (tcbs s' !! t) ↔ is_Some (tcbs s !! t)).
Proof.
  intros Hlen Hall.
  destruct (decide (2 ≤ PRIORITY_LISTS)%nat) as [H2|H1].
  - destruct (two_levels (SCHED s)) as (lo & below & top & Hs); [lia|].
    eexists. split; [by apply (boost_levels_Done lo below top)|].
    simpl. split_and!; try done.
    + rewrite Hs, !concat_app. simpl. rewrite !app_nil_r.
      f_equiv. apply Permutation_app_comm.
    + rewrite Hs, !length_app. simpl. lia.
    + intros t. apply raise_all_is_Some.
  - eexists. split; [apply boost_single_Done; lia|]. done.
Qed.

Lemma queued_allocated_pop s i q :
  queued_allocated s →
  SCHED s !! i = Some q →
  queued_allocated (set_SCHED <[i := tail q]> s).
Proof.
  unfold queued_allocated. rewrite !Forall_forall. simpl.
  intros Hall Hq t Ht. apply Hall.
  apply elem_of_concat in Ht as (l & Hl & Ht).
  apply list_elem_of_lookup in Hl as [j Hj].
  apply elem_of_concat.
  destruct (decide (j = i)) as [->|Hne].
  - rewrite list_lookup_insert_eq in Hj by (by eapply lookup_lt_Some).
    injection Hj as <-. exists q. split; [by eapply list_elem_of_lookup_2|].
    destruct q; [done|]. simpl in Ht. by apply elem_of_cons; right.
  - rewrite list_lookup_insert_ne in Hj by done.
    exists l. split; [by eapply list_elem_of_lookup_2|done].
Qed.

Lemma insert_tail_nil (qs : list (list tid)) i :
  qs !! i = Some [] → <[i := tail (default [] (qs !! i))]> qs = qs.
Proof. intros Hi. rewrite Hi. simpl. by apply list_insert_id. Qed.

Lemma congestion_step_insert (qs : list (list tid)) i q :
  congestion_step i (<[i := q]> qs) = congestion_step i qs.
Proof. unfold congestion_step. by rewrite take_insert_ge. Qed.

(** [sched_queue_select] up to [fail_safe++], from the state [s1] its
    first loop ends in: [sel] is the first node of the top list or the
    head of that list. *)
Lemma select_scan_spec curtime s s1 :
  drain_timeouts (length (TIMEOUT_LIST s) + 2) curtime s = Done tt s1 →
  length (SCHED s1) = PRIORITY_LISTS →
  (0 < PRIORITY_LISTS)%nat →
  select_scan curtime s
  = Done (Some (head (default [] (SCHED s1 !! (PRIORITY_LISTS - 1)%nat))))
         (scanned s1).
Proof.
  intros Hdrain Hlen Hpos. unfold select_scan, scanned.
  erewrite bind_Done; [|reflexivity].
  erewrite bind_Done; [|exact Hdrain].
  replace (Z.to_nat (TOP_PRIORITY - LOWEST_PRIORITY + 1))
    with (S (PRIORITY_LISTS - 1))
    by (unfold TOP_PRIORITY, LOWEST_PRIORITY; lia).
  set (top := (PRIORITY_LISTS - 1)%nat).
  destruct (lookup_lt_is_Some_2 (SCHED s1) top) as [q Hq]; [lia|].
  rewrite Hq. simpl default.
  destruct q as [|t q].
  - erewrite bind_Done; [|by apply scan_ready_nil].
    cbv beta iota.
    erewrite bind_Done; [|apply update_congestion_spec; lia].
    erewrite bind_Done; [|reflexivity].
    unfold mret, M_ret. f_equal. apply sched_eq; simpl; try done.
    symmetry. by apply list_insert_id.
  - erewrite bind_Done; [|by apply scan_ready_cons].
    cbv beta iota.
    erewrite bind_Done.
    2:{ apply update_congestion_spec. simpl. rewrite length_insert. lia. }
    erewrite bind_Done; [|reflexivity].
    unfold mret, M_ret. f_equal. apply sched_eq; simpl; try done.
    by rewrite congestion_step_insert.
Qed.

(** The selection from the state [s1] its first loop ends in: the result
    is the first thread of the top list, or null when that list is
    empty, whatever the lists below it hold. *)
Lemma select_drained curtime s s1 :
  drain_timeouts (length (TIMEOUT_LIST s) + 2) curtime s = Done tt s1 →
  length (SCHED s1) = PRIORITY_LISTS →
  (0 < PRIORITY_LISTS)%nat →
  queued_allocated s1 →
  let sm := scanned s1 in
  let need := bool_decide (counter_congestion sm >= MAX_CONGESTION)
              || bool_decide (fail_safe sm = 500) in
  ∃ s',
    sched_queue_select curtime s
    = Done (head (default [] (SCHED s1 !! (PRIORITY_LISTS - 1)%nat))) s'
    ∧ (if need then boost sm = Done tt s' else s' = sm)
    ∧ counter_congestion s' = (if need then 0 else counter_congestion sm)
    ∧ fail_safe s' = fail_safe sm
    ∧ boost_calls s' = (if need then S (boost_calls s1) else boost_calls s1)
    ∧ concat (SCHED s') ≡ₚ concat (SCHED sm)
    ∧ length (SCHED s') = PRIORITY_LISTS
    ∧ TIMEOUT_LIST s' = TIMEOUT_LIST s1
    ∧ (∀ t, is_Some (tcbs s' !! t) ↔ is_Some (tcbs s1 !! t)).
Proof.
  intros Hdrain Hlen Hpos Hall sm need.
  unfold sched_queue_select.
  erewrite bind_Done; [|by apply select_scan_spec].
  fold sm.
  erewrite bind_Done; [|reflexivity].
  assert (boost_needed sm = need) as -> by done.
  assert (Hlen' : length (SCHED sm) = PRIORITY_LISTS).
  { simpl. by rewrite length_insert. }
  destruct need.
  - destruct (boost_summary sm)
      as (s4 & Hb & Hcc & Hcalls & Hperm & Hl & Hfs & HTL & Hdom).
    { done. }
    { destruct (lookup_lt_is_Some_2 (SCHED s1) (PRIORITY_LISTS - 1))
        as [q Hq]; [lia|].
      pose proof (queued_allocated_pop s1 _ q Hall Hq) as Hpop.
      unfold queued_allocated in *. subst sm. unfold scanned. simpl.
      rewrite Hq. exact Hpop. }
    erewrite bind_Done; [|exact Hb].
    exists s4. split_and!; try done. by rewrite Hl.
  - erewrite bind_Done; [|reflexivity].
    exists sm. by split_and!.
Qed.

End select_proofs.

(** ** Rules for assertions *)

Lemma hoare_ret {A} (P : sched → Prop) (a : A) (Q : A → sched → Prop) :
  (∀ s, P s → Q a s) → hoare P (mret a) Q.
Proof. intros HQ s HP a' s' [= <- <-]. by apply HQ. Qed.

Lemma hoare_bind {A B} (P : sched → Prop) (m : M A) (k : A → M B)
    (R : A → sched → Prop) (Q : B → sched → Prop) :
  hoare P m R → (∀ a, hoare (R a) (k a) Q) → hoare P (m ≫= k) Q.
Proof.
  intros Hm Hk s HP b s' Hrun.
  apply bind_inv_Done in Hrun as (a & s1 & Hm1 & Hk1).
  eapply Hk; [|exact Hk1]. by eapply Hm.
Qed.

Lemma hoare_conseq {A} (P P' : sched → Prop) (m : M A)
    (Q Q' : A → sched → Prop) :
  hoare P' m Q' → (∀ s, P s → P' s) → (∀ a s, Q' a s → Q a s) →
  hoare P m Q.
Proof. intros Hm HP HQ s Hs a s' Hrun. eapply HQ, Hm; eauto. Qed.

Lemma hoare_crash {A} (P : sched → Prop) f (Q : A → sched → Prop) :
  hoare P (crash f) Q.
Proof. by intros s _ a s' ?. Qed.

Lemma hoare_get (P : sched → Prop) (Q : sched → sched → Prop) :
  (∀ s, P s → Q s s) → hoare P get Q.
Proof. intros HQ s HP a s' Hrun. unfold get in Hrun. simplify_eq. by apply HQ. Qed.

Lemma hoare_modify (P : sched → Prop) f (Q : unit → sched → Prop) :
  (∀ s, P s → Q tt (f s)) → hoare P (modify f) Q.
Proof.
  intros HQ s HP a s' Hrun. unfold modify in Hrun. simplify_eq.
  by apply HQ.
Qed.

Lemma hoare_assert (P : sched → Prop) b (Q : unit → sched → Prop) :
  (∀ s, P s → b = true → Q tt s) → hoare P (assert b) Q.
Proof.
  intros HQ s HP a s' Hrun. destruct b; [|done].
  unfold assert, mret, M_ret in Hrun. simplify_eq. by apply HQ.
Qed.

(** A state-reading step that ends in the state it started in. *)
Lemma hoare_read {A} (P : sched → Prop) (m : M A) (Q : A → sched → Prop) :
  (∀ s a s', m s = Done a s' → s' = s) →
  (∀ s a, P s → m s = Done a s → Q a s) →
  hoare P m Q.
Proof.
  intros Hsame HQ s HP a s' Hrun.
  assert (s' = s) as -> by by eapply Hsame. by apply HQ.
Qed.

Lemma get_tcb_inv t s b s' :
  get_tcb t s = Done b s' → s' = s ∧ tcbs s !! t = Some b.
Proof.
  unfold get_tcb. destruct (tcbs s !! t); [|done]. by intros [= <- <-].
Qed.

Lemma upd_tcb_inv t f s a s' :
  upd_tcb t f s = Done a s' →
  ∃ b, tcbs s !! t = Some b ∧ s' = set_tcbs <[t := f b]> s.
Proof.
  unfold upd_tcb. destruct (tcbs s !! t) as [b|]; [|done].
  intros [= <-]. by exists b.
Qed.

Lemma ready_queue_inv i s q s' :
  ready_queue i s = Done q s' → s' = s ∧ SCHED s !! i = Some q.
Proof.
  unfold ready_queue. destruct (SCHED s !! i); [|done]. by intros [= <- <-].
Qed.

Lemma CURCORE_inv core s c s' :
  CURCORE core s = Done c s' → s' = s ∧ cctx s !! core = Some c.
Proof.
  unfold CURCORE. destruct (cctx s !! core); [|done]. by intros [= <- <-].
Qed.

Lemma queue_index_inv p s i s' :
  queue_index p s = Done i s' →
  s' = s ∧ i = Z.to_nat p ∧ 0 ≤ p < Z.of_nat (length (SCHED s)).
Proof.
  unfold queue_index. case_bool_decide; [|done]. by intros [= <- <-].
Qed.

Lemma hoare_get_tcb (P : sched → Prop) t (Q : TCB → sched → Prop) :
  (∀ s b, P s → tcbs s !! t = Some b → Q b s) → hoare P (get_tcb t) Q.
Proof.
  intros HQ s HP b s' Hrun. apply get_tcb_inv in Hrun as [-> Hb]. eauto.
Qed.

Lemma hoare_upd_tcb (P : sched → Prop) t f (Q : unit → sched → Prop) :
  (∀ s b, P s → tcbs s !! t = Some b → Q tt (set_tcbs <[t := f b]> s)) →
  hoare P (upd_tcb t f) Q.
Proof.
  intros HQ s HP a s' Hrun. apply upd_tcb_inv in Hrun as (b & Hb & ->).
  destruct a. eauto.
Qed.

Lemma hoare_ready_queue (P : sched → Prop) i (Q : list tid → sched → Prop) :
  (∀ s q, P s → SCHED s !! i = Some q → Q q s) → hoare P (ready_queue i) Q.
Proof.
  intros HQ s HP b s' Hrun. apply ready_queue_inv in Hrun as [-> Hb]. eauto.
Qed.

Lemma hoare_CURCORE (P : sched → Prop) core (Q : CCB → sched → Prop) :
  (∀ s c, P s → cctx s !! core = Some c → Q c s) → hoare P (CURCORE core) Q.
Proof.
  intros HQ s HP b s' Hrun. apply CURCORE_inv in Hrun as [-> Hb]. eauto.
Qed.

Lemma hoare_queue_index (P : sched → Prop) p (Q : nat → sched → Prop) :
  (∀ s, P s → 0 ≤ p < Z.of_nat (length (SCHED s)) → Q (Z.to_nat p) s) →
  hoare P (queue_index p) Q.
Proof.
  intros HQ s HP b s' Hrun.
  apply queue_index_inv in Hrun as (-> & -> & Hp). eauto.
Qed.

(** ** What the operations keep of the counters *)

Lemma keeps_bind {A B} (P : sched → Prop) (m : M A) (k : A → M B) :
  keeps P m → (∀ a, keeps P (k a)) → keeps P (m ≫= k).
Proof. intros Hm Hk. by eapply hoare_bind. Qed.

Lemma keeps_ret {A} (P : sched → Prop) (a : A) : keeps P (mret a).
Proof. by apply hoare_ret. Qed.

Lemma keeps_crash {A} (P : sched → Prop) f : keeps P (crash f : M A).
Proof. apply hoare_crash. Qed.

Lemma keeps_read {A} (P : sched → Prop) (m : M A) :
  (∀ s a s', m s = Done a s' → s' = s) → keeps P m.
Proof. intros Hm s HP a s' Hrun. by rewrite (Hm _ _ _ Hrun). Qed.

Lemma keeps_get (P : sched → Prop) : keeps P get.
Proof. by apply hoare_get. Qed.

Lemma keeps_assert (P : sched → Prop) b : keeps P (assert b).
Proof. by apply hoare_assert. Qed.

Lemma keeps_modify (P : sched → Prop) f :
  (∀ s, P s → P (f s)) → keeps P (modify f).
Proof. intros HP. by apply (hoare_modify P f (λ _, P)). Qed.

Lemma keeps_get_tcb (P : sched → Prop) t : keeps P (get_tcb t).
Proof. by apply hoare_get_tcb. Qed.

Lemma keeps_ready_queue (P : sched → Prop) i : keeps P (ready_queue i).
Proof. by apply hoare_ready_queue. Qed.

Lemma keeps_CURCORE (P : sched → Prop) core : keeps P (CURCORE core).
Proof. by apply hoare_CURCORE. Qed.

Lemma keeps_queue_index (P : sched → Prop) p : keeps P (queue_index p).
Proof. by apply hoare_queue_index. Qed.

Lemma keeps_upd_tcb (P : sched → Prop) t f :
  (∀ g s, P s → P (set_tcbs g s)) → keeps P (upd_tcb t f).
Proof. intros HP. apply hoare_upd_tcb. intros. by apply HP. Qed.

(** One step of a proof that a computation keeps a property. *)
Ltac keeps_step :=
  lazymatch goal with
  | |- keeps _ (mbind _ _) => apply keeps_bind; [|intros ?]
  | |- keeps _ (mret _) => apply keeps_ret
  | |- keeps _ (crash _) => apply keeps_crash
  | |- keeps _ get => apply keeps_get
  | |- keeps _ (assert _) => apply keeps_assert
  | |- keeps _ (get_tcb _) => apply keeps_get_tcb
  | |- keeps _ (ready_queue _) => apply keeps_ready_queue
  | |- keeps _ (CURCORE _) => apply keeps_CURCORE
  | |- keeps _ (queue_index _) => apply keeps_queue_index
  | |- keeps _ (if ?b then _ else _) => destruct b
  | |- keeps _ (match ?x with _ => _ end) => destruct x
  end.

Section counters.
Context `{Tunables}.
Variable P : sched → Prop.
Hypothesis HP : counters_only P.

Ltac co_step :=
  lazymatch goal with
  | |- keeps _ (upd_tcb _ _) => apply keeps_upd_tcb, (co_tcbs P HP)
  | |- keeps _ (modify (set_tcbs _)) =>
      apply keeps_modify, (co_tcbs P HP)
  | |- keeps _ (modify (set_SCHED _)) =>
      apply keeps_modify, (co_SCHED P HP)
  | |- keeps _ (modify (set_TIMEOUT_LIST _)) =>
      apply keeps_modify, (co_TIMEOUT_LIST P HP)
  | |- keeps _ (modify (set_active_threads _)) =>
      apply keeps_modify, (co_active_threads P HP)
  | |- keeps _ (modify (set_cctx _)) =>
      apply keeps_modify, (co_cctx P HP)
  | _ => keeps_step
  end.

Create HintDb keeps discriminated.

Ltac keeps_auto :=
  repeat first [solve [auto 1 with keeps nocore] | co_step].

Lemma keeps_is_rlist_empty i : keeps P (is_rlist_empty i).
Proof. unfold is_rlist_empty. keeps_auto. Qed.

Lemma keeps_rlist_pop_front i : keeps P (rlist_pop_front i).
Proof. unfold rlist_pop_front. keeps_auto. Qed.

Lemma keeps_rlist_push_back i t : keeps P (rlist_push_back i t).
Proof. unfold rlist_push_back. keeps_auto. Qed.

Lemma keeps_rlist_remove t : keeps P (rlist_remove t).
Proof.
  unfold rlist_remove. apply keeps_modify. intros s Hs.
  by apply (co_TIMEOUT_LIST P HP), (co_SCHED P HP).
Qed.

Lemma keeps_CURTHREAD core : keeps P (CURTHREAD core).
Proof. unfold CURTHREAD. keeps_auto. Qed.

Lemma keeps_set_CURTHREAD core t : keeps P (set_CURTHREAD core t).
Proof. unfold set_CURTHREAD. keeps_auto. Qed.

#[local] Hint Resolve keeps_is_rlist_empty keeps_rlist_pop_front
  keeps_rlist_push_back keeps_rlist_remove keeps_CURTHREAD
  keeps_set_CURTHREAD : keeps.

Lemma keeps_CURPROC core : keeps P (CURPROC core).
Proof. unfold CURPROC. keeps_auto. Qed.

Lemma keeps_sched_queue_add t : keeps P (sched_queue_add t).
Proof. unfold sched_queue_add. keeps_auto. Qed.

#[local] Hint Resolve keeps_CURPROC keeps_sched_queue_add : keeps.

Lemma keeps_sched_make_ready t : keeps P (sched_make_ready t).
Proof. unfold sched_make_ready. keeps_auto. Qed.

#[local] Hint Resolve keeps_sched_make_ready : keeps.

Lemma keeps_drain_timeouts fuel curtime :
  keeps P (drain_timeouts fuel curtime).
Proof. induction fuel as [|fuel IH]; simpl; keeps_auto. Qed.

Lemma keeps_scan_ready k : ∀ sel, keeps P (scan_ready k sel).
Proof. induction k as [|i IH]; intros sel; simpl; keeps_auto. Qed.

Lemma keeps_sched_register_timeout curtime t timeout :
  keeps P (sched_register_timeout curtime t timeout).
Proof. unfold sched_register_timeout. keeps_auto. Qed.

#[local] Hint Resolve keeps_drain_timeouts keeps_scan_ready
  keeps_sched_register_timeout : keeps.

Lemma keeps_wakeup t : keeps P (wakeup t).
Proof. unfold wakeup. keeps_auto. Qed.

Lemma keeps_spawn_thread pcb raw : keeps P (spawn_thread pcb raw).
Proof.
  intros s Hs a s' Hrun. unfold spawn_thread in Hrun. simplify_eq.
  by apply (co_active_threads P HP), (co_tcbs P HP).
Qed.

Lemma keeps_release_TCB t : keeps P (release_TCB t).
Proof. unfold release_TCB. keeps_auto. Qed.

#[local] Hint Resolve keeps_release_TCB : keeps.

Lemma keeps_sleep_releasing_locked core st timeout curtime :
  keeps P (sleep_releasing_locked core st timeout curtime).
Proof. unfold sleep_releasing_locked. keeps_auto. Qed.

Lemma keeps_set_thread_exited p :
  keeps P (λ s, match thread_exited s !! p with
                | Some _ => Done tt (set_thread_exited <[p := 1]> s)
                | None => Crash BadPointer s
                end).
Proof.
  intros s Hs [] s' Hrun. destruct (thread_exited s !! p); [|done].
  simplify_eq. by apply (co_thread_exited P HP).
Qed.

Lemma keeps_dec_thread_count proc :
  keeps P (λ s, match thread_count s !! proc with
                | Some n =>
                    Done tt (set_thread_count <[proc := wrap_int (n - 1)]> s)
                | None => Crash BadPointer s
                end).
Proof.
  intros s Hs [] s' Hrun. destruct (thread_count s !! proc); [|done].
  simplify_eq. by apply (co_thread_count P HP).
Qed.

#[local] Hint Resolve keeps_set_thread_exited keeps_dec_thread_count : keeps.

Lemma keeps_gain core : keeps P (gain core).
Proof. unfold gain. keeps_auto. Qed.
End counters.

(** ** What selection and boost keep *)

Section counters_boost.
Context `{Tunables}.
Variable P : sched → Prop.
Hypothesis HP : counters_only P.
Hypothesis HP_cc : ∀ g s, P s → P (set_counter_congestion g s).
Hypothesis HP_calls : ∀ s, P s → P (set_boost_calls S s).

Lemma keeps_boost_drain fuel i : keeps P (boost_drain fuel i).
Proof.
  induction fuel as [|fuel IH]; simpl.
  - apply keeps_bind; [by apply keeps_is_rlist_empty|].
    intros []; [apply keeps_ret|apply keeps_crash].
  - apply keeps_bind; [by apply keeps_is_rlist_empty|].
    intros []; [apply keeps_ret|].
    apply keeps_bind; [by apply keeps_rlist_pop_front|].
    intros [t|]; [|apply keeps_crash].
    apply keeps_bind; [apply keeps_upd_tcb, (co_tcbs P HP)|intros ?; cbv beta].
    apply keeps_bind; [by apply keeps_rlist_push_back|intros ?; cbv beta].
    apply IH.
Qed.

Lemma keeps_boost_levels k : keeps P (boost_levels k).
Proof.
  induction k as [|i IH]; simpl; [apply keeps_ret|].
  apply keeps_bind; [apply keeps_ready_queue|intros q].
  apply keeps_bind; [apply keeps_boost_drain|intros ?; cbv beta]. apply IH.
Qed.

Lemma keeps_boost : keeps P boost.
Proof.
  unfold boost.
  apply keeps_bind; [by apply keeps_modify|intros ?; cbv beta].
  apply keeps_bind; [apply keeps_modify; intros; by apply HP_cc|intros ?; cbv beta].
  apply keeps_boost_levels.
Qed.

Lemma keeps_scan_lower k : keeps P (scan_lower k).
Proof.
  induction k as [|i IH]; simpl; [apply keeps_ret|].
  apply keeps_bind; [by apply keeps_is_rlist_empty|].
  intros []; simpl.
  - case_bool_decide; [|apply IH].
    apply keeps_modify; intros; by apply HP_cc.
  - apply keeps_modify; intros; by apply HP_cc.
Qed.

Lemma keeps_update_congestion i : keeps P (update_congestion i).
Proof.
  unfold update_congestion. apply keeps_bind.
  - case_bool_decide; [|apply keeps_scan_lower].
    apply keeps_modify; intros; by apply HP_cc.
  - intros _. apply keeps_bind; [apply keeps_get|intros s].
    case_bool_decide; [|apply keeps_ret].
    apply keeps_modify; intros; by apply HP_cc.
Qed.

Hypothesis HP_fs : ∀ g s, P s → P (set_fail_safe g s).

Lemma keeps_select_scan curtime : keeps P (select_scan curtime).
Proof.
  unfold select_scan.
  apply keeps_bind; [apply keeps_get|intros s0].
  apply keeps_bind; [by apply keeps_drain_timeouts|intros ?].
  apply keeps_bind; [by apply keeps_scan_ready|intros [i sel]].
  apply keeps_bind; [by apply keeps_update_congestion|intros ?].
  apply keeps_bind; [apply keeps_modify; intros; by apply HP_fs|intros ?].
  apply keeps_ret.
Qed.

Lemma keeps_sched_queue_select curtime :
  keeps P (sched_queue_select curtime).
Proof.
  unfold sched_queue_select.
  apply keeps_bind; [apply keeps_select_scan|intros sel].
  apply keeps_bind; [apply keeps_get|intros s].
  apply keeps_bind.
  { destruct (boost_needed s); [apply keeps_boost|apply keeps_ret]. }
  intros ?. destruct sel; [apply keeps_ret|apply keeps_crash].
Qed.

(** [yield] around the selection: the priority and the state of the
    current thread before it, the links and [CURTHREAD] after it. *)
Lemma yield_switch_around {Q : unit → sched → Prop} core cause curtime :
  hoare P (sched_queue_select curtime) (λ _, Q tt) →
  counters_only (Q tt) →
  hoare P (yield_switch core cause curtime) Q.
Proof.
  intros Hsel HQ. unfold yield_switch.
  eapply hoare_bind; [by apply keeps_CURTHREAD|intros current; cbv beta].
  eapply hoare_bind;
    [apply keeps_upd_tcb, (co_tcbs P HP)|intros ?; cbv beta].
  eapply hoare_bind; [apply keeps_get_tcb|intros b; cbv beta].
  eapply hoare_bind.
  { instantiate (1 := λ _, P). destruct (state b).
    - apply keeps_crash.
    - apply keeps_ret.
    - apply keeps_bind; [apply keeps_upd_tcb, (co_tcbs P HP)|intros ?].
      apply keeps_ret.
    - apply keeps_ret.
    - apply keeps_ret. }
  intros ready; cbv beta.
  eapply hoare_bind; [exact Hsel|intros next; cbv beta].
  eapply hoare_bind.
  { instantiate (1 := λ _, Q tt). destruct next as [n|].
    - apply keeps_ret.
    - destruct ready; [apply keeps_ret|].
      apply keeps_bind; [apply keeps_CURCORE|intros ?; apply keeps_ret]. }
  intros n; cbv beta.
  eapply hoare_bind;
    [apply keeps_upd_tcb, (co_tcbs _ HQ)|intros []; cbv beta].
  eapply hoare_bind;
    [apply keeps_upd_tcb, (co_tcbs _ HQ)|intros []; cbv beta].
  case_bool_decide.
  - eapply hoare_conseq; [by apply (keeps_set_CURTHREAD _ HQ)|done|].
    by intros [].
  - apply hoare_ret. done.
Qed.
End counters_boost.

Section fail_safe_proofs.
Context `{Tunables}.

Lemma counters_only_fail_safe n : counters_only (λ s, fail_safe s = n).
Proof. by split. Qed.

Lemma counters_only_counter_congestion n :
  counters_only (λ s, counter_congestion s = n).
Proof. by split. Qed.

Lemma counters_only_boost_calls n :
  counters_only (λ s, (n ≤ boost_calls s)%nat).
Proof. by split. Qed.

Lemma counters_only_boost_calls_eq n :
  counters_only (λ s, boost_calls s = n).
Proof. by split. Qed.

Lemma counters_only_and (P Q : sched → Prop) :
  counters_only P → counters_only Q → counters_only (λ s, P s ∧ Q s).
Proof.
  intros [] []. split; intros g s [? ?]; split; auto.
Qed.

(** [sched_queue_select] adds one to [fail_safe] before its test and
    leaves the count of the boosts as it is up to there. *)
Lemma select_scan_ticks curtime n c :
  hoare (λ s, fail_safe s = n ∧ boost_calls s = c) (select_scan curtime)
        (λ _ s, fail_safe s = wrap_int (n + 1) ∧ boost_calls s = c).
Proof.
  unfold select_scan.
  assert (Hco : counters_only (λ s, fail_safe s = n ∧ boost_calls s = c)).
  { apply counters_only_and;
      [apply counters_only_fail_safe|apply counters_only_boost_calls_eq]. }
  eapply hoare_bind; [apply keeps_get|intros s0].
  eapply hoare_bind; [by apply keeps_drain_timeouts|intros ?; cbv beta].
  eapply hoare_bind; [by apply keeps_scan_ready|intros [i sel]].
  eapply hoare_bind; [by apply keeps_update_congestion|intros ?; cbv beta].
  eapply hoare_bind.
  { apply hoare_modify
      with (Q := λ _ s, fail_safe s = wrap_int (n + 1) ∧ boost_calls s = c).
    simpl. by intros s [-> ->]. }
  intros ?; cbv beta. by apply hoare_ret.
Qed.

Lemma boost_counted n c :
  hoare (λ s, fail_safe s = n ∧ boost_calls s = c) boost
        (λ _ s, fail_safe s = n ∧ boost_calls s = S c
                ∧ counter_congestion s = 0).
Proof.
  unfold boost.
  eapply hoare_bind.
  { apply hoare_modify
      with (Q := λ _ s, fail_safe s = n ∧ boost_calls s = S c).
    simpl. by intros s [-> ->]. }
  intros ?; cbv beta.
  eapply hoare_bind.
  { apply hoare_modify
      with (Q := λ _ s, fail_safe s = n ∧ boost_calls s = S c
                        ∧ counter_congestion s = 0).
    simpl. by intros s [-> ->]. }
  intros ?; cbv beta.
  apply keeps_boost_levels.
  apply counters_only_and; [apply counters_only_fail_safe|].
  apply counters_only_and;
    [apply counters_only_boost_calls_eq|apply counters_only_counter_congestion].
Qed.

(** A selection, from the state [sm] it is in at its test: it enters
    [boost] exactly when the congestion counter has reached
    [MAX_CONGESTION] or [fail_safe] is 500. *)
Lemma select_boost_test curtime sy r s' :
  sched_queue_select curtime sy = Done r s' →
  ∃ sel sm,
    select_scan curtime sy = Done sel sm
    ∧ fail_safe sm = wrap_int (fail_safe sy + 1)
    ∧ boost_calls sm = boost_calls sy
    ∧ fail_safe s' = fail_safe sm
    ∧ (if bool_decide (counter_congestion sm >= MAX_CONGESTION
                       ∨ fail_safe sm = 500)
       then boost_calls s' = S (boost_calls sy)
            ∧ counter_congestion s' = 0
       else s' = sm).
Proof.
  unfold sched_queue_select. intros Hrun.
  apply bind_inv_Done in Hrun as (sel & sm & Hscan & Hrun).
  apply bind_inv_Done in Hrun as (sm' & sm'' & Hget & Hrun).
  unfold get in Hget. injection Hget as <- <-.
  apply bind_inv_Done in Hrun as ([] & s1 & Htest & Hret).
  destruct (select_scan_ticks curtime (fail_safe sy) (boost_calls sy) sy
              (conj eq_refl eq_refl) sel sm Hscan) as [Hfs Hcalls].
  assert (s1 = s') as ->.
  { destruct sel; [|done]. unfold mret, M_ret in Hret. by simplify_eq. }
  exists sel, sm. split; [done|]. split; [done|]. split; [done|].
  unfold boost_needed in Htest.
  destruct (bool_decide_reflect (counter_congestion sm >= MAX_CONGESTION))
    as [Hc|Hc];
    destruct (bool_decide_reflect (fail_safe sm = 500)) as [Hf|Hf];
    simpl in Htest.
  - rewrite bool_decide_eq_true_2 by by left.
    destruct (boost_counted _ _ sm (conj eq_refl eq_refl) tt s' Htest)
      as (? & ? & ?). split; [congruence|]. split; congruence.
  - rewrite bool_decide_eq_true_2 by by left.
    destruct (boost_counted _ _ sm (conj eq_refl eq_refl) tt s' Htest)
      as (? & ? & ?). split; [congruence|]. split; congruence.
  - rewrite bool_decide_eq_true_2 by by right.
    destruct (boost_counted _ _ sm (conj eq_refl eq_refl) tt s' Htest)
      as (? & ? & ?). split; [congruence|]. split; congruence.
  - rewrite bool_decide_eq_false_2 by (intros [?|?]; done).
    unfold mret, M_ret in Htest. by simplify_eq.
Qed.

(** A call of [sched_queue_select] that returns has added one to
    [fail_safe]. *)
Lemma select_ticks curtime n :
  hoare (λ s, fail_safe s = n) (sched_queue_select curtime)
        (λ _ s, fail_safe s = wrap_int (n + 1)).
Proof.
  intros s Hn r s' Hrun.
  destruct (select_boost_test curtime s r s' Hrun)
    as (sel & sm & _ & Hfs & _ & Hfs' & _). congruence.
Qed.

(** ** Runs *)

(** [fail_safe] moves in the selections only, by one in each. *)
Lemma exec_fail_safe o n :
  hoare (λ s, fail_safe s = n) (exec o)
        (λ _ s, fail_safe s = if is_yield o then wrap_int (n + 1) else n).
Proof.
  pose proof (counters_only_fail_safe n) as Hn.
  destruct o; simpl.
  - apply keeps_bind; [by apply keeps_spawn_thread|intros; apply keeps_ret].
  - apply keeps_upd_tcb, (co_tcbs _ Hn).
  - apply keeps_bind; [by apply keeps_wakeup|intros; apply keeps_ret].
  - by apply keeps_sleep_releasing_locked.
  - apply (yield_switch_around (λ s, fail_safe s = n) Hn);
      [apply select_ticks|apply counters_only_fail_safe].
  - by apply keeps_gain.
  - by apply keeps_boost.
Qed.

(** No operation takes a call of [boost] back. *)
Lemma exec_boost_calls o k :
  keeps (λ s, (k ≤ boost_calls s)%nat) (exec o).
Proof.
  pose proof (counters_only_boost_calls k) as Hk.
  assert (Hcalls : ∀ s, (k ≤ boost_calls s)%nat →
                        (k ≤ boost_calls (set_boost_calls S s))%nat).
  { intros s. simpl. lia. }
  destruct o; simpl.
  - apply keeps_bind; [by apply keeps_spawn_thread|intros; apply keeps_ret].
  - apply keeps_upd_tcb, (co_tcbs _ Hk).
  - apply keeps_bind; [by apply keeps_wakeup|intros; apply keeps_ret].
  - by apply keeps_sleep_releasing_locked.
  - apply (yield_switch_around _ Hk); [|done].
    by apply keeps_sched_queue_select.
  - by apply keeps_gain.
  - by apply keeps_boost.
Qed.

(** The selection that takes [fail_safe] to 500 calls [boost]. *)
Lemma exec_yield_500 core cause curtime c :
  hoare (λ s, fail_safe s = 499 ∧ boost_calls s = c)
        (exec (OpYield core cause curtime))
        (λ _ s, boost_calls s = S c).
Proof.
  simpl. apply yield_switch_around.
  - apply counters_only_and;
      [apply counters_only_fail_safe|apply counters_only_boost_calls_eq].
  - intros s [Hfs Hc] r s' Hrun.
    destruct (select_boost_test curtime s r s' Hrun)
      as (sel & sm & _ & Hfsm & Hcm & _ & Htest).
    rewrite Hfs in Hfsm. change (wrap_int (499 + 1)) with 500 in Hfsm.
    rewrite bool_decide_eq_true_2 in Htest by by right.
    destruct Htest as [-> _]. by rewrite Hc.
  - apply counters_only_boost_calls_eq.
Qed.

Lemma disciplined_boost_calls s os s' :
  disciplined s os s' → (boost_calls s ≤ boost_calls s')%nat.
Proof.
  induction 1 as [s|s o s1 os s2 _ Hexec _ IH]; [done|].
  pose proof (exec_boost_calls o (boost_calls s) s (le_n _) tt s1 Hexec).
  simpl in *. lia.
Qed.

Lemma selections_cons o os :
  selections (o :: os) =
  ((if is_yield o then 1 else 0) + selections os)%nat.
Proof.
  unfold selections. rewrite filter_cons.
  by destruct (is_yield o); simpl.
Qed.

(** In a run, [fail_safe] counts the selections, and the selection that
    takes it to 500 calls [boost]. *)
Lemma disciplined_fail_safe s os s' :
  disciplined s os s' →
  0 ≤ fail_safe s →
  fail_safe s + Z.of_nat (selections os) ≤ INT_MAX →
  fail_safe s' = fail_safe s + Z.of_nat (selections os)
  ∧ (fail_safe s < 500 ≤ fail_safe s + Z.of_nat (selections os) →
     (boost_calls s < boost_calls s')%nat).
Proof.
  induction 1 as [s|s o s1 os s2 _ Hexec Hsteps IH]; intros H0 Hmax.
  - unfold selections. simpl. split; lia.
  - rewrite selections_cons in Hmax |- *.
    pose proof (exec_fail_safe o (fail_safe s) s eq_refl tt s1 Hexec) as Hfs.
    simpl in Hfs.
    assert (Hfs1 : fail_safe s1
                   = fail_safe s + Z.of_nat (if is_yield o then 1 else 0)).
    { rewrite Hfs. destruct (is_yield o); [|lia].
      rewrite wrap_int_id; unfold INT_MIN, INT_MAX in *; lia. }
    destruct IH as (IH1 & IH3); [lia|lia|].
    rewrite IH1, Hfs1. split.
    + lia.
    + intros Hhit.
      pose proof (disciplined_boost_calls _ _ _ Hsteps) as Hmono.
      destruct (decide (fail_safe s1 < 500)) as [Hlt|Hge].
      * pose proof (exec_boost_calls o (boost_calls s) s (le_n _) tt s1 Hexec)
          as Hle. simpl in Hle.
        assert ((boost_calls s1 < boost_calls s2)%nat); [apply IH3; lia|lia].
      * destruct o; simpl in Hfs1; try lia.
        assert (fail_safe s = 499) as Hs499 by lia.
        pose proof (exec_yield_500 core cause curtime (boost_calls s) s
                      (conj Hs499 eq_refl) tt s1 Hexec) as Hc.
        simpl in Hc. lia.
Qed.

Lemma initial_counters s :
  initial s → fail_safe s = 0 ∧ boost_calls s = 0%nat
              ∧ counter_congestion s = 0
              ∧ TIMEOUT_LIST s = []
              ∧ SCHED s = replicate PRIORITY_LISTS [].
Proof.
  intros [s0 s1 (Hcc & Hfs & _ & Hcalls) Hinit].
  unfold initialize_scheduler in Hinit. cbv in Hinit. by simplify_eq.
Qed.
End fail_safe_proofs.

(** ** Selection *)

Section select_claims.
Context `{Tunables}.

Lemma drain_timeouts_unfold fuel curtime :
  drain_timeouts fuel curtime =
  (s ← get;
   match TIMEOUT_LIST s with
   | [] => mret tt
   | tcb :: _ =>
       b ← get_tcb tcb;
       if bool_decide (wakeup_time b > curtime) then mret tt
       else
         match fuel with
         | O => crash OutOfFuel
         | S fuel' => sched_make_ready tcb;; drain_timeouts fuel' curtime
         end
   end).
Proof. by destruct fuel. Qed.

(** With no deadline due, the first loop of the selection changes
    nothing. *)
Lemma drain_nothing_due fuel curtime s :
  match TIMEOUT_LIST s with
  | [] => True
  | t :: _ => ∃ b, tcbs s !! t = Some b ∧ wakeup_time b > curtime
  end →
  drain_timeouts fuel curtime s = Done tt s.
Proof.
  intros Hhead. rewrite drain_timeouts_unfold.
  erewrite bind_Done; [|reflexivity].
  destruct (TIMEOUT_LIST s) as [|t l]; [done|].
  destruct Hhead as (b & Hb & Hw).
  erewrite bind_Done; [|by apply get_tcb_Done].
  by rewrite bool_decide_eq_true_2.
Qed.

Lemma concat_replicate_nil {A} n : concat (replicate n (@nil A)) = [].
Proof. induction n; simpl; auto. Qed.

Lemma congestion_step_bounds i qs : -1 ≤ congestion_step i qs ≤ 1.
Proof.
  unfold congestion_step. destruct i; [lia|]. case_bool_decide; lia.
Qed.

End select_claims.

(** ** Making threads ready *)

Lemma unlink_notin t (l : list tid) : t ∉ l → unlink t l = l.
Proof.
  intros Hn. unfold unlink. induction l as [|x l IH]; [done|].
  apply not_elem_of_cons in Hn as [Hne Hn].
  rewrite filter_cons_True by done. by rewrite IH.
Qed.

Lemma unlink_head t (l : list tid) : t ∉ l → unlink t (t :: l) = l.
Proof.
  intros Hn. unfold unlink. rewrite filter_cons_False by (by intros ?).
  by apply unlink_notin.
Qed.

Lemma elem_of_unlink t x (l : list tid) : x ∈ unlink t l ↔ x ∈ l ∧ x ≠ t.
Proof. unfold unlink. rewrite list_elem_of_filter. tauto. Qed.

Lemma unlink_queues_notin t (qs : list (list tid)) :
  t ∉ concat qs → unlink t <$> qs = qs.
Proof.
  induction qs as [|q qs IH]; [done|]. rewrite fmap_cons. simpl concat.
  rewrite elem_of_app. intros Hn. rewrite unlink_notin by tauto.
  rewrite IH by tauto. done.
Qed.

Section make_ready_proofs.
Context `{Tunables}.

(** [sched_make_ready] on a thread that meets its assertions and whose
    priority, when the thread is to be queued, is an index of [SCHED]. *)
Lemma sched_make_ready_Done t b s :
  tcbs s !! t = Some b →
  state b = STOPPED ∨ state b = INIT →
  (wakeup_time b ≠ NO_TIMEOUT → is_linked t s = true ∧ state b = STOPPED) →
  (phase b = CTX_CLEAN → 0 ≤ priority b < Z.of_nat (length (SCHED s))) →
  let timed := bool_decide (wakeup_time b ≠ NO_TIMEOUT) in
  let b' := with_state READY
              (if timed then with_wakeup_time NO_TIMEOUT b else b) in
  let qs := if timed then unlink t <$> SCHED s else SCHED s in
  let tl := if timed then unlink t (TIMEOUT_LIST s) else TIMEOUT_LIST s in
  let i := Z.to_nat (priority b) in
  let qs' := if bool_decide (phase b = CTX_CLEAN)
             then <[i := default [] (qs !! i) ++ [t]]> qs else qs in
  sched_make_ready t s =
  Done tt (set_tcbs (λ _, <[t := b']> (tcbs s))
            (set_TIMEOUT_LIST (λ _, tl) (set_SCHED (λ _, qs') s))).
Proof.
  intros Hb Hst Hlinked Hprio timed b' qs tl i qs'.
  unfold sched_make_ready.
  erewrite bind_Done; [|by apply get_tcb_Done].
  rewrite (bool_decide_eq_true_2 (state b = STOPPED ∨ state b = INIT)) by done.
  erewrite bind_Done; [|reflexivity].
  set (s1 := set_tcbs (λ _, if timed
                            then <[t := with_wakeup_time NO_TIMEOUT b]> (tcbs s)
                            else tcbs s)
               (set_TIMEOUT_LIST (λ _, tl) (set_SCHED (λ _, qs) s))).
  assert (Hfirst :
    (if bool_decide (wakeup_time b ≠ NO_TIMEOUT)
     then s0 ← get;
          assert (is_linked t s0 && bool_decide (state b = STOPPED));;
          rlist_remove t;;
          upd_tcb t (with_wakeup_time NO_TIMEOUT)
     else mret tt) s = Done tt s1).
  { subst s1 tl qs. fold timed. destruct timed eqn:Htimed.
    - apply bool_decide_eq_true in Htimed.
      destruct (Hlinked Htimed) as [Hl Hs].
      erewrite bind_Done; [|reflexivity].
      rewrite Hl, (bool_decide_eq_true_2 _ Hs).
      erewrite bind_Done; [|reflexivity].
      erewrite bind_Done; [|reflexivity].
      by erewrite upd_tcb_Done by done.
    - unfold mret, M_ret. f_equal. by apply sched_eq. }
  erewrite bind_Done; [|exact Hfirst].
  assert (Hb1 : tcbs s1 !! t
                = Some (if timed then with_wakeup_time NO_TIMEOUT b else b)).
  { subst s1. simpl. destruct timed; [by rewrite lookup_insert_eq|done]. }
  erewrite bind_Done; [|by apply upd_tcb_Done].
  set (b1 := with_state READY
                (if timed then with_wakeup_time NO_TIMEOUT b else b)).
  set (s2 := set_tcbs <[t := b1]> s1).
  assert (Hb2 : tcbs s2 !! t = Some b1) by apply lookup_insert_eq.
  erewrite (bind_Done (get_tcb t)); [|by apply get_tcb_Done].
  subst b1.
  assert (Hphase : phase (with_state READY
                      (if timed then with_wakeup_time NO_TIMEOUT b else b))
                   = phase b) by (by destruct timed).
  assert (Hpr : priority (with_state READY
                      (if timed then with_wakeup_time NO_TIMEOUT b else b))
                = priority b) by (by destruct timed).
  assert (Htcbs : <[t := b']> (if timed
                     then <[t := with_wakeup_time NO_TIMEOUT b]> (tcbs s)
                     else tcbs s) = <[t := b']> (tcbs s)).
  { destruct timed; [by rewrite insert_insert_eq|done]. }
  rewrite Hphase. subst qs'.
  destruct (decide (phase b = CTX_CLEAN)) as [Hclean|Hclean];
    [rewrite !(bool_decide_eq_true_2 _ Hclean)
    |rewrite !(bool_decide_eq_false_2 _ Hclean)].
  - unfold sched_queue_add.
    erewrite (bind_Done (get_tcb t)); [|by apply get_tcb_Done].
    rewrite Hpr.
    assert (Hlen : length qs = length (SCHED s)).
    { subst qs. destruct timed; [by rewrite length_fmap|done]. }
    assert (Hi : (i < length qs)%nat) by (subst i; specialize (Hprio Hclean); lia).
    destruct (lookup_lt_is_Some_2 qs i Hi) as [q Hq].
    erewrite (bind_Done (queue_index (priority b))).
    2:{ unfold queue_index. simpl. rewrite Hlen.
        by rewrite bool_decide_eq_true_2 by auto. }
    erewrite rlist_push_back_Done by (simpl; exact Hq).
    f_equal. apply sched_eq; simpl; try done. by rewrite Hq.
  - unfold mret, M_ret. f_equal. by apply sched_eq.
Qed.

Lemma due_prefix_insert h curtime l t b :
  t ∉ l → due_prefix (<[t := b]> h) curtime l = due_prefix h curtime l.
Proof.
  induction l as [|x l IH]; [done|]. intros [Hne Hn]%not_elem_of_cons.
  simpl. rewrite lookup_insert_ne by done. by rewrite IH.
Qed.

Lemma due_prefix_subseteq h curtime l x :
  x ∈ due_prefix h curtime l → x ∈ l.
Proof.
  induction l as [|y l IH]; simpl; [done|].
  destruct (h !! y) as [b|]; [|by intros ?%elem_of_nil].
  case_bool_decide; [|by intros ?%elem_of_nil].
  intros [->|Hx]%elem_of_cons; [by left|right; auto].
Qed.

Lemma elem_of_concat_unlink t x (qs : list (list tid)) :
  x ∈ concat (unlink t <$> qs) → x ∈ concat qs.
Proof.
  rewrite !elem_of_concat. intros (l & Hl & Hx).
  apply list_elem_of_fmap in Hl as (q & -> & Hq).
  apply elem_of_unlink in Hx as [Hx _]. eauto.
Qed.

Lemma elem_of_concat_push i t x (qs : list (list tid)) :
  x ∈ concat (<[i := default [] (qs !! i) ++ [t]]> qs) →
  x ∈ concat qs ∨ x = t.
Proof.
  rewrite !elem_of_concat. intros (l & Hl & Hx).
  apply list_elem_of_lookup in Hl as [j Hj].
  destruct (decide (j = i)) as [->|Hne].
  - assert (Hi : (i < length qs)%nat).
    { apply lookup_lt_Some in Hj. by rewrite length_insert in Hj. }
    rewrite list_lookup_insert_eq in Hj by done. injection Hj as <-.
    destruct (lookup_lt_is_Some_2 qs i Hi) as [q Hq].
    rewrite Hq in Hx. simpl in Hx.
    apply elem_of_app in Hx as [Hx|Hx%list_elem_of_singleton]; [|by right].
    left. exists q. split; [by eapply list_elem_of_lookup_2|done].
  - rewrite list_lookup_insert_ne in Hj by done.
    left. exists l. split; [by eapply list_elem_of_lookup_2|done].
Qed.

(** The first loop of [sched_queue_select] makes ready, in the order of
    the list, the threads at the head of [TIMEOUT_LIST] whose deadline
    has passed, and stops at the first whose deadline has not. *)
Lemma drain_timeouts_spec l : ∀ fuel curtime s,
  TIMEOUT_LIST s = l →
  NoDup l →
  Forall (wakeable s) l →
  (length l < fuel)%nat →
  let due := due_prefix (tcbs s) curtime l in
  ∃ s1, drain_timeouts fuel curtime s = Done tt s1
    ∧ wake_all due s = Done tt s1
    ∧ TIMEOUT_LIST s1 = drop (length due) l
    ∧ length (SCHED s1) = length (SCHED s)
    ∧ (∀ t b, t ∈ due → tcbs s !! t = Some b →
         tcbs s1 !! t
         = Some (with_state READY (with_wakeup_time NO_TIMEOUT b)))
    ∧ (∀ t, t ∉ due → tcbs s1 !! t = tcbs s !! t)
    ∧ (∀ x, x ∈ concat (SCHED s1) → x ∈ concat (SCHED s) ∨ x ∈ due).
Proof.
  induction l as [|t l IH]; intros fuel curtime s HTL Hnd Hall Hfuel due.
  - exists s. subst due. simpl. rewrite drain_timeouts_unfold.
    erewrite bind_Done; [|reflexivity]. rewrite HTL.
    split_and!; try done.
    + by intros x bx ?%elem_of_nil.
    + intros x Hx. by left.
  - apply NoDup_cons in Hnd as [Hnotin Hnd].
    apply Forall_cons in Hall as [(b & Hb & Hst & Hw & Hprio) Hall].
    rewrite drain_timeouts_unfold.
    erewrite bind_Done; [|reflexivity]. rewrite HTL.
    erewrite bind_Done; [|by apply get_tcb_Done].
    subst due. simpl due_prefix. rewrite Hb.
    destruct (decide (wakeup_time b ≤ curtime)) as [Hdue|Hdue].
    + rewrite (bool_decide_eq_true_2 _ Hdue).
      rewrite bool_decide_eq_false_2 by lia.
      destruct fuel as [|fuel]; [simpl in Hfuel; lia|].
      pose proof (sched_make_ready_Done t b s Hb (or_introl Hst)) as Hready.
      rewrite (bool_decide_eq_true_2 _ Hw) in Hready.
      rewrite HTL, (unlink_head _ _ Hnotin) in Hready.
      cbv zeta in Hready.
      set (s' := set_tcbs _ _) in Hready.
      assert (Hrun : sched_make_ready t s = Done tt s').
      { apply Hready; [|done]. intros _. split; [|done].
        unfold is_linked. rewrite HTL.
        rewrite bool_decide_eq_true_2; [done|by left]. }
      clear Hready. cbv iota beta.
      erewrite (bind_Done (sched_make_ready t)); [|exact Hrun].
      assert (Hlen' : length (SCHED s') = length (SCHED s)).
      { subst s'. simpl. case_bool_decide;
          by rewrite ?length_insert, length_fmap. }
      assert (Hother : ∀ x, x ≠ t → tcbs s' !! x = tcbs s !! x).
      { intros x Hx. subst s'. simpl. by rewrite lookup_insert_ne. }
      assert (Hdue' : due_prefix (tcbs s') curtime l
                      = due_prefix (tcbs s) curtime l).
      { subst s'. simpl. by apply due_prefix_insert. }
      destruct (IH fuel curtime s')
        as (s1 & Hdrain & Hwake & HTL1 & Hlen1 & Hdue1 & Hrest1 & Hq1).
      { done. }
      { done. }
      { apply Forall_forall. intros x Hx.
        destruct (proj1 (Forall_forall _ _) Hall x Hx) as (bx & Hbx & Hx').
        exists bx. rewrite Hlen'. split; [|done].
        rewrite Hother; [done|]. by intros ->. }
      { simpl in Hfuel. lia. }
      rewrite Hdue' in Hwake, HTL1, Hdue1, Hrest1, Hq1.
      assert (Ht_due : t ∉ due_prefix (tcbs s) curtime l).
      { by intros ?%due_prefix_subseteq. }
      exists s1. split_and!.
      * done.
      * simpl. by erewrite bind_Done by exact Hrun.
      * done.
      * by rewrite Hlen1.
      * intros x bx [->|Hx]%elem_of_cons Hbx.
        -- rewrite Hrest1 by done. subst s'. simpl.
           rewrite lookup_insert_eq. by simplify_eq.
        -- apply Hdue1; [done|]. rewrite Hother; [done|]. by intros ->.
      * intros x [Hne Hx]%not_elem_of_cons.
        rewrite Hrest1 by done. by apply Hother.
      * intros x Hx. destruct (Hq1 x Hx) as [Hx'|Hx']; [|right; by right].
        subst s'. simpl in Hx'. case_bool_decide.
        -- apply elem_of_concat_push in Hx' as [Hx'| ->]; [|right; by left].
           left. by eapply elem_of_concat_unlink.
        -- left. by eapply elem_of_concat_unlink.
    + rewrite (bool_decide_eq_false_2 _ Hdue).
      rewrite bool_decide_eq_true_2 by lia.
      exists s. simpl. split_and!; try done.
      * by intros x bx ?%elem_of_nil.
      * intros x Hx. by left.
Qed.
End make_ready_proofs.

Section wakeup_claim.
Context `{Tunables}.

End wakeup_claim.

(** ** The order of the timeout list *)

Lemma StronglySorted_sublist {A} (R : relation A) (l1 l2 : list A) :
  l1 `sublist_of` l2 → StronglySorted R l2 → StronglySorted R l1.
Proof.
  induction 1 as [|x l1 l2 Hsub IH|x l1 l2 Hsub IH]; intros Hs.
  - constructor.
  - apply StronglySorted_inv in Hs as [Hs Hx]. constructor; [auto|].
    apply Forall_forall. intros y Hy.
    apply (proj1 (Forall_forall _ _) Hx). by eapply sublist_subseteq.
  - apply StronglySorted_inv in Hs as [Hs _]. auto.
Qed.

Lemma StronglySorted_impl {A} (R R' : relation A) (l : list A) :
  (∀ x y, x ∈ l → y ∈ l → R x y → R' x y) →
  StronglySorted R l → StronglySorted R' l.
Proof.
  induction l as [|x l IH]; intros HR Hs; [constructor|].
  apply StronglySorted_inv in Hs as [Hs Hx]. constructor.
  - apply IH; [|done]. intros y z Hy Hz. apply HR; by right.
  - apply Forall_forall. intros y Hy. apply HR; [by left|by right|].
    by apply (proj1 (Forall_forall _ _) Hx).
Qed.

Section timeouts.
Context `{Tunables}.

Lemma sleeper_same s s' x : same_sleep s s' x → sleeper s x → sleeper s' x.
Proof.
  intros [Hst Hw] (b & Hb & Hs & Hwb). unfold wakeup_of in Hw.
  rewrite Hb in Hst, Hw.
  destruct (tcbs s' !! x) as [b'|] eqn:Hb'; [|by simpl in Hst].
  exists b'. split; [done|]. simpl in Hst, Hw. split; congruence.
Qed.

Lemma wakes_before_same s s' x y :
  same_sleep s s' x → same_sleep s s' y →
  wakes_before s x y → wakes_before s' x y.
Proof.
  intros [_ Hx] [_ Hy] (w1 & w2 & H1 & H2 & Hle).
  exists w1, w2. by rewrite Hx, Hy.
Qed.

(** A state whose timeout list is a sublist of the one of [s], with the
    same deadlines and states for its threads, keeps the list in
    order. *)
Lemma timeouts_ok_transfer s s' :
  TIMEOUT_LIST s' `sublist_of` TIMEOUT_LIST s →
  (∀ x, x ∈ TIMEOUT_LIST s' → same_sleep s s' x) →
  timeouts_ok s → timeouts_ok s'.
Proof.
  intros Hsub Hsame [Hall Hsorted]. split.
  - apply Forall_forall. intros x Hx. eapply sleeper_same; [by apply Hsame|].
    apply (proj1 (Forall_forall _ _) Hall). by eapply sublist_subseteq.
  - unfold timeouts_sorted in *.
    eapply StronglySorted_impl;
      [|by eapply StronglySorted_sublist].
    intros x y Hx Hy. apply wakes_before_same; by apply Hsame.
Qed.

Lemma same_sleep_refl s x : same_sleep s s x.
Proof. done. Qed.

(** A write to a block that leaves its state and deadline as they are. *)
Lemma timeouts_ok_upd_quiet s t b b' :
  tcbs s !! t = Some b →
  state b' = state b → wakeup_time b' = wakeup_time b →
  timeouts_ok s → timeouts_ok (set_tcbs <[t := b']> s).
Proof.
  intros Hb Hst Hw. apply timeouts_ok_transfer; [done|].
  intros x _. unfold same_sleep, wakeup_of. simpl.
  destruct (decide (x = t)) as [->|Hne].
  - rewrite lookup_insert_eq, Hb. simpl. by rewrite Hst, Hw.
  - by rewrite lookup_insert_ne.
Qed.

(** A write to the block of a thread that is not in the list. *)
Lemma timeouts_ok_upd_outside s t b' :
  t ∉ TIMEOUT_LIST s →
  timeouts_ok s → timeouts_ok (set_tcbs <[t := b']> s).
Proof.
  intros Hout. apply timeouts_ok_transfer; [done|].
  intros x Hx. unfold same_sleep, wakeup_of. simpl.
  rewrite lookup_insert_ne; [done|]. by intros ->.
Qed.

Lemma timeouts_ok_delete_outside s t :
  t ∉ TIMEOUT_LIST s →
  timeouts_ok s → timeouts_ok (set_tcbs (delete t) s).
Proof.
  intros Hout. apply timeouts_ok_transfer; [done|].
  intros x Hx. unfold same_sleep, wakeup_of. simpl.
  rewrite lookup_delete_ne; [done|]. by intros ->.
Qed.

Lemma timeouts_ok_unlink s t :
  timeouts_ok s →
  timeouts_ok (set_TIMEOUT_LIST (unlink t) (set_SCHED (fmap (unlink t)) s)).
Proof.
  apply timeouts_ok_transfer; [apply sublist_filter|done].
Qed.

(** A thread that is not stopped, or has no deadline, is not in the
    list. *)
Lemma not_sleeper_outside s t b :
  timeouts_ok s → tcbs s !! t = Some b →
  state b ≠ STOPPED ∨ wakeup_time b = NO_TIMEOUT →
  t ∉ TIMEOUT_LIST s.
Proof.
  intros [Hall _] Hb Hnot Hin.
  destruct (proj1 (Forall_forall _ _) Hall t Hin) as (b' & Hb' & Hs & Hw).
  rewrite Hb in Hb'. injection Hb' as <-. tauto.
Qed.
End timeouts.

(** ** What the operations on the ready queues keep *)

Section quiet.
Context `{Tunables}.
Variable P : sched → Prop.
Hypothesis HP_SCHED : ∀ g s, P s → P (set_SCHED g s).
Hypothesis HP_cc : ∀ g s, P s → P (set_counter_congestion g s).
Hypothesis HP_fs : ∀ g s, P s → P (set_fail_safe g s).
Hypothesis HP_calls : ∀ g s, P s → P (set_boost_calls g s).
Hypothesis HP_cctx : ∀ g s, P s → P (set_cctx g s).
Hypothesis HP_upd : ∀ t b f s,
  tcbs s !! t = Some b →
  state (f b) = state b → wakeup_time (f b) = wakeup_time b →
  P s → P (set_tcbs <[t := f b]> s).

Lemma quiet_upd_tcb t f :
  (∀ b, state (f b) = state b ∧ wakeup_time (f b) = wakeup_time b) →
  keeps P (upd_tcb t f).
Proof.
  intros Hf. apply hoare_upd_tcb. intros s b Hs Hb.
  destruct (Hf b). by apply HP_upd.
Qed.

Lemma quiet_is_rlist_empty i : keeps P (is_rlist_empty i).
Proof.
  unfold is_rlist_empty. apply keeps_bind; [apply keeps_ready_queue|].
  intros ?. apply keeps_ret.
Qed.

Lemma quiet_rlist_pop_front i : keeps P (rlist_pop_front i).
Proof.
  unfold rlist_pop_front. apply keeps_bind; [apply keeps_ready_queue|].
  intros [|t q]; [apply keeps_ret|].
  apply keeps_bind; [apply keeps_modify, HP_SCHED|intros ?; apply keeps_ret].
Qed.

Lemma quiet_rlist_push_back i t : keeps P (rlist_push_back i t).
Proof.
  unfold rlist_push_back. apply keeps_bind; [apply keeps_ready_queue|].
  intros ?. apply keeps_modify, HP_SCHED.
Qed.

Lemma quiet_sched_queue_add t : keeps P (sched_queue_add t).
Proof.
  unfold sched_queue_add. apply keeps_bind; [apply keeps_get_tcb|intros b].
  apply keeps_bind; [apply keeps_queue_index|intros i].
  apply quiet_rlist_push_back.
Qed.

Lemma quiet_scan_ready k : ∀ sel, keeps P (scan_ready k sel).
Proof.
  induction k as [|i IH]; intros sel; simpl; [apply keeps_ret|].
  apply keeps_bind; [apply quiet_rlist_pop_front|].
  intros node. apply keeps_ret.
Qed.

Lemma quiet_scan_lower k : keeps P (scan_lower k).
Proof.
  induction k as [|i IH]; simpl; [apply keeps_ret|].
  apply keeps_bind; [apply quiet_is_rlist_empty|].
  intros []; simpl.
  - case_bool_decide; [|apply IH]. apply keeps_modify, HP_cc.
  - apply keeps_modify, HP_cc.
Qed.

Lemma quiet_update_congestion i : keeps P (update_congestion i).
Proof.
  unfold update_congestion. apply keeps_bind.
  - case_bool_decide; [|apply quiet_scan_lower]. apply keeps_modify, HP_cc.
  - intros _. apply keeps_bind; [apply keeps_get|intros s].
    case_bool_decide; [|apply keeps_ret]. apply keeps_modify, HP_cc.
Qed.

Lemma quiet_boost_drain fuel i : keeps P (boost_drain fuel i).
Proof.
  induction fuel as [|fuel IH]; simpl.
  - apply keeps_bind; [apply quiet_is_rlist_empty|].
    intros []; [apply keeps_ret|apply keeps_crash].
  - apply keeps_bind; [apply quiet_is_rlist_empty|].
    intros []; [apply keeps_ret|].
    apply keeps_bind; [apply quiet_rlist_pop_front|].
    intros [t|]; [|apply keeps_crash].
    apply keeps_bind; [by apply quiet_upd_tcb|intros _].
    apply keeps_bind; [apply quiet_rlist_push_back|intros _].
    apply IH.
Qed.

Lemma quiet_boost_levels k : keeps P (boost_levels k).
Proof.
  induction k as [|i IH]; simpl; [apply keeps_ret|].
  apply keeps_bind; [apply keeps_ready_queue|intros q].
  apply keeps_bind; [apply quiet_boost_drain|intros _]. apply IH.
Qed.

Lemma quiet_boost : keeps P boost.
Proof.
  unfold boost.
  apply keeps_bind; [apply keeps_modify, HP_calls|intros _].
  apply keeps_bind; [apply keeps_modify, HP_cc|intros _].
  apply quiet_boost_levels.
Qed.

Lemma quiet_CURTHREAD core : keeps P (CURTHREAD core).
Proof.
  unfold CURTHREAD. apply keeps_bind; [apply keeps_CURCORE|].
  intros ?. apply keeps_ret.
Qed.

Lemma quiet_set_CURTHREAD core t : keeps P (set_CURTHREAD core t).
Proof.
  unfold set_CURTHREAD. apply keeps_bind; [apply keeps_CURCORE|].
  intros ?. apply keeps_modify, HP_cctx.
Qed.

Lemma quiet_CURPROC core : keeps P (CURPROC core).
Proof.
  unfold CURPROC. apply keeps_bind; [apply quiet_CURTHREAD|intros t].
  apply keeps_bind; [apply keeps_get_tcb|intros b]. apply keeps_ret.
Qed.
End quiet.

(** ** Registering a timeout *)

(** The walk over the list stops before the first thread that wakes up
    later than [w]: the threads it passes wake up no later than [w]. *)
Lemma splice_before_later_spec h w t l :
  Forall (λ x, is_Some (h !! x)) l →
  ∃ l1 l2,
    l = l1 ++ l2
    ∧ splice_before_later h w t l = Some (l1 ++ t :: l2)
    ∧ Forall (λ x, ∃ b, h !! x = Some b ∧ wakeup_time b ≤ w) l1
    ∧ match l2 with
      | [] => True
      | n :: _ => ∃ b, h !! n = Some b ∧ w < wakeup_time b
      end.
Proof.
  induction l as [|n l IH]; intros Hall.
  - by exists [], [].
  - apply Forall_cons in Hall as [[b Hb] Hall]. simpl. rewrite Hb.
    case_bool_decide as Hlater.
    + exists [], (n :: l). split_and!; [done|done|done|by exists b].
    + destruct (IH Hall) as (l1 & l2 & -> & Hsplice & Hl1 & Hl2).
      exists (n :: l1), l2. rewrite Hsplice. split_and!; [done|done| |done].
      apply Forall_cons. split; [|done]. exists b. split; [done|lia].
Qed.

Section register.
Context `{Tunables}.

Lemma sched_register_timeout_none curtime t s :
  sched_register_timeout curtime t NO_TIMEOUT s = Done tt s.
Proof.
  unfold sched_register_timeout. by rewrite bool_decide_eq_false_2 by auto.
Qed.

Lemma sched_register_timeout_Done curtime t timeout b s :
  timeout ≠ NO_TIMEOUT →
  tcbs s !! t = Some b →
  t ∉ TIMEOUT_LIST s →
  t ∉ concat (SCHED s) →
  Forall (λ x, is_Some (tcbs s !! x)) (TIMEOUT_LIST s) →
  ∃ l1 l2,
    TIMEOUT_LIST s = l1 ++ l2
    ∧ sched_register_timeout curtime t timeout s =
      Done tt (set_TIMEOUT_LIST (λ _, l1 ++ t :: l2)
                 (set_tcbs <[t := with_wakeup_time (wrap_timer (curtime + timeout)) b]> s))
    ∧ Forall (λ x, ∃ bx, tcbs s !! x = Some bx
                         ∧ wakeup_time bx ≤ wrap_timer (curtime + timeout)) l1
    ∧ match l2 with
      | [] => True
      | n :: _ => ∃ bn, tcbs s !! n = Some bn
                        ∧ wrap_timer (curtime + timeout) < wakeup_time bn
      end.
Proof.
  intros Hto Hb Hout Hout' Hall.
  set (h' := <[t := with_wakeup_time (wrap_timer (curtime + timeout)) b]> (tcbs s)).
  assert (Hsame : ∀ x, x ∈ TIMEOUT_LIST s → h' !! x = tcbs s !! x).
  { intros x Hx. subst h'. rewrite lookup_insert_ne; [done|]. by intros ->. }
  destruct (splice_before_later_spec h' (wrap_timer (curtime + timeout)) t
              (TIMEOUT_LIST s))
    as (l1 & l2 & HTL & Hsplice & Hl1 & Hl2).
  { apply Forall_forall. intros x Hx. rewrite Hsame by done.
    by apply (proj1 (Forall_forall _ _) Hall). }
  exists l1, l2. split_and!.
  - done.
  - unfold sched_register_timeout.
    rewrite (bool_decide_eq_true_2 _ Hto), (bool_decide_eq_false_2 _ Hto).
    erewrite bind_Done; [|by apply upd_tcb_Done].
    erewrite (bind_Done (get_tcb t));
      [|apply get_tcb_Done; apply lookup_insert_eq].
    erewrite bind_Done; [|reflexivity].
    simpl. fold h'. rewrite Hsplice.
    unfold is_linked. simpl.
    rewrite (bool_decide_eq_false_2 (t ∈ TIMEOUT_LIST s)) by done.
    by rewrite (bool_decide_eq_false_2 (t ∈ concat (SCHED s))) by done.
  - apply Forall_forall. intros x Hx.
    destruct (proj1 (Forall_forall _ _) Hl1 x Hx) as (bx & Hbx & Hle).
    exists bx. split; [|done]. rewrite <- Hsame; [done|].
    rewrite HTL. apply elem_of_app. by left.
  - destruct l2 as [|n l2]; [done|]. destruct Hl2 as (bn & Hbn & Hlt).
    exists bn. split; [|done]. rewrite <- Hsame; [done|].
    rewrite HTL. apply elem_of_app. right. by left.
Qed.

(** A thread whose node is linked is not registered: the model stops. *)
Lemma sched_register_timeout_linked curtime t timeout b s :
  timeout ≠ NO_TIMEOUT →
  tcbs s !! t = Some b →
  t ∈ TIMEOUT_LIST s ∨ t ∈ concat (SCHED s) →
  ∀ s', sched_register_timeout curtime t timeout s ≠ Done tt s'.
Proof.
  intros Hto Hb Hin s'. unfold sched_register_timeout.
  rewrite (bool_decide_eq_true_2 _ Hto), (bool_decide_eq_false_2 _ Hto).
  erewrite bind_Done; [|by apply upd_tcb_Done].
  erewrite (bind_Done (get_tcb t));
    [|apply get_tcb_Done; apply lookup_insert_eq].
  erewrite bind_Done; [|reflexivity].
  destruct (splice_before_later _ _ _ _); [|done].
  replace (is_linked t _) with true; [done|].
  symmetry. unfold is_linked. simpl. apply orb_true_iff.
  destruct Hin; [left|right]; by apply bool_decide_eq_true.
Qed.

(** Registering a stopped thread that is not in the list, with a
    deadline, if any, that is not the [NO_TIMEOUT] value, keeps the list
    in order. *)
Lemma sched_register_timeout_ok curtime t timeout b s s' :
  tcbs s !! t = Some b →
  state b = STOPPED →
  (timeout ≠ NO_TIMEOUT → wrap_timer (curtime + timeout) ≠ NO_TIMEOUT) →
  t ∉ TIMEOUT_LIST s →
  timeouts_ok s →
  sched_register_timeout curtime t timeout s = Done tt s' →
  timeouts_ok s'.
Proof.
  intros Hb Hst Hdead Hout Hok Hrun.
  destruct (decide (timeout = NO_TIMEOUT)) as [->|Hto].
  { rewrite sched_register_timeout_none in Hrun. by simplify_eq. }
  specialize (Hdead Hto).
  assert (Hall : Forall (λ x, is_Some (tcbs s !! x)) (TIMEOUT_LIST s)).
  { destruct Hok as [Hsl _]. eapply Forall_impl; [exact Hsl|].
    intros x (bx & Hbx & _). by exists bx. }
  assert (Hout' : t ∉ concat (SCHED s)).
  { intros Hin.
    by apply (sched_register_timeout_linked curtime t timeout b s Hto Hb
                (or_intror Hin) s'). }
  destruct (sched_register_timeout_Done curtime t timeout b s Hto Hb Hout
              Hout' Hall)
    as (l1 & l2 & HTL & Hrun' & Hl1 & Hl2).
  rewrite Hrun' in Hrun. injection Hrun as <-.
  set (s1 := set_tcbs <[t := with_wakeup_time (wrap_timer (curtime + timeout)) b]> s).
  assert (Hok1 : timeouts_ok s1) by (by apply timeouts_ok_upd_outside).
  destruct Hok1 as [Hsl1 Hsorted1]. unfold timeouts_sorted in Hsorted1.
  change (TIMEOUT_LIST s1) with (TIMEOUT_LIST s) in Hsl1, Hsorted1.
  rewrite HTL in Hsl1, Hsorted1.
  assert (Ht1 : tcbs s1 !! t = Some (with_wakeup_time (wrap_timer (curtime + timeout)) b))
    by apply lookup_insert_eq.
  assert (Hother : ∀ x, x ∈ l1 ++ l2 → tcbs s1 !! x = tcbs s !! x).
  { intros x Hx. subst s1. simpl. rewrite lookup_insert_ne; [done|].
    intros ->. apply Hout. by rewrite HTL. }
  apply StronglySorted_app in Hsorted1 as (Hcross & Hs1 & Hs2).
  apply Forall_app in Hsl1 as [Hsl1 Hsl2].
  split.
  - change (Forall (sleeper s1) (l1 ++ t :: l2)).
    apply Forall_app. split; [done|]. apply Forall_cons. split; [|done].
    eexists. split; [exact Ht1|]. done.
  - change (StronglySorted (wakes_before s1) (l1 ++ t :: l2)).
    apply StronglySorted_app. split_and!; [|done|].
    + intros x1 x2 Hx1 [->|Hx2]%elem_of_cons; [|by apply Hcross].
      destruct (proj1 (Forall_forall _ _) Hl1 x1 Hx1) as (b1 & Hb1 & Hle).
      exists (wakeup_time b1), (wrap_timer (curtime + timeout)). unfold wakeup_of.
      rewrite Hother, Hb1, Ht1; [done|]. apply elem_of_app. by left.
    + apply StronglySorted_cons. split; [|done].
      destruct l2 as [|n l2]; [done|].
      destruct Hl2 as (bn & Hbn & Hlt).
      assert (Hn : wakeup_of s1 n = Some (wakeup_time bn)).
      { unfold wakeup_of. rewrite Hother, Hbn; [done|].
        apply elem_of_app. right. by left. }
      apply StronglySorted_cons in Hs2 as [Hhead _].
      apply Forall_cons. split.
      * exists (wrap_timer (curtime + timeout)), (wakeup_time bn). unfold wakeup_of.
        rewrite Ht1. split_and!; [done|done|simpl; lia].
      * eapply Forall_impl; [exact Hhead|]. simpl.
        intros y (w1 & w2 & Hw1 & Hw2 & Hle). rewrite Hn in Hw1.
        injection Hw1 as <-.
        exists (wrap_timer (curtime + timeout)), w2. unfold wakeup_of.
        rewrite Ht1. split_and!; [done|done|simpl; lia].
Qed.
End register.

(** ** The priority update and the timeout list *)

Section yield_quiet.
Context `{Tunables}.

Lemma yield_priority_quiet cause b :
  state (yield_priority cause b) = state b
  ∧ wakeup_time (yield_priority cause b) = wakeup_time b.
Proof.
  unfold yield_priority, reinstate_priority, clamp_priority, adjust_priority.
  destruct cause; repeat case_bool_decide; simpl;
    repeat (case_bool_decide; simpl); try done;
    destruct (_ && _); done.
Qed.

End yield_quiet.

(** ** The priority of a yielding thread *)

Section yield_claim.
Context `{Tunables}.




End yield_claim.

(** ** The exit of a thread *)

(** [gain] after a switch away from the thread [p], which has exited:
    the handle of [p] is marked, the block of [p] is freed and
    [active_threads] goes down by one.  The [thread_count] that goes down
    by one is the one of the process of the current thread. *)
Lemma gain_exited core c b p pb n s :
  cctx s !! core = Some c →
  tcbs s !! current_thread c = Some b →
  prev b = Some p →
  p ≠ current_thread c →
  tcbs s !! p = Some pb →
  state pb = EXITED →
  (∀ q, owner_ptcb pb = Some q → is_Some (thread_exited s !! q)) →
  thread_count s !! owner_pcb b = Some n →
  ∃ s', gain core s = Done tt s'
    ∧ thread_count s' = <[owner_pcb b := wrap_int (n - 1)]> (thread_count s)
    ∧ thread_exited s' = match owner_ptcb pb with
                         | Some q => <[q := 1]> (thread_exited s)
                         | None => thread_exited s
                         end
    ∧ tcbs s' !! p = None
    ∧ active_threads s' = wrap_uint (active_threads s - 1).
Proof.
  intros Hc Hb Hprev Hne Hpb Hst Hhandle Hcount.
  set (cur := current_thread c) in *.
  set (b' := with_phase CTX_DIRTY (with_state RUNNING b)).
  set (pb' := with_phase CTX_CLEAN pb).
  set (s1 := set_tcbs <[cur := b']> s).
  set (s2 := set_tcbs <[p := pb']> s1).
  set (s3 := match owner_ptcb pb with
             | Some q => set_thread_exited <[q := 1]> s2
             | None => s2
             end).
  set (s4 := set_thread_count <[owner_pcb b := wrap_int (n - 1)]> s3).
  assert (Hcur : ∀ s0, cctx s0 = cctx s → CURTHREAD core s0 = Done cur s0).
  { intros s0 Hs0. unfold CURTHREAD, CURCORE, mbind, M_bind.
    by rewrite Hs0, Hc. }
  assert (Hp2 : tcbs s2 !! p = Some pb') by apply lookup_insert_eq.
  assert (Hcur2 : tcbs s2 !! cur = Some b').
  { subst s2 s1. simpl. rewrite lookup_insert_ne by done.
    apply lookup_insert_eq. }
  assert (Htcbs3 : tcbs s3 = tcbs s2).
  { subst s3. by destruct (owner_ptcb pb). }
  assert (Hcctx3 : cctx s3 = cctx s).
  { subst s3. by destruct (owner_ptcb pb). }
  assert (Hcount3 : thread_count s3 = thread_count s).
  { subst s3. by destruct (owner_ptcb pb). }
  exists (set_active_threads (λ k, wrap_uint (k - 1))
            (set_tcbs (delete p) s4)).
  split.
  - unfold gain.
    erewrite (bind_Done (CURTHREAD core)); [|by apply Hcur].
    erewrite (bind_Done (get_tcb cur)); [|by apply get_tcb_Done].
    erewrite (bind_Done (upd_tcb cur _)); [|by apply upd_tcb_Done].
    rewrite Hprev. rewrite bool_decide_eq_true_2 by congruence.
    erewrite (bind_Done (upd_tcb p _)).
    2:{ apply upd_tcb_Done. simpl. by rewrite lookup_insert_ne. }
    erewrite (bind_Done (get_tcb p)); [|by apply get_tcb_Done].
    replace (state pb') with EXITED by done.
    replace (owner_ptcb pb') with (owner_ptcb pb) by done.
    erewrite bind_Done with (s1 := s3).
    2:{ subst s3. fold s1 s2. destruct (owner_ptcb pb) as [q|]; [|done].
        destruct (Hhandle q eq_refl) as [v Hv].
        simpl thread_exited. by rewrite Hv. }
    erewrite (bind_Done (CURPROC core)) with (a := owner_pcb b).
    2:{ unfold CURPROC.
        erewrite (bind_Done (CURTHREAD core)); [|by apply Hcur].
        erewrite (bind_Done (get_tcb cur));
          [|apply get_tcb_Done; by rewrite Htcbs3]. done. }
    erewrite bind_Done with (s1 := s4).
    2:{ by rewrite Hcount3, Hcount. }
    unfold release_TCB.
    erewrite (bind_Done (get_tcb p)).
    2:{ apply get_tcb_Done. simpl. by rewrite Htcbs3. }
    erewrite bind_Done; [|reflexivity]. done.
  - simpl. rewrite Hcount3. split_and!; try done.
    + subst s3. by destruct (owner_ptcb pb).
    + apply lookup_delete_eq.
    + subst s3. by destruct (owner_ptcb pb).
Qed.

(** ** Allocation and the first wake-up *)

Lemma wrap_uint_succ_pred n :
  0 ≤ n < 2 ^ 32 → wrap_uint (wrap_uint (n + 1) - 1) = n.
Proof.
  intros Hn. unfold wrap_uint. rewrite Zminus_mod_idemp_l.
  replace (n + 1 - 1) with n by lia. by apply Z.mod_small.
Qed.

Lemma fresh_block_free (s : sched) : tcbs s !! fresh (dom (tcbs s)) = None.
Proof. apply not_elem_of_dom, is_fresh. Qed.

Lemma sched_queue_add_tcbs t s s' :
  sched_queue_add t s = Done tt s' → tcbs s' = tcbs s.
Proof.
  unfold sched_queue_add. intros Hrun.
  apply bind_inv_Done in Hrun as (b & s1 & [-> _]%get_tcb_inv & Hrun).
  apply bind_inv_Done in Hrun as (i & s2 & (-> & _ & _)%queue_index_inv & Hrun).
  unfold rlist_push_back in Hrun.
  apply bind_inv_Done in Hrun as (q & s3 & [-> _]%ready_queue_inv & Hrun).
  unfold modify in Hrun. by simplify_eq.
Qed.

Section allocation.
Context `{Tunables}.

(** X1. [release_TCB] undoes [spawn_thread]: the block that
    [spawn_thread] returns was not allocated before, it is allocated
    afterwards, and releasing it gives back the state from before the
    spawn, [active_threads] included, whatever the memory of the block
    held. *)
Theorem spawn_release_round_trip (pcb : pid) (raw : TCB) (s : sched) :
  0 ≤ active_threads s < 2 ^ 32 →
  ∃ t s1, spawn_thread pcb raw s = Done t s1
    ∧ tcbs s !! t = None
    ∧ is_Some (tcbs s1 !! t)
    ∧ active_threads s1 = wrap_uint (active_threads s + 1)
    ∧ release_TCB t s1 = Done tt s.
Proof.
  intros Hn. eexists _, _. split; [reflexivity|].
  pose proof (fresh_block_free s) as Hfresh.
  split_and!; [done|simpl; by rewrite lookup_insert_eq|done|].
  unfold release_TCB.
  erewrite (bind_Done (get_tcb _)).
  2:{ apply get_tcb_Done. simpl. apply lookup_insert_eq. }
  erewrite bind_Done; [|reflexivity].
  unfold modify. f_equal. apply sched_eq; simpl; try done.
  - by rewrite delete_insert_eq, delete_id.
  - by apply wrap_uint_succ_pred.
Qed.

(** X2. A thread that is spawned and then woken up is [READY] and at the
    back of the top list: [spawn_thread] leaves the ready queues and the
    timeout list as they are, and the first [wakeup] of the new thread
    returns 1 and appends it to [SCHED[TOP_PRIORITY]].  The fields
    [owner_ptcb], [prev] and [next] of its block are still what the
    memory of the block held when it was allocated. *)
Theorem spawned_thread_wakes_at_top (pcb : pid) (raw : TCB) (s : sched) :
  length (SCHED s) = PRIORITY_LISTS →
  (0 < PRIORITY_LISTS)%nat →
  ∃ t s1 s2 q,
    spawn_thread pcb raw s = Done t s1
    ∧ tcbs s !! t = None
    ∧ SCHED s1 = SCHED s ∧ TIMEOUT_LIST s1 = TIMEOUT_LIST s
    ∧ wakeup t s1 = Done 1 s2
    ∧ SCHED s !! Z.to_nat TOP_PRIORITY = Some q
    ∧ SCHED s2 = <[Z.to_nat TOP_PRIORITY := q ++ [t]]> (SCHED s)
    ∧ TIMEOUT_LIST s2 = TIMEOUT_LIST s
    ∧ tcbs s2 = <[t := mkTCB pcb (owner_ptcb raw) NORMAL_THREAD READY
                             CTX_CLEAN NO_TIMEOUT TOP_PRIORITY 0
                             TOP_PRIORITY (prev raw) (next raw)]> (tcbs s).
Proof.
  intros Hlen Hpos.
  set (t := fresh (dom (tcbs s))).
  set (b := mkTCB pcb (owner_ptcb raw) NORMAL_THREAD INIT CTX_CLEAN
                  NO_TIMEOUT TOP_PRIORITY 0 TOP_PRIORITY (prev raw)
                  (next raw)).
  set (s1 := set_active_threads (λ n, wrap_uint (n + 1))
               (set_tcbs <[t := b]> s)).
  assert (Hb : tcbs s1 !! t = Some b) by apply lookup_insert_eq.
  assert (Htop : (Z.to_nat TOP_PRIORITY < length (SCHED s))%nat).
  { unfold TOP_PRIORITY. lia. }
  destruct (lookup_lt_is_Some_2 _ _ Htop) as [q Hq].
  pose proof (sched_make_ready_Done t b s1 Hb) as Hready.
  cbv zeta in Hready.
  rewrite (bool_decide_eq_false_2 (wakeup_time b ≠ NO_TIMEOUT)) in Hready
    by (simpl; tauto).
  rewrite (bool_decide_eq_true_2 (phase b = CTX_CLEAN)) in Hready by done.
  eexists t, s1, _, q. split; [done|].
  split; [apply fresh_block_free|]. split; [done|]. split; [done|].
  split.
  - unfold wakeup. erewrite bind_Done; [|by apply get_tcb_Done].
    rewrite bool_decide_eq_true_2 by (by right).
    erewrite bind_Done; [reflexivity|].
    apply Hready; [by right|done|].
    intros _. simpl. unfold TOP_PRIORITY in *. lia.
  - simpl. rewrite Hq. split_and!; try done.
    by rewrite insert_insert_eq.
Qed.

End allocation.

(** ** Waking up, twice and after a sleep *)

Lemma unlink_middle t (l1 l2 : list tid) :
  t ∉ l1 ++ l2 → unlink t (l1 ++ t :: l2) = l1 ++ l2.
Proof.
  intros [H1 H2]%not_elem_of_app. unfold unlink.
  rewrite filter_app, filter_cons_False by (intros Hn; by apply Hn).
  fold (unlink t l1) (unlink t l2). by rewrite !unlink_notin.
Qed.

Section wakeups.
Context `{Tunables}.

Lemma sched_make_ready_state t s s' :
  sched_make_ready t s = Done tt s' →
  ∃ b, tcbs s' !! t = Some b ∧ state b = READY.
Proof.
  unfold sched_make_ready. intros Hrun.
  apply bind_inv_Done in Hrun as (b & s1 & _ & Hrun).
  apply bind_inv_Done in Hrun as (? & s2 & _ & Hrun).
  apply bind_inv_Done in Hrun as (? & s3 & _ & Hrun).
  apply bind_inv_Done in Hrun as (? & s4 & Hupd & Hrun).
  apply upd_tcb_inv in Hupd as (b3 & Hb3 & ->).
  apply bind_inv_Done in Hrun as (b4 & s5 & [-> Hb4]%get_tcb_inv & Hrun).
  simpl in Hb4. rewrite lookup_insert_eq in Hb4. simplify_eq.
  exists (with_state READY b3). split; [|done].
  case_bool_decide.
  - apply sched_queue_add_tcbs in Hrun. rewrite Hrun. simpl.
    apply lookup_insert_eq.
  - unfold mret, M_ret in Hrun. simplify_eq. simpl. apply lookup_insert_eq.
Qed.

(** X3. [wakeup] is idempotent: after a [wakeup] of a thread has
    returned, with 1 or with 0, a further [wakeup] of that thread returns
    0 and changes nothing.  Repeated wake-ups never put a thread into a
    ready queue twice. *)
Theorem wakeup_twice (t : tid) (r : Z) (s s1 : sched) :
  wakeup t s = Done r s1 →
  wakeup t s1 = Done 0 s1.
Proof.
  unfold wakeup. intros Hrun.
  apply bind_inv_Done in Hrun as (b & s0 & [-> Hb]%get_tcb_inv & Hrun).
  destruct (decide (state b = STOPPED ∨ state b = INIT)) as [Hst|Hst].
  - rewrite (bool_decide_eq_true_2 _ Hst) in Hrun.
    apply bind_inv_Done in Hrun as ([] & s2 & Hready & Hrun).
    unfold mret, M_ret in Hrun. simplify_eq.
    apply sched_make_ready_state in Hready as (b1 & Hb1 & Hst1).
    erewrite bind_Done; [|by apply get_tcb_Done].
    rewrite bool_decide_eq_false_2; [done|].
    rewrite Hst1. by intros [|].
  - rewrite (bool_decide_eq_false_2 _ Hst) in Hrun.
    unfold mret, M_ret in Hrun. simplify_eq.
    erewrite bind_Done; [|by apply get_tcb_Done].
    by rewrite (bool_decide_eq_false_2 _ Hst).
Qed.

(** X4. A wake-up undoes a sleep.  When the running thread of a core
    goes to sleep through [sleep_releasing], with a timeout or without,
    and is woken up before it has yielded, the timeout list and the
    ready queues are as they were before the sleep: the thread is
    [READY] with no deadline, and since its context is still in use it is
    not in a ready queue. *)
Theorem sleep_wakeup_round_trip (core : nat) (c : CCB) (b : TCB)
    (timeout curtime : Z) (s : sched) :
  cctx s !! core = Some c →
  tcbs s !! current_thread c = Some b →
  phase b = CTX_DIRTY →
  wakeup_time b = NO_TIMEOUT →
  (current_thread c ∉ TIMEOUT_LIST s) →
  (current_thread c ∉ concat (SCHED s)) →
  Forall (λ x, is_Some (tcbs s !! x)) (TIMEOUT_LIST s) →
  (timeout ≠ NO_TIMEOUT → wrap_timer (curtime + timeout) ≠ NO_TIMEOUT) →
  ∃ s1 b1,
    sleep_releasing_locked core STOPPED timeout curtime s = Done tt s1
    ∧ tcbs s1 !! current_thread c = Some b1
    ∧ state b1 = STOPPED
    ∧ (timeout ≠ NO_TIMEOUT →
       current_thread c ∈ TIMEOUT_LIST s1
       ∧ wakeup_time b1 = wrap_timer (curtime + timeout))
    ∧ (timeout = NO_TIMEOUT → TIMEOUT_LIST s1 = TIMEOUT_LIST s)
    ∧ wakeup (current_thread c) s1
      = Done 1 (set_tcbs <[current_thread c := with_state READY b]> s).
Proof.
  intros Hc Hb Hdirty Hnone Hout Hoq Hall Hdead.
  set (t := current_thread c) in *.
  set (b0 := with_state STOPPED b).
  set (s0 := set_tcbs <[t := b0]> s).
  assert (Hb0 : tcbs s0 !! t = Some b0) by apply lookup_insert_eq.
  assert (Hall0 : Forall (λ x, is_Some (tcbs s0 !! x)) (TIMEOUT_LIST s0)).
  { eapply Forall_impl; [exact Hall|]. intros x Hx. simpl.
    destruct (decide (x = t)) as [->|Hne];
      [by rewrite lookup_insert_eq|by rewrite lookup_insert_ne]. }
  assert (Hstart : ∀ k : M unit,
    (assert (bool_decide (STOPPED = STOPPED ∨ STOPPED = EXITED));;
     tcb ← CURTHREAD core;
     upd_tcb tcb (with_state STOPPED);;
     if bool_decide (STOPPED ≠ EXITED)
     then sched_register_timeout curtime tcb timeout else k) s
    = sched_register_timeout curtime t timeout s0).
  { intros k.
    rewrite (bool_decide_eq_true_2 (STOPPED = STOPPED ∨ STOPPED = EXITED))
      by (by left).
    erewrite bind_Done; [|reflexivity].
    erewrite (bind_Done (CURTHREAD core)).
    2:{ unfold CURTHREAD, CURCORE, mbind, M_bind. by rewrite Hc. }
    erewrite bind_Done; [|by apply upd_tcb_Done].
    by rewrite (bool_decide_eq_true_2 (STOPPED ≠ EXITED)) by done. }
  unfold sleep_releasing_locked. rewrite Hstart. clear Hstart.
  assert (Hwake : ∀ s1 b1,
    tcbs s1 !! t = Some b1 → state b1 = STOPPED → phase b1 = CTX_DIRTY →
    (wakeup_time b1 ≠ NO_TIMEOUT → is_linked t s1 = true) →
    wakeup t s1 =
    Done 1 (set_tcbs (λ _, <[t := with_state READY
                (if bool_decide (wakeup_time b1 ≠ NO_TIMEOUT)
                 then with_wakeup_time NO_TIMEOUT b1 else b1)]> (tcbs s1))
             (set_TIMEOUT_LIST (λ _,
                if bool_decide (wakeup_time b1 ≠ NO_TIMEOUT)
                then unlink t (TIMEOUT_LIST s1) else TIMEOUT_LIST s1)
                (set_SCHED (λ _,
                   if bool_decide (wakeup_time b1 ≠ NO_TIMEOUT)
                   then unlink t <$> SCHED s1 else SCHED s1) s1)))).
  { intros s1 b1 Hb1 Hst1 Hph1 Hl1. unfold wakeup.
    erewrite bind_Done; [|by apply get_tcb_Done].
    rewrite bool_decide_eq_true_2 by (by left).
    pose proof (sched_make_ready_Done t b1 s1 Hb1) as Hready.
    cbv zeta in Hready.
    rewrite (bool_decide_eq_false_2 (phase b1 = CTX_CLEAN)) in Hready
      by (by rewrite Hph1).
    erewrite bind_Done; [reflexivity|].
    apply Hready; [by left|by auto|]. by rewrite Hph1. }
  destruct (decide (timeout = NO_TIMEOUT)) as [->|Hto].
  - rewrite sched_register_timeout_none.
    exists s0, b0. split; [done|]. split; [done|]. split; [done|].
    split; [done|]. split; [done|].
    rewrite (Hwake s0 b0) by done.
    rewrite !(bool_decide_eq_false_2 (wakeup_time b0 ≠ NO_TIMEOUT))
      by (simpl; tauto).
    f_equal. apply sched_eq; simpl; try done.
    by rewrite insert_insert_eq.
  - destruct (sched_register_timeout_Done curtime t timeout b0 s0)
      as (l1 & l2 & Hl & Hreg & _); [done..|].
    rewrite Hreg. simpl in Hl.
    set (b1 := with_wakeup_time (wrap_timer (curtime + timeout)) b0).
    eexists _, b1. split; [reflexivity|].
    split; [simpl; apply lookup_insert_eq|]. split; [done|].
    split.
    { intros _. split; [|done]. simpl. set_solver. }
    split; [done|].
    erewrite (Hwake _ b1); [|simpl; apply lookup_insert_eq|done|done|].
    2:{ intros _. unfold is_linked. simpl.
        rewrite bool_decide_eq_true_2; [done|set_solver]. }
    rewrite !(bool_decide_eq_true_2 (wakeup_time b1 ≠ NO_TIMEOUT))
      by (simpl; auto).
    f_equal. apply sched_eq; simpl; try done.
    + rewrite !insert_insert_eq. f_equal.
      destruct b; simpl in *. by subst.
    + by apply unlink_queues_notin.
    + rewrite unlink_middle; [done|]. by rewrite <- Hl.
Qed.

(** X5. [sched_make_ready] refuses a thread it cannot make ready: for a
    thread that is neither [STOPPED] nor [INIT], and for a thread with a
    deadline that is [INIT] or whose node is in no list, it fails an
    assertion and has changed nothing by then. *)
Theorem sched_make_ready_rejects (t : tid) (b : TCB) (s : sched) :
  tcbs s !! t = Some b →
  (state b ≠ STOPPED ∧ state b ≠ INIT)
  ∨ (wakeup_time b ≠ NO_TIMEOUT
     ∧ (state b = INIT
        ∨ (t ∉ TIMEOUT_LIST s) ∧ (t ∉ concat (SCHED s)))) →
  sched_make_ready t s = Crash AssertFail s.
Proof.
  intros Hb Hbad. unfold sched_make_ready.
  erewrite bind_Done; [|by apply get_tcb_Done].
  destruct (decide (state b = STOPPED ∨ state b = INIT)) as [Hst|Hst].
  - destruct Hbad as [[? ?]|[Hw Hbad]]; [tauto|].
    rewrite (bool_decide_eq_true_2 _ Hst).
    erewrite bind_Done; [|reflexivity].
    rewrite (bool_decide_eq_true_2 _ Hw).
    apply bind_Crash. erewrite bind_Done; [|reflexivity].
    apply bind_Crash.
    replace (is_linked t s && bool_decide (state b = STOPPED)) with false;
      [done|].
    symmetry. apply andb_false_iff. destruct Hbad as [Hinit|[H1 H2]].
    + right. apply bool_decide_eq_false_2. by rewrite Hinit.
    + left. unfold is_linked. by rewrite !bool_decide_eq_false_2.
  - rewrite (bool_decide_eq_false_2 _ Hst). by apply bind_Crash.
Qed.

End wakeups.

(** ** The feedback on the priority *)

Lemma with_priority_same b : with_priority (priority b) b = b.
Proof. by destruct b. Qed.

Section feedback.
Context `{Tunables}.

(** X6. The feedback of [yield] on a thread that is not waiting on a
    mutex and whose priority is an index of [SCHED]: the end of a quantum
    lowers the priority by one and stops at [LOWEST_PRIORITY], an I/O
    interrupt raises it by one and stops at [TOP_PRIORITY], and the other
    causes but [SCHED_MUTEX] leave it as it is.  No other field of the
    block changes. *)
Theorem yield_priority_feedback (cause : SCHED_CAUSE) (b : TCB) :
  mutex_flag b = 0 →
  LOWEST_PRIORITY ≤ priority b ≤ TOP_PRIORITY →
  TOP_PRIORITY < INT_MAX →
  cause ≠ SCHED_MUTEX →
  yield_priority cause b =
  with_priority
    (match cause with
     | SCHED_QUANTUM => Z.max LOWEST_PRIORITY (priority b - 1)
     | SCHED_IO => Z.min TOP_PRIORITY (priority b + 1)
     | _ => priority b
     end) b.
Proof.
  intros Hflag Hp Htop Hcause. unfold LOWEST_PRIORITY in *.
  unfold yield_priority.
  assert (Hre : ∀ b', mutex_flag b' = 0 → reinstate_priority cause b' = b').
  { intros b' Hb'. unfold reinstate_priority.
    rewrite (bool_decide_eq_false_2 (mutex_flag b' = 1)); [done|].
    rewrite Hb'. lia. }
  assert (Hmin : INT_MIN ≤ priority b - 1) by (unfold INT_MIN; lia).
  destruct cause; try done; unfold adjust_priority, clamp_priority;
    unfold LOWEST_PRIORITY; simpl priority.
  - rewrite wrap_int_id by (unfold INT_MIN, INT_MAX in *; lia).
    repeat case_bool_decide; rewrite Hre by done;
      unfold with_priority; simpl; f_equal; lia.
  - rewrite wrap_int_id by (unfold INT_MIN, INT_MAX in *; lia).
    repeat case_bool_decide; rewrite Hre by done;
      unfold with_priority; simpl; f_equal; lia.
  - repeat case_bool_decide; try lia. rewrite Hre by done.
    by rewrite with_priority_same.
  - repeat case_bool_decide; try lia. rewrite Hre by done.
    by rewrite with_priority_same.
  - repeat case_bool_decide; try lia. rewrite Hre by done.
    by rewrite with_priority_same.
  - repeat case_bool_decide; try lia. rewrite Hre by done.
    by rewrite with_priority_same.
Qed.

(** X7. [yield] keeps the priority an index of [SCHED].  For a block
    whose [priority] and [prev_queue] are between [LOWEST_PRIORITY] and
    [TOP_PRIORITY], they still are after the priority update of a
    [yield], whatever the cause and whether or not the thread waits on a
    mutex; and the update changes no field but [priority], [mutex_flag]
    and [prev_queue]. *)
Theorem yield_priority_in_range (cause : SCHED_CAUSE) (b : TCB) :
  (0 < PRIORITY_LISTS)%nat →
  TOP_PRIORITY < INT_MAX →
  LOWEST_PRIORITY ≤ priority b ≤ TOP_PRIORITY →
  LOWEST_PRIORITY ≤ prev_queue b ≤ TOP_PRIORITY →
  let b' := yield_priority cause b in
  LOWEST_PRIORITY ≤ priority b' ≤ TOP_PRIORITY
  ∧ LOWEST_PRIORITY ≤ prev_queue b' ≤ TOP_PRIORITY
  ∧ b' = with_prev_queue (prev_queue b')
           (with_mutex_flag (mutex_flag b')
              (with_priority (priority b') b)).
Proof.
  intros Hpos Htop Hp Hq. unfold LOWEST_PRIORITY in *.
  assert (H0 : 0 ≤ TOP_PRIORITY) by (unfold TOP_PRIORITY; lia).
  cbv zeta. unfold yield_priority, reinstate_priority, clamp_priority.
  unfold LOWEST_PRIORITY.
  destruct cause; unfold adjust_priority, LOWEST_PRIORITY; simpl;
    rewrite ?(wrap_int_id (priority b - 1))
      by (unfold INT_MIN, INT_MAX in *; lia);
    rewrite ?(wrap_int_id (priority b + 1))
      by (unfold INT_MIN, INT_MAX in *; lia);
    repeat (case_bool_decide; simpl); simpl;
    (split_and!; [lia..|by destruct b]).
Qed.

End feedback.

(** ** The start of a time slice *)

Section gain_cases.
Context `{Tunables}.

Lemma CURTHREAD_Done core c s :
  cctx s !! core = Some c → CURTHREAD core s = Done (current_thread c) s.
Proof.
  intros Hc. unfold CURTHREAD, CURCORE, mbind, M_bind. by rewrite Hc.
Qed.

Lemma queue_index_Done p s :
  0 ≤ p < Z.of_nat (length (SCHED s)) →
  queue_index p s = Done (Z.to_nat p) s.
Proof. intros Hp. unfold queue_index. by rewrite bool_decide_eq_true_2. Qed.

Lemma sched_queue_add_Done t b s :
  tcbs s !! t = Some b →
  0 ≤ priority b < Z.of_nat (length (SCHED s)) →
  sched_queue_add t s =
  Done tt (set_SCHED
             (λ qs, <[Z.to_nat (priority b) :=
                        default [] (qs !! Z.to_nat (priority b)) ++ [t]]> qs)
             s).
Proof.
  intros Hb Hp. unfold sched_queue_add.
  erewrite bind_Done; [|by apply get_tcb_Done].
  erewrite bind_Done; [|by apply queue_index_Done].
  destruct (lookup_lt_is_Some_2 (SCHED s) (Z.to_nat (priority b)))
    as [q Hq]; [lia|].
  erewrite rlist_push_back_Done by done.
  f_equal. apply sched_eq; simpl; try done. by rewrite Hq.
Qed.

(** [gain] after a switch away from a thread that is [READY] or
    [STOPPED]. *)
Lemma gain_previous_Done (core : nat) (c : CCB) (b pb : TCB) (p : tid)
    (s : sched) :
  cctx s !! core = Some c →
  tcbs s !! current_thread c = Some b →
  prev b = Some p →
  p ≠ current_thread c →
  tcbs s !! p = Some pb →
  state pb = READY ∨ state pb = STOPPED →
  (state pb = READY → type pb ≠ IDLE_THREAD →
   0 ≤ priority pb < Z.of_nat (length (SCHED s))) →
  let i := Z.to_nat (priority pb) in
  gain core s =
  Done tt
    (set_SCHED
       (λ qs, if bool_decide (state pb = READY ∧ type pb ≠ IDLE_THREAD)
              then <[i := default [] (qs !! i) ++ [p]]> qs else qs)
       (set_tcbs
          (λ h, <[p := with_phase CTX_CLEAN pb]>
                  (<[current_thread c :=
                       with_phase CTX_DIRTY (with_state RUNNING b)]> h))
          s)).
Proof.
  intros Hc Hb Hprev Hne Hpb Hst Hprio. cbv zeta.
  set (cur := current_thread c) in *.
  set (b' := with_phase CTX_DIRTY (with_state RUNNING b)).
  set (pb' := with_phase CTX_CLEAN pb).
  set (s1 := set_tcbs <[cur := b']> s).
  set (s2 := set_tcbs <[p := pb']> s1).
  assert (Hp2 : tcbs s2 !! p = Some pb') by apply lookup_insert_eq.
  unfold gain.
  erewrite (bind_Done (CURTHREAD core)); [|by apply CURTHREAD_Done].
  erewrite (bind_Done (get_tcb cur)); [|by apply get_tcb_Done].
  erewrite (bind_Done (upd_tcb cur _)); [|by apply upd_tcb_Done].
  rewrite Hprev.
    rewrite (bool_decide_eq_true_2 (Some cur ≠ Some p)) by congruence.
  erewrite (bind_Done (upd_tcb p _)).
  2:{ apply upd_tcb_Done. simpl. by rewrite lookup_insert_ne. }
  erewrite (bind_Done (get_tcb p)); [|by apply get_tcb_Done].
  replace (state pb') with (state pb) by done.
  replace (type pb') with (type pb) by done.
  destruct Hst as [Hst|Hst]; rewrite Hst.
  - destruct (decide (type pb ≠ IDLE_THREAD)) as [Hty|Hty].
    + rewrite (bool_decide_eq_true_2 _ Hty).
      rewrite (bool_decide_eq_true_2 (READY = READY ∧ _)) by done.
      by erewrite (sched_queue_add_Done p pb') by (by auto).
    + rewrite (bool_decide_eq_false_2 _ Hty).
      rewrite (bool_decide_eq_false_2 (READY = READY ∧ _)) by tauto.
      done.
  - by rewrite (bool_decide_eq_false_2 (STOPPED = READY ∧ _))
      by (by intros [? _]).
Qed.


(** X9. The edges of [gain].  A thread that goes on after a yield to
    itself ([prev] is the thread itself) is only marked [RUNNING] with a
    context in use.  A null [prev] is dereferenced.  With a [prev] that
    is [INIT] or [RUNNING], [gain] fails its assertion, with the ready
    queues and the timeout list as they were. *)
Theorem gain_edges (core : nat) (c : CCB) (b : TCB) (s : sched) :
  cctx s !! core = Some c →
  tcbs s !! current_thread c = Some b →
  let s1 := set_tcbs <[current_thread c :=
                         with_phase CTX_DIRTY (with_state RUNNING b)]> s in
  (prev b = Some (current_thread c) → gain core s = Done tt s1)
  ∧ (prev b = None → gain core s = Crash NullDeref s1)
  ∧ (∀ p pb, prev b = Some p → p ≠ current_thread c →
       tcbs s !! p = Some pb →
       state pb = INIT ∨ state pb = RUNNING →
       ∃ s', gain core s = Crash AssertFail s'
             ∧ SCHED s' = SCHED s ∧ TIMEOUT_LIST s' = TIMEOUT_LIST s).
Proof.
  intros Hc Hb. cbv zeta.
  set (cur := current_thread c) in *.
  split_and!.
  - intros Hprev. unfold gain.
    erewrite (bind_Done (CURTHREAD core)); [|by apply CURTHREAD_Done].
    erewrite (bind_Done (get_tcb cur)); [|by apply get_tcb_Done].
    erewrite (bind_Done (upd_tcb cur _)); [|by apply upd_tcb_Done].
    rewrite Hprev. by rewrite bool_decide_eq_false_2 by (by intros ?).
  - intros Hprev. unfold gain.
    erewrite (bind_Done (CURTHREAD core)); [|by apply CURTHREAD_Done].
    erewrite (bind_Done (get_tcb cur)); [|by apply get_tcb_Done].
    erewrite (bind_Done (upd_tcb cur _)); [|by apply upd_tcb_Done].
    rewrite Hprev. by rewrite bool_decide_eq_true_2 by done.
  - intros p pb Hprev Hne Hpb Hst. unfold gain.
    erewrite (bind_Done (CURTHREAD core)); [|by apply CURTHREAD_Done].
    erewrite (bind_Done (get_tcb cur)); [|by apply get_tcb_Done].
    erewrite (bind_Done (upd_tcb cur _)); [|by apply upd_tcb_Done].
    rewrite Hprev.
    rewrite (bool_decide_eq_true_2 (Some cur ≠ Some p)) by congruence.
    erewrite (bind_Done (upd_tcb p _)).
    2:{ apply upd_tcb_Done. simpl. by rewrite lookup_insert_ne. }
    erewrite (bind_Done (get_tcb p)).
    2:{ apply get_tcb_Done. simpl. apply lookup_insert_eq. }
    replace (state (with_phase CTX_CLEAN pb)) with (state pb) by done.
    eexists. split; [destruct Hst as [->| ->]; reflexivity|done].
Qed.

End gain_cases.

(** ** The congestion counter over a run *)

Section congestion_run.
Context `{Tunables}.

Lemma counters_only_True : counters_only (λ _, True).
Proof. by split. Qed.

Lemma counters_only_congestion (Q : Z → Prop) :
  counters_only (λ s, Q (counter_congestion s)).
Proof. by split. Qed.

Lemma update_congestion_nonneg i :
  hoare (λ _, True) (update_congestion i)
        (λ _ s, 0 ≤ counter_congestion s).
Proof.
  unfold update_congestion.
  eapply hoare_bind with (R := λ _ _, True); [by intros ? ? ? ? ?|].
  intros ?; cbv beta.
  eapply hoare_bind with (R := λ v s, v = s);
    [by apply hoare_get|intros s0].
  case_bool_decide as Hneg.
  - apply hoare_modify. by intros s _.
  - apply hoare_ret. intros s <-. lia.
Qed.

Lemma boost_resets :
  hoare (λ _, True) boost (λ _ s, counter_congestion s = 0).
Proof.
  unfold boost.
  eapply hoare_bind with (R := λ _ _, True); [by intros ? ? ? ? ?|].
  intros ?; cbv beta.
  eapply hoare_bind with (R := λ _ s, counter_congestion s = 0).
  { apply hoare_modify. by intros s _. }
  intros ?; cbv beta.
  apply keeps_boost_levels, (counters_only_congestion (λ c, c = 0)).
Qed.

(** After a selection the congestion counter is not negative, and it is
    below [MAX_CONGESTION] unless it is 0: a counter that reaches the
    threshold is reset by the boost it triggers. *)
Lemma select_scan_nonneg curtime :
  hoare (λ _, True) (select_scan curtime)
        (λ _ s, 0 ≤ counter_congestion s).
Proof.
  unfold select_scan.
  eapply hoare_bind with (R := λ _ _, True); [by intros ? ? ? ? ?|].
  intros s0.
  eapply hoare_bind with (R := λ _ _, True); [by intros ? ? ? ? ?|].
  intros ?; cbv beta.
  eapply hoare_bind with (R := λ _ _, True); [by intros ? ? ? ? ?|].
  intros [i sel].
  eapply hoare_bind; [apply update_congestion_nonneg|].
  intros ?; cbv beta.
  eapply hoare_bind with (R := λ _ s, 0 ≤ counter_congestion s).
  { apply hoare_modify. by intros s Hs. }
  intros ?; cbv beta. by apply hoare_ret.
Qed.

Lemma select_congestion_bounded curtime :
  hoare (λ _, True) (sched_queue_select curtime)
        (λ _ s, 0 ≤ counter_congestion s
                ∧ (counter_congestion s = 0
                   ∨ counter_congestion s < MAX_CONGESTION)).
Proof.
  intros s _ r s' Hrun.
  destruct (select_boost_test curtime s r s' Hrun)
    as (sel & sm & Hscan & _ & _ & _ & Htest).
  pose proof (select_scan_nonneg curtime s I sel sm Hscan) as Hnn.
  simpl in Hnn.
  case_bool_decide as Hneed.
  - destruct Htest as [_ ->]. split; [done|by left].
  - subst s'. split; [done|]. right.
    destruct (decide (counter_congestion sm < MAX_CONGESTION)); [done|].
    destruct Hneed. left. lia.
Qed.

Lemma exec_congestion_bounded o :
  keeps (λ s, 0 ≤ counter_congestion s
              ∧ (counter_congestion s = 0
                 ∨ counter_congestion s < MAX_CONGESTION)) (exec o).
Proof.
  pose proof (counters_only_congestion
    (λ c, 0 ≤ c ∧ (c = 0 ∨ c < MAX_CONGESTION))) as Hco.
  destruct o; simpl.
  - apply keeps_bind; [by apply keeps_spawn_thread|intros; apply keeps_ret].
  - apply keeps_upd_tcb, (co_tcbs _ Hco).
  - apply keeps_bind; [by apply keeps_wakeup|intros; apply keeps_ret].
  - by apply keeps_sleep_releasing_locked.
  - eapply hoare_conseq;
      [apply (yield_switch_around (λ _, True) counters_only_True
                (Q := λ _ s, 0 ≤ counter_congestion s
                             ∧ (counter_congestion s = 0
                                ∨ counter_congestion s < MAX_CONGESTION)));
         [apply select_congestion_bounded|exact Hco]
      |done|done].
  - by apply keeps_gain.
  - eapply hoare_conseq; [apply boost_resets|done|].
    intros ? s Hs. simpl in Hs. rewrite Hs. split; [done|by left].
Qed.

(** X10. From the cold start, with every operation called properly, the
    congestion counter is at least 0 in every state of the run, and it
    is below [MAX_CONGESTION] unless it is 0: the counter never rests at
    the threshold, since the selection that takes it there calls
    [boost], which resets it. *)
Theorem congestion_stays_below_threshold (s0 s : sched) (os : list op) :
  cold_start s0 → disciplined s0 os s →
  0 ≤ counter_congestion s
  ∧ (counter_congestion s = 0 ∨ counter_congestion s < MAX_CONGESTION).
Proof.
  intros (Hinit & _) Hsteps.
  apply initial_counters in Hinit as (_ & _ & Hcc & _).
  assert (Hstart : 0 ≤ counter_congestion s0
                   ∧ (counter_congestion s0 = 0
                      ∨ counter_congestion s0 < MAX_CONGESTION)).
  { rewrite Hcc. split; [done|by left]. }
  clear Hcc. induction Hsteps as [|s1 o s2 os s3 _ Hexec _ IH]; [done|].
  apply IH. by eapply (exec_congestion_bounded o s1).
Qed.

End congestion_run.

(** ** Boosts and the order of the queues *)

Lemma queued_by_priority_allocated s :
  queued_by_priority s → queued_allocated s.
Proof.
  intros Hq. apply Forall_forall. intros t Ht.
  apply elem_of_concat in Ht as (q & Hl & Ht).
  apply list_elem_of_lookup in Hl as [i Hi].
  destruct (Hq i q t Hi Ht) as (b & Hb & _). by exists b.
Qed.

Section boost_order.
Context `{Tunables}.

(** [boost] keeps every queued thread in the queue of its priority. *)
Lemma boost_by_priority s :
  length (SCHED s) = PRIORITY_LISTS →
  Z.of_nat PRIORITY_LISTS ≤ INT_MAX →
  NoDup (concat (SCHED s)) →
  queued_by_priority s →
  ∃ s', boost s = Done tt s'
    ∧ queued_by_priority s'
    ∧ NoDup (concat (SCHED s'))
    ∧ length (SCHED s') = PRIORITY_LISTS
    ∧ concat (SCHED s') ≡ₚ concat (SCHED s)
    ∧ SCHED s' = match reverse (SCHED s) with
                 | top :: below :: lo' =>
                     [] :: reverse lo' ++ [top ++ below]
                 | _ => SCHED s
                 end.
Proof.
  intros Hlen Hmax Hnd Hq.
  pose proof (queued_by_priority_allocated s Hq) as Hall.
  destruct (decide (2 ≤ PRIORITY_LISTS)%nat) as [H2|H1].
  - destruct (two_levels (SCHED s)) as (lo & below & top & Hs); [lia|].
    eexists. split; [by apply (boost_levels_Done lo below top)|].
    simpl.
    assert (Hperm : concat ([] :: lo ++ [top ++ below])
                    ≡ₚ concat (SCHED s)).
    { rewrite Hs. simpl. rewrite !concat_app. simpl. rewrite !app_nil_r.
      f_equiv. apply Permutation_app_comm. }
    assert (HL : NoDup (below ++ concat (reverse lo))
                 ∧ ∀ t, t ∈ top → t ∉ below ++ concat (reverse lo)).
    { rewrite Hs, concat_app in Hnd. simpl in Hnd. rewrite app_nil_r in Hnd.
      apply NoDup_app in Hnd as (Hlo & Hdisj & Hbt).
      apply NoDup_app in Hbt as (Hb & Hdisj' & Ht).
      split.
      - apply NoDup_app. split; [done|].
        split; [|by rewrite concat_reverse_perm].
        intros x Hx Hx'. rewrite concat_reverse_perm in Hx'.
        apply (Hdisj x Hx'). apply elem_of_app. by left.
      - intros t Ht' [Hin|Hin]%elem_of_app.
        + by apply (Hdisj' t Hin).
        + rewrite concat_reverse_perm in Hin.
          apply (Hdisj t Hin). apply elem_of_app. by right. }
    destruct HL as [HL Htop].
    assert (Hraised : ∀ j q t, (j ≤ length lo)%nat →
              SCHED s !! j = Some q → t ∈ q →
              t ∈ below ++ concat (reverse lo) →
              ∃ b, raise_all (below ++ concat (reverse lo)) (tcbs s) !! t
                   = Some b ∧ priority b = Z.of_nat (S j)).
    { intros j q t Hj Hjq Ht Hin.
      destruct (Hq j q t Hjq Ht) as (b & Hb & Hp).
      rewrite raise_all_in, Hb by done. eexists. split; [done|].
      simpl. rewrite Hp, wrap_int_id; [lia|].
      assert (length (SCHED s) = (length lo + 2)%nat)
        by (rewrite Hs, length_app; simpl; lia).
      unfold INT_MIN, INT_MAX in *. lia. }
    split_and!.
    + intros i q t Hi Ht. destruct i as [|j]; simpl in Hi.
      { simplify_eq. by apply elem_of_nil in Ht. }
      destruct (decide (j < length lo)%nat) as [Hj|Hj].
      * rewrite lookup_app_l in Hi by done.
        apply (Hraised j q t); [lia| |done|].
        { rewrite Hs. by rewrite lookup_app_l. }
        apply elem_of_app. right. rewrite concat_reverse_perm.
        apply elem_of_concat. exists q.
        split; [by eapply list_elem_of_lookup_2|done].
      * rewrite lookup_app_r in Hi by lia.
        destruct (j - length lo)%nat as [|?] eqn:E; simpl in Hi; [|done].
        simplify_eq. assert (j = length lo) as -> by lia.
        apply elem_of_app in Ht as [Ht|Ht].
        -- destruct (Hq (S (length lo)) top t) as (b & Hb & Hp); [|done|].
           { rewrite Hs. rewrite lookup_app_r by lia.
             by replace (S (length lo) - length lo)%nat with 1%nat by lia. }
           exists b. split; [|done]. simpl.
           rewrite raise_all_notin; [done|by apply Htop].
        -- apply (Hraised (length lo) below t); [lia| |done|].
           { rewrite Hs. rewrite lookup_app_r by lia.
             by replace (length lo - length lo)%nat with 0%nat by lia. }
           apply elem_of_app. by left.
    + by rewrite Hperm.
    + rewrite <- Hlen, Hs. simpl. rewrite !length_app. simpl. lia.
    + done.
    + rewrite Hs, reverse_app. simpl. by rewrite reverse_involutive.
  - eexists. split; [apply boost_single_Done; lia|]. simpl.
    split_and!; try done.
    destruct (SCHED s) as [|q0 [|q1 qs]]; simpl in Hlen; [done|done|lia].
Qed.

Lemma boosts_spec lo : ∀ k top s,
  SCHED s = replicate k [] ++ lo ++ [top] →
  length (SCHED s) = PRIORITY_LISTS →
  Z.of_nat PRIORITY_LISTS ≤ INT_MAX →
  NoDup (concat (SCHED s)) →
  queued_by_priority s →
  ∃ s', boosts (length lo) s = Done tt s'
    ∧ SCHED s' = replicate (k + length lo) [] ++ [top ++ concat (reverse lo)]
    ∧ queued_by_priority s'.
Proof.
  induction lo as [|below lo IH] using rev_ind; intros k top s Hs Hlen Hmax Hnd Hq.
  - exists s. split; [done|]. split; [|done].
    rewrite Hs. simpl. by rewrite Nat.add_0_r, app_nil_r.
  - destruct (boost_by_priority s Hlen Hmax Hnd Hq)
      as (s1 & Hb & Hq1 & Hnd1 & Hlen1 & _ & Hs1).
    rewrite Hs in Hs1.
    rewrite !reverse_app in Hs1. simpl in Hs1.
    rewrite reverse_app, !reverse_involutive in Hs1.
    destruct (IH (S k) (top ++ below) s1) as (s' & Hrun & Hs' & Hq');
      [rewrite Hs1; simpl; by rewrite <- app_assoc|done..|].
    exists s'. split.
    + rewrite length_app. simpl. rewrite Nat.add_1_r. simpl.
      by erewrite bind_Done; [|exact Hb].
    + split; [|done]. rewrite Hs', length_app, reverse_app. simpl.
      rewrite <- (assoc_L (++)).
      by replace (k + (length lo + 1))%nat with (S (k + length lo)) by lia.
Qed.

(** X16. [boost] keeps the queues in order: when every thread in a ready
    queue has the index of the queue as its priority and no thread is
    queued twice, this is so after [boost] as well. *)
Theorem boost_keeps_queue_of_priority (s : sched) :
  length (SCHED s) = PRIORITY_LISTS →
  Z.of_nat PRIORITY_LISTS ≤ INT_MAX →
  NoDup (concat (SCHED s)) →
  queued_by_priority s →
  ∃ s', boost s = Done tt s'
    ∧ queued_by_priority s'
    ∧ NoDup (concat (SCHED s')).
Proof.
  intros Hlen Hmax Hnd Hq.
  destruct (boost_by_priority s Hlen Hmax Hnd Hq)
    as (s' & Hb & Hq' & Hnd' & _).
  by exists s'.
Qed.

(** X17. Boosting lifts every ready thread to the top.  After
    [TOP_PRIORITY] calls of [boost] in a row, on queues that hold each
    thread once and at the index of its priority, all ready queues but
    the top one are empty, the top queue holds the threads of all queues,
    those of a higher queue before those of a lower one and each queue
    in its FIFO order, and all of them have the priority
    [TOP_PRIORITY]. *)
Theorem boost_to_the_top (s : sched) :
  length (SCHED s) = PRIORITY_LISTS →
  (0 < PRIORITY_LISTS)%nat →
  Z.of_nat PRIORITY_LISTS ≤ INT_MAX →
  NoDup (concat (SCHED s)) →
  queued_by_priority s →
  ∃ s', boosts (Z.to_nat TOP_PRIORITY) s = Done tt s'
    ∧ SCHED s' = replicate (Z.to_nat TOP_PRIORITY) []
                 ++ [concat (reverse (SCHED s))]
    ∧ (∀ t, t ∈ concat (SCHED s) →
         ∃ b, tcbs s' !! t = Some b ∧ priority b = TOP_PRIORITY).
Proof.
  intros Hlen Hpos Hmax Hnd Hq.
  assert (Hsplit : ∃ qs q0, SCHED s = qs ++ [q0]).
  { destruct (SCHED s) as [|q0 qs _] using rev_ind;
      [simpl in Hlen; lia|by exists qs, q0]. }
  destruct Hsplit as (qs & q0 & Hs).
  assert (Htop : Z.to_nat TOP_PRIORITY = length qs).
  { rewrite Hs, length_app in Hlen. simpl in Hlen.
    unfold TOP_PRIORITY. lia. }
  destruct (boosts_spec qs 0 q0 s) as (s' & Hrun & Hs' & Hq'); [done..|].
  simpl in Hs'. rewrite Htop, Hs, reverse_app. simpl.
  exists s'. split; [done|]. split; [done|].
  intros t Ht. rewrite <- (concat_reverse_perm (qs ++ [q0])) in Ht.
  rewrite reverse_app in Ht. simpl in Ht.
  destruct (Hq' (length qs) (q0 ++ concat (reverse qs)) t) as (b & Hb & Hp);
    [|done|].
  { rewrite Hs'. rewrite lookup_app_r by (by rewrite length_replicate).
    by rewrite length_replicate, Nat.sub_diag. }
  exists b. split; [done|]. rewrite Hp.
  rewrite Hs, length_app in Hlen. simpl in Hlen. unfold TOP_PRIORITY. lia.
Qed.

End boost_order.

(** ** What a selection leaves as it is *)

Lemma reprioritised_refl b : reprioritised b b.
Proof. unfold reprioritised. by destruct b. Qed.

Lemma reprioritised_trans b1 b2 b3 :
  reprioritised b1 b2 → reprioritised b2 b3 → reprioritised b1 b3.
Proof.
  unfold reprioritised. intros -> ->. by destruct b1.
Qed.

Lemma reprioritised_raise b : reprioritised b (raise_priority b).
Proof. unfold reprioritised, raise_priority. by destruct b. Qed.

Lemma raise_all_reprioritised q : ∀ h x,
  option_Forall2 reprioritised (h !! x) (raise_all q h !! x).
Proof.
  induction q as [|t q IH]; intros h x; simpl.
  - destruct (h !! x); constructor. apply reprioritised_refl.
  - specialize (IH (alter raise_priority t h) x).
    destruct (decide (x = t)) as [->|Hne].
    + rewrite lookup_alter_eq in IH.
      destruct (h !! t) as [b|]; simpl in IH; inversion IH as [? b' Hr|];
        constructor.
      eapply reprioritised_trans; [apply reprioritised_raise|done].
    + by rewrite lookup_alter_ne in IH.
Qed.

Lemma requeued_refl s : requeued s s.
Proof.
  unfold requeued. split_and!; try done.
  intros x. destruct (tcbs s !! x); constructor. apply reprioritised_refl.
Qed.

Lemma requeued_trans s1 s2 s3 :
  requeued s1 s2 → requeued s2 s3 → requeued s1 s3.
Proof.
  intros (HTL & Hc & Ha & Htc & Hte & Hl & Hp & Hout & Hre)
         (HTL' & Hc' & Ha' & Htc' & Hte' & Hl' & Hp' & Hout' & Hre').
  unfold requeued. split_and!; try congruence.
  - by rewrite Hp'.
  - intros x Hx. rewrite Hout', Hout; [done|done|]. by rewrite Hp.
  - intros x. specialize (Hre x). specialize (Hre' x).
    destruct Hre as [b1 b2 H12|]; inversion Hre' as [? b3 H23|];
      constructor. by eapply reprioritised_trans.
Qed.

Section frames.
Context `{Tunables}.

(** [boost] on queues of allocated threads ends, and only requeues. *)
Lemma boost_frame s :
  length (SCHED s) = PRIORITY_LISTS →
  queued_allocated s →
  ∃ s', boost s = Done tt s'
    ∧ requeued s s'
    ∧ counter_congestion s' = 0
    ∧ fail_safe s' = fail_safe s
    ∧ boost_calls s' = S (boost_calls s).
Proof.
  intros Hlen Hall.
  destruct (decide (2 ≤ PRIORITY_LISTS)%nat) as [H2|H1].
  - destruct (two_levels (SCHED s)) as (lo & below & top & Hs); [lia|].
    eexists. split; [by apply (boost_levels_Done lo below top)|].
    split; [|done]. unfold requeued. simpl. split_and!; try done.
    + rewrite Hs, !length_app. simpl. lia.
    + rewrite Hs, !concat_app. simpl. rewrite !app_nil_r.
      f_equiv. apply Permutation_app_comm.
    + intros x Hx. apply raise_all_notin. intros Hin. apply Hx.
      rewrite Hs, concat_app. simpl. rewrite app_nil_r.
      apply elem_of_app in Hin as [Hin|Hin].
      * apply elem_of_app. right. apply elem_of_app. by left.
      * apply elem_of_app. left.
        by rewrite <- (concat_reverse_perm lo).
    + intros x. apply raise_all_reprioritised.
  - eexists. split; [apply boost_single_Done; lia|].
    split; [|done]. unfold requeued. simpl. split_and!; try done.
    intros x. destruct (tcbs s !! x); constructor. apply reprioritised_refl.
Qed.

(** The counters of the selection are no part of [requeued]. *)
Lemma requeued_scanned s1 :
  requeued
    (set_SCHED
       <[(PRIORITY_LISTS - 1)%nat :=
           tail (default [] (SCHED s1 !! (PRIORITY_LISTS - 1)%nat))]> s1)
    (scanned s1).
Proof.
  unfold requeued, scanned. simpl. split_and!; try done.
  intros x. destruct (tcbs s1 !! x); constructor. apply reprioritised_refl.
Qed.

(** [sched_queue_select] from the state [s1] its first loop ends in: it
    pops the first thread of the top list of [s1], if there is one, and
    apart from that it only requeues. *)
Lemma select_after_drain curtime s s1 :
  drain_timeouts (length (TIMEOUT_LIST s) + 2) curtime s = Done tt s1 →
  length (SCHED s1) = PRIORITY_LISTS →
  (0 < PRIORITY_LISTS)%nat →
  queued_allocated s1 →
  let top := (PRIORITY_LISTS - 1)%nat in
  let q := default [] (SCHED s1 !! top) in
  ∃ s',
    sched_queue_select curtime s = Done (head q) s'
    ∧ requeued (set_SCHED <[top := tail q]> s1) s'
    ∧ fail_safe s' = wrap_int (fail_safe s1 + 1)
    ∧ 0 ≤ counter_congestion s'.
Proof.
  intros Hdrain Hlen Hpos Hall top q.
  destruct (select_drained curtime s s1 Hdrain Hlen Hpos Hall)
    as (s' & Hrun & Htest & Hcc & Hfs & _).
  cbv zeta in Htest, Hcc. fold top q in Hrun.
  exists s'. split; [exact Hrun|].
  pose proof (requeued_scanned s1) as Hre. fold top q in Hre.
  destruct (bool_decide (counter_congestion (scanned s1) >= MAX_CONGESTION)
            || bool_decide (fail_safe (scanned s1) = 500)).
  - destruct (boost_frame (scanned s1)) as (s4 & Hb & Hre4 & _).
    { simpl. by rewrite length_insert. }
    { destruct (lookup_lt_is_Some_2 (SCHED s1) top) as [q0 Hq0];
        [unfold top; lia|].
      pose proof (queued_allocated_pop s1 _ q0 Hall Hq0) as Hpop.
      unfold queued_allocated in *. unfold scanned. simpl.
      fold top. rewrite Hq0. exact Hpop. }
    rewrite Htest in Hb. injection Hb as <-.
    split; [exact (requeued_trans _ _ _ Hre Hre4)|].
    split; [by rewrite Hfs|]. by rewrite Hcc.
  - subst s'. split; [done|]. split; [done|]. simpl. lia.
Qed.

(** The selection with no deadline due and with the thread [t] at the
    head of the top list. *)
Lemma select_effect curtime s t q :
  nothing_due curtime s →
  length (SCHED s) = PRIORITY_LISTS →
  queued_allocated s →
  SCHED s !! (PRIORITY_LISTS - 1)%nat = Some (t :: q) →
  ∃ s', sched_queue_select curtime s = Done (Some t) s'
    ∧ requeued (set_SCHED <[(PRIORITY_LISTS - 1)%nat := q]> s) s'
    ∧ fail_safe s' = wrap_int (fail_safe s + 1)
    ∧ 0 ≤ counter_congestion s'.
Proof.
  intros Hdue Hlen Hall Hi.
  assert (Hpos : (0 < PRIORITY_LISTS)%nat).
  { apply lookup_lt_Some in Hi. lia. }
  destruct (select_after_drain curtime s s) as (s' & Hrun & Hre & Hfs & Hcc);
    [by apply drain_nothing_due|done|done|done|].
  rewrite Hi in Hrun, Hre. exists s'. by split_and!.
Qed.

(** The selection with no deadline due and with an empty top list: the
    result is null, whatever the lists below hold. *)
Lemma select_top_empty curtime s :
  nothing_due curtime s →
  length (SCHED s) = PRIORITY_LISTS →
  queued_allocated s →
  SCHED s !! (PRIORITY_LISTS - 1)%nat = Some [] →
  ∃ s', sched_queue_select curtime s = Done None s'
    ∧ requeued s s'
    ∧ fail_safe s' = wrap_int (fail_safe s + 1)
    ∧ 0 ≤ counter_congestion s'.
Proof.
  intros Hdue Hlen Hall Hi.
  assert (Hpos : (0 < PRIORITY_LISTS)%nat).
  { apply lookup_lt_Some in Hi. lia. }
  destruct (select_after_drain curtime s s) as (s' & Hrun & Hre & Hfs & Hcc);
    [by apply drain_nothing_due|done|done|done|].
  rewrite Hi in Hrun, Hre. simpl in Hrun, Hre.
  exists s'. split_and!; try done.
  replace s with (set_SCHED <[(PRIORITY_LISTS - 1)%nat := []]> s) at 1;
    [done|].
  apply sched_eq; simpl; try done. by apply list_insert_id.
Qed.

End frames.

(** ** A whole yield *)

Lemma with_state_same b : with_state (state b) b = b.
Proof. by destruct b. Qed.

Lemma not_elem_of_concat_insert_tail (x t : tid) i q (qs : list (list tid)) :
  qs !! i = Some (t :: q) →
  x ∉ concat qs → x ∉ concat (<[i := q]> qs).
Proof.
  intros Hi Hx Hin. apply Hx.
  apply elem_of_concat in Hin as (l & Hl & Hin).
  apply list_elem_of_lookup in Hl as [j Hj].
  apply elem_of_concat.
  destruct (decide (j = i)) as [->|Hne].
  - rewrite list_lookup_insert_eq in Hj by (by eapply lookup_lt_Some).
    injection Hj as <-. exists (t :: q).
    split; [by eapply list_elem_of_lookup_2|by right].
  - rewrite list_lookup_insert_ne in Hj by done.
    exists l. split; [by eapply list_elem_of_lookup_2|done].
Qed.

Lemma NoDup_concat_head (t : tid) i q (qs : list (list tid)) :
  qs !! i = Some (t :: q) →
  NoDup (concat qs) → t ∉ concat (<[i := q]> qs).
Proof.
  intros Hi Hnd.
  destruct (list_elem_of_split_length qs i (t :: q) Hi) as (lo & hi & -> & Hlen).
  subst i. rewrite insert_middle.
  rewrite concat_app in Hnd |- *. simpl in Hnd |- *.
  apply NoDup_app in Hnd as (_ & Hlo & Hnd).
  apply NoDup_cons in Hnd as [Hq _].
  intros [Hin|Hin]%elem_of_app.
  - apply (Hlo t Hin). by left.
  - done.
Qed.

Section whole_yield.
Context `{Tunables}.

Lemma nothing_due_upd curtime s t b b' :
  tcbs s !! t = Some b →
  wakeup_time b' = wakeup_time b →
  nothing_due curtime s →
  nothing_due curtime (set_tcbs <[t := b']> s).
Proof.
  intros Hb Hw. unfold nothing_due. simpl.
  destruct (TIMEOUT_LIST s) as [|x l]; [done|].
  intros (bx & Hbx & Hlate).
  destruct (decide (x = t)) as [->|Hne].
  - rewrite lookup_insert_eq. exists b'. split; [done|].
    rewrite Hw. by simplify_eq.
  - rewrite lookup_insert_ne by done. eauto.
Qed.

Lemma queued_allocated_upd s t b' :
  queued_allocated s → queued_allocated (set_tcbs <[t := b']> s).
Proof.
  unfold queued_allocated. simpl. intros Hq.
  eapply Forall_impl; [exact Hq|]. intros x Hx. simpl in *.
  destruct (decide (x = t)) as [->|Hne];
    [by rewrite lookup_insert_eq|by rewrite lookup_insert_ne].
Qed.

(** [yield], from the acquisition of the lock to the switch of
    [CURTHREAD], with no deadline due and with the thread [t] at the
    head of the top list. *)
Lemma yield_switch_Done core c b bt i t q cause curtime s :
  cctx s !! core = Some c →
  tcbs s !! current_thread c = Some b →
  state b ≠ INIT →
  nothing_due curtime s →
  length (SCHED s) = PRIORITY_LISTS →
  queued_allocated s →
  NoDup (concat (SCHED s)) →
  (current_thread c ∉ concat (SCHED s)) →
  SCHED s !! i = Some (t :: q) →
  Z.of_nat i = TOP_PRIORITY →
  tcbs s !! t = Some bt →
  let cur := current_thread c in
  ∃ s1,
    requeued (set_SCHED <[i := q]> (set_tcbs <[cur := yielded cause b]> s)) s1
    ∧ tcbs s1 !! cur = Some (yielded cause b)
    ∧ tcbs s1 !! t = Some bt
    ∧ cur ≠ t
    ∧ (cur ∉ concat (SCHED s1))
    ∧ yield_switch core cause curtime s =
      Done tt
        (set_cctx <[core := mkCCB t (idle_thread c)]>
           (set_tcbs
              (λ h, <[t := with_prev (Some cur) bt]>
                      (<[cur := with_next (Some t) (yielded cause b)]> h))
              s1)).
Proof.
  intros Hc Hb Hinit Hdue Hlen Hall Hnd Hout Hi Htop Hbt cur.
  fold cur in Hb, Hout.
  assert (Hne : cur ≠ t).
  { intros ->. apply Hout. apply elem_of_concat.
    exists (t :: q). split; [by eapply list_elem_of_lookup_2|by left]. }
  set (bA := yield_priority cause b).
  set (sA := set_tcbs <[cur := bA]> s).
  set (sB := set_tcbs <[cur := yielded cause b]> s).
  destruct (yield_priority_quiet cause b) as [HstA HwA]. fold bA in HstA, HwA.
  assert (HwB : wakeup_time (yielded cause b) = wakeup_time b).
  { unfold yielded. destruct (state b); by fold bA. }
  assert (i = (PRIORITY_LISTS - 1)%nat) as Htopi
    by (unfold TOP_PRIORITY in Htop; lia).
  destruct (select_effect curtime sB t q)
    as (s1 & Hsel & Hre & _ & _).
  { by eapply nothing_due_upd. }
  { done. }
  { by apply queued_allocated_upd. }
  { by rewrite <- Htopi. }
  rewrite <- Htopi in Hre.
  pose proof Hre as (HTL & Hcc & _ & _ & _ & Hl1 & Hperm & Hframe & _).
  simpl in Hframe, Hperm, Hcc.
  assert (Hcur1 : tcbs s1 !! cur = Some (yielded cause b)).
  { rewrite Hframe; [apply lookup_insert_eq|].
    by eapply not_elem_of_concat_insert_tail. }
  assert (Ht1 : tcbs s1 !! t = Some bt).
  { rewrite Hframe; [by rewrite lookup_insert_ne|].
    by eapply NoDup_concat_head. }
  assert (Hout1 : cur ∉ concat (SCHED s1)).
  { rewrite Hperm. by eapply not_elem_of_concat_insert_tail. }
  exists s1. split; [exact Hre|]. split; [done|]. split; [done|].
  split; [done|]. split; [done|].
  unfold yield_switch.
  erewrite (bind_Done (CURTHREAD core)); [|by apply CURTHREAD_Done].
  fold cur.
  erewrite (bind_Done (upd_tcb cur _)); [|by apply upd_tcb_Done].
  fold bA sA.
  erewrite (bind_Done (get_tcb cur));
    [|apply get_tcb_Done; apply lookup_insert_eq].
  assert (Hstate :
    (match state bA with
     | RUNNING => upd_tcb cur (with_state READY);; mret true
     | READY => mret true
     | STOPPED | EXITED => mret false
     | INIT => crash AssertFail
     end) sA
    = Done (bool_decide (state b = RUNNING ∨ state b = READY)) sB).
  { rewrite HstA. subst sB. unfold yielded. fold bA.
    destruct (state b) eqn:Hst; try done.
    erewrite bind_Done.
    2:{ apply upd_tcb_Done. apply lookup_insert_eq. }
    unfold mret, M_ret. f_equal. apply sched_eq; simpl; try done.
    by rewrite insert_insert_eq. }
  erewrite bind_Done; [|exact Hstate].
  erewrite bind_Done; [|exact Hsel].
  erewrite bind_Done; [|reflexivity].
  erewrite (bind_Done (upd_tcb cur _)); [|by apply upd_tcb_Done].
  erewrite (bind_Done (upd_tcb t _)).
  2:{ apply upd_tcb_Done. simpl. by rewrite lookup_insert_ne. }
  rewrite bool_decide_eq_true_2 by done.
  unfold set_CURTHREAD.
  erewrite (bind_Done (CURCORE core)).
  2:{ unfold CURCORE. simpl. by rewrite Hcc, Hc. }
  unfold modify. f_equal.
Qed.

End whole_yield.

(** [gain] after a switch away from a thread that has exited, with the
    state it ends in. *)
Lemma gain_exited_Done core c b p pb n s :
  cctx s !! core = Some c →
  tcbs s !! current_thread c = Some b →
  prev b = Some p →
  p ≠ current_thread c →
  tcbs s !! p = Some pb →
  state pb = EXITED →
  (∀ q, owner_ptcb pb = Some q → is_Some (thread_exited s !! q)) →
  thread_count s !! owner_pcb b = Some n →
  gain core s =
  Done tt
    (set_active_threads (λ k, wrap_uint (k - 1))
       (set_tcbs
          (λ h, delete p
                  (<[current_thread c :=
                       with_phase CTX_DIRTY (with_state RUNNING b)]> h))
          (set_thread_count <[owner_pcb b := wrap_int (n - 1)]>
             (set_thread_exited
                (λ m, match owner_ptcb pb with
                      | Some q => <[q := 1]> m
                      | None => m
                      end) s)))).
Proof.
  intros Hc Hb Hprev Hne Hpb Hst Hhandle Hcount.
  set (cur := current_thread c) in *.
  set (b' := with_phase CTX_DIRTY (with_state RUNNING b)).
  set (pb' := with_phase CTX_CLEAN pb).
  set (s1 := set_tcbs <[cur := b']> s).
  set (s2 := set_tcbs <[p := pb']> s1).
  set (s3 := set_thread_exited
               (λ m, match owner_ptcb pb with
                     | Some q => <[q := 1]> m
                     | None => m
                     end) s2).
  set (s4 := set_thread_count <[owner_pcb b := wrap_int (n - 1)]> s3).
  assert (Hcur : ∀ s0, cctx s0 = cctx s → CURTHREAD core s0 = Done cur s0).
  { intros s0 Hs0. unfold CURTHREAD, CURCORE, mbind, M_bind.
    by rewrite Hs0, Hc. }
  assert (Hp2 : tcbs s2 !! p = Some pb') by apply lookup_insert_eq.
  assert (Hcur2 : tcbs s2 !! cur = Some b').
  { subst s2 s1. simpl. rewrite lookup_insert_ne by done.
    apply lookup_insert_eq. }
  unfold gain.
  erewrite (bind_Done (CURTHREAD core)); [|by apply Hcur].
  erewrite (bind_Done (get_tcb cur)); [|by apply get_tcb_Done].
  erewrite (bind_Done (upd_tcb cur _)); [|by apply upd_tcb_Done].
  rewrite Hprev.
  rewrite (bool_decide_eq_true_2 (Some cur ≠ Some p)) by congruence.
  erewrite (bind_Done (upd_tcb p _)).
  2:{ apply upd_tcb_Done. simpl. by rewrite lookup_insert_ne. }
  erewrite (bind_Done (get_tcb p)); [|by apply get_tcb_Done].
  replace (state pb') with EXITED by done.
  replace (owner_ptcb pb') with (owner_ptcb pb) by done.
  erewrite bind_Done with (s1 := s3).
  2:{ subst s3. fold s1 s2. destruct (owner_ptcb pb) as [q|].
      - destruct (Hhandle q eq_refl) as [v Hv].
        simpl thread_exited. by rewrite Hv.
      - done. }
  erewrite (bind_Done (CURPROC core)) with (a := owner_pcb b).
  2:{ unfold CURPROC.
      erewrite (bind_Done (CURTHREAD core)); [|by apply Hcur].
      by erewrite (bind_Done (get_tcb cur)); [|by apply get_tcb_Done]. }
  erewrite bind_Done with (s1 := s4).
  2:{ simpl thread_count. by rewrite Hcount. }
  unfold release_TCB.
  erewrite (bind_Done (get_tcb p)); [|by apply get_tcb_Done].
  erewrite bind_Done; [|reflexivity].
  unfold modify. f_equal. apply sched_eq; simpl; try done.
  by rewrite delete_insert_eq.
Qed.

Section yield_theorems.
Context `{Tunables}.


(** X13. The exit of a thread.  When the current thread of a core calls
    [sleep_releasing] with the state [EXITED], with no deadline due and
    with the thread [t] at the head of the top ready queue,
    [SCHED[TOP_PRIORITY]], then at the end of the call: the block of the
    caller is
    freed and [active_threads] is down by one; the handle of the caller,
    if it has one, has [thread_exited = 1]; the [thread_count] that is
    down by one is the one of the process of [t], the thread that has
    taken the core; [t] is [RUNNING] on the core; and no timeout has
    been registered, whatever the timeout argument was. *)
Theorem exit_releases_block (core : nat) (c : CCB) (b bt : TCB) (i : nat)
    (t : tid) (q : list tid) (cause : SCHED_CAUSE)
    (timeout curtime curtime' : Z) (n : Z) (s : sched) :
  cctx s !! core = Some c →
  tcbs s !! current_thread c = Some b →
  nothing_due curtime' s →
  length (SCHED s) = PRIORITY_LISTS →
  queued_allocated s →
  NoDup (concat (SCHED s)) →
  (current_thread c ∉ concat (SCHED s)) →
  SCHED s !! i = Some (t :: q) →
  Z.of_nat i = TOP_PRIORITY →
  tcbs s !! t = Some bt →
  (∀ p, owner_ptcb b = Some p → is_Some (thread_exited s !! p)) →
  thread_count s !! owner_pcb bt = Some n →
  let cur := current_thread c in
  ∃ s',
    sleep_releasing core EXITED cause timeout curtime curtime' s
      = Done tt s'
    ∧ tcbs s' !! cur = None
    ∧ active_threads s' = wrap_uint (active_threads s - 1)
    ∧ thread_exited s' = match owner_ptcb b with
                         | Some p => <[p := 1]> (thread_exited s)
                         | None => thread_exited s
                         end
    ∧ thread_count s'
      = <[owner_pcb bt := wrap_int (n - 1)]> (thread_count s)
    ∧ cctx s' = <[core := mkCCB t (idle_thread c)]> (cctx s)
    ∧ tcbs s' !! t
      = Some (with_phase CTX_DIRTY
                (with_state RUNNING (with_prev (Some cur) bt)))
    ∧ length (SCHED s') = PRIORITY_LISTS
    ∧ concat (SCHED s') ≡ₚ concat (<[i := q]> (SCHED s))
    ∧ TIMEOUT_LIST s' = TIMEOUT_LIST s.
Proof.
  intros Hc Hb Hdue Hlen Hall Hnd Hout Hi Htop Hbt Hhandle Hcount cur.
  fold cur in Hb, Hout.
  set (bE := with_state EXITED b).
  set (sE := set_tcbs <[cur := bE]> s).
  assert (HbE : tcbs sE !! current_thread c = Some bE)
    by apply lookup_insert_eq.
  assert (Hne0 : cur ≠ t).
  { intros ->. apply Hout. apply elem_of_concat.
    exists (t :: q). split; [by eapply list_elem_of_lookup_2|by left]. }
  destruct (yield_switch_Done core c bE bt i t q cause curtime' sE)
    as (s1 & Hre & Hcur1 & Ht1 & Hne & Hout1 & Hswitch); try done.
  { by eapply nothing_due_upd. }
  { by apply queued_allocated_upd. }
  { simpl. by rewrite lookup_insert_ne. }
  fold cur in Hre, Hcur1, Hne, Hout1, Hswitch.
  destruct Hre as (HTL & Hcc & Hact & Htc & Hte & Hl1 & Hperm & _ & _).
  simpl in HTL, Hcc, Hact, Htc, Hte, Hl1, Hperm.
  rewrite length_insert in Hl1.
  set (b1 := yielded cause bE) in *.
  destruct (yield_priority_quiet cause bE) as [HstA _].
  assert (Hst1 : state b1 = EXITED).
  { subst b1. unfold yielded. simpl. by rewrite HstA. }
  assert (Hptcb : owner_ptcb b1 = owner_ptcb b).
  { subst b1. unfold yielded, yield_priority, reinstate_priority,
      clamp_priority, adjust_priority. simpl.
    destruct cause; repeat case_bool_decide; done. }
  set (s2 := set_cctx <[core := mkCCB t (idle_thread c)]>
               (set_tcbs
                  (λ h, <[t := with_prev (Some cur) bt]>
                          (<[cur := with_next (Some t) b1]> h)) s1)).
  fold s2 in Hswitch.
  pose proof (gain_exited_Done core (mkCCB t (idle_thread c))
                (with_prev (Some cur) bt) cur (with_next (Some t) b1) n s2)
    as Hgain.
  simpl current_thread in Hgain.
  eexists. split.
  { unfold sleep_releasing, sleep_releasing_locked.
    rewrite (bool_decide_eq_true_2 (EXITED = STOPPED ∨ EXITED = EXITED))
      by (by right).
    erewrite bind_Done.
    2:{ erewrite bind_Done; [|reflexivity].
        erewrite (bind_Done (CURTHREAD core)); [|by apply CURTHREAD_Done].
        erewrite bind_Done; [|by apply upd_tcb_Done].
        rewrite (bool_decide_eq_false_2 (EXITED ≠ EXITED)) by (by intros ?).
        reflexivity. }
    fold cur bE sE.
    unfold yield. erewrite bind_Done; [|exact Hswitch].
    apply Hgain.
    - simpl. rewrite Hcc. apply list_lookup_insert_eq.
      by eapply lookup_lt_Some.
    - simpl. apply lookup_insert_eq.
    - done.
    - done.
    - simpl. rewrite lookup_insert_ne by done. apply lookup_insert_eq.
    - done.
    - simpl. rewrite Hptcb, Hte. exact Hhandle.
    - simpl. by rewrite Htc. }
  simpl. rewrite Hptcb, Hte, Htc, Hcc, Hact.
  split; [apply lookup_delete_eq|].
  split; [done|]. split; [done|]. split; [done|]. split; [done|].
  split.
  { rewrite lookup_delete_ne by done. apply lookup_insert_eq. }
  split; [by rewrite Hl1|]. done.
Qed.

End yield_theorems.

(** ** Deadlines and the selection *)

Lemma due_prefix_split h curtime (l : list tid) :
  l = due_prefix h curtime l ++ drop (length (due_prefix h curtime l)) l.
Proof.
  induction l as [|t l IH]; [done|]. simpl.
  destruct (h !! t) as [b|]; [|done].
  case_bool_decide; [|done]. simpl. by rewrite <- IH.
Qed.

Lemma reprioritised_fields b b' :
  reprioritised b b' →
  state b' = state b ∧ wakeup_time b' = wakeup_time b
  ∧ phase b' = phase b ∧ type b' = type b.
Proof. unfold reprioritised. intros ->. done. Qed.

Section deadlines.
Context `{Tunables}.

(** In a timeout list in the order of the wake-up times, the threads
    whose deadline has passed are at the head. *)
Lemma sorted_due s curtime l x b :
  StronglySorted (wakes_before s) l →
  x ∈ l → tcbs s !! x = Some b → wakeup_time b ≤ curtime →
  x ∈ due_prefix (tcbs s) curtime l.
Proof.
  intros Hsorted. induction Hsorted as [|h l Hsorted IH Hall]; intros Hx Hb Hw.
  - by apply elem_of_nil in Hx.
  - simpl. apply elem_of_cons in Hx as [->|Hx].
    + rewrite Hb. rewrite bool_decide_eq_true_2 by done. by left.
    + pose proof (proj1 (Forall_forall _ _) Hall x Hx)
        as (w1 & w2 & H1 & H2 & Hle).
      unfold wakeup_of in H1, H2. rewrite Hb in H2. simpl in H2.
      destruct (tcbs s !! h) as [bh|]; [|done]. simpl in H1.
      simplify_eq. rewrite bool_decide_eq_true_2 by lia.
      right. by apply IH.
Qed.

(** X14. No sleeper oversleeps a selection.  On a timeout list that is
    in the order of the wake-up times, with every thread in at most one
    list, [sched_queue_select] at the time [curtime] returns, a thread
    or null, and in the state it leaves: every thread whose deadline had
    passed is out of the timeout list and is [READY] with no deadline,
    and every thread still in the timeout list is [STOPPED] with a
    deadline after [curtime]. *)
Theorem select_wakes_all_due (curtime : Z) (s : sched) :
  (0 < PRIORITY_LISTS)%nat →
  timeouts_sorted s →
  NoDup (concat (SCHED s) ++ TIMEOUT_LIST s) →
  Forall (wakeable s) (TIMEOUT_LIST s) →
  length (SCHED s) = PRIORITY_LISTS →
  queued_allocated s →
  let r := sched_queue_select curtime s in
  (∃ next, r = Done next (final r))
  ∧ (∀ x b, x ∈ TIMEOUT_LIST s → tcbs s !! x = Some b →
       wakeup_time b ≤ curtime →
       (x ∉ TIMEOUT_LIST (final r))
       ∧ ∃ b', tcbs (final r) !! x = Some b' ∧ state b' = READY
               ∧ wakeup_time b' = NO_TIMEOUT)
  ∧ (∀ x, x ∈ TIMEOUT_LIST (final r) →
       x ∈ TIMEOUT_LIST s
       ∧ ∃ b', tcbs (final r) !! x = Some b' ∧ state b' = STOPPED
               ∧ wakeup_time b' > curtime).
Proof.
  intros Hpos Hsorted Hnd Hwake Hlen Hall r.
  apply NoDup_app in Hnd as (_ & _ & Hnd).
  set (l := TIMEOUT_LIST s) in *.
  set (due := due_prefix (tcbs s) curtime l).
  destruct (drain_timeouts_spec l (length l + 2) curtime s eq_refl Hnd Hwake)
    as (s1 & Hdrain & _ & HTL1 & Hlen1 & Hdue1 & Hrest1 & Hq1); [lia|].
  fold due in HTL1, Hdue1, Hrest1, Hq1.
  assert (Halloc : Forall (λ t, is_Some (tcbs s !! t)) l).
  { eapply Forall_impl; [exact Hwake|]. intros t (b & Hb & _). by exists b. }
  assert (Hkeep : ∀ t, is_Some (tcbs s !! t) → is_Some (tcbs s1 !! t)).
  { intros t [b Hb]. destruct (decide (t ∈ due)) as [Hin|Hout].
    - rewrite (Hdue1 t b Hin Hb). by eexists.
    - rewrite Hrest1 by done. by exists b. }
  assert (Hall1 : queued_allocated s1).
  { apply Forall_forall. intros x Hx. apply Hkeep.
    destruct (Hq1 x Hx) as [Hx'|Hx'].
    - by apply (proj1 (Forall_forall _ _) Hall).
    - apply (proj1 (Forall_forall _ _) Halloc).
      by eapply due_prefix_subseteq. }
  assert (Hlen1' : length (SCHED s1) = PRIORITY_LISTS) by by rewrite Hlen1.
  destruct (select_after_drain curtime s s1 Hdrain Hlen1' Hpos Hall1)
    as (s' & Hrun & Hre & _).
  destruct Hre as (HTL & _ & _ & _ & _ & _ & _ & _ & Hblocks).
  simpl in HTL, Hblocks.
  assert (Hfinal : final r = s') by (subst r; by rewrite Hrun).
  assert (Hsplit : l = due ++ TIMEOUT_LIST s1).
  { rewrite HTL1. apply due_prefix_split. }
  assert (Hdisj : ∀ x, x ∈ due → x ∉ TIMEOUT_LIST s1).
  { intros x Hx Hx1. rewrite Hsplit in Hnd.
    apply NoDup_app in Hnd as (_ & Hnd & _). by apply (Hnd x). }
  split.
  { subst r. rewrite Hrun. by eexists. }
  rewrite Hfinal, HTL. split.
  - intros x b Hx Hb Hw.
    assert (Hin : x ∈ due) by (by eapply sorted_due).
    split; [by apply Hdisj|].
    specialize (Hblocks x). rewrite (Hdue1 x b Hin Hb) in Hblocks.
    inversion Hblocks as [? b' Hb'|]. subst.
    exists b'. split; [done|].
    by apply reprioritised_fields in Hb' as (-> & -> & _).
  - intros x Hx.
    assert (Hxl : x ∈ l) by (rewrite Hsplit; apply elem_of_app; by right).
    split; [done|].
    assert (Hout : x ∉ due) by (intros Hin; by apply (Hdisj x)).
    destruct (proj1 (Forall_forall _ _) Hwake x Hxl)
      as (b & Hb & Hst & _).
    specialize (Hblocks x). rewrite Hrest1, Hb in Hblocks by done.
    inversion Hblocks as [? b' Hb'|]. subst.
    exists b'. split; [done|].
    apply reprioritised_fields in Hb' as (-> & -> & _).
    split; [done|].
    destruct (decide (wakeup_time b ≤ curtime)) as [Hw|Hw]; [|lia].
    destruct Hout. by eapply sorted_due.
Qed.

End deadlines.

(** ** The number of threads *)

(** Properties of the state that depend on the thread blocks only
    through the set of the allocated addresses, and not on the lists, the
    counters of the selection, the core blocks and the process blocks.
    The operations of the scheduler other than [spawn_thread] and
    [release_TCB] keep them. *)
Section resident.
Context `{Tunables}.
Variable P : sched → Prop.
Hypothesis HP_SCHED : ∀ g s, P s → P (set_SCHED g s).
Hypothesis HP_TL : ∀ g s, P s → P (set_TIMEOUT_LIST g s).
Hypothesis HP_cc : ∀ g s, P s → P (set_counter_congestion g s).
Hypothesis HP_fs : ∀ g s, P s → P (set_fail_safe g s).
Hypothesis HP_calls : ∀ g s, P s → P (set_boost_calls g s).
Hypothesis HP_cctx : ∀ g s, P s → P (set_cctx g s).
Hypothesis HP_tc : ∀ g s, P s → P (set_thread_count g s).
Hypothesis HP_te : ∀ g s, P s → P (set_thread_exited g s).
Hypothesis HP_upd : ∀ t b b' s,
  tcbs s !! t = Some b → P s → P (set_tcbs <[t := b']> s).
Hypothesis HP_release : ∀ t, keeps P (release_TCB t).

Lemma resident_upd_tcb t f : keeps P (upd_tcb t f).
Proof.
  intros s Hs a s' Hrun. apply upd_tcb_inv in Hrun as (b & Hb & ->).
  by eapply HP_upd.
Qed.

Ltac res_step :=
  lazymatch goal with
  | |- keeps _ (upd_tcb _ _) => apply resident_upd_tcb
  | |- keeps _ (modify (set_SCHED _)) => apply keeps_modify, HP_SCHED
  | |- keeps _ (modify (set_TIMEOUT_LIST _)) => apply keeps_modify, HP_TL
  | |- keeps _ (modify (set_counter_congestion _)) =>
      apply keeps_modify, HP_cc
  | |- keeps _ (modify (set_fail_safe _)) => apply keeps_modify, HP_fs
  | |- keeps _ (modify (set_boost_calls _)) => apply keeps_modify, HP_calls
  | |- keeps _ (modify (set_cctx _)) => apply keeps_modify, HP_cctx
  | |- keeps _ (release_TCB _) => apply HP_release
  | _ => keeps_step
  end.

Create HintDb resident discriminated.

Ltac res_auto :=
  repeat first [solve [auto 1 with resident nocore] | res_step].

Lemma resident_is_rlist_empty i : keeps P (is_rlist_empty i).
Proof. unfold is_rlist_empty. res_auto. Qed.

Lemma resident_rlist_pop_front i : keeps P (rlist_pop_front i).
Proof. unfold rlist_pop_front. res_auto. Qed.

Lemma resident_rlist_push_back i t : keeps P (rlist_push_back i t).
Proof. unfold rlist_push_back. res_auto. Qed.

Lemma resident_rlist_remove t : keeps P (rlist_remove t).
Proof.
  unfold rlist_remove. apply keeps_modify. intros s Hs.
  by apply HP_TL, HP_SCHED.
Qed.

Lemma resident_CURTHREAD core : keeps P (CURTHREAD core).
Proof. unfold CURTHREAD. res_auto. Qed.

Lemma resident_set_CURTHREAD core t : keeps P (set_CURTHREAD core t).
Proof. unfold set_CURTHREAD. res_auto. Qed.

#[local] Hint Resolve resident_is_rlist_empty resident_rlist_pop_front
  resident_rlist_push_back resident_rlist_remove resident_CURTHREAD
  resident_set_CURTHREAD : resident.

Lemma resident_CURPROC core : keeps P (CURPROC core).
Proof. unfold CURPROC. res_auto. Qed.

Lemma resident_sched_queue_add t : keeps P (sched_queue_add t).
Proof. unfold sched_queue_add. res_auto. Qed.

#[local] Hint Resolve resident_CURPROC resident_sched_queue_add : resident.

Lemma resident_sched_make_ready t : keeps P (sched_make_ready t).
Proof. unfold sched_make_ready. res_auto. Qed.

#[local] Hint Resolve resident_sched_make_ready : resident.

Lemma resident_drain_timeouts fuel curtime :
  keeps P (drain_timeouts fuel curtime).
Proof. induction fuel as [|fuel IH]; simpl; res_auto. Qed.

Lemma resident_scan_ready k sel : keeps P (scan_ready k sel).
Proof. destruct k as [|i]; simpl; res_auto. Qed.

Lemma resident_scan_lower k : keeps P (scan_lower k).
Proof. induction k as [|i IH]; simpl; res_auto. Qed.

Lemma resident_boost_drain fuel i : keeps P (boost_drain fuel i).
Proof.
  induction fuel as [|fuel IH]; simpl.
  - apply keeps_bind; [apply resident_is_rlist_empty|].
    intros []; [apply keeps_ret|apply keeps_crash].
  - apply keeps_bind; [apply resident_is_rlist_empty|].
    intros []; [apply keeps_ret|].
    apply keeps_bind; [apply resident_rlist_pop_front|].
    intros [t|]; [|apply keeps_crash].
    apply keeps_bind; [apply resident_upd_tcb|intros ?; cbv beta].
    apply keeps_bind; [apply resident_rlist_push_back|intros ?; cbv beta].
    apply IH.
Qed.

Lemma resident_boost_levels k : keeps P (boost_levels k).
Proof.
  induction k as [|i IH]; simpl; [apply keeps_ret|].
  apply keeps_bind; [apply keeps_ready_queue|intros q].
  apply keeps_bind; [apply resident_boost_drain|intros ?; cbv beta].
  apply IH.
Qed.

#[local] Hint Resolve resident_drain_timeouts resident_scan_ready
  resident_scan_lower resident_boost_levels : resident.

Lemma resident_boost : keeps P boost.
Proof. unfold boost. res_auto. Qed.

Lemma resident_update_congestion i : keeps P (update_congestion i).
Proof. unfold update_congestion. res_auto. Qed.

#[local] Hint Resolve resident_boost resident_update_congestion : resident.

Lemma resident_select_scan curtime : keeps P (select_scan curtime).
Proof.
  unfold select_scan. res_auto.
Qed.

#[local] Hint Resolve resident_select_scan : resident.

Lemma resident_sched_queue_select curtime :
  keeps P (sched_queue_select curtime).
Proof. unfold sched_queue_select. res_auto. Qed.

Lemma resident_sched_register_timeout curtime t timeout :
  keeps P (sched_register_timeout curtime t timeout).
Proof. unfold sched_register_timeout. res_auto. Qed.

#[local] Hint Resolve resident_sched_queue_select
  resident_sched_register_timeout : resident.

Lemma resident_wakeup t : keeps P (wakeup t).
Proof. unfold wakeup. res_auto. Qed.

Lemma resident_sleep_releasing_locked core st timeout curtime :
  keeps P (sleep_releasing_locked core st timeout curtime).
Proof. unfold sleep_releasing_locked. res_auto. Qed.

Lemma resident_yield_switch core cause curtime :
  keeps P (yield_switch core cause curtime).
Proof. unfold yield_switch. res_auto. Qed.

Lemma resident_set_thread_exited p :
  keeps P (λ s, match thread_exited s !! p with
                | Some _ => Done tt (set_thread_exited <[p := 1]> s)
                | None => Crash BadPointer s
                end).
Proof.
  intros s Hs [] s' Hrun. destruct (thread_exited s !! p); [|done].
  simplify_eq. by apply HP_te.
Qed.

Lemma resident_dec_thread_count proc :
  keeps P (λ s, match thread_count s !! proc with
                | Some n =>
                    Done tt (set_thread_count <[proc := wrap_int (n - 1)]> s)
                | None => Crash BadPointer s
                end).
Proof.
  intros s Hs [] s' Hrun. destruct (thread_count s !! proc); [|done].
  simplify_eq. by apply HP_tc.
Qed.

#[local] Hint Resolve resident_set_thread_exited resident_dec_thread_count
  : resident.

Lemma resident_gain core : keeps P (gain core).
Proof. unfold gain. res_auto. Qed.

End resident.

Section accounting.
Context `{Tunables}.

Lemma accounting_release d t :
  keeps (λ s, wrap_uint (active_threads s - Z.of_nat (size (tcbs s))) = d)
        (release_TCB t).
Proof.
  intros s Hs [] s' Hrun. unfold release_TCB in Hrun.
  apply bind_inv_Done in Hrun as (b & s1 & [-> Hb]%get_tcb_inv & Hrun).
  unfold modify, mbind, M_bind in Hrun. simplify_eq. simpl.
  rewrite map_size_delete_Some by done.
  assert (0 < size (tcbs s))%nat.
  { destruct (decide (size (tcbs s) = 0%nat)) as [Hz|]; [|lia].
    apply map_size_empty_inv in Hz. by rewrite Hz in Hb. }
  unfold wrap_uint. rewrite Zminus_mod_idemp_l. f_equal. lia.
Qed.

Lemma accounting_spawn d pcb raw :
  keeps (λ s, wrap_uint (active_threads s - Z.of_nat (size (tcbs s))) = d)
        (spawn_thread pcb raw).
Proof.
  intros s Hs t s' Hrun. unfold spawn_thread in Hrun. simplify_eq. simpl.
  rewrite map_size_insert_None by apply fresh_block_free.
  unfold wrap_uint. rewrite Zminus_mod_idemp_l. f_equal. lia.
Qed.

Lemma accounting_exec d o :
  keeps (λ s, wrap_uint (active_threads s - Z.of_nat (size (tcbs s))) = d)
        (exec o).
Proof.
  assert (Hupd : ∀ t b b' s,
    tcbs s !! t = Some b →
    wrap_uint (active_threads s - Z.of_nat (size (tcbs s))) = d →
    wrap_uint (active_threads (set_tcbs <[t := b']> s)
               - Z.of_nat (size (tcbs (set_tcbs <[t := b']> s)))) = d).
  { intros t b b' s Hb Hs. simpl. by rewrite map_size_insert_Some. }
  destruct o; simpl.
  - apply keeps_bind; [apply accounting_spawn|intros; apply keeps_ret].
  - by apply resident_upd_tcb.
  - apply keeps_bind; [|intros; apply keeps_ret].
    by apply resident_wakeup.
  - by apply resident_sleep_releasing_locked.
  - by apply resident_yield_switch.
  - apply resident_gain; try done. apply accounting_release.
  - by apply resident_boost.
Qed.

(** X15. [active_threads] is in step with the number of allocated
    thread blocks.  Along every run of properly called operations, the
    difference between [active_threads] and the number of allocated
    blocks stays the same, modulo [2 ^ 32]: [spawn_thread] adds one to
    both, the [gain] that follows the exit of a thread takes one from
    both, and nothing else changes either. *)
Theorem active_threads_accounting (s s' : sched) (os : list op) :
  disciplined s os s' →
  wrap_uint (active_threads s' - Z.of_nat (size (tcbs s')))
  = wrap_uint (active_threads s - Z.of_nat (size (tcbs s))).
Proof.
  induction 1 as [|s o s1 os s2 _ Hexec _ IH]; [done|].
  rewrite IH. by eapply (accounting_exec _ o s).
Qed.

End accounting.

(** ** The invariant of the disciplined runs, piece by piece *)

Lemma concat_insert_push (t : tid) i q (qs : list (list tid)) :
  qs !! i = Some q →
  concat (<[i := q ++ [t]]> qs) ≡ₚ t :: concat qs.
Proof.
  intros Hi.
  destruct (list_elem_of_split_length qs i q Hi) as (lo & hi & -> & ->).
  rewrite insert_middle, !concat_app. simpl.
  rewrite <- (assoc_L (++)). simpl.
  rewrite <- !Permutation_middle. done.
Qed.

Lemma concat_insert_pop (t : tid) i q (qs : list (list tid)) :
  qs !! i = Some (t :: q) →
  concat qs ≡ₚ t :: concat (<[i := q]> qs).
Proof.
  intros Hi.
  destruct (list_elem_of_split_length qs i _ Hi) as (lo & hi & -> & ->).
  rewrite insert_middle, !concat_app. simpl.
  by rewrite <- Permutation_middle.
Qed.

Lemma steady_refl b : steady b b.
Proof. unfold steady. auto. Qed.

Section sound_lemmas.
Context `{Tunables}.

Lemma woken_refl b : woken b b.
Proof. by left. Qed.

Lemma woken_trans b1 b2 b3 : woken b1 b2 → woken b2 b3 → woken b1 b3.
Proof.
  intros [->|[H1 ->]] [->|[H2 ->]]; [by left|by right|by right|].
  simpl in H2. by destruct H2.
Qed.

Lemma woken_steady b b' : state b ≠ INIT → woken b b' → steady b b'.
Proof.
  intros Hinit [->|[[Hs|Hs] ->]]; [apply steady_refl| |done].
  unfold steady. simpl. split_and!; [done|done|done|by right; left].
Qed.

Lemma steady_ready b b' : steady b b' → state b = READY → state b' = READY.
Proof.
  intros (_ & _ & _ & [Hst|[[Hst _]|[Hst _]]]) Hr; congruence.
Qed.

Lemma woken_fields b b' :
  woken b b' →
  phase b' = phase b ∧ prev b' = prev b ∧ priority b' = priority b
  ∧ prev_queue b' = prev_queue b ∧ owner_pcb b' = owner_pcb b
  ∧ owner_ptcb b' = owner_ptcb b ∧ type b' = type b
  ∧ mutex_flag b' = mutex_flag b.
Proof. by intros [->|[_ ->]]. Qed.

Lemma held_current s core c :
  cctx s !! core = Some c → held s core (current_thread c).
Proof. intros Hc. exists c. split; [done|by left]. Qed.

Lemma held_prev s core c b p :
  cctx s !! core = Some c →
  tcbs s !! current_thread c = Some b →
  phase b = CTX_CLEAN → prev b = Some p →
  held s core p.
Proof. intros Hc Hb Hph Hp. exists c. split; [done|]. right. eauto. Qed.

(** The cores stay sound when the core blocks are the same, the blocks
    of the threads that the cores hold are steady, and no thread that a
    core holds enters a ready queue. *)
Lemma cores_sound_transfer s s' :
  cctx s' = cctx s →
  (∀ core x b, held s core x → tcbs s !! x = Some b →
               ∃ b', tcbs s' !! x = Some b' ∧ steady b b') →
  (∀ x, x ∈ concat (SCHED s') →
        x ∈ concat (SCHED s) ∨ ∀ core, ¬ held s core x) →
  cores_sound s → cores_sound s'.
Proof.
  intros Hcctx Hsteady Hqueues (H1 & H2 & H3).
  assert (Hback : ∀ core t, held s' core t → held s core t).
  { intros core t (c & Hc & Ht). rewrite Hcctx in Hc.
    destruct Ht as [->|(b' & Hb' & Hph & Hpr)]; [by apply held_current|].
    destruct (H1 core c Hc) as (b & Hb & _).
    destruct (Hsteady core _ b (held_current s core c Hc) Hb)
      as (b'' & Hb'' & Hph' & Hpr' & _).
    simplify_eq. apply (held_prev s core c b); congruence. }
  split_and!.
  - intros core c Hc. rewrite Hcctx in Hc.
    destruct (H1 core c Hc) as (b & Hb & Hinit & Hclean).
    destruct (Hsteady core _ b (held_current s core c Hc) Hb)
      as (b' & Hb' & Hph & Hpr & _ & Hst).
    exists b'. split; [done|]. split.
    { destruct Hst as [Hst|[[_ Hst]|[_ Hst]]]; congruence. }
    intros Hc'. rewrite Hph in Hc'.
    destruct (Hclean Hc') as (Hready & p & pb & Hp & Hpb & Hdirty & Hpst).
    split.
    { destruct Hst as [Hst|[[Hst _]|[Hst _]]]; congruence. }
    destruct (Hsteady core p pb (held_prev s core c b p Hc Hb Hc' Hp) Hpb)
      as (pb' & Hpb' & Hph2 & _ & _ & Hst2).
    exists p, pb'. split; [congruence|]. split; [done|].
    split; [congruence|].
    destruct Hst2 as [Hst2|[[_ Hst2]|[Hst2 _]]].
    + by rewrite Hst2.
    + auto.
    + destruct Hpst as [?|[?|?]]; congruence.
  - intros core t Ht Hin. apply Hback in Ht.
    destruct (Hqueues t Hin) as [Hold|Hnot].
    + by apply (H2 core t).
    + by apply (Hnot core).
  - intros core1 core2 t Ht1 Ht2. apply (H3 core1 core2 t); by apply Hback.
Qed.

(** The ready queues stay sound when they are the same and the threads
    in them keep their state, phase, priority and type. *)
Lemma queues_sound_frame s s' :
  SCHED s' = SCHED s →
  (∀ x b, x ∈ concat (SCHED s) → tcbs s !! x = Some b →
          ∃ b', tcbs s' !! x = Some b' ∧ state b' = state b
                ∧ phase b' = phase b ∧ priority b' = priority b
                ∧ type b' = type b) →
  queues_sound s → queues_sound s'.
Proof.
  intros HS Hframe (Hlen & Hnd & Hq). unfold queues_sound. rewrite HS.
  split; [done|]. split; [done|].
  intros i q t Hi Ht.
  destruct (Hq i q t Hi Ht) as (b & Hb & Hst & Hph & Hp & Hty).
  destruct (Hframe t b) as (b' & Hb' & Hst' & Hph' & Hp' & Hty'); [|done|].
  { apply elem_of_concat. exists q.
    split; [by eapply list_elem_of_lookup_2|done]. }
  exists b'. split; [done|]. split_and!; congruence.
Qed.

Lemma queues_sound_upd s t b' :
  t ∉ concat (SCHED s) →
  queues_sound s → queues_sound (set_tcbs <[t := b']> s).
Proof.
  intros Hout. apply queues_sound_frame; [done|].
  intros x b Hx Hb. exists b. split; [|done]. simpl.
  rewrite lookup_insert_ne; [done|]. by intros ->.
Qed.

Lemma queues_sound_delete s t :
  t ∉ concat (SCHED s) →
  queues_sound s → queues_sound (set_tcbs (delete t) s).
Proof.
  intros Hout. apply queues_sound_frame; [done|].
  intros x b Hx Hb. exists b. split; [|done]. simpl.
  rewrite lookup_delete_ne; [done|]. by intros ->.
Qed.

Lemma queues_sound_push s t b i :
  queues_sound s →
  tcbs s !! t = Some b →
  state b = READY → phase b = CTX_CLEAN → priority b = Z.of_nat i →
  type b = NORMAL_THREAD →
  (i < PRIORITY_LISTS)%nat →
  t ∉ concat (SCHED s) →
  queues_sound
    (set_SCHED (λ qs, <[i := default [] (qs !! i) ++ [t]]> qs) s).
Proof.
  intros (Hlen & Hnd & Hq) Hb Hst Hph Hp Hty Hi Hout.
  destruct (lookup_lt_is_Some_2 (SCHED s) i) as [q Hiq]; [lia|].
  unfold queues_sound. simpl. rewrite Hiq. simpl.
  split; [by rewrite length_insert|]. split.
  { rewrite concat_insert_push by done. by apply NoDup_cons. }
  intros j q' x Hj Hx.
  destruct (decide (j = i)) as [->|Hne].
  - rewrite list_lookup_insert_eq in Hj by (by eapply lookup_lt_Some).
    injection Hj as <-. apply elem_of_app in Hx as [Hx|Hx].
    + by apply (Hq i q).
    + apply list_elem_of_singleton in Hx as ->. by exists b.
  - rewrite list_lookup_insert_ne in Hj by done. by apply (Hq j q').
Qed.

Lemma queues_sound_pop s i t q :
  SCHED s !! i = Some (t :: q) →
  queues_sound s →
  queues_sound (set_SCHED <[i := q]> s)
  ∧ (t ∉ concat (<[i := q]> (SCHED s)))
  ∧ ∃ b, tcbs s !! t = Some b ∧ state b = READY
         ∧ phase b = CTX_CLEAN ∧ priority b = Z.of_nat i
         ∧ type b = NORMAL_THREAD.
Proof.
  intros Hi (Hlen & Hnd & Hq).
  rewrite (concat_insert_pop t i q) in Hnd by done.
  apply NoDup_cons in Hnd as [Hout Hnd].
  split; [|split; [done|]].
  - unfold queues_sound. simpl. split; [by rewrite length_insert|].
    split; [done|]. intros j q' x Hj Hx.
    destruct (decide (j = i)) as [->|Hne].
    + rewrite list_lookup_insert_eq in Hj by (by eapply lookup_lt_Some).
      injection Hj as <-. apply (Hq i (t :: q)); [done|by right].
    + rewrite list_lookup_insert_ne in Hj by done. by apply (Hq j q').
  - apply (Hq i (t :: q)); [done|by left].
Qed.

(** The timeout list stays sound when it is the same and the threads in
    it keep their state and wake-up time. *)
Lemma timeouts_sound_frame s s' :
  TIMEOUT_LIST s' = TIMEOUT_LIST s →
  (∀ x, x ∈ TIMEOUT_LIST s → same_sleep s s' x) →
  timeouts_sound s → timeouts_sound s'.
Proof.
  intros HTL Hsame [Hok Hnd]. split; [|by rewrite HTL].
  apply (timeouts_ok_transfer s s'); [by rewrite HTL| |done].
  intros x Hx. apply Hsame. by rewrite <- HTL.
Qed.

Lemma timeouts_sound_upd_quiet s t b b' :
  tcbs s !! t = Some b →
  state b' = state b → wakeup_time b' = wakeup_time b →
  timeouts_sound s → timeouts_sound (set_tcbs <[t := b']> s).
Proof.
  intros Hb Hst Hw [Hok Hnd]. split; [|done].
  by apply (timeouts_ok_upd_quiet s t b b').
Qed.

Lemma timeouts_sound_upd_outside s t b' :
  t ∉ TIMEOUT_LIST s →
  timeouts_sound s → timeouts_sound (set_tcbs <[t := b']> s).
Proof.
  intros Hout [Hok Hnd]. split; [|done].
  by apply timeouts_ok_upd_outside.
Qed.

Lemma timeouts_sound_delete_outside s t :
  t ∉ TIMEOUT_LIST s →
  timeouts_sound s → timeouts_sound (set_tcbs (delete t) s).
Proof.
  intros Hout [Hok Hnd]. split; [|done].
  by apply timeouts_ok_delete_outside.
Qed.

(** A thread that is not stopped, or has no deadline, is not in the
    timeout list. *)
Lemma sound_not_sleeping s t b :
  timeouts_sound s → tcbs s !! t = Some b →
  state b ≠ STOPPED ∨ wakeup_time b = NO_TIMEOUT →
  t ∉ TIMEOUT_LIST s.
Proof. intros [Hok _]. by apply not_sleeper_outside. Qed.

(** The threads the cores hold are the same when the core blocks are
    the same and the blocks of the current threads keep their phase and
    their [prev] link. *)
Lemma held_same s s' :
  cctx s' = cctx s →
  (∀ core c, cctx s !! core = Some c →
     option_Forall2 (λ b b', phase b' = phase b ∧ prev b' = prev b)
       (tcbs s !! current_thread c) (tcbs s' !! current_thread c)) →
  ∀ core x, held s' core x ↔ held s core x.
Proof.
  intros Hcc Hcur core x. unfold held. rewrite Hcc.
  split; intros (c & Hc & Hx); exists c; (split; [done|]);
    (destruct Hx as [->|(b & Hb & Hph & Hpr)]; [by left|right]);
    specialize (Hcur core c Hc); rewrite Hb in Hcur.
  - inversion Hcur as [b0 ? [Hph' Hpr'] E1 E2|]. exists b0.
    split; [done|]. split; congruence.
  - inversion Hcur as [? b0 [Hph' Hpr'] E1 E2|]. exists b0.
    split; [done|]. split; congruence.
Qed.

Lemma held_steady s s' :
  cctx s' = cctx s → cores_sound s →
  (∀ core x b, held s core x → tcbs s !! x = Some b →
               ∃ b', tcbs s' !! x = Some b' ∧ steady b b') →
  ∀ core x, held s' core x ↔ held s core x.
Proof.
  intros Hcc (H1 & _ & _) Hsteady. apply held_same; [done|].
  intros core c Hc. destruct (H1 core c Hc) as (b & Hb & _).
  destruct (Hsteady core _ b (held_current s core c Hc) Hb)
    as (b' & Hb' & Hph & Hpr & _).
  rewrite Hb, Hb'. by constructor.
Qed.

(** The idle threads stay sound when the cores hold the same threads and
    the blocks of the idle threads are steady. *)
Lemma idle_sound_transfer s s' :
  cctx s' = cctx s →
  (∀ core x, held s' core x ↔ held s core x) →
  (∀ core c b, cctx s !! core = Some c → tcbs s !! idle_thread c = Some b →
     ∃ b', tcbs s' !! idle_thread c = Some b' ∧ steady b b') →
  idle_sound s → idle_sound s'.
Proof.
  intros Hcc Hheld Hblocks [Hidle Hinj]. split; [|by rewrite Hcc].
  intros core c Hc. rewrite Hcc in Hc.
  destruct (Hidle core c Hc) as (b & Hb & Hty & Hown & Hfree).
  destruct (Hblocks core c b Hc Hb) as (b' & Hb' & Hst).
  exists b'. split; [done|].
  pose proof Hst as (Hph & _ & Hty' & _).
  split; [congruence|]. split.
  - intros core' Hh. apply Hown. by apply Hheld.
  - intros Hnone. destruct Hfree as [Hr Hcl].
    { intros core' Hh. apply (Hnone core'). by apply Hheld. }
    split; [by apply (steady_ready b)|congruence].
Qed.

(** The cores and the idle threads stay sound when the block of a
    current thread whose context is in use changes in anything but its
    phase and its type, to a state other than [INIT]. *)
Lemma held_upd_dirty s cur b b' :
  tcbs s !! cur = Some b → phase b = CTX_DIRTY → phase b' = CTX_DIRTY →
  ∀ core x, held (set_tcbs <[cur := b']> s) core x ↔ held s core x.
Proof.
  intros Hb Hd Hd' core x. unfold held. simpl.
  split; intros (c & Hc & Hx); exists c; (split; [done|]);
    (destruct Hx as [->|(b2 & Hb2 & Hph & Hpr)]; [by left|right]).
  - destruct (decide (current_thread c = cur)) as [E|E].
    + rewrite E, lookup_insert_eq in Hb2. simplify_eq. congruence.
    + rewrite lookup_insert_ne in Hb2 by done. by exists b2.
  - destruct (decide (current_thread c = cur)) as [E|E].
    + rewrite E, Hb in Hb2. simplify_eq. congruence.
    + exists b2. by rewrite lookup_insert_ne.
Qed.

Lemma cores_sound_upd_dirty s core c b b' :
  cctx s !! core = Some c →
  tcbs s !! current_thread c = Some b →
  phase b = CTX_DIRTY → phase b' = CTX_DIRTY → state b' ≠ INIT →
  cores_sound s → cores_sound (set_tcbs <[current_thread c := b']> s).
Proof.
  intros Hc Hb Hd Hd' Hinit (H1 & H2 & H3).
  set (cur := current_thread c) in *.
  pose proof (held_upd_dirty s cur b b' Hb Hd Hd') as Hheld.
  split_and!.
  - intros core' c2 Hc2. simpl in Hc2.
    destruct (decide (current_thread c2 = cur)) as [E|E].
    { exists b'. rewrite E. simpl. rewrite lookup_insert_eq.
      split; [done|]. split; [done|]. congruence. }
    destruct (H1 core' c2 Hc2) as (b2 & Hb2 & Hi2 & Hcl).
    exists b2. simpl. rewrite lookup_insert_ne by done.
    split; [done|]. split; [done|]. intros Hph.
    destruct (Hcl Hph) as (Hr & p & pb & Hp & Hpb & Hrest).
    split; [done|]. exists p, pb. split; [done|]. split; [|done].
    rewrite lookup_insert_ne; [done|]. intros <-.
    assert (core' = core) as ->.
    { apply (H3 core' core cur); [|by apply held_current].
      by apply (held_prev s core' c2 b2). }
    rewrite Hc in Hc2. by simplify_eq.
  - intros core' x Hx. apply (H2 core'). by apply Hheld.
  - intros core1 core2 x Hx1 Hx2. apply (H3 core1 core2 x); by apply Hheld.
Qed.

Lemma idle_sound_upd_dirty s cur b b' :
  tcbs s !! cur = Some b →
  phase b = CTX_DIRTY → phase b' = CTX_DIRTY → type b' = type b →
  idle_sound s → idle_sound (set_tcbs <[cur := b']> s).
Proof.
  intros Hb Hd Hd' Hty [Hidle Hinj]. split; [|done].
  pose proof (held_upd_dirty s cur b b' Hb Hd Hd') as Hheld.
  intros core c Hc. simpl in Hc.
  destruct (Hidle core c Hc) as (bi & Hbi & Htyi & Hown & Hfree).
  destruct (decide (idle_thread c = cur)) as [<-|E].
  - rewrite Hb in Hbi. injection Hbi as <-. exists b'. simpl.
    rewrite lookup_insert_eq. split; [done|]. split; [congruence|].
    split.
    + intros core' Hh. apply Hown. by apply Hheld.
    + intros Hnone. destruct Hfree as [_ Hcl]; [|congruence].
      intros core' Hh. apply (Hnone core'). by apply Hheld.
  - exists bi. simpl. rewrite lookup_insert_ne by done.
    split; [done|]. split; [done|]. split.
    + intros core' Hh. apply Hown. by apply Hheld.
    + intros Hnone. apply Hfree. intros core' Hh. apply (Hnone core').
      by apply Hheld.
Qed.

End sound_lemmas.

(** ** The operations keep the invariant *)

Lemma with_wakeup_time_same b : with_wakeup_time (wakeup_time b) b = b.
Proof. by destruct b. Qed.

Section sound_steps.
Context `{Tunables}.
Hypothesis Hpos : (0 < PRIORITY_LISTS)%nat.
Hypothesis Hmax : Z.of_nat PRIORITY_LISTS ≤ INT_MAX.

(** The invariant depends on the thread blocks, the lists, the core
    blocks and the process blocks only. *)
Lemma sound_same s s' :
  tcbs s' = tcbs s → SCHED s' = SCHED s →
  TIMEOUT_LIST s' = TIMEOUT_LIST s → cctx s' = cctx s →
  thread_count s' = thread_count s → thread_exited s' = thread_exited s →
  sound s → sound s'.
Proof.
  destruct s, s'. simpl. intros -> -> -> -> -> ->. done.
Qed.

Lemma wakes_refl s : wakes s s.
Proof.
  unfold wakes. split_and!; try done.
  intros x. destruct (tcbs s !! x); constructor. apply woken_refl.
Qed.

Lemma wakes_trans s1 s2 s3 : wakes s1 s2 → wakes s2 s3 → wakes s1 s3.
Proof.
  intros (? & ? & ? & ? & ? & ? & ? & ? & H12)
         (? & ? & ? & ? & ? & ? & ? & ? & H23).
  unfold wakes. split_and!; try congruence.
  intros x. specialize (H12 x). specialize (H23 x).
  destruct H12 as [b1 b2 Hw|]; inversion H23 as [? b3 Hw'|]; constructor.
  by eapply woken_trans.
Qed.

Lemma wakes_lookup s s' x b :
  wakes s s' → tcbs s !! x = Some b →
  ∃ b', tcbs s' !! x = Some b' ∧ woken b b'.
Proof.
  intros (_ & _ & _ & _ & _ & _ & _ & _ & Hw) Hb. specialize (Hw x).
  rewrite Hb in Hw. inversion Hw as [? b' Hw'|]. by exists b'.
Qed.

(** A thread that a core holds is allocated and has started, and with a
    clean context it is [READY]. *)
Lemma held_block s core x :
  cores_sound s → held s core x →
  ∃ b, tcbs s !! x = Some b ∧ state b ≠ INIT
       ∧ (phase b = CTX_CLEAN → state b = READY).
Proof.
  intros (H1 & _ & _) (c & Hc & Hx).
  destruct (H1 core c Hc) as (b & Hb & Hinit & Hclean).
  destruct Hx as [->|(b' & Hb' & Hph & Hpr)].
  - exists b. split; [done|]. split; [done|]. intros Hph.
    by destruct (Hclean Hph).
  - simplify_eq.
    destruct (Hclean Hph) as (_ & p & pb & Hp & Hpb & Hdirty & Hst).
    simplify_eq. exists pb. split; [done|]. split.
    + destruct Hst as [?|[?|?]]; congruence.
    + congruence.
Qed.

(** A thread in a ready queue is held by no core. *)
Lemma queued_not_held s core x :
  cores_sound s → x ∈ concat (SCHED s) → ¬ held s core x.
Proof. intros (_ & H2 & _) Hx Hheld. by apply (H2 core x). Qed.

Lemma queued_block s x :
  queues_sound s → x ∈ concat (SCHED s) →
  ∃ b, tcbs s !! x = Some b ∧ state b = READY ∧ phase b = CTX_CLEAN
       ∧ 0 ≤ priority b < Z.of_nat PRIORITY_LISTS
       ∧ type b = NORMAL_THREAD.
Proof.
  intros (Hlen & _ & Hq) Hx.
  apply elem_of_concat in Hx as (q & Hl & Hx).
  apply list_elem_of_lookup in Hl as [i Hi].
  destruct (Hq i q x Hi Hx) as (b & Hb & Hst & Hph & Hp & Hty).
  exists b. split_and!; try done; [lia|].
  apply lookup_lt_Some in Hi. lia.
Qed.

(** The idle thread of a core is allocated, and it has started. *)
Lemma idle_block s core c :
  sound s → cctx s !! core = Some c →
  ∃ b, tcbs s !! idle_thread c = Some b ∧ type b = IDLE_THREAD
       ∧ state b ≠ INIT ∧ state b ≠ STOPPED ∧ state b ≠ EXITED.
Proof.
  intros (_ & _ & Hbs & _ & [Hidle _]) Hc.
  destruct (Hidle core c Hc) as (b & Hb & Hty & _).
  destruct (Hbs _ b Hb) as (_ & _ & _ & _ & _ & Hst).
  exists b. split; [done|]. split; [done|].
  destruct (Hst Hty) as [-> | ->]; done.
Qed.

(** A thread that is not an idle thread is a normal thread. *)
Lemma not_idle_normal b : type b ≠ IDLE_THREAD → type b = NORMAL_THREAD.
Proof. by destruct (type b). Qed.

(** The invariant after changes that leave the lists, the core blocks
    and the process blocks alone, and the thread blocks steady. *)
Lemma idle_sound_wakes s s' :
  sound s → wakes s s' → idle_sound s'.
Proof.
  intros Hs Hw. pose proof Hs as (_ & _ & _ & Hcs & His).
  pose proof Hw as (Hcc & _).
  apply (idle_sound_transfer s); [done| | |done].
  - apply held_same; [done|]. intros core c Hc.
    destruct Hcs as (H1 & _). destruct (H1 core c Hc) as (b & Hb & _).
    destruct (wakes_lookup s s' _ b Hw Hb) as (b' & Hb' & Hwk).
    apply woken_fields in Hwk as (? & ? & _). rewrite Hb, Hb'.
    by constructor.
  - intros core c b Hc Hb.
    destruct (wakes_lookup s s' _ b Hw Hb) as (b' & Hb' & Hwk).
    exists b'. split; [done|]. apply woken_steady; [|done].
    destruct (idle_block s core c Hs Hc) as (b0 & Hb0 & _ & Hinit & _).
    by simplify_eq.
Qed.

Lemma in_range_index p :
  in_range p → 0 ≤ p < Z.of_nat PRIORITY_LISTS.
Proof. unfold in_range, LOWEST_PRIORITY, TOP_PRIORITY. lia. Qed.

(** [sched_make_ready] on a thread that is [STOPPED] or [INIT]. *)
Lemma make_ready_sound t b s :
  sound s →
  tcbs s !! t = Some b →
  state b = STOPPED ∨ state b = INIT →
  sched_make_ready t s = Done tt (made_ready t b s)
  ∧ sound (made_ready t b s)
  ∧ wakes s (made_ready t b s).
Proof.
  intros Hs Hb Hst. pose proof Hs as (Hqs & Hts & Hbs & Hcs & His).
  destruct (Hbs t b Hb) as (Hpr & Hpq & Hwake & Hpcb & Hptcb & Hidle).
  assert (Hty : type b = NORMAL_THREAD).
  { apply not_idle_normal. intros Hi.
    destruct (Hidle Hi) as [?|?]; destruct Hst; congruence. }
  assert (Hout : t ∉ concat (SCHED s)).
  { intros Hin. destruct (queued_block s t Hqs Hin) as (b' & Hb' & Hr & _).
    simplify_eq. destruct Hst; congruence. }
  assert (Hsleeper : wakeup_time b ≠ NO_TIMEOUT →
                     t ∈ TIMEOUT_LIST s ∧ state b = STOPPED).
  { intros Hw. specialize (Hwake Hw). split; [done|].
    destruct Hts as [[Hall _] _].
    destruct (proj1 (Forall_forall _ _) Hall t Hwake) as (b' & Hb' & Hs' & _).
    by simplify_eq. }
  assert (Hnot_held : phase b = CTX_CLEAN → ∀ core, ¬ held s core t).
  { intros Hph core Hheld.
    destruct (held_block s core t Hcs Hheld) as (b' & Hb' & Hinit & Hclean).
    simplify_eq. specialize (Hclean Hph). destruct Hst; congruence. }
  set (b' := with_state READY (with_wakeup_time NO_TIMEOUT b)).
  pose proof (in_range_index _ Hpr) as Hidx.
  assert (Hrun : sched_make_ready t s = Done tt (made_ready t b s)).
  { rewrite (sched_make_ready_Done t b s Hb Hst).
    - f_equal. unfold made_ready. apply sched_eq; simpl; try done.
      + f_equal. subst b'. case_bool_decide as Hw; [done|].
        by rewrite <- Hw, with_wakeup_time_same.
      + assert ((if bool_decide (wakeup_time b ≠ NO_TIMEOUT)
                 then unlink t <$> SCHED s else SCHED s) = SCHED s) as ->;
          [|done].
        case_bool_decide; [by apply unlink_queues_notin|done].
      + case_bool_decide as Hw; [done|].
        symmetry. apply unlink_notin.
        apply (sound_not_sleeping s t b); auto.
    - intros Hw. destruct (Hsleeper Hw) as [Hin Hstop]. split; [|done].
      unfold is_linked. by rewrite bool_decide_eq_true_2.
    - intros _. destruct Hqs as [-> _]. done. }
  split; [done|].
  assert (Hwakes : wakes s (made_ready t b s)).
  { unfold wakes, made_ready. simpl. split_and!; try done.
    - case_bool_decide; [by rewrite length_insert|done].
    - intros x. destruct (decide (x = t)) as [->|Hne].
      + rewrite lookup_insert_eq, Hb. constructor. by right.
      + rewrite lookup_insert_ne by done.
        destruct (tcbs s !! x); constructor. apply woken_refl. }
  split; [|done].
  set (s1 := set_tcbs <[t := b']> s).
  assert (Hqs1 : queues_sound s1) by by apply queues_sound_upd.
  assert (HTLsub : ∀ x, x ∈ unlink t (TIMEOUT_LIST s) →
                        x ∈ TIMEOUT_LIST s ∧ x ≠ t).
  { intros x. apply elem_of_unlink. }
  unfold sound. split_and!.
  - (* queues *)
    destruct (decide (phase b = CTX_CLEAN)) as [Hph|Hph].
    + pose proof (queues_sound_push s1 t b' (Z.to_nat (priority b)) Hqs1)
        as Hpush.
      eapply queues_sound_frame; [| |apply Hpush].
      * unfold made_ready. simpl. by rewrite bool_decide_eq_true_2.
      * intros x bx _ Hbx. exists bx. split; [|done]. exact Hbx.
      * apply lookup_insert_eq.
      * done.
      * done.
      * simpl. lia.
      * done.
      * lia.
      * done.
    + eapply queues_sound_frame; [| |exact Hqs1].
      * unfold made_ready. simpl. by rewrite bool_decide_eq_false_2.
      * intros x bx _ Hbx. exists bx. split; [|done]. exact Hbx.
  - (* timeouts *)
    destruct Hts as [Hok Hnd]. split.
    + apply (timeouts_ok_transfer s).
      * simpl. apply sublist_filter.
      * simpl. intros x Hx. apply HTLsub in Hx as [_ Hne].
        unfold same_sleep, wakeup_of. simpl.
        by rewrite lookup_insert_ne.
      * done.
    + simpl. by apply NoDup_filter.
  - (* blocks *)
    intros x bx Hbx. simpl in Hbx. simpl.
    destruct (decide (x = t)) as [->|Hne].
    + rewrite lookup_insert_eq in Hbx. injection Hbx as <-. subst b'. simpl.
      split_and!; try done. intros _. by left.
    + rewrite lookup_insert_ne in Hbx by done.
      destruct (Hbs x bx Hbx) as (? & ? & Hw & ? & ? & ?).
      split_and!; try done. intros Hw'. apply elem_of_unlink. auto.
  - (* cores *)
    apply (cores_sound_transfer s); [done| | |done].
    + intros core x bx Hheld Hbx.
      destruct (wakes_lookup _ _ x bx Hwakes Hbx) as (bx' & Hbx' & Hw).
      exists bx'. split; [done|]. apply woken_steady; [|done].
      destruct (held_block s core x Hcs Hheld) as (b0 & Hb0 & Hinit & _).
      by simplify_eq.
    + intros x Hx. simpl in Hx.
      destruct (decide (phase b = CTX_CLEAN)) as [Hph|Hph].
      * rewrite bool_decide_eq_true_2 in Hx by done.
        apply elem_of_concat_push in Hx as [Hx| ->]; [by left|].
        right. by apply Hnot_held.
      * rewrite bool_decide_eq_false_2 in Hx by done. by left.
  - (* idle threads *)
    by apply (idle_sound_wakes s).
Qed.

Lemma current_block_inv core s b :
  current_block core s = Some b →
  ∃ c, cctx s !! core = Some c ∧ tcbs s !! current_thread c = Some b.
Proof.
  unfold current_block. destruct (cctx s !! core) as [c|]; [|done].
  simpl. intros Hb. by exists c.
Qed.

Lemma wakeup_sound t s :
  sound s → is_Some (tcbs s !! t) →
  ∃ r s', wakeup t s = Done r s' ∧ sound s'.
Proof.
  intros Hs [b Hb]. unfold wakeup.
  erewrite bind_Done; [|by apply get_tcb_Done].
  destruct (decide (state b = STOPPED ∨ state b = INIT)) as [Hst|Hst].
  - rewrite (bool_decide_eq_true_2 _ Hst).
    destruct (make_ready_sound t b s Hs Hb Hst) as (Hrun & Hs' & _).
    erewrite bind_Done; [|exact Hrun]. by eexists _, _.
  - rewrite (bool_decide_eq_false_2 _ Hst). by eexists _, _.
Qed.

Lemma allocated_in_lists s x :
  sound s → x ∈ concat (SCHED s) ∨ x ∈ TIMEOUT_LIST s →
  is_Some (tcbs s !! x).
Proof.
  intros (Hqs & [[Hall _] _] & _ & _) [Hx|Hx].
  - destruct (queued_block s x Hqs Hx) as (b & Hb & _). by exists b.
  - destruct (proj1 (Forall_forall _ _) Hall x Hx) as (b & Hb & _).
    by exists b.
Qed.

(** The invariant when a block that no core holds and that is not an
    idle thread of a core changes, or a block is added. *)
Lemma apart_sound s t b' :
  sound s →
  (∀ core, ¬ held s core t) →
  (∀ core c, cctx s !! core = Some c → idle_thread c ≠ t) →
  cores_sound (set_tcbs <[t := b']> s) ∧ idle_sound (set_tcbs <[t := b']> s).
Proof.
  intros Hs Hfree Hnidle. pose proof Hs as (_ & _ & _ & Hcs & His).
  assert (Hsteady : ∀ core x bx, held s core x → tcbs s !! x = Some bx →
            ∃ bx', tcbs (set_tcbs <[t := b']> s) !! x = Some bx'
                   ∧ steady bx bx').
  { intros core x bx Hheld Hbx. exists bx. split; [|apply steady_refl].
    simpl. rewrite lookup_insert_ne; [done|].
    intros <-. by apply (Hfree core). }
  split.
  - by apply (cores_sound_transfer s); [done| |by left|done].
  - apply (idle_sound_transfer s); [done| | |done].
    + by apply held_steady.
    + intros core c b Hc Hb. exists b. split; [|apply steady_refl].
      simpl. rewrite lookup_insert_ne; [done|]. intros E.
      by apply (Hnidle core c).
Qed.

Lemma spawn_sound pcb raw s :
  sound s → is_Some (thread_count s !! pcb) →
  ∃ t s', spawn_thread pcb raw s = Done t s' ∧ sound s'.
Proof.
  intros Hs Hpcb. eexists _, _. split; [reflexivity|].
  set (t := fresh (dom (tcbs s))).
  set (b0 := mkTCB pcb (owner_ptcb raw) NORMAL_THREAD INIT CTX_CLEAN
                   NO_TIMEOUT TOP_PRIORITY 0 TOP_PRIORITY (prev raw)
                   (next raw)).
  assert (Hfresh : tcbs s !! t = None) by apply fresh_block_free.
  assert (Hnew : ∀ x, is_Some (tcbs s !! x) → x ≠ t).
  { intros x [bx Hbx] ->. by rewrite Hfresh in Hbx. }
  apply (sound_same (set_tcbs <[t := b0]> s)); try done.
  pose proof Hs as (Hqs & Hts & Hbs & Hcs & His).
  destruct (apart_sound s t b0 Hs) as [Hcs' His'].
  { intros core Hheld.
    destruct (held_block s core t Hcs Hheld) as (bx & Hbx & _).
    by rewrite Hfresh in Hbx. }
  { intros core c Hc E.
    destruct (idle_block s core c Hs Hc) as (bx & Hbx & _).
    by rewrite E, Hfresh in Hbx. }
  unfold sound. split_and!.
  - apply queues_sound_upd; [|done]. intros Hin.
    by apply (Hnew t); [apply (allocated_in_lists s); auto|].
  - apply timeouts_sound_upd_outside; [|done]. intros Hin.
    by apply (Hnew t); [apply (allocated_in_lists s); auto|].
  - intros x bx Hbx. simpl in Hbx. simpl.
    destruct (decide (x = t)) as [->|Hne].
    + rewrite lookup_insert_eq in Hbx. injection Hbx as <-. simpl.
      unfold in_range, LOWEST_PRIORITY, TOP_PRIORITY.
      split_and!; try done; lia.
    + rewrite lookup_insert_ne in Hbx by done. by apply Hbs.
  - done.
  - done.
Qed.

(** The write of a handle keeps the invariant. *)
Lemma attach_sound t handle s :
  sound s → proper (OpAttach t handle) s →
  ∃ s', upd_tcb t (with_owner_ptcb handle) s = Done tt s' ∧ sound s'.
Proof.
  intros Hs (b & Hb & Hhandle).
  pose proof Hs as (Hqs & Hts & Hbs & Hcs & His).
  eexists. split; [by apply upd_tcb_Done|].
  set (b' := with_owner_ptcb handle b).
  assert (Hlook : ∀ x bx, tcbs s !! x = Some bx →
            ∃ bx', tcbs (set_tcbs <[t := b']> s) !! x = Some bx'
                   ∧ state bx' = state bx ∧ phase bx' = phase bx
                   ∧ priority bx' = priority bx ∧ type bx' = type bx
                   ∧ prev bx' = prev bx
                   ∧ wakeup_time bx' = wakeup_time bx).
  { intros x bx Hbx. simpl. destruct (decide (x = t)) as [->|Hne].
    - rewrite lookup_insert_eq. exists b'. simplify_eq. by split_and!.
    - rewrite lookup_insert_ne by done. exists bx. by split_and!. }
  assert (Hsteady : ∀ x bx, tcbs s !! x = Some bx →
            ∃ bx', tcbs (set_tcbs <[t := b']> s) !! x = Some bx'
                   ∧ steady bx bx').
  { intros x bx Hbx.
    destruct (Hlook x bx Hbx) as (bx' & Hbx' & ? & ? & ? & ? & ? & ?).
    exists bx'. split; [done|]. unfold steady. by split_and!; [..|left]. }
  unfold sound. split_and!.
  - apply (queues_sound_frame s); [done| |done].
    intros x bx _ Hbx.
    destruct (Hlook x bx Hbx) as (bx' & Hbx' & ? & ? & ? & ? & _).
    exists bx'. by split_and!.
  - apply (timeouts_sound_upd_quiet s t b); done.
  - intros x bx Hbx. simpl in Hbx. simpl.
    destruct (decide (x = t)) as [->|Hne].
    + rewrite lookup_insert_eq in Hbx. injection Hbx as <-.
      destruct (Hbs t b Hb) as (? & ? & ? & ? & ? & ?).
      subst b'. simpl. by split_and!.
    + rewrite lookup_insert_ne in Hbx by done. by apply Hbs.
  - apply (cores_sound_transfer s); [done| |by left|done]. eauto.
  - apply (idle_sound_transfer s); [done| | |done].
    + apply held_steady; [done|done|]. eauto.
    + eauto.
Qed.

Lemma NoDup_insert_middle (t : tid) (l1 l2 : list tid) :
  t ∉ l1 ++ l2 → NoDup (l1 ++ l2) → NoDup (l1 ++ t :: l2).
Proof.
  intros Hout Hnd. rewrite <- Permutation_middle. by apply NoDup_cons.
Qed.

Lemma sleep_sound core st timeout curtime s :
  sound s → proper (OpSleep core st timeout curtime) s →
  ∃ s', sleep_releasing_locked core st timeout curtime s = Done tt s'
        ∧ sound s'.
Proof.
  intros Hs ((b & Hcur & Hrun & Hty & Hexit) & Hst & Hdead).
  apply current_block_inv in Hcur as (c & Hc & Hb).
  set (t := current_thread c) in *.
  pose proof Hs as (Hqs & Hts & Hbs & Hcs & His).
  destruct (Hbs t b Hb) as (Hpr & Hpq & Hwake & Hpcb & Hptcb & Hidle).
  assert (Hdirty : phase b = CTX_DIRTY).
  { destruct Hcs as (H1 & _). destruct (H1 core c Hc) as (b0 & Hb0 & _ & Hcl).
    fold t in Hb0. rewrite Hb in Hb0. injection Hb0 as <-.
    destruct (phase b) eqn:E; [|done].
    destruct (Hcl eq_refl) as [Hr _]. congruence. }
  assert (HoutTL : t ∉ TIMEOUT_LIST s).
  { apply (sound_not_sleeping s t b); [done..|]. left. congruence. }
  assert (Hnone : wakeup_time b = NO_TIMEOUT).
  { destruct (decide (wakeup_time b = NO_TIMEOUT)) as [|Hw]; [done|].
    by destruct (HoutTL (Hwake Hw)). }
  assert (Hout : t ∉ concat (SCHED s)).
  { destruct Hcs as (_ & H2 & _). apply (H2 core). by apply held_current. }
  set (b0 := with_state st b).
  set (s0 := set_tcbs <[t := b0]> s).
  assert (Hs0 : sound s0).
  { unfold sound. split_and!.
    - by apply queues_sound_upd.
    - by apply timeouts_sound_upd_outside.
    - intros x bx Hbx. simpl in Hbx. simpl.
      destruct (decide (x = t)) as [->|Hne].
      + rewrite lookup_insert_eq in Hbx. injection Hbx as <-. subst b0.
        simpl. split_and!; try done. by rewrite Hty.
      + rewrite lookup_insert_ne in Hbx by done. by apply Hbs.
    - apply (cores_sound_upd_dirty s core c b b0); try done.
      subst b0. simpl. destruct Hst; congruence.
    - by apply (idle_sound_upd_dirty s t b b0). }
  assert (Hstart :
    sleep_releasing_locked core st timeout curtime s
    = (if bool_decide (st ≠ EXITED)
       then sched_register_timeout curtime t timeout else mret tt) s0).
  { unfold sleep_releasing_locked.
    rewrite (bool_decide_eq_true_2 (st = STOPPED ∨ st = EXITED)) by done.
    erewrite bind_Done; [|reflexivity].
    erewrite (bind_Done (CURTHREAD core)); [|by apply CURTHREAD_Done].
    by erewrite bind_Done; [|by apply upd_tcb_Done]. }
  rewrite Hstart.
  destruct (decide (st = EXITED)) as [->|Hne].
  { rewrite bool_decide_eq_false_2 by (by intros ?). by exists s0. }
  rewrite bool_decide_eq_true_2 by done.
  destruct (decide (timeout = NO_TIMEOUT)) as [->|Hto].
  { rewrite sched_register_timeout_none. by exists s0. }
  assert (st = STOPPED) as -> by (by destruct Hst).
  assert (Hb0 : tcbs s0 !! t = Some b0) by apply lookup_insert_eq.
  pose proof Hs0 as (Hqs0 & [Hok0 Hnd0] & Hbs0 & Hcs0 & His0).
  assert (Hall0 : Forall (λ x, is_Some (tcbs s0 !! x)) (TIMEOUT_LIST s0)).
  { apply Forall_forall. intros x Hx.
    apply (allocated_in_lists s0); [done|by right]. }
  destruct (sched_register_timeout_Done curtime t timeout b0 s0)
    as (l1 & l2 & Hl & Hreg & _); [done..|].
  rewrite Hreg. eexists. split; [reflexivity|].
  set (b1 := with_wakeup_time (wrap_timer (curtime + timeout)) b0).
  simpl in Hl.
  unfold sound. split_and!.
  - eapply queues_sound_frame; [| |exact Hqs0]; [done|].
    intros x bx Hx Hbx. exists bx. split; [|done]. simpl.
    rewrite lookup_insert_ne; [done|]. by intros ->.
  - split.
    + eapply (sched_register_timeout_ok curtime t timeout b0 s0);
        [done|done|done|done|done|exact Hreg].
    + simpl. apply NoDup_insert_middle; by rewrite <- Hl.
  - intros x bx Hbx. simpl in Hbx. simpl.
    destruct (decide (x = t)) as [->|Hne'].
    + rewrite lookup_insert_eq in Hbx. injection Hbx as <-. subst b1 b0.
      simpl. split_and!; try done.
      * intros _. apply elem_of_app. right. by left.
      * by rewrite Hty.
    + rewrite lookup_insert_ne in Hbx by done.
      destruct (Hbs0 x bx Hbx) as (? & ? & Hw & ? & ? & ?).
      split_and!; try done. intros Hw'. specialize (Hw Hw').
      simpl in Hw. rewrite Hl in Hw.
      apply elem_of_app in Hw as [Hw|Hw]; apply elem_of_app;
        [by left|right; by right].
  - apply (cores_sound_upd_dirty s0 core c b0 b1); done.
  - by apply (idle_sound_upd_dirty s0 t b0 b1).
Qed.

End sound_steps.

(** ** The selection keeps the invariant *)

Section sound_select.
Context `{Tunables}.
Hypothesis Hpos : (0 < PRIORITY_LISTS)%nat.
Hypothesis Hmax : Z.of_nat PRIORITY_LISTS ≤ INT_MAX.

Lemma timeouts_sound_same s s' :
  tcbs s' = tcbs s → TIMEOUT_LIST s' = TIMEOUT_LIST s →
  timeouts_sound s → timeouts_sound s'.
Proof. destruct s, s'. simpl. intros -> ->. done. Qed.

Lemma blocks_sound_same s s' :
  tcbs s' = tcbs s → TIMEOUT_LIST s' = TIMEOUT_LIST s →
  thread_count s' = thread_count s → thread_exited s' = thread_exited s →
  blocks_sound s → blocks_sound s'.
Proof. destruct s, s'. simpl. intros -> -> -> ->. done. Qed.

Lemma queues_sound_by_priority s :
  queues_sound s → queued_by_priority s.
Proof.
  intros (_ & _ & Hq) i q t Hi Ht.
  destruct (Hq i q t Hi Ht) as (b & Hb & _ & _ & Hp & _). by exists b.
Qed.

Lemma requeued_lookup s s' x b :
  requeued s s' → tcbs s !! x = Some b →
  ∃ b', tcbs s' !! x = Some b' ∧ reprioritised b b'.
Proof.
  intros (_ & _ & _ & _ & _ & _ & _ & _ & Hre) Hb. specialize (Hre x).
  rewrite Hb in Hre. inversion Hre as [? b' Hr|]. by exists b'.
Qed.

Lemma requeued_lookup_back s s' x b' :
  requeued s s' → tcbs s' !! x = Some b' →
  ∃ b, tcbs s !! x = Some b ∧ reprioritised b b'.
Proof.
  intros (_ & _ & _ & _ & _ & _ & _ & _ & Hre) Hb. specialize (Hre x).
  rewrite Hb in Hre. inversion Hre as [b ? Hr|]. by exists b.
Qed.

(** [boost] keeps the invariant. *)
Lemma boost_sound s :
  sound s → ∃ s', boost s = Done tt s' ∧ sound s' ∧ requeued s s'.
Proof.
  intros Hs. pose proof Hs as (Hqs & Hts & Hbs & Hcs & His).
  pose proof Hqs as (Hlen & Hnd & Hq).
  pose proof (queues_sound_by_priority s Hqs) as Hby.
  destruct (boost_by_priority s Hlen Hmax Hnd Hby)
    as (s' & Hrun & Hby' & Hnd' & Hlen' & Hperm & _).
  destruct (boost_frame s Hlen (queued_by_priority_allocated s Hby))
    as (s'' & Hrun' & Hre & _).
  rewrite Hrun in Hrun'. injection Hrun' as <-.
  exists s'. split; [done|]. split; [|done].
  pose proof Hre as (HTL & Hcc & _ & Htc & Hte & _ & _ & Hframe & _).
  unfold sound. split_and!.
  - split; [done|]. split; [done|]. intros i q t Hi Ht.
    destruct (Hby' i q t Hi Ht) as (b' & Hb' & Hp).
    exists b'. split; [done|].
    destruct (requeued_lookup_back s s' t b' Hre Hb') as (b & Hb & Hr).
    apply reprioritised_fields in Hr as (Hst & _ & Hph & Hty).
    assert (Hin : t ∈ concat (SCHED s)).
    { rewrite <- Hperm. apply elem_of_concat. exists q.
      split; [by eapply list_elem_of_lookup_2|done]. }
    destruct (queued_block Hpos s t Hqs Hin)
      as (b0 & Hb0 & Hr0 & Hc0 & _ & Hty0).
    simplify_eq. split_and!; congruence.
  - apply (timeouts_sound_frame s); [done| |done].
    intros x Hx. unfold same_sleep, wakeup_of.
    destruct (allocated_in_lists Hpos s x) as [b Hb]; [done|by right|].
    destruct (requeued_lookup s s' x b Hre Hb) as (b' & Hb' & Hr).
    apply reprioritised_fields in Hr as (Hst & Hw & _).
    rewrite Hb, Hb'. simpl. by rewrite Hst, Hw.
  - intros x b' Hb'.
    destruct (requeued_lookup_back s s' x b' Hre Hb') as (b & Hb & Hr).
    destruct (Hbs x b Hb) as (Hpr & Hpq & Hw & Hpcb & Hptcb & Hidle).
    rewrite HTL, Htc, Hte.
    assert (Hfields : prev_queue b' = prev_queue b
                      ∧ wakeup_time b' = wakeup_time b
                      ∧ owner_pcb b' = owner_pcb b
                      ∧ owner_ptcb b' = owner_ptcb b
                      ∧ state b' = state b
                      ∧ type b' = type b).
    { unfold reprioritised in Hr. by rewrite Hr. }
    destruct Hfields as (-> & -> & -> & -> & -> & ->).
    split_and!; try done.
    destruct (decide (x ∈ concat (SCHED s))) as [Hin|Hout].
    + rewrite <- Hperm in Hin.
      apply elem_of_concat in Hin as (q & Hl & Hx).
      apply list_elem_of_lookup in Hl as [i Hi].
      destruct (Hby' i q x Hi Hx) as (b'' & Hb'' & Hp). simplify_eq.
      apply lookup_lt_Some in Hi.
      unfold in_range, LOWEST_PRIORITY, TOP_PRIORITY. rewrite Hp. lia.
    + rewrite (Hframe x Hout) in Hb'. by simplify_eq.
  - apply (cores_sound_transfer s); [done| |by left; rewrite <- Hperm|done].
    intros core x b Hheld Hb. exists b. split; [|apply steady_refl].
    rewrite Hframe; [done|]. destruct Hcs as (_ & H2 & _). by apply (H2 core).
  - apply (idle_sound_transfer s); [done| | |done].
    + apply held_steady; [done|done|].
      intros core x b Hheld Hb. exists b. split; [|apply steady_refl].
      rewrite Hframe; [done|]. destruct Hcs as (_ & H2 & _).
      by apply (H2 core).
    + intros core c b Hc Hb. exists b. split; [|apply steady_refl].
      rewrite Hframe; [done|]. intros Hin.
      destruct (queued_block Hpos s _ Hqs Hin) as (b0 & Hb0 & _ & _ & _ & Hty).
      destruct (idle_block s core c Hs Hc) as (b1 & Hb1 & Hty1 & _).
      simplify_eq. congruence.
Qed.

(** The first loop of [sched_queue_select] keeps the invariant, and the
    length of the timeout list plus one is enough fuel for it. *)
Lemma drain_sound fuel : ∀ curtime s,
  sound s → (length (TIMEOUT_LIST s) < fuel)%nat →
  ∃ s', drain_timeouts fuel curtime s = Done tt s' ∧ sound s' ∧ wakes s s'.
Proof.
  induction fuel as [|fuel IH]; intros curtime s Hs Hfuel; [lia|].
  rewrite drain_timeouts_unfold.
  erewrite bind_Done; [|reflexivity].
  destruct (TIMEOUT_LIST s) as [|t l] eqn:HTL.
  { exists s. split; [done|]. split; [done|apply wakes_refl]. }
  destruct (allocated_in_lists Hpos s t Hs) as [b Hb];
    [right; rewrite HTL; by left|].
  erewrite bind_Done; [|by apply get_tcb_Done].
  case_bool_decide as Hlate.
  { exists s. split; [done|]. split; [done|apply wakes_refl]. }
  assert (Hst : state b = STOPPED).
  { destruct Hs as (_ & [[Hall _] _] & _).
    destruct (proj1 (Forall_forall _ _) Hall t) as (b' & Hb' & Hs' & _);
      [rewrite HTL; by left|]. by simplify_eq. }
  destruct (make_ready_sound Hpos t b s Hs Hb) as (Hrun & Hs1 & Hw1);
    [by left|].
  erewrite bind_Done; [|exact Hrun].
  destruct (IH curtime (made_ready t b s) Hs1) as (s' & Hrun' & Hs' & Hw').
  { simpl. rewrite HTL. unfold unlink.
    rewrite filter_cons_False by (intros Hn; by apply Hn).
    pose proof (length_filter (λ x, x ≠ t) l) as Hle.
    simpl in Hfuel. lia. }
  exists s'. split; [done|]. split; [done|]. by eapply wakes_trans.
Qed.

(** The invariant after a thread has been popped from a ready queue. *)
Lemma pop_sound s i t q :
  sound s → SCHED s !! i = Some (t :: q) →
  sound (set_SCHED <[i := q]> s)
  ∧ (t ∉ concat (<[i := q]> (SCHED s)))
  ∧ (∀ x, x ∈ concat (<[i := q]> (SCHED s)) → x ∈ concat (SCHED s))
  ∧ ∃ b, tcbs s !! t = Some b ∧ state b = READY ∧ phase b = CTX_CLEAN
         ∧ type b = NORMAL_THREAD.
Proof.
  intros (Hqs & Hts & Hbs & Hcs & His) Hi.
  destruct (queues_sound_pop s i t q Hi Hqs)
    as (Hqs' & Hout & b & Hb & Hst & Hph & _ & Hty).
  assert (Hsub : ∀ x, x ∈ concat (<[i := q]> (SCHED s)) →
                      x ∈ concat (SCHED s)).
  { intros x Hx. rewrite (concat_insert_pop t i q) by done. by right. }
  split; [|split; [done|split; [done|by exists b]]].
  unfold sound. split_and!.
  - done.
  - by apply (timeouts_sound_same s).
  - by apply (blocks_sound_same s).
  - apply (cores_sound_transfer s); [done| |by left; apply Hsub|done].
    intros core x bx _ Hbx. exists bx. split; [done|apply steady_refl].
  - apply (idle_sound_transfer s); [done|done| |done].
    intros core c bx _ Hbx. exists bx. split; [done|apply steady_refl].
Qed.

(** The cores hold the same threads after a requeueing, when no current
    thread is in a ready queue. *)
Lemma held_requeued s s' core x :
  cores_sound s → requeued s s' →
  held s' core x → held s core x.
Proof.
  intros Hcs Hre (c & Hc & Hx).
  pose proof Hre as (_ & Hcc & _ & _ & _ & _ & _ & Hframe & _).
  rewrite Hcc in Hc.
  destruct Hx as [->|(b' & Hb' & Hph & Hpr)]; [by apply held_current|].
  rewrite Hframe in Hb'.
  - by apply (held_prev s core c b').
  - destruct Hcs as (_ & H2 & _). apply (H2 core). by apply held_current.
Qed.

Lemma held_wakes s s' core x :
  cores_sound s → wakes s s' →
  held s core x → held s' core x.
Proof.
  intros Hcs Hw (c & Hc & Hx).
  pose proof Hw as (Hcc & _).
  destruct Hx as [->|(b & Hb & Hph & Hpr)].
  - apply held_current. by rewrite Hcc.
  - destruct (wakes_lookup s s' _ b Hw Hb) as (b' & Hb' & Hwk).
    apply woken_fields in Hwk as (Hph' & Hpr' & _).
    apply (held_prev s' core c b'); [by rewrite Hcc|done|congruence..].
Qed.

(** [sched_queue_select] keeps the invariant.  It returns null, or a
    thread that is [READY] with a clean context, that is not an idle
    thread, that is in no ready queue any more and that no core holds. *)
Lemma select_sound curtime s :
  sound s →
  ∃ next s',
    sched_queue_select curtime s = Done next s'
    ∧ sound s'
    ∧ cctx s' = cctx s
    ∧ (∀ t, next = Some t →
         ∃ bt, tcbs s' !! t = Some bt ∧ state bt = READY
               ∧ phase bt = CTX_CLEAN ∧ type bt = NORMAL_THREAD
               ∧ (t ∉ concat (SCHED s'))
               ∧ (∀ core, ¬ held s' core t))
    ∧ (∀ core x b, held s core x → tcbs s !! x = Some b →
         ∃ b', tcbs s' !! x = Some b' ∧ woken b b').
Proof.
  intros Hs.
  destruct (drain_sound (length (TIMEOUT_LIST s) + 2) curtime s Hs)
    as (s1 & Hdrain & Hs1 & Hw1); [lia|].
  pose proof Hs1 as (Hqs1 & _ & _ & Hcs1 & _).
  pose proof Hqs1 as (Hlen1 & _).
  assert (Hall1 : queued_allocated s1).
  { apply queued_by_priority_allocated. by apply queues_sound_by_priority. }
  destruct (select_drained curtime s s1 Hdrain Hlen1 Hpos Hall1)
    as (s' & Hrun & Htest & _).
  cbv zeta in Htest.
  set (top := (PRIORITY_LISTS - 1)%nat) in *.
  destruct (lookup_lt_is_Some_2 (SCHED s1) top) as [q Hq];
    [unfold top; lia|].
  rewrite Hq in Hrun. simpl in Hrun.
  set (s2 := set_SCHED <[top := tail q]> s1).
  assert (Hpop : sound s2
    ∧ (∀ x, x ∈ concat (SCHED s2) → x ∈ concat (SCHED s1))
    ∧ (∀ t, head q = Some t →
         (t ∉ concat (SCHED s2))
         ∧ ∃ bt, tcbs s1 !! t = Some bt ∧ state bt = READY
                 ∧ phase bt = CTX_CLEAN ∧ type bt = NORMAL_THREAD)).
  { destruct q as [|t q'].
    - assert (SCHED s2 = SCHED s1) as HS.
      { simpl. by apply list_insert_id. }
      split; [by apply (sound_same s1)|]. split; [by rewrite HS|done].
    - destruct (pop_sound s1 top t q' Hs1 Hq)
        as (Hsp & Hout & Hsub & bt & Hbt).
      split; [done|]. split; [done|].
      intros t' [= <-]. split; [done|]. by exists bt. }
  destruct Hpop as (Hs2 & Hsub & Hhead).
  assert (Hsm : sound (scanned s1)).
  { apply (sound_same s2); try done. unfold scanned. simpl.
    fold top. by rewrite Hq. }
  assert (Hre2 : requeued s2 (scanned s1)).
  { pose proof (requeued_scanned s1) as Hre. fold top in Hre.
    by rewrite Hq in Hre. }
  assert (Hfinal : sound s' ∧ requeued s2 s').
  { destruct (bool_decide (counter_congestion (scanned s1) >= MAX_CONGESTION)
              || bool_decide (fail_safe (scanned s1) = 500)).
    - destruct (boost_sound (scanned s1) Hsm) as (s4 & Hb & Hs4 & Hre4).
      rewrite Htest in Hb. injection Hb as <-.
      split; [done|]. exact (requeued_trans _ _ _ Hre2 Hre4).
    - by subst s'. }
  destruct Hfinal as [Hs' Hre].
  pose proof Hre as (_ & Hcc & _ & _ & _ & _ & Hperm & Hframe & _).
  pose proof Hs2 as (_ & _ & _ & Hcs2 & _).
  exists (head q), s'. split; [exact Hrun|]. split; [done|].
  split; [rewrite Hcc; by destruct Hw1|].
  split.
  - intros t Ht. destruct (Hhead t Ht) as (Hout & bt & Hbt & Hst & Hph & Hty).
    exists bt. split; [by rewrite Hframe|].
    split; [done|]. split; [done|]. split; [done|].
    split; [by rewrite Hperm|].
    intros core Hheld.
    apply (held_requeued _ _ core t Hcs2 Hre) in Hheld.
    apply (queued_not_held s1 core t Hcs1).
    + apply elem_of_concat. exists q.
      split; [by eapply list_elem_of_lookup_2|].
      destruct q as [|t0 q0]; simplify_eq/=. by left.
    + destruct Hheld as (c & Hc & Hx). by exists c.
  - intros core x b Hheld Hb.
    destruct (wakes_lookup s s1 x b Hw1 Hb) as (b' & Hb' & Hwk).
    exists b'. split; [|done]. rewrite Hframe; [done|].
    intros Hin. apply Hsub in Hin.
    destruct Hs as (_ & _ & _ & Hcs & _).
    apply (queued_not_held s1 core x Hcs1 Hin).
    by apply (held_wakes s s1).
Qed.

End sound_select.

(** ** The switch and the gain keep the invariant *)

Section sound_switch.
Context `{Tunables}.
Hypothesis Hpos : (0 < PRIORITY_LISTS)%nat.
Hypothesis Hmax : Z.of_nat PRIORITY_LISTS ≤ INT_MAX.

Lemma yield_priority_fields cause b :
  phase (yield_priority cause b) = phase b
  ∧ prev (yield_priority cause b) = prev b
  ∧ state (yield_priority cause b) = state b
  ∧ wakeup_time (yield_priority cause b) = wakeup_time b
  ∧ owner_pcb (yield_priority cause b) = owner_pcb b
  ∧ owner_ptcb (yield_priority cause b) = owner_ptcb b
  ∧ type (yield_priority cause b) = type b.
Proof.
  unfold yield_priority, reinstate_priority, clamp_priority, adjust_priority.
  destruct cause; repeat case_bool_decide; done.
Qed.

Lemma yield_priority_range cause b :
  in_range (priority b) → in_range (prev_queue b) →
  in_range (priority (yield_priority cause b))
  ∧ in_range (prev_queue (yield_priority cause b)).
Proof.
  unfold in_range, LOWEST_PRIORITY. intros Hp Hq.
  assert (H0 : 0 ≤ TOP_PRIORITY < INT_MAX) by (unfold TOP_PRIORITY; lia).
  unfold yield_priority, reinstate_priority, clamp_priority.
  unfold LOWEST_PRIORITY.
  destruct cause; unfold adjust_priority, LOWEST_PRIORITY; simpl;
    rewrite ?(wrap_int_id (priority b - 1))
      by (unfold INT_MIN, INT_MAX in *; lia);
    rewrite ?(wrap_int_id (priority b + 1))
      by (unfold INT_MIN, INT_MAX in *; lia);
    repeat (case_bool_decide; simpl); simpl; lia.
Qed.

Lemma yielded_fields cause b :
  phase (yielded cause b) = phase b
  ∧ prev (yielded cause b) = prev b
  ∧ wakeup_time (yielded cause b) = wakeup_time b
  ∧ owner_pcb (yielded cause b) = owner_pcb b
  ∧ owner_ptcb (yielded cause b) = owner_ptcb b
  ∧ priority (yielded cause b) = priority (yield_priority cause b)
  ∧ prev_queue (yielded cause b) = prev_queue (yield_priority cause b)
  ∧ state (yielded cause b)
    = (if bool_decide (state b = RUNNING) then READY else state b)
  ∧ type (yielded cause b) = type b.
Proof.
  destruct (yield_priority_fields cause b) as (? & ? & Hst & ? & ? & ? & ?).
  unfold yielded. destruct (state b) eqn:E; simpl; rewrite ?Hst, ?E;
    by split_and!.
Qed.

(** The invariant when the block of a current thread whose context is
    in use changes in its links only. *)
Lemma relink_sound core c b b' s :
  sound s →
  cctx s !! core = Some c →
  tcbs s !! current_thread c = Some b →
  phase b = CTX_DIRTY →
  b' = with_prev (prev b') (with_next (next b') b) →
  sound (set_tcbs <[current_thread c := b']> s).
Proof.
  intros (Hqs & Hts & Hbs & Hcs & His) Hc Hb Hdirty Hb'.
  set (cur := current_thread c) in *.
  assert (Hfields : state b' = state b ∧ phase b' = phase b
            ∧ type b' = type b ∧ wakeup_time b' = wakeup_time b
            ∧ priority b' = priority b ∧ prev_queue b' = prev_queue b
            ∧ owner_pcb b' = owner_pcb b ∧ owner_ptcb b' = owner_ptcb b)
    by by rewrite Hb'.
  destruct Hfields as (Hst & Hph & Hty & Hw & Hpr & Hpq & Hpcb & Hptcb).
  pose proof Hcs as (H1 & H2 & _).
  destruct (H1 core c Hc) as (b0 & Hb0 & Hinit & _). fold cur in Hb0.
  rewrite Hb in Hb0. injection Hb0 as <-.
  unfold sound. split_and!.
  - apply queues_sound_upd; [|done]. apply (H2 core). by apply held_current.
  - by apply (timeouts_sound_upd_quiet s cur b).
  - intros x bx Hbx. simpl in Hbx. simpl.
    destruct (decide (x = cur)) as [->|Hne].
    + rewrite lookup_insert_eq in Hbx. injection Hbx as <-.
      rewrite Hst, Hty, Hw, Hpr, Hpq, Hpcb, Hptcb. by apply Hbs.
    + rewrite lookup_insert_ne in Hbx by done. by apply Hbs.
  - apply (cores_sound_upd_dirty s core c b b'); try done; congruence.
  - apply (idle_sound_upd_dirty s cur b b'); try done; congruence.
Qed.

(** The invariant when the core [core] has switched from its current
    thread to the thread [t]: the thread that was selected, or the idle
    thread of the core. *)
Lemma link_sound core c t bc bt s :
  sound s →
  cctx s !! core = Some c →
  tcbs s !! current_thread c = Some bc →
  phase bc = CTX_DIRTY →
  state bc = READY ∨ state bc = STOPPED ∨ state bc = EXITED →
  tcbs s !! t = Some bt →
  state bt = READY → phase bt = CTX_CLEAN →
  type bt = NORMAL_THREAD ∨ t = idle_thread c →
  (t ∉ concat (SCHED s)) →
  (∀ core', ¬ held s core' t) →
  sound (set_cctx <[core := mkCCB t (idle_thread c)]>
           (set_tcbs
              (λ h, <[t := with_prev (Some (current_thread c)) bt]>
                      (<[current_thread c := with_next (Some t) bc]> h))
              s)).
Proof.
  intros (Hqs & Hts & Hbs & Hcs & His) Hc Hbc Hdirty Hstc Hbt Hstt Hclean
    Hkind Hout Hfree.
  set (cur := current_thread c) in *.
  pose proof (held_current s core c Hc) as Hheld_cur. fold cur in Hheld_cur.
  assert (Hne : cur ≠ t) by (intros E; apply (Hfree core); by rewrite <- E).
  pose proof Hcs as (H1 & H2 & H3).
  assert (Hcur_out : cur ∉ concat (SCHED s)) by by apply (H2 core).
  set (bt' := with_prev (Some cur) bt).
  set (bc' := with_next (Some t) bc).
  set (s3 := set_cctx _ _).
  assert (Ht3 : tcbs s3 !! t = Some bt') by apply lookup_insert_eq.
  assert (Hc3 : tcbs s3 !! cur = Some bc').
  { simpl. rewrite lookup_insert_ne by done. apply lookup_insert_eq. }
  assert (Hother : ∀ x, x ≠ t → x ≠ cur → tcbs s3 !! x = tcbs s !! x).
  { intros x H1' H2'. simpl. by rewrite !lookup_insert_ne. }
  assert (Hcore3 : cctx s3 !! core = Some (mkCCB t (idle_thread c))).
  { simpl. apply list_lookup_insert_eq. by eapply lookup_lt_Some. }
  assert (Hcores3 : ∀ core', core' ≠ core →
                      cctx s3 !! core' = cctx s !! core').
  { intros core' Hn. simpl. by rewrite list_lookup_insert_ne. }
  assert (Hheld_other : ∀ core' x, core' ≠ core →
                          held s3 core' x → held s core' x).
  { intros core' x Hn (c2 & Hc2 & Hx). rewrite Hcores3 in Hc2 by done.
    destruct Hx as [->|(b2 & Hb2 & Hph & Hpr)]; [by apply held_current|].
    pose proof (held_current s core' c2 Hc2) as Hh2.
    rewrite Hother in Hb2.
    - by apply (held_prev s core' c2 b2).
    - intros E. apply (Hfree core'). by rewrite <- E.
    - intros E. rewrite E in Hh2. destruct Hn. by apply (H3 core' core cur). }
  assert (Hheld_core : ∀ x, held s3 core x → x = t ∨ x = cur).
  { intros x (c2 & Hc2 & Hx). rewrite Hcore3 in Hc2. injection Hc2 as <-.
    cbn [current_thread] in Hx.
    destruct Hx as [->|(b2 & Hb2 & _ & Hpr)]; [by left|].
    rewrite Ht3 in Hb2. injection Hb2 as <-. cbn [prev bt' with_prev] in Hpr.
    right. congruence. }
  assert (Hheld_forth : ∀ core' x, core' ≠ core →
                          held s core' x → held s3 core' x).
  { intros core' x Hn (c2 & Hc2 & Hx). exists c2.
    rewrite Hcores3 by done. split; [done|].
    destruct Hx as [->|(b2 & Hb2 & Hph & Hpr)]; [by left|right].
    pose proof (held_current s core' c2 Hc2) as Hh2.
    exists b2. split; [|done]. rewrite Hother; [done| |].
    - intros E. apply (Hfree core'). by rewrite <- E.
    - intros E. rewrite E in Hh2. destruct Hn. by apply (H3 core' core cur). }
  assert (Hidle3 : ∀ core' c', cctx s3 !! core' = Some c' →
            ∃ c0, cctx s !! core' = Some c0
                  ∧ idle_thread c' = idle_thread c0).
  { intros core' c' Hc'. destruct (decide (core' = core)) as [->|Hn].
    - rewrite Hcore3 in Hc'. injection Hc' as <-. by exists c.
    - rewrite Hcores3 in Hc' by done. by exists c'. }
  unfold sound. split_and!.
  - apply (queues_sound_frame s); [done| |done].
    intros x bx Hx Hbx. exists bx. split; [|done].
    rewrite Hother; [done|by intros ->|by intros ->].
  - apply (timeouts_sound_frame s); [done| |done].
    intros x _. unfold same_sleep, wakeup_of.
    destruct (decide (x = t)) as [->|Hxt]; [by rewrite Ht3, Hbt|].
    destruct (decide (x = cur)) as [->|Hxc]; [by rewrite Hc3, Hbc|].
    by rewrite Hother.
  - intros x bx Hbx.
    destruct (decide (x = t)) as [->|Hxt].
    { rewrite Ht3 in Hbx. injection Hbx as <-. by apply (Hbs t bt). }
    destruct (decide (x = cur)) as [->|Hxc].
    { rewrite Hc3 in Hbx. injection Hbx as <-. by apply (Hbs cur bc). }
    rewrite Hother in Hbx by done. by apply (Hbs x bx).
  - split_and!.
    + intros core' c2 Hc2.
      destruct (decide (core' = core)) as [->|Hn].
      * rewrite Hcore3 in Hc2. injection Hc2 as <-. simpl.
        exists bt'. split; [done|]. split; [unfold bt'; simpl; by rewrite Hstt|].
        intros _. split; [done|].
        exists cur, bc'. by split_and!.
      * rewrite Hcores3 in Hc2 by done.
        destruct (H1 core' c2 Hc2) as (b2 & Hb2 & Hinit & Hcl).
        pose proof (held_current s core' c2 Hc2) as Hh2.
        assert (Hb2' : tcbs s3 !! current_thread c2 = Some b2).
        { rewrite Hother; [done| |].
          - intros E. apply (Hfree core'). by rewrite <- E.
          - intros E. rewrite E in Hh2. destruct Hn.
            by apply (H3 core' core cur). }
        exists b2. split; [done|]. split; [done|].
        intros Hph. destruct (Hcl Hph) as (Hr & p & pb & Hp & Hpb & Hd & Hs).
        split; [done|]. exists p, pb. split; [done|].
        split; [|done].
        pose proof (held_prev s core' c2 b2 p Hc2 Hb2 Hph Hp) as Hhp.
        rewrite Hother; [done| |].
        -- intros E. apply (Hfree core'). by rewrite <- E.
        -- intros E. rewrite E in Hhp. destruct Hn.
           by apply (H3 core' core cur).
    + intros core' x Hx.
      destruct (decide (core' = core)) as [->|Hn].
      * destruct (Hheld_core x Hx) as [-> | ->]; done.
      * apply (H2 core'). by apply Hheld_other.
    + intros core1 core2 x Hx1 Hx2.
      destruct (decide (core1 = core)) as [->|Hn1];
        destruct (decide (core2 = core)) as [->|Hn2]; [done| | |].
      * apply Hheld_other in Hx2; [|done].
        destruct (Hheld_core x Hx1) as [-> | ->].
        -- by destruct (Hfree core2).
        -- by apply (H3 core core2 cur).
      * apply Hheld_other in Hx1; [|done].
        destruct (Hheld_core x Hx2) as [-> | ->].
        -- by destruct (Hfree core1).
        -- by apply (H3 core1 core cur).
      * apply (H3 core1 core2 x); by apply Hheld_other.
  - destruct His as [Hidle Hinj]. split.
    + intros core' c' Hc'.
      destruct (Hidle3 core' c' Hc') as (c0 & Hc0 & ->).
      destruct (Hidle core' c0 Hc0) as (bi & Hbi & Hty & Hown & Hnone).
      set (i := idle_thread c0) in *.
      assert (Hblock : ∃ bi', tcbs s3 !! i = Some bi' ∧ type bi' = type bi
                ∧ (i ≠ t → i ≠ cur → bi' = bi)).
      { destruct (decide (i = t)) as [E|Hit].
        { exists bt'. rewrite E. split; [done|]. split; [|done].
          rewrite E, Hbt in Hbi. by injection Hbi as <-. }
        destruct (decide (i = cur)) as [E|Hic].
        { exists bc'. rewrite E. split; [done|]. split; [|done].
          rewrite E, Hbc in Hbi. by injection Hbi as <-. }
        exists bi. by rewrite Hother. }
      destruct Hblock as (bi' & Hbi' & Hty' & Hsame).
      exists bi'. split; [done|]. split; [congruence|]. split.
      * intros core'' Hh. destruct (decide (core'' = core)) as [->|Hn].
        -- destruct (Hheld_core i Hh) as [E|E].
           ++ destruct Hkind as [Hnormal|Hidle_t].
              ** rewrite E, Hbt in Hbi. injection Hbi as <-. congruence.
              ** apply (Hinj core core' c c0); [done|done|].
                 unfold i in E. congruence.
           ++ apply Hown. by rewrite E.
        -- apply Hown. by apply Hheld_other.
      * intros Hfree3.
        assert (Hit : i ≠ t).
        { intros E. apply (Hfree3 core). exists (mkCCB t (idle_thread c)).
          split; [done|]. by left. }
        assert (Hic : i ≠ cur).
        { intros E. apply (Hfree3 core). exists (mkCCB t (idle_thread c)).
          split; [done|]. right. exists bt'.
          split_and!; [exact Ht3|exact Hclean|by rewrite E]. }
        rewrite (Hsame Hit Hic). apply Hnone.
        intros core'' Hh. destruct (decide (core'' = core)) as [->|Hn].
        -- destruct Hh as (c2 & Hc2 & Hx). rewrite Hc in Hc2.
           injection Hc2 as <-.
           destruct Hx as [E|(b2 & Hb2 & Hph & _)]; [done|].
           fold cur in Hb2. rewrite Hbc in Hb2. injection Hb2 as <-.
           congruence.
        -- apply (Hfree3 core''). by apply Hheld_forth.
    + intros core1 core2 c1 c2 Hc1 Hc2 E.
      destruct (Hidle3 core1 c1 Hc1) as (c1' & Hc1' & E1).
      destruct (Hidle3 core2 c2 Hc2) as (c2' & Hc2' & E2).
      apply (Hinj core1 core2 c1' c2'); [done|done|congruence].
Qed.

(** The invariant when the thread that yields has its new priority
    and is no longer [RUNNING]. *)
Lemma yield_prepare_sound core c b cause s :
  sound s →
  cctx s !! core = Some c →
  tcbs s !! current_thread c = Some b →
  phase b = CTX_DIRTY →
  sound (set_tcbs <[current_thread c := yielded cause b]> s).
Proof.
  intros Hs Hc Hb Hdirty. pose proof Hs as (Hqs & Hts & Hbs & Hcs & His).
  set (cur := current_thread c) in *.
  pose proof (held_current s core c Hc) as Hheld. fold cur in Hheld.
  pose proof Hcs as (H1 & H2 & H3).
  destruct (H1 core c Hc) as (b0 & Hb0 & Hinit & _). fold cur in Hb0.
  rewrite Hb in Hb0. injection Hb0 as <-.
  destruct (yielded_fields cause b)
    as (Hph & Hpr & Hw & Hpcb & Hptcb & Hprio & Hpq & Hst & Hty).
  assert (Hst' : state (yielded cause b) ≠ INIT
                 ∧ (state (yielded cause b) = EXITED → state b = EXITED)
                 ∧ (state b = READY ∨ state b = RUNNING →
                    state (yielded cause b) = READY)).
  { rewrite Hst. case_bool_decide as Hrun.
    - split; [done|]. split; [done|]. by intros _.
    - split; [done|]. split; [done|]. by intros [?|?]. }
  destruct Hst' as (Hinit' & Hexit & Hready).
  unfold sound. split_and!.
  - apply queues_sound_upd; [|done]. by apply (H2 core).
  - destruct (decide (state b = RUNNING)) as [Hrun|Hrun].
    + apply timeouts_sound_upd_outside; [|done].
      apply (sound_not_sleeping s cur b); [done|done|].
      left. by rewrite Hrun.
    + apply (timeouts_sound_upd_quiet s cur b); [done| |done|done].
      by rewrite Hst, bool_decide_eq_false_2.
  - intros x bx Hbx. simpl in Hbx.
    destruct (decide (x = cur)) as [->|Hx].
    + rewrite lookup_insert_eq in Hbx. injection Hbx as <-.
      destruct (Hbs cur b Hb) as (Hr1 & Hr2 & Hdl & Hcount & Hhandle & Hidle).
      destruct (yield_priority_range cause b Hr1 Hr2) as [Hr1' Hr2'].
      rewrite Hprio, Hpq, Hw, Hpcb, Hptcb, Hty. split_and!; try done.
      * intros He. by apply Hhandle, Hexit.
      * intros Hi. left. apply Hready. destruct (Hidle Hi); auto.
    + rewrite lookup_insert_ne in Hbx by done. by apply (Hbs x bx).
  - apply (cores_sound_upd_dirty s core c b); try done. congruence.
  - apply (idle_sound_upd_dirty s cur b); try done. congruence.
Qed.

(** [yield], up to the switch: it returns, it keeps the invariant, and it
    leaves the core with a thread that goes on in [gain]: the thread
    that was selected or the idle thread of the core, with a clean
    context, or the thread that has yielded, which has yielded to
    itself. *)
Lemma yield_switch_sound core cause curtime s :
  sound s → proper (OpYield core cause curtime) s →
  ∃ s', yield_switch core cause curtime s = Done tt s'
        ∧ sound s'
        ∧ proper (OpGain core) s'.
Proof.
  intros Hs (b & Hcb & Hdirty).
  destruct (current_block_inv core s b Hcb) as (c & Hc & Hb).
  pose proof Hs as (Hqs & Hts & Hbs & Hcs & His).
  pose proof Hcs as (H1 & H2 & H3).
  destruct (H1 core c Hc) as (b0 & Hb0 & Hinit & _).
  rewrite Hb in Hb0. injection Hb0 as <-.
  set (cur := current_thread c) in *.
  set (bA := yield_priority cause b).
  set (sA := set_tcbs <[cur := bA]> s).
  set (sB := set_tcbs <[cur := yielded cause b]> s).
  destruct (yield_priority_quiet cause b) as [HstA HwA]. fold bA in HstA, HwA.
  destruct (yielded_fields cause b)
    as (Hph & Hpr & Hw & Hpcb & Hptcb & Hprio & Hpq & Hst & Hty).
  assert (HsB : sound sB) by by apply (yield_prepare_sound core).
  set (ready := bool_decide (state b = RUNNING ∨ state b = READY)).
  assert (Hstate :
    (match state bA with
     | RUNNING => upd_tcb cur (with_state READY);; mret true
     | READY => mret true
     | STOPPED | EXITED => mret false
     | INIT => crash AssertFail
     end) sA
    = Done ready sB).
  { rewrite HstA. subst sB ready. unfold yielded. fold bA.
    destruct (state b) eqn:Hstb; try done.
    erewrite bind_Done.
    2:{ apply upd_tcb_Done. apply lookup_insert_eq. }
    unfold mret, M_ret. f_equal. apply sched_eq; simpl; try done.
    by rewrite insert_insert_eq. }
  assert (Hstart :
    yield_switch core cause curtime s
    = (next ← sched_queue_select curtime;
       next ←
         match next with
         | Some n => mret n
         | None =>
             if ready then mret cur
             else c ← CURCORE core; mret (idle_thread c)
         end;
       upd_tcb cur (with_next (Some next));;
       upd_tcb next (with_prev (Some cur));;
       if bool_decide (cur ≠ next) then set_CURTHREAD core next
       else mret tt) sB).
  { unfold yield_switch.
    erewrite (bind_Done (CURTHREAD core)); [|by apply CURTHREAD_Done].
    fold cur.
    erewrite (bind_Done (upd_tcb cur _)); [|by apply upd_tcb_Done].
    fold bA sA.
    erewrite (bind_Done (get_tcb cur));
      [|apply get_tcb_Done; apply lookup_insert_eq].
    erewrite bind_Done; [|exact Hstate]. done. }
  rewrite Hstart. clear Hstart.
  destruct (select_sound Hpos Hmax curtime sB HsB)
    as (next & s1 & Hsel & Hs1 & Hcc & Hnext & Hkeep).
  assert (HcB : cctx sB !! core = Some c) by done.
  destruct (Hkeep core cur (yielded cause b)) as (bc & Hbc & Hwoken).
  { by apply held_current. }
  { apply lookup_insert_eq. }
  assert (Hc1 : cctx s1 !! core = Some c) by by rewrite Hcc.
  destruct (woken_fields _ _ Hwoken) as (Hphc & _ & _ & _ & _ & _ & Htyc & _).
  assert (Hbc_dirty : phase bc = CTX_DIRTY) by by rewrite Hphc, Hph.
  assert (Hbc_state :
    state bc = READY ∨ state bc = STOPPED ∨ state bc = EXITED).
  { destruct Hwoken as [->|[_ ->]]; [|by left].
    rewrite Hst. destruct (decide (state b = RUNNING)) as [E|E].
    - rewrite (bool_decide_eq_true_2 (state b = RUNNING)) by done. by left.
    - rewrite (bool_decide_eq_false_2 (state b = RUNNING)) by done.
      destruct (state b);
        first [done|by left|by (right; left)|by (right; right)]. }
  assert (Hswitch : ∀ t bt,
    tcbs s1 !! t = Some bt → state bt = READY → phase bt = CTX_CLEAN →
    type bt = NORMAL_THREAD ∨ t = idle_thread c →
    (t ∉ concat (SCHED s1)) → (∀ core', ¬ held s1 core' t) →
    ∃ s',
      (upd_tcb cur (with_next (Some t));;
       upd_tcb t (with_prev (Some cur));;
       if bool_decide (cur ≠ t) then set_CURTHREAD core t else mret tt) s1
      = Done tt s'
      ∧ sound s' ∧ proper (OpGain core) s').
  { intros t bt Hbt Hstt Hclt Hkind Hout Hfree.
    assert (Hne : cur ≠ t).
    { intros E. apply (Hfree core). rewrite <- E. by apply held_current. }
    eexists. split.
    { erewrite (bind_Done (upd_tcb cur _)); [|by apply upd_tcb_Done].
      erewrite (bind_Done (upd_tcb t _)).
      2:{ apply upd_tcb_Done. simpl. by rewrite lookup_insert_ne. }
      rewrite (bool_decide_eq_true_2 (cur ≠ t)) by done.
      unfold set_CURTHREAD.
      erewrite (bind_Done (CURCORE core)).
      2:{ unfold CURCORE. simpl. by rewrite Hc1. }
      unfold modify. reflexivity. }
    split.
    { by apply (link_sound core c t bc bt s1). }
    exists (mkCCB t (idle_thread c)), (with_prev (Some cur) bt).
    split; [simpl; apply list_lookup_insert_eq; by eapply lookup_lt_Some|].
    split; [simpl; apply lookup_insert_eq|]. by left. }
  erewrite bind_Done; [|exact Hsel].
  destruct next as [t|].
  - destruct (Hnext t eq_refl)
      as (bt & Hbt & Hstt & Hclt & Htyt & Hout & Hfree).
    erewrite bind_Done; [|reflexivity].
    apply (Hswitch t bt); auto.
  - destruct (decide (state b = RUNNING ∨ state b = READY)) as [Hready|Hnot].
    + subst ready. rewrite (bool_decide_eq_true_2 _ Hready).
      erewrite bind_Done; [|reflexivity].
      set (bc1 := with_next (Some cur) bc).
      set (bc2 := with_prev (Some cur) bc1).
      assert (Hbc_ready : state bc = READY).
      { destruct Hwoken as [->|[_ ->]]; [|done]. rewrite Hst.
        destruct (decide (state b = RUNNING)) as [E|E].
        - by rewrite (bool_decide_eq_true_2 (state b = RUNNING)).
        - rewrite (bool_decide_eq_false_2 (state b = RUNNING)) by done.
          by destruct Hready. }
      eexists. split.
      { erewrite (bind_Done (upd_tcb cur _)); [|by apply upd_tcb_Done].
        erewrite (bind_Done (upd_tcb cur _)).
        2:{ apply upd_tcb_Done. simpl. apply lookup_insert_eq. }
        rewrite (bool_decide_eq_false_2 (cur ≠ cur)) by (by intros ?).
        reflexivity. }
      fold bc1 bc2.
      assert (Hs2 : sound (set_tcbs <[cur := bc1]> s1)).
      { by apply (relink_sound core c bc bc1 s1). }
      split.
      * apply (relink_sound core c bc1 bc2 (set_tcbs <[cur := bc1]> s1));
          try done. apply lookup_insert_eq.
      * exists c, bc2. split; [done|].
        split; [simpl; apply lookup_insert_eq|]. right. by split.
    + subst ready. rewrite (bool_decide_eq_false_2 _ Hnot).
      erewrite bind_Done.
      2:{ erewrite (bind_Done (CURCORE core)); [reflexivity|].
          unfold CURCORE. by rewrite Hc1. }
      destruct (idle_block s1 core c Hs1 Hc1)
        as (bi & Hbi & Htyi & _).
      assert (Hnormal : type bc ≠ IDLE_THREAD).
      { rewrite Htyc, Hty. intros Hi.
        destruct (Hbs cur b Hb) as (_ & _ & _ & _ & _ & Hidle).
        destruct (Hidle Hi); auto. }
      assert (Hne : idle_thread c ≠ cur).
      { intros E. rewrite E, Hbc in Hbi. injection Hbi as <-. done. }
      pose proof Hs1 as (Hqs1 & _ & _ & _ & [Hidle1 _]).
      destruct (Hidle1 core c Hc1) as (bi' & Hbi' & _ & Hown & Hnone).
      rewrite Hbi in Hbi'. injection Hbi' as <-.
      assert (Hfree : ∀ core', ¬ held s1 core' (idle_thread c)).
      { intros core' Hh. pose proof (Hown core' Hh) as ->.
        destruct Hh as (c2 & Hc2 & Hx). rewrite Hc1 in Hc2.
        injection Hc2 as <-.
        destruct Hx as [E|(b2 & Hb2 & Hph2 & _)]; [done|].
        fold cur in Hb2. rewrite Hbc in Hb2. injection Hb2 as <-.
        congruence. }
      destruct (Hnone Hfree) as [Hri Hci].
      apply (Hswitch (idle_thread c) bi); auto.
      intros Hin.
      destruct (queued_block Hpos s1 _ Hqs1 Hin) as (b2 & Hb2 & _ & _ & _ & Hn).
      rewrite Hbi in Hb2. injection Hb2 as <-. congruence.
Qed.

(** The threads the cores hold after [gain]: the thread that has yielded
    is no longer held by the core. *)
Lemma gain_held core c b p s s' :
  cores_sound s →
  cctx s !! core = Some c →
  tcbs s !! current_thread c = Some b →
  phase b = CTX_CLEAN → prev b = Some p →
  cctx s' = cctx s →
  (∃ b', tcbs s' !! current_thread c = Some b' ∧ phase b' = CTX_DIRTY) →
  (∀ x, x ≠ current_thread c → x ≠ p → tcbs s' !! x = tcbs s !! x) →
  p ≠ current_thread c
  ∧ (∀ core' x, held s' core' x →
       held s core' x ∧ (core' = core → x = current_thread c))
  ∧ (∀ core' x, held s core' x → x ≠ p → held s' core' x).
Proof.
  intros (H1 & H2 & H3) Hc Hb Hclean Hprev Hcc (b' & Hb' & Hd') Hother.
  set (cur := current_thread c) in *.
  pose proof (held_current s core c Hc) as Hhc. fold cur in Hhc.
  pose proof (held_prev s core c b p Hc Hb Hclean Hprev) as Hhp.
  destruct (H1 core c Hc) as (b0 & Hb0 & _ & Hcl). fold cur in Hb0.
  rewrite Hb in Hb0. injection Hb0 as <-.
  destruct (Hcl Hclean) as (_ & p0 & pb & Hp0 & Hpb & Hdp & _).
  rewrite Hprev in Hp0. injection Hp0 as <-.
  assert (Hne : p ≠ cur).
  { intros E. rewrite E, Hb in Hpb. injection Hpb as <-.
    by rewrite Hclean in Hdp. }
  split; [done|]. split.
  - intros core' x (c2 & Hc2 & Hx). rewrite Hcc in Hc2.
    destruct Hx as [->|(b2 & Hb2 & Hph & Hpr)].
    { split; [by apply held_current|]. intros ->.
      rewrite Hc in Hc2. by injection Hc2 as <-. }
    destruct (decide (current_thread c2 = cur)) as [E|E].
    { rewrite E, Hb' in Hb2. injection Hb2 as <-. by rewrite Hd' in Hph. }
    destruct (decide (current_thread c2 = p)) as [E2|E2].
    { exfalso. pose proof (held_current s core' c2 Hc2) as Hh.
      rewrite E2 in Hh.
      assert (core' = core) as -> by by apply (H3 core' core p).
      rewrite Hc in Hc2. injection Hc2 as <-. by apply E. }
    rewrite Hother in Hb2 by done.
    split; [by apply (held_prev s core' c2 b2)|]. intros ->.
    rewrite Hc in Hc2. injection Hc2 as <-. by destruct E.
  - intros core' x (c2 & Hc2 & Hx) Hxp. exists c2. rewrite Hcc.
    split; [done|].
    destruct Hx as [->|(b2 & Hb2 & Hph & Hpr)]; [by left|right].
    pose proof (held_current s core' c2 Hc2) as Hh2.
    destruct (decide (current_thread c2 = cur)) as [E|E].
    { rewrite E in Hh2.
      assert (core' = core) as -> by by apply (H3 core' core cur).
      rewrite Hc in Hc2. injection Hc2 as <-. fold cur in Hb2.
      rewrite Hb in Hb2. injection Hb2 as <-. congruence. }
    destruct (decide (current_thread c2 = p)) as [E2|E2].
    { rewrite E2, Hpb in Hb2. injection Hb2 as <-. congruence. }
    exists b2. by rewrite Hother.
Qed.

(** The cores after [gain]: the current thread has its context in
    use. *)
Lemma gain_cores core c b p s s' :
  cores_sound s →
  cctx s !! core = Some c →
  tcbs s !! current_thread c = Some b →
  phase b = CTX_CLEAN → prev b = Some p →
  cctx s' = cctx s →
  (∃ b', tcbs s' !! current_thread c = Some b'
         ∧ phase b' = CTX_DIRTY ∧ state b' ≠ INIT) →
  (∀ x, x ≠ current_thread c → x ≠ p → tcbs s' !! x = tcbs s !! x) →
  (∀ x, x ∈ concat (SCHED s') → x ∈ concat (SCHED s) ∨ x = p) →
  cores_sound s'.
Proof.
  intros Hcs Hc Hb Hclean Hprev Hcc (b' & Hb' & Hd' & Hi') Hother Hq.
  destruct (gain_held core c b p s s' Hcs Hc Hb Hclean Hprev Hcc)
    as (Hne & Hback & _); [by exists b'|done|].
  destruct Hcs as (H1 & H2 & H3).
  set (cur := current_thread c) in *.
  pose proof (held_current s core c Hc) as Hhc. fold cur in Hhc.
  pose proof (held_prev s core c b p Hc Hb Hclean Hprev) as Hhp.
  split_and!.
  - intros core' c2 Hc2. rewrite Hcc in Hc2.
    destruct (decide (core' = core)) as [->|Hn].
    { rewrite Hc in Hc2. injection Hc2 as <-. exists b'.
      split; [done|]. split; [done|]. intros Hph. by rewrite Hd' in Hph. }
    destruct (H1 core' c2 Hc2) as (b2 & Hb2 & Hinit & Hcl).
    pose proof (held_current s core' c2 Hc2) as Hh2.
    assert (Hn1 : current_thread c2 ≠ cur).
    { intros E. rewrite E in Hh2. destruct Hn.
      by apply (H3 core' core cur). }
    assert (Hn2 : current_thread c2 ≠ p).
    { intros E. rewrite E in Hh2. destruct Hn. by apply (H3 core' core p). }
    exists b2. rewrite Hother by done. split; [done|]. split; [done|].
    intros Hph. destruct (Hcl Hph) as (Hr & p2 & pb2 & Hp2 & Hpb2 & Hrest).
    split; [done|]. exists p2, pb2. split; [done|]. split; [|done].
    pose proof (held_prev s core' c2 b2 p2 Hc2 Hb2 Hph Hp2) as Hhp2.
    rewrite Hother; [done| |].
    + intros E. rewrite E in Hhp2. destruct Hn.
      by apply (H3 core' core cur).
    + intros E. rewrite E in Hhp2. destruct Hn. by apply (H3 core' core p).
  - intros core' x Hx Hin. destruct (Hback core' x Hx) as [Hh Hcur].
    destruct (Hq x Hin) as [Hin'| ->].
    + by apply (H2 core' x).
    + assert (core' = core) as -> by by apply (H3 core' core p).
      by specialize (Hcur eq_refl).
  - intros core1 core2 x Hx1 Hx2.
    apply (H3 core1 core2 x); by apply Hback.
Qed.

(** The idle threads after [gain]: a thread that has yielded and is an
    idle thread is ready for the next switch to it. *)
Lemma gain_idle core c b p pb s s' :
  sound s →
  cctx s !! core = Some c →
  tcbs s !! current_thread c = Some b →
  phase b = CTX_CLEAN → prev b = Some p →
  tcbs s !! p = Some pb →
  cctx s' = cctx s →
  (∃ b', tcbs s' !! current_thread c = Some b'
         ∧ phase b' = CTX_DIRTY ∧ type b' = type b) →
  (type pb = IDLE_THREAD →
   ∃ pb', tcbs s' !! p = Some pb' ∧ type pb' = type pb
          ∧ phase pb' = CTX_CLEAN ∧ state pb' = state pb) →
  (∀ x, x ≠ current_thread c → x ≠ p → tcbs s' !! x = tcbs s !! x) →
  idle_sound s'.
Proof.
  intros Hs Hc Hb Hclean Hprev Hpb Hcc (b' & Hb' & Hd' & Hty') Hp' Hother.
  pose proof Hs as (_ & _ & Hbs & Hcs & [Hidle Hinj]).
  destruct (gain_held core c b p s s' Hcs Hc Hb Hclean Hprev Hcc)
    as (Hne & Hback & Hforth); [by exists b'|done|].
  set (cur := current_thread c) in *.
  split; [|by rewrite Hcc].
  intros core' c' Hc'. rewrite Hcc in Hc'.
  destruct (Hidle core' c' Hc') as (bi & Hbi & Htyi & Hown & Hnone).
  set (i := idle_thread c') in *.
  assert (Hown' : ∀ core'', held s' core'' i → core'' = core').
  { intros core'' Hh. apply Hown. by apply Hback. }
  destruct (decide (i = cur)) as [E|Hic].
  { exists b'. rewrite E. split; [done|].
    rewrite E, Hb in Hbi. injection Hbi as <-.
    split; [congruence|]. split; [by rewrite <- E|].
    intros Hfree. destruct (Hfree core). apply held_current.
    by rewrite Hcc. }
  destruct (decide (i = p)) as [E|Hip].
  { rewrite E, Hpb in Hbi. injection Hbi as <-.
    destruct (Hp' Htyi) as (pb' & Hpb' & Htp & Hcp & Hsp).
    exists pb'. rewrite E. split; [done|]. split; [congruence|].
    split; [by rewrite <- E|]. intros _. split; [|done].
    rewrite Hsp.
    destruct (Hbs p pb Hpb) as (_ & _ & _ & _ & _ & Hst).
    destruct (Hst Htyi) as [Hr|Hr]; [done|].
    destruct Hcs as (H1 & _). destruct (H1 core c Hc) as (b0 & Hb0 & _ & Hcl).
    fold cur in Hb0. rewrite Hb in Hb0. injection Hb0 as <-.
    destruct (Hcl Hclean) as (_ & p0 & pb0 & Hp0 & Hpb0 & _ & Hst0).
    rewrite Hprev in Hp0. injection Hp0 as <-.
    rewrite Hpb in Hpb0. injection Hpb0 as <-.
    destruct Hst0 as [?|[?|?]]; congruence. }
  exists bi. rewrite Hother by done. split; [done|]. split; [done|].
  split; [done|]. intros Hfree. apply Hnone.
  intros core'' Hh. apply (Hfree core''). by apply Hforth.
Qed.

Lemma gain_self_Done core c b s :
  cctx s !! core = Some c →
  tcbs s !! current_thread c = Some b →
  prev b = Some (current_thread c) →
  gain core s
  = Done tt (set_tcbs <[current_thread c :=
                          with_phase CTX_DIRTY (with_state RUNNING b)]> s).
Proof.
  intros Hc Hb Hprev. unfold gain.
  erewrite (bind_Done (CURTHREAD core)); [|by apply CURTHREAD_Done].
  erewrite (bind_Done (get_tcb _)); [|by apply get_tcb_Done].
  erewrite (bind_Done (upd_tcb _ _)); [|by apply upd_tcb_Done].
  rewrite Hprev. by rewrite bool_decide_eq_false_2 by (by intros ?).
Qed.

(** [gain] keeps the invariant, and the thread that has gained the core
    is [RUNNING] with its context in use. *)
Lemma gain_sound core s :
  sound s → proper (OpGain core) s →
  ∃ s', gain core s = Done tt s' ∧ sound s'
        ∧ ∃ b, current_block core s' = Some b
               ∧ state b = RUNNING ∧ phase b = CTX_DIRTY.
Proof.
  intros Hs (c & b & Hc & Hb & Hcase).
  pose proof Hs as (Hqs & Hts & Hbs & Hcs & His).
  pose proof Hcs as (H1 & H2 & H3).
  destruct (H1 core c Hc) as (b0 & Hb0 & Hinit & Hcl).
  rewrite Hb in Hb0. injection Hb0 as <-.
  set (cur := current_thread c) in *.
  pose proof (held_current s core c Hc) as Hhc. fold cur in Hhc.
  assert (Hcur_out : cur ∉ concat (SCHED s)) by by apply (H2 core).
  set (b' := with_phase CTX_DIRTY (with_state RUNNING b)).
  destruct (Hbs cur b Hb)
    as (Hbr1 & Hbr2 & Hbdl & Hbcount & Hbhandle & Hbidle).
  destruct (decide (phase b = CTX_CLEAN)) as [Hclean|Hdirty].
  2:{ (* the thread has yielded to itself *)
    assert (Hd : phase b = CTX_DIRTY) by (by destruct (phase b)).
    destruct Hcase as [?|[Hready Hprev]]; [done|].
    rewrite (gain_self_Done core c b s Hc Hb Hprev). fold cur b'.
    eexists. split; [done|].
    assert (Hcur_TL : cur ∉ TIMEOUT_LIST s).
    { apply (sound_not_sleeping s cur b); [done|done|].
      left. by rewrite Hready. }
    split.
    2:{ exists b'. split; [|done]. unfold current_block. simpl.
        rewrite Hc. simpl. apply lookup_insert_eq. }
    unfold sound. split_and!.
    - by apply queues_sound_upd.
    - by apply timeouts_sound_upd_outside.
    - intros x bx Hbx. simpl in Hbx. simpl.
      destruct (decide (x = cur)) as [->|Hne].
      + rewrite lookup_insert_eq in Hbx. injection Hbx as <-. subst b'.
        simpl. split_and!; try done. intros _. by right.
      + rewrite lookup_insert_ne in Hbx by done. by apply Hbs.
    - by apply (cores_sound_upd_dirty s core c b b').
    - by apply (idle_sound_upd_dirty s cur b b'). }
  clear Hcase.
  destruct (Hcl Hclean) as (Hready & p & pb & Hprev & Hpb & Hdirty & Hstp).
  assert (Hne : p ≠ cur).
  { intros E. rewrite E, Hb in Hpb. injection Hpb as <-.
    by rewrite Hclean in Hdirty. }
  pose proof (held_prev s core c b p Hc Hb Hclean Hprev) as Hhp.
  assert (Hp_out : p ∉ concat (SCHED s)) by by apply (H2 core).
  assert (Hcur_TL : cur ∉ TIMEOUT_LIST s).
  { apply (sound_not_sleeping s cur b); [done|done|].
    left. by rewrite Hready. }
  destruct (Hbs p pb Hpb)
    as (Hpr1 & Hpr2 & Hpdl & Hpcount & Hphandle & Hpidle).
  destruct (decide (state pb = EXITED)) as [Hex|Hex].
  - destruct Hbcount as [n Hn].
    pose proof (gain_exited_Done core c b p pb n s Hc Hb Hprev Hne Hpb Hex
                  (Hphandle Hex) Hn) as Hgain.
    fold cur b' in Hgain.
    assert (Hp_TL : p ∉ TIMEOUT_LIST s).
    { apply (sound_not_sleeping s p pb); [done|done|].
      left. by rewrite Hex. }
    assert (Hp_normal : type pb ≠ IDLE_THREAD).
    { intros Hi. destruct (Hpidle Hi); congruence. }
    eexists. split; [exact Hgain|].
    match goal with |- sound ?s1 ∧ _ => set (s' := s1) end.
    assert (Hc' : tcbs s' !! cur = Some b').
    { simpl. rewrite lookup_delete_ne by done. apply lookup_insert_eq. }
    assert (Hother : ∀ x, x ≠ cur → x ≠ p → tcbs s' !! x = tcbs s !! x).
    { intros x Hx1 Hx2. simpl.
      rewrite lookup_delete_ne by done. by rewrite lookup_insert_ne. }
    split.
    2:{ exists b'. split; [|done]. unfold current_block.
        replace (cctx s') with (cctx s) by done. rewrite Hc. exact Hc'. }
    unfold sound. split_and!.
    + apply (queues_sound_frame s); [done| |done].
      intros x bx Hx Hbx. exists bx. split; [|done].
      rewrite Hother; [done|by intros ->|by intros ->].
    + apply (timeouts_sound_frame s); [done| |done].
      intros x Hx. unfold same_sleep, wakeup_of.
      rewrite Hother; [done|by intros ->|by intros ->].
    + intros x bx Hbx.
      assert (Hfields : ∃ bx0, tcbs s !! x = Some bx0
                ∧ priority bx = priority bx0
                ∧ prev_queue bx = prev_queue bx0
                ∧ wakeup_time bx = wakeup_time bx0
                ∧ owner_pcb bx = owner_pcb bx0
                ∧ owner_ptcb bx = owner_ptcb bx0
                ∧ type bx = type bx0
                ∧ (state bx = state bx0 ∨ state bx = RUNNING)).
      { destruct (decide (x = cur)) as [->|Hx1].
        { rewrite Hc' in Hbx. injection Hbx as <-. exists b.
          split_and!; try done. by right. }
        destruct (decide (x = p)) as [->|Hx2].
        { simpl in Hbx. by rewrite lookup_delete_eq in Hbx. }
        rewrite Hother in Hbx by done. exists bx.
        split_and!; try done. by left. }
      destruct Hfields as (bx0 & Hbx0 & -> & -> & -> & -> & -> & -> & Hstx).
      destruct (Hbs x bx0 Hbx0) as (Hr1 & Hr2 & Hdl & Hcount & Hhandle & Hi).
      split; [done|]. split; [done|]. split; [done|]. split; [|split].
      * simpl. apply lookup_insert_is_Some.
        destruct (decide (owner_pcb b = owner_pcb bx0)); [by left|by right].
      * intros Hexit q Hq. simpl.
        assert (Hq' : is_Some (thread_exited s !! q)).
        { apply Hhandle; [|done]. destruct Hstx; congruence. }
        destruct (owner_ptcb pb) as [q'|]; [|done].
        apply lookup_insert_is_Some.
        destruct (decide (q' = q)); [by left|by right].
      * intros Hidle. destruct Hstx as [-> | ->]; [by apply Hi|by right].
    + apply (gain_cores core c b p s s'); try done.
      * exists b'. by split_and!.
      * intros x Hx. by left.
    + apply (gain_idle core c b p pb s s'); try done.
      exists b'. by split_and!.
  - assert (Hst' : state pb = READY ∨ state pb = STOPPED).
    { destruct Hstp as [?|[?|?]]; [by left|by right|done]. }
    assert (Hidx : 0 ≤ priority pb < Z.of_nat PRIORITY_LISTS)
      by by apply in_range_index.
    pose proof (gain_previous_Done core c b pb p s Hc Hb Hprev Hne Hpb Hst')
      as Hgain.
    cbv zeta in Hgain. fold cur b' in Hgain.
    eexists. split.
    { apply Hgain. intros _ _. by rewrite (proj1 Hqs). }
    clear Hgain.
    set (pb' := with_phase CTX_CLEAN pb).
    set (s2 := set_tcbs (λ h, <[p := pb']> (<[cur := b']> h)) s).
    match goal with |- sound ?s1 ∧ _ => set (s' := s1) end.
    assert (Hc' : tcbs s2 !! cur = Some b').
    { simpl. rewrite lookup_insert_ne by done. apply lookup_insert_eq. }
    assert (Hp' : tcbs s2 !! p = Some pb') by apply lookup_insert_eq.
    assert (Hother : ∀ x, x ≠ cur → x ≠ p → tcbs s2 !! x = tcbs s !! x).
    { intros x Hx1 Hx2. simpl. by rewrite !lookup_insert_ne. }
    split.
    2:{ exists b'. split; [|done]. unfold current_block.
        replace (cctx s') with (cctx s) by done. rewrite Hc. exact Hc'. }
    assert (Hq2 : queues_sound s2).
    { apply (queues_sound_frame s); [done| |done].
      intros x bx Hx Hbx. exists bx. split; [|done].
      rewrite Hother; [done|by intros ->|by intros ->]. }
    assert (Ht2 : timeouts_sound s2).
    { apply (timeouts_sound_frame s); [done| |done].
      intros x Hx. unfold same_sleep, wakeup_of.
      destruct (decide (x = p)) as [->|Hxp]; [by rewrite Hp', Hpb|].
      rewrite Hother; [done|by intros ->|done]. }
    assert (Hb2 : blocks_sound s2).
    { intros x bx Hbx.
      destruct (decide (x = cur)) as [->|Hx1].
      { rewrite Hc' in Hbx. injection Hbx as <-.
        destruct (Hbs cur b Hb) as (? & ? & ? & ? & ? & ?).
        subst b'. simpl. split_and!; try done. intros _. by right. }
      destruct (decide (x = p)) as [->|Hx2].
      { rewrite Hp' in Hbx. injection Hbx as <-. by apply (Hbs p pb). }
      rewrite Hother in Hbx by done. by apply (Hbs x bx). }
    assert (Hin' : ∀ x, x ∈ concat (SCHED s') →
                     x ∈ concat (SCHED s) ∨ x = p).
    { intros x. subst s'. simpl. case_bool_decide; [|by left].
      destruct (lookup_lt_is_Some_2 (SCHED s) (Z.to_nat (priority pb)))
        as [q Hq]; [rewrite (proj1 Hqs); lia|].
      rewrite Hq. simpl.
      rewrite (concat_insert_push p _ q) by done.
      rewrite elem_of_cons. intros [->|Hx]; [by right|by left]. }
    unfold sound. split_and!.
    + subst s'. case_bool_decide as Hadd.
      * apply (queues_sound_push s2 p pb'); try done.
        -- by destruct Hadd.
        -- simpl. lia.
        -- apply not_idle_normal. by destruct Hadd.
        -- lia.
      * apply (queues_sound_frame s2); [done| |done].
        intros x bx _ Hbx. by exists bx.
    + by apply (timeouts_sound_same s2).
    + by apply (blocks_sound_same s2).
    + apply (gain_cores core c b p s s'); try done.
      exists b'. by split_and!.
    + apply (gain_idle core c b p pb s s'); try done.
      * exists b'. by split_and!.
      * intros _. by exists pb'.
Qed.

(** ** The invariant of the disciplined runs *)

Lemma cold_start_sound s : cold_start s → sound s.
Proof.
  intros (Hinit & Hidle & Hcur & Hinj).
  assert (Hlists : SCHED s = replicate PRIORITY_LISTS []
                   ∧ TIMEOUT_LIST s = []).
  { destruct Hinit as [s0 s1 _ Hrun].
    unfold initialize_scheduler, modify, mbind, M_bind in Hrun.
    by injection Hrun as <-. }
  destruct Hlists as [HS HT].
  assert (Hempty : concat (SCHED s) = []).
  { rewrite HS. clear. induction PRIORITY_LISTS; [done|]. by simpl. }
  assert (Hheld : ∀ core x, held s core x →
            ∃ c, cctx s !! core = Some c ∧ x = idle_thread c).
  { intros core x (c & Hc & Hx). exists c. split; [done|].
    destruct (Hcur core c Hc) as [E [bi Hbi]].
    destruct Hx as [->|(b & Hb & Hph & _)]; [done|].
    destruct (Hidle _ b Hb) as (_ & _ & Hd & _). by rewrite Hph in Hd. }
  unfold sound. split_and!.
  - split; [by rewrite HS, length_replicate|].
    split; [rewrite Hempty; constructor|].
    intros i q t Hq Ht. rewrite HS in Hq.
    apply lookup_replicate in Hq as [-> _]. by apply elem_of_nil in Ht.
  - split; [|rewrite HT; constructor].
    split; [rewrite HT; constructor|].
    unfold timeouts_sorted. rewrite HT. constructor.
  - intros t b Hb.
    destruct (Hidle t b Hb)
      as (_ & Hrun & _ & Hw & Hp & Hq & _ & Hptcb & Hcount).
    assert (in_range TOP_PRIORITY).
    { unfold in_range, LOWEST_PRIORITY, TOP_PRIORITY. lia. }
    rewrite Hp, Hq, Hw, Hptcb, Hrun. split_and!; try done. intros _. by right.
  - split_and!.
    + intros core c Hc. destruct (Hcur core c Hc) as [E [bi Hbi]].
      rewrite E. exists bi. split; [done|].
      destruct (Hidle _ bi Hbi) as (_ & Hr & Hd & _).
      split; [by rewrite Hr|]. intros Hph. by rewrite Hph in Hd.
    + intros core t _. rewrite Hempty. apply not_elem_of_nil.
    + intros core1 core2 t Ht1 Ht2.
      destruct (Hheld core1 t Ht1) as (c1 & Hc1 & E1).
      destruct (Hheld core2 t Ht2) as (c2 & Hc2 & E2).
      apply (Hinj core1 core2 c1 c2); [done|done|congruence].
  - split; [|done].
    intros core c Hc. destruct (Hcur core c Hc) as [E [bi Hbi]].
    exists bi. split; [done|].
    destruct (Hidle _ bi Hbi) as (Hty & _).
    split; [done|]. split.
    + intros core' Hh. destruct (Hheld core' _ Hh) as (c' & Hc' & E').
      by apply (Hinj core' core c' c).
    + intros Hfree. destruct (Hfree core). rewrite <- E.
      by apply held_current.
Qed.

(** One operation, called properly in a state of the invariant, returns
    and keeps the invariant. *)
Lemma sound_step o s :
  sound s → proper o s → ∃ s', exec o s = Done tt s' ∧ sound s'.
Proof.
  intros Hs Hp. destruct o as [pcb raw|t handle|t|core st timeout curtime
                              |core cause curtime|core|]; simpl.
  - destruct (spawn_sound Hpos pcb raw s Hs Hp) as (t & s' & Hrun & Hs').
    exists s'. split; [|done]. by erewrite bind_Done.
  - by apply attach_sound.
  - destruct (wakeup_sound Hpos t s Hs Hp) as (r & s' & Hrun & Hs').
    exists s'. split; [|done]. by erewrite bind_Done.
  - by apply (sleep_sound Hpos).
  - destruct (yield_switch_sound core cause curtime s Hs Hp)
      as (s' & Hrun & Hs' & _).
    by exists s'.
  - destruct (gain_sound core s Hs Hp) as (s' & Hrun & Hs' & _).
    by exists s'.
  - destruct (boost_sound Hpos Hmax s Hs) as (s' & Hrun & Hs' & _).
    by exists s'.
Qed.

Lemma disciplined_sound s0 os s :
  sound s0 → disciplined s0 os s → sound s.
Proof.
  intros Hs0 Hrun. induction Hrun as [s|s o s1 os s2 Hp Hexec _ IH]; [done|].
  apply IH.
  destruct (sound_step o s Hs0 Hp) as (s' & Hrun' & Hs').
  rewrite Hexec in Hrun'. by injection Hrun' as <-.
Qed.

End sound_switch.

(** ** Disciplined runs from the cold start *)

Lemma concat_nil_replicate {A} (qs : list (list A)) :
  concat qs = [] → qs = replicate (length qs) [].
Proof.
  induction qs as [|q qs IH]; [done|]. simpl.
  intros [-> Hqs]%app_eq_nil. by rewrite <- IH.
Qed.

Section conduct_proofs.
Context `{Tunables}.

Lemma properb_spec o s : properb o s = true → proper o s.
Proof.
  destruct o as [pcb raw|t handle|t|core st timeout curtime
                |core cause curtime|core|]; simpl; try done.
  - apply bool_decide_eq_true.
  - destruct (tcbs s !! t) as [b|]; [|done].
    intros Hok. exists b. split; [done|]. intros Hexit q ->.
    apply orb_true_iff in Hok as [Hne|Hq].
    + apply bool_decide_eq_true in Hne. done.
    + by apply bool_decide_eq_true in Hq.
  - apply bool_decide_eq_true.
  - intros [[Hcur Hst]%andb_true_iff Hdead]%andb_true_iff.
    destruct (current_block core s) as [b|]; [|done].
    apply andb_true_iff in Hcur as [[Hrun Hty]%andb_true_iff Hexit].
    apply bool_decide_eq_true in Hrun, Hty, Hst. split_and!.
    + exists b. split_and!; try done. intros -> q Hq.
      apply orb_true_iff in Hexit as [Hne|Hok].
      * apply bool_decide_eq_true in Hne. done.
      * rewrite Hq in Hok. by apply bool_decide_eq_true in Hok.
    + done.
    + apply orb_true_iff in Hdead as [Hno|Hdead].
      * apply bool_decide_eq_true in Hno. by intros ?.
      * apply bool_decide_eq_true in Hdead. by intros _.
  - destruct (current_block core s) as [b|]; [|done].
    intros Hph%bool_decide_eq_true. by exists b.
  - destruct (cctx s !! core) as [c|] eqn:Hc; [|done].
    destruct (tcbs s !! current_thread c) as [b|] eqn:Hb; [|done].
    intros Hok. exists c, b. split; [done|]. split; [done|].
    apply orb_true_iff in Hok as [Hcl|[Hr Hp]%andb_true_iff].
    + left. by apply bool_decide_eq_true in Hcl.
    + right. by apply bool_decide_eq_true in Hr, Hp.
Qed.

Lemma conduct_disciplined os : ∀ s s',
  conduct os s = Some s' → disciplined s os s'.
Proof.
  induction os as [|o os IH]; intros s s'; simpl.
  - intros [= <-]. constructor.
  - destruct (properb o s) eqn:Hp; [|done].
    destruct (exec o s) as [[] s1|] eqn:Hexec; [|done].
    intros Hrun.
    eapply disciplined_cons; [by apply properb_spec|done|by apply IH].
Qed.

Lemma sound_run s0 os s :
  (0 < PRIORITY_LISTS)%nat → Z.of_nat PRIORITY_LISTS ≤ INT_MAX →
  cold_start s0 → disciplined s0 os s → sound s.
Proof.
  intros Hpos Hmax Hcold Hrun.
  apply (disciplined_sound Hpos Hmax s0 os s); [|done].
  by apply cold_start_sound.
Qed.

(** What [yield] has done when it has switched: it has called
    [sched_queue_select] with the block of the current thread updated,
    and has left the lists and the counters as the selection returned
    them. *)
Lemma yield_switch_inv core cause curtime s s' :
  yield_switch core cause curtime s = Done tt s' →
  ∃ c b next sz,
    cctx s !! core = Some c
    ∧ tcbs s !! current_thread c = Some b
    ∧ sched_queue_select curtime
        (set_tcbs <[current_thread c := yielded cause b]> s) = Done next sz
    ∧ boost_calls s' = boost_calls sz
    ∧ fail_safe s' = fail_safe sz
    ∧ counter_congestion s' = counter_congestion sz
    ∧ SCHED s' = SCHED sz
    ∧ TIMEOUT_LIST s' = TIMEOUT_LIST sz.
Proof.
  unfold yield_switch. intros Hrun.
  apply bind_inv_Done in Hrun as (cur & s1 & Hcur & Hrun).
  unfold CURTHREAD in Hcur.
  apply bind_inv_Done in Hcur as (c & s1' & [-> Hc]%CURCORE_inv & Hcur).
  unfold mret, M_ret in Hcur. injection Hcur as <- <-.
  apply bind_inv_Done in Hrun as ([] & s2 & (b & Hb & ->)%upd_tcb_inv & Hrun).
  apply bind_inv_Done in Hrun as (b2 & s3 & [-> Hb2]%get_tcb_inv & Hrun).
  simpl in Hb2. rewrite lookup_insert_eq in Hb2. injection Hb2 as <-.
  apply bind_inv_Done in Hrun as (ready & sy & Hstate & Hrun).
  assert (Hsy : sy = set_tcbs <[current_thread c := yielded cause b]> s).
  { destruct (yield_priority_quiet cause b) as [Hst _].
    unfold yielded. rewrite Hst in Hstate.
    destruct (state b) eqn:E; try done.
    - unfold mret, M_ret in Hstate. by injection Hstate as <- <-.
    - apply bind_inv_Done in Hstate as ([] & s4 & Hupd & Hret).
      apply upd_tcb_inv in Hupd as (b4 & Hb4 & ->).
      simpl in Hb4. rewrite lookup_insert_eq in Hb4. injection Hb4 as <-.
      unfold mret, M_ret in Hret. injection Hret as <- <-.
      apply sched_eq; simpl; try done. by rewrite insert_insert_eq.
    - unfold mret, M_ret in Hstate. by injection Hstate as <- <-.
    - unfold mret, M_ret in Hstate. by injection Hstate as <- <-. }
  subst sy.
  apply bind_inv_Done in Hrun as (next & sz & Hsel & Hrun).
  exists c, b, next, sz. split; [done|]. split; [done|]. split; [done|].
  apply bind_inv_Done in Hrun as (n & s5 & Hnext & Hrun).
  assert (s5 = sz) as ->.
  { destruct next as [t|].
    - unfold mret, M_ret in Hnext. by injection Hnext as <- <-.
    - destruct ready.
      + unfold mret, M_ret in Hnext. by injection Hnext as <- <-.
      + apply bind_inv_Done in Hnext as (c' & s6 & [-> _]%CURCORE_inv & Hret).
        unfold mret, M_ret in Hret. by injection Hret as <- <-. }
  apply bind_inv_Done in Hrun as ([] & s6 & (b6 & _ & ->)%upd_tcb_inv & Hrun).
  apply bind_inv_Done in Hrun as ([] & s7 & (b7 & _ & ->)%upd_tcb_inv & Hrun).
  case_bool_decide.
  - unfold set_CURTHREAD in Hrun.
    apply bind_inv_Done in Hrun as (c' & s8 & [-> _]%CURCORE_inv & Hrun).
    unfold modify in Hrun. by injection Hrun as <-.
  - unfold mret, M_ret in Hrun. by injection Hrun as <-.
Qed.

(** C1. In a scheduler with at least one ready queue, a call of
    [sched_queue_select] in which no deadline has passed and every ready
    queue is empty returns null: the node it has popped is the head of
    the top queue, whose [tcb] is null, so that the [return] dereferences
    a node and not a null pointer.  Nothing but the counters of the
    selection has changed: the thread blocks, the ready queues, the
    timeout list and the core blocks are the same, and [fail_safe] is one
    more. *)
Theorem select_nothing_ready_returns_null (curtime : Z) (s : sched) :
  (0 < PRIORITY_LISTS)%nat →
  length (SCHED s) = PRIORITY_LISTS →
  Forall (λ q, q = []) (SCHED s) →
  nothing_due curtime s →
  ∃ s', sched_queue_select curtime s = Done None s'
        ∧ tcbs s' = tcbs s
        ∧ SCHED s' = SCHED s
        ∧ TIMEOUT_LIST s' = TIMEOUT_LIST s
        ∧ cctx s' = cctx s
        ∧ fail_safe s' = wrap_int (fail_safe s + 1)
        ∧ 0 ≤ counter_congestion s'.
Proof.
  intros Hpos Hlen Hempty Hdue.
  assert (Hnil : concat (SCHED s) = []).
  { clear -Hempty. induction Hempty as [|q qs -> _ IH]; [done|]. done. }
  destruct (lookup_lt_is_Some_2 (SCHED s) (PRIORITY_LISTS - 1))
    as [q Hq]; [lia|].
  assert (q = []) as ->.
  { apply (proj1 (Forall_forall _ _) Hempty).
    by eapply list_elem_of_lookup_2. }
  destruct (select_top_empty curtime s Hdue Hlen)
    as (s' & Hrun & Hre & Hfs & Hcc); [|done|].
  { unfold queued_allocated. rewrite Hnil. constructor. }
  destruct Hre as (HTL & Hcctx & _ & _ & _ & Hlen' & Hperm & Hframe & _).
  exists s'. split_and!; try done.
  - apply map_eq. intros x. apply Hframe. rewrite Hnil. apply not_elem_of_nil.
  - rewrite Hnil in Hperm. apply Permutation_nil_r in Hperm.
    rewrite (concat_nil_replicate (SCHED s') Hperm).
    rewrite (concat_nil_replicate (SCHED s) Hnil). by rewrite Hlen'.
Qed.

(** C5. In a run from the start, [fail_safe] is the number of the
    selections made: every [yield] selects once and adds one, and no
    other operation changes the counter.  A selection calls [boost]
    exactly when, at its test, the congestion counter has reached
    [MAX_CONGESTION] or [fail_safe] is 500, and not otherwise.  In the
    [yield] that follows a run with [n] selections, [fail_safe] is
    [n + 1] at the test, so the test [fail_safe == 500] holds in the
    500th selection of a run and in no other: it fires once.  That
    selection calls [boost] whatever the congestion, so a run of at least
    500 selections has called [boost]. *)
Theorem fail_safe_fires_once (s0 s : sched) (os : list op) :
  initial s0 →
  disciplined s0 os s →
  Z.of_nat (selections os) < INT_MAX →
  fail_safe s = Z.of_nat (selections os)
  ∧ (∀ o s1 s2, exec o s1 = Done tt s2 →
       fail_safe s2 = if is_yield o then wrap_int (fail_safe s1 + 1)
                      else fail_safe s1)
  ∧ (∀ curtime sy r sz, sched_queue_select curtime sy = Done r sz →
       ∃ sel sm,
         select_scan curtime sy = Done sel sm
         ∧ fail_safe sm = wrap_int (fail_safe sy + 1)
         ∧ fail_safe sz = fail_safe sm
         ∧ boost_calls sz
           = if bool_decide (counter_congestion sm >= MAX_CONGESTION
                             ∨ fail_safe sm = 500)
             then S (boost_calls sy) else boost_calls sy)
  ∧ (∀ core cause curtime s',
       exec (OpYield core cause curtime) s = Done tt s' →
       ∃ c b sel sm,
         cctx s !! core = Some c
         ∧ tcbs s !! current_thread c = Some b
         ∧ select_scan curtime
             (set_tcbs <[current_thread c := yielded cause b]> s)
           = Done sel sm
         ∧ fail_safe sm = Z.of_nat (selections os) + 1
         ∧ (fail_safe sm = 500 ↔ selections os = 499%nat)
         ∧ boost_calls s'
           = if bool_decide (counter_congestion sm >= MAX_CONGESTION
                             ∨ selections os = 499%nat)
             then S (boost_calls s) else boost_calls s)
  ∧ ((500 ≤ selections os)%nat → (1 ≤ boost_calls s)%nat).
Proof.
  intros Hinit Hrun Hmax.
  destruct (initial_counters s0 Hinit) as (Hfs0 & Hcalls0 & _).
  destruct (disciplined_fail_safe s0 os s Hrun) as (Hfs & Hboost); [lia|lia|].
  rewrite Hfs0 in Hfs, Hboost.
  assert (Htest : ∀ curtime sy r sz,
    sched_queue_select curtime sy = Done r sz →
    ∃ sel sm,
      select_scan curtime sy = Done sel sm
      ∧ fail_safe sm = wrap_int (fail_safe sy + 1)
      ∧ fail_safe sz = fail_safe sm
      ∧ boost_calls sz
        = if bool_decide (counter_congestion sm >= MAX_CONGESTION
                          ∨ fail_safe sm = 500)
          then S (boost_calls sy) else boost_calls sy).
  { intros curtime sy r sz Hsel.
    destruct (select_boost_test curtime sy r sz Hsel)
      as (sel & sm & Hscan & Hfsm & Hcm & Hfsz & Hif).
    exists sel, sm. split; [done|]. split; [done|]. split; [done|].
    destruct (bool_decide (counter_congestion sm >= MAX_CONGESTION
                           ∨ fail_safe sm = 500)).
    - by destruct Hif as [-> _].
    - by subst sz. }
  split_and!.
  - lia.
  - intros o s1 s2 Hexec.
    by apply (exec_fail_safe o (fail_safe s1) s1 eq_refl tt s2).
  - exact Htest.
  - intros core cause curtime s' Hexec. simpl in Hexec.
    destruct (yield_switch_inv core cause curtime s s' Hexec)
      as (c & b & next & sz & Hc & Hb & Hsel & Hcalls & _).
    destruct (Htest _ _ _ _ Hsel) as (sel & sm & Hscan & Hfsm & _ & Hcm).
    simpl in Hfsm, Hcm.
    assert (Hn : fail_safe sm = Z.of_nat (selections os) + 1).
    { rewrite Hfsm, Hfs. apply wrap_int_id.
      unfold INT_MIN, INT_MAX in *. lia. }
    exists c, b, sel, sm.
    split; [done|]. split; [done|]. split; [done|]. split; [done|].
    split; [lia|].
    rewrite Hcalls, Hcm.
    destruct (decide (selections os = 499%nat)) as [E|E].
    + rewrite !bool_decide_eq_true_2; [done|by right|right; lia].
    + destruct (decide (counter_congestion sm >= MAX_CONGESTION))
        as [Hc'|Hc'].
      * by rewrite !bool_decide_eq_true_2 by by left.
      * rewrite !bool_decide_eq_false_2; [done|tauto|].
        intros [?|?]; [done|lia].
  - intros H500. assert ((boost_calls s0 < boost_calls s)%nat); [|lia].
    apply Hboost. lia.
Qed.

(** C7. [sched_register_timeout] with [NO_TIMEOUT] changes nothing.  With
    another timeout, for a thread whose node is in no list, it sets
    [wakeup_time] to the clock plus the timeout, a sum of [TimerDuration]
    that is the sum of the numbers when that is in the range of the type,
    and links the thread into [TIMEOUT_LIST] behind the threads that wake
    up no later and in front of the first thread that wakes up later; the
    ready queues stay as they are.  This keeps the list in non-decreasing
    order of the wake-up times, and the list is in that order in every
    state that a run of properly called operations reaches from the cold
    start. *)
Theorem register_timeout_sorted (curtime timeout : Z) (t : tid) (b : TCB)
    (s : sched) :
  tcbs s !! t = Some b →
  t ∉ TIMEOUT_LIST s →
  t ∉ concat (SCHED s) →
  Forall (λ x, is_Some (tcbs s !! x)) (TIMEOUT_LIST s) →
  let w := wrap_timer (curtime + timeout) in
  (timeout = NO_TIMEOUT →
   sched_register_timeout curtime t timeout s = Done tt s)
  ∧ (timeout ≠ NO_TIMEOUT →
     ∃ l1 l2 s',
       sched_register_timeout curtime t timeout s = Done tt s'
       ∧ tcbs s' = <[t := with_wakeup_time w b]> (tcbs s)
       ∧ (0 ≤ curtime + timeout < 2 ^ TIMER_BITS → w = curtime + timeout)
       ∧ TIMEOUT_LIST s = l1 ++ l2
       ∧ TIMEOUT_LIST s' = l1 ++ t :: l2
       ∧ Forall (λ x, ∃ bx, tcbs s !! x = Some bx ∧ wakeup_time bx ≤ w) l1
       ∧ match l2 with
         | [] => True
         | n :: _ => ∃ bn, tcbs s !! n = Some bn ∧ w < wakeup_time bn
         end
       ∧ SCHED s' = SCHED s
       ∧ (state b = STOPPED → w ≠ NO_TIMEOUT →
          timeouts_ok s → timeouts_ok s'))
  ∧ (∀ s0 os s1,
       (0 < PRIORITY_LISTS)%nat → Z.of_nat PRIORITY_LISTS ≤ INT_MAX →
       cold_start s0 → disciplined s0 os s1 → timeouts_sorted s1).
Proof.
  intros Hb Hout Hout' Hall w. split_and!.
  - intros ->. apply sched_register_timeout_none.
  - intros Hto.
    destruct (sched_register_timeout_Done curtime t timeout b s Hto Hb Hout
                Hout' Hall) as (l1 & l2 & HTL & Hrun & Hl1 & Hl2).
    eexists l1, l2, _. split; [exact Hrun|].
    split_and!; try done.
    + intros Hrange. unfold w, wrap_timer. by apply Z.mod_small.
    + intros Hst Hdead Hok.
      by eapply (sched_register_timeout_ok curtime t timeout b s).
  - intros s0 os s1 Hpos Hmax Hcold Hrun.
    by destruct (sound_run s0 os s1 Hpos Hmax Hcold Hrun)
      as (_ & [[_ Hsorted] _] & _).
Qed.

(** X11. From the cold start, with every operation called properly,
    every thread in the timeout list is allocated, is [STOPPED] and has
    a deadline: its [wakeup_time] is not [NO_TIMEOUT]. *)
Theorem timeout_list_holds_sleepers s0 os s t :
  (0 < PRIORITY_LISTS)%nat → Z.of_nat PRIORITY_LISTS ≤ INT_MAX →
  cold_start s0 → disciplined s0 os s →
  t ∈ TIMEOUT_LIST s →
  ∃ b, tcbs s !! t = Some b ∧ state b = STOPPED
       ∧ wakeup_time b ≠ NO_TIMEOUT.
Proof.
  intros Hpos Hmax Hcold Hrun Ht.
  destruct (sound_run s0 os s Hpos Hmax Hcold Hrun)
    as (_ & ((Hsl & _) & _) & _).
  rewrite Forall_forall in Hsl. by apply Hsl.
Qed.

(** X18. From the cold start, with every operation called properly: a
    thread in the ready queue [SCHED[i]] is allocated and [READY], it is
    not an idle thread, its context is clean, and its priority is [i],
    which is below [PRIORITY_LISTS]. *)
Theorem ready_queue_discipline s0 os s i q t :
  (0 < PRIORITY_LISTS)%nat → Z.of_nat PRIORITY_LISTS ≤ INT_MAX →
  cold_start s0 → disciplined s0 os s →
  SCHED s !! i = Some q → t ∈ q →
  (i < PRIORITY_LISTS)%nat
  ∧ ∃ b, tcbs s !! t = Some b ∧ state b = READY ∧ phase b = CTX_CLEAN
         ∧ priority b = Z.of_nat i ∧ type b = NORMAL_THREAD.
Proof.
  intros Hpos Hmax Hcold Hrun Hq Ht.
  destruct (sound_run s0 os s Hpos Hmax Hcold Hrun)
    as ((Hlen & _ & Hqs) & _).
  split; [|by apply (Hqs i q t)].
  rewrite <- Hlen. by eapply lookup_lt_Some.
Qed.

(** X19. From the cold start, with every operation called properly, no
    thread is in two lists of the scheduler or twice in one: the ready
    queues and the timeout list together hold each thread at most
    once. *)
Theorem one_list_per_thread s0 os s :
  (0 < PRIORITY_LISTS)%nat → Z.of_nat PRIORITY_LISTS ≤ INT_MAX →
  cold_start s0 → disciplined s0 os s →
  NoDup (concat (SCHED s) ++ TIMEOUT_LIST s).
Proof.
  intros Hpos Hmax Hcold Hrun.
  destruct (sound_run s0 os s Hpos Hmax Hcold Hrun)
    as (Hqs & ((Hsl & _) & Hnd) & _).
  apply NoDup_app. split; [by destruct Hqs as (_ & ? & _)|]. split; [|done].
  intros t Hin Hin'.
  destruct (queued_block Hpos s t Hqs Hin) as (b & Hb & Hst & _).
  rewrite Forall_forall in Hsl.
  destruct (Hsl t Hin') as (b' & Hb' & Hst' & _).
  rewrite Hb in Hb'. injection Hb' as <-. by rewrite Hst in Hst'.
Qed.

(** X20. From the cold start, with every operation called properly, a
    thread is in the timeout list exactly when it has a deadline
    ([wakeup_time] is not [NO_TIMEOUT]), and a thread with a deadline is
    [STOPPED]. *)
Theorem deadline_iff_in_timeout_list s0 os s t b :
  (0 < PRIORITY_LISTS)%nat → Z.of_nat PRIORITY_LISTS ≤ INT_MAX →
  cold_start s0 → disciplined s0 os s →
  tcbs s !! t = Some b →
  (t ∈ TIMEOUT_LIST s ↔ wakeup_time b ≠ NO_TIMEOUT)
  ∧ (wakeup_time b ≠ NO_TIMEOUT → state b = STOPPED).
Proof.
  intros Hpos Hmax Hcold Hrun Hb.
  destruct (sound_run s0 os s Hpos Hmax Hcold Hrun)
    as (_ & ((Hsl & _) & _) & Hbs & _).
  rewrite Forall_forall in Hsl.
  destruct (Hbs t b Hb) as (_ & _ & Hdl & _).
  assert (Hin : t ∈ TIMEOUT_LIST s →
                state b = STOPPED ∧ wakeup_time b ≠ NO_TIMEOUT).
  { intros Hin. destruct (Hsl t Hin) as (b' & Hb' & Hst & Hw).
    rewrite Hb in Hb'. by injection Hb' as <-. }
  split; [split|].
  - intros Ht. by apply Hin.
  - done.
  - intros Hw. by apply Hin, Hdl.
Qed.

(** X21. From the cold start, with every operation called properly, the
    priority and the saved priority of every thread are indices of
    [SCHED]: they are between [LOWEST_PRIORITY] and [TOP_PRIORITY]. *)
Theorem priorities_stay_in_range s0 os s t b :
  (0 < PRIORITY_LISTS)%nat → Z.of_nat PRIORITY_LISTS ≤ INT_MAX →
  cold_start s0 → disciplined s0 os s →
  tcbs s !! t = Some b →
  LOWEST_PRIORITY ≤ priority b ≤ TOP_PRIORITY
  ∧ LOWEST_PRIORITY ≤ prev_queue b ≤ TOP_PRIORITY.
Proof.
  intros Hpos Hmax Hcold Hrun Hb.
  destruct (sound_run s0 os s Hpos Hmax Hcold Hrun) as (_ & _ & Hbs & _).
  destruct (Hbs t b Hb) as (Hr1 & Hr2 & _). by split.
Qed.

(** X22. From the cold start, with every operation called properly, the
    current thread of a core is allocated and has been started, it is in
    no ready queue, and it is not the current thread of another core. *)
Theorem current_thread_apart s0 os s core1 core2 c1 c2 :
  (0 < PRIORITY_LISTS)%nat → Z.of_nat PRIORITY_LISTS ≤ INT_MAX →
  cold_start s0 → disciplined s0 os s →
  cctx s !! core1 = Some c1 → cctx s !! core2 = Some c2 →
  (∃ b, tcbs s !! current_thread c1 = Some b ∧ state b ≠ INIT)
  ∧ (current_thread c1 ∉ concat (SCHED s))
  ∧ (current_thread c1 = current_thread c2 → core1 = core2).
Proof.
  intros Hpos Hmax Hcold Hrun Hc1 Hc2.
  destruct (sound_run s0 os s Hpos Hmax Hcold Hrun)
    as (_ & _ & _ & (H1 & H2 & H3) & _).
  split_and!.
  - destruct (H1 core1 c1 Hc1) as (b & Hb & Hinit & _). by exists b.
  - apply (H2 core1). by apply held_current.
  - intros E. apply (H3 core1 core2 (current_thread c1)).
    + by apply held_current.
    + rewrite E. by apply held_current.
Qed.

(** X23. From the cold start, with every operation called properly, the
    next proper call returns: no assertion of the scheduler fails, no
    null pointer is dereferenced, no thread block, process block or
    handle that is used is missing, no ready queue is indexed out of its
    bounds, and no node that is linked in a list is linked again. *)
Theorem proper_calls_return s0 os s o :
  (0 < PRIORITY_LISTS)%nat → Z.of_nat PRIORITY_LISTS ≤ INT_MAX →
  cold_start s0 → disciplined s0 os s →
  proper o s →
  ∃ s', exec o s = Done tt s'.
Proof.
  intros Hpos Hmax Hcold Hrun Hp.
  pose proof (sound_run s0 os s Hpos Hmax Hcold Hrun) as Hs.
  destruct (sound_step Hpos Hmax o s Hs Hp) as (s' & Hexec & _).
  by exists s'.
Qed.


End conduct_proofs.

(** ** What a selection serves *)

Section select_order.
Context `{Tunables}.

(** The first loop of a selection, on a timeout list of sleepers that
    can be made ready. *)
Lemma select_drains curtime s :
  NoDup (TIMEOUT_LIST s) →
  Forall (wakeable s) (TIMEOUT_LIST s) →
  length (SCHED s) = PRIORITY_LISTS →
  queued_allocated s →
  let due := due_prefix (tcbs s) curtime (TIMEOUT_LIST s) in
  ∃ s1,
    drain_timeouts (length (TIMEOUT_LIST s) + 2) curtime s = Done tt s1
    ∧ wake_all due s = Done tt s1
    ∧ TIMEOUT_LIST s1 = drop (length due) (TIMEOUT_LIST s)
    ∧ length (SCHED s1) = PRIORITY_LISTS
    ∧ queued_allocated s1
    ∧ counter_congestion s1 = counter_congestion s
    ∧ fail_safe s1 = fail_safe s
    ∧ boost_calls s1 = boost_calls s.
Proof.
  intros Hnd Hwake Hlen Hall due.
  destruct (drain_timeouts_spec (TIMEOUT_LIST s)
              (length (TIMEOUT_LIST s) + 2) curtime s eq_refl Hnd Hwake)
    as (s1 & Hdrain & Hwakeall & HTL1 & Hlen1 & Hdue1 & Hrest1 & Hq1);
    [lia|].
  fold due in Hwakeall, HTL1, Hdue1, Hrest1, Hq1.
  assert (Halloc : Forall (λ t, is_Some (tcbs s !! t)) (TIMEOUT_LIST s)).
  { eapply Forall_impl; [exact Hwake|]. intros t (b & Hb & _). by exists b. }
  assert (Hkeep : ∀ t, is_Some (tcbs s !! t) → is_Some (tcbs s1 !! t)).
  { intros t [b Hb]. destruct (decide (t ∈ due)) as [Hin|Hout].
    - rewrite (Hdue1 t b Hin Hb). by eexists.
    - rewrite Hrest1 by done. by exists b. }
  exists s1. split_and!; try done.
  - by rewrite Hlen1.
  - apply Forall_forall. intros x Hx. apply Hkeep.
    destruct (Hq1 x Hx) as [Hx'|Hx'].
    + by apply (proj1 (Forall_forall _ _) Hall).
    + apply (proj1 (Forall_forall _ _) Halloc).
      by eapply due_prefix_subseteq.
  - exact (keeps_drain_timeouts _
             (counters_only_counter_congestion (counter_congestion s))
             _ _ s eq_refl tt s1 Hdrain).
  - exact (keeps_drain_timeouts _
             (counters_only_fail_safe (fail_safe s))
             _ _ s eq_refl tt s1 Hdrain).
  - exact (keeps_drain_timeouts _
             (counters_only_boost_calls_eq (boost_calls s))
             _ _ s eq_refl tt s1 Hdrain).
Qed.

(** X25. A selection serves the top queue only.  [sched_queue_select]
    first makes ready, in the order of the list, the threads at the head
    of [TIMEOUT_LIST] whose wake-up time is not after the clock.  In the
    state [s1] this leads to, it returns the first thread of
    [SCHED[TOP_PRIORITY]] and unlinks it, or returns null when that
    queue is empty: whatever the queues below hold, no thread of theirs
    is selected.  Unless the call enters [boost], the queues are those
    of [s1] apart from the thread that is returned. *)
Theorem select_serves_top_only (curtime : Z) (s : sched) :
  (0 < PRIORITY_LISTS)%nat →
  NoDup (concat (SCHED s) ++ TIMEOUT_LIST s) →
  Forall (wakeable s) (TIMEOUT_LIST s) →
  length (SCHED s) = PRIORITY_LISTS →
  queued_allocated s →
  let due := due_prefix (tcbs s) curtime (TIMEOUT_LIST s) in
  let top := (PRIORITY_LISTS - 1)%nat in
  ∃ s1 q s',
    wake_all due s = Done tt s1
    ∧ TIMEOUT_LIST s1 = drop (length due) (TIMEOUT_LIST s)
    ∧ SCHED s1 !! top = Some q
    ∧ sched_queue_select curtime s = Done (head q) s'
    ∧ concat (SCHED s') ≡ₚ concat (<[top := tail q]> (SCHED s1))
    ∧ TIMEOUT_LIST s' = TIMEOUT_LIST s1
    ∧ (boost_calls s' = boost_calls s →
       SCHED s' = <[top := tail q]> (SCHED s1)).
Proof.
  intros Hpos Hnd Hwake Hlen Hall due top.
  apply NoDup_app in Hnd as (_ & _ & Hnd).
  destruct (select_drains curtime s Hnd Hwake Hlen Hall)
    as (s1 & Hdrain & Hwakeall & HTL1 & Hlen1 & Hall1 & _ & _ & Hcalls1).
  destruct (select_drained curtime s s1 Hdrain Hlen1 Hpos Hall1)
    as (s' & Hrun & Htest & _ & _ & Hcalls & Hperm & _ & HTL & _).
  cbv zeta in Htest, Hcalls. fold top in Hrun.
  destruct (lookup_lt_is_Some_2 (SCHED s1) top) as [q Hq];
    [unfold top; lia|].
  assert (HS : SCHED (scanned s1) = <[top := tail q]> (SCHED s1)).
  { unfold scanned. simpl. fold top. by rewrite Hq. }
  rewrite Hq in Hrun. simpl in Hrun. rewrite HS in Hperm.
  exists s1, q, s'. split_and!; try done.
  intros Hsame.
  destruct (bool_decide (counter_congestion (scanned s1) >= MAX_CONGESTION)
            || bool_decide (fail_safe (scanned s1) = 500)).
  - lia.
  - by subst s'.
Qed.

(** X26. The congestion counter counts the selections behind which a
    thread waits below the top.  In the state [s1] after the first loop
    of a selection, the counter goes up by one when a queue below
    [SCHED[TOP_PRIORITY]] is not empty and down by one when all of them
    are empty, whether the top queue gave a thread or not; it is then
    clamped at 0, and reset to 0 when the call enters [boost].  It is
    not negative when the call returns. *)
Theorem congestion_counts_lower_queues (curtime : Z) (s : sched) :
  (0 < PRIORITY_LISTS)%nat →
  NoDup (concat (SCHED s) ++ TIMEOUT_LIST s) →
  Forall (wakeable s) (TIMEOUT_LIST s) →
  length (SCHED s) = PRIORITY_LISTS →
  queued_allocated s →
  INT_MIN < counter_congestion s < INT_MAX →
  let due := due_prefix (tcbs s) curtime (TIMEOUT_LIST s) in
  ∃ s1 r s',
    wake_all due s = Done tt s1
    ∧ sched_queue_select curtime s = Done r s'
    ∧ let below := take (PRIORITY_LISTS - 1) (SCHED s1) in
      let step := if bool_decide (Exists (λ q, q ≠ []) below)
                  then 1 else -1 in
      let u := Z.max 0 (counter_congestion s + step) in
      counter_congestion s'
      = (if bool_decide (u >= MAX_CONGESTION
                         ∨ wrap_int (fail_safe s + 1) = 500)
         then 0 else u)
      ∧ 0 ≤ counter_congestion s'.
Proof.
  intros Hpos Hnd Hwake Hlen Hall Hrange due.
  apply NoDup_app in Hnd as (_ & _ & Hnd).
  destruct (select_drains curtime s Hnd Hwake Hlen Hall)
    as (s1 & Hdrain & Hwakeall & _ & Hlen1 & Hall1 & Hcc1 & Hfs1 & _).
  destruct (select_drained curtime s s1 Hdrain Hlen1 Hpos Hall1)
    as (s' & Hrun & _ & Hcc & _).
  cbv zeta in Hcc.
  eexists s1, _, s'. split; [done|]. split; [exact Hrun|]. cbv zeta.
  assert (Hstep : congestion_step (PRIORITY_LISTS - 1) (SCHED s1)
                  = if bool_decide
                         (Exists (λ q, q ≠ [])
                            (take (PRIORITY_LISTS - 1) (SCHED s1)))
                    then 1 else -1).
  { unfold congestion_step.
    destruct (PRIORITY_LISTS - 1)%nat as [|k] eqn:E; [|done].
    rewrite take_0. rewrite bool_decide_eq_false_2; [done|].
    by intros ?%Exists_nil. }
  assert (Hsm : counter_congestion (scanned s1)
                = Z.max 0 (counter_congestion s
                           + congestion_step (PRIORITY_LISTS - 1) (SCHED s1))).
  { unfold scanned. simpl. rewrite Hcc1.
    pose proof (congestion_step_bounds (PRIORITY_LISTS - 1) (SCHED s1)).
    rewrite wrap_int_id; [done|]. unfold INT_MIN, INT_MAX in *. lia. }
  assert (Hfsm : fail_safe (scanned s1) = wrap_int (fail_safe s + 1)).
  { unfold scanned. simpl. by rewrite Hfs1. }
  rewrite Hsm, Hfsm, Hstep in Hcc. rewrite Hcc.
  set (u := Z.max 0 _). rewrite bool_decide_or.
  destruct (bool_decide (u >= MAX_CONGESTION)
            || bool_decide (wrap_int (fail_safe s + 1) = 500)).
  - done.
  - split; [done|]. unfold u. lia.
Qed.

End select_order.

(** ** A yield that selects nothing *)

Section yield_without_selection.
Context `{Tunables}.

(** [yield] up to its call of [sched_queue_select]: the current thread
    has its new priority and, if it was [RUNNING], is [READY]. *)
Lemma yield_switch_enter core c b cause curtime s :
  cctx s !! core = Some c →
  tcbs s !! current_thread c = Some b →
  state b ≠ INIT →
  let cur := current_thread c in
  yield_switch core cause curtime s
  = (next ← sched_queue_select curtime;
     next ←
       match next with
       | Some n => mret n
       | None =>
           if bool_decide (state b = RUNNING ∨ state b = READY)
           then mret cur
           else c ← CURCORE core; mret (idle_thread c)
       end;
     upd_tcb cur (with_next (Some next));;
     upd_tcb next (with_prev (Some cur));;
     if bool_decide (cur ≠ next) then set_CURTHREAD core next
     else mret tt) (set_tcbs <[cur := yielded cause b]> s).
Proof.
  intros Hc Hb Hinit cur. fold cur in Hb.
  set (bA := yield_priority cause b).
  set (sA := set_tcbs <[cur := bA]> s).
  destruct (yield_priority_quiet cause b) as [HstA _]. fold bA in HstA.
  unfold yield_switch.
  erewrite (bind_Done (CURTHREAD core)); [|by apply CURTHREAD_Done].
  fold cur.
  erewrite (bind_Done (upd_tcb cur _)); [|by apply upd_tcb_Done].
  fold bA sA.
  erewrite (bind_Done (get_tcb cur));
    [|apply get_tcb_Done; apply lookup_insert_eq].
  erewrite bind_Done; [done|].
  rewrite HstA. unfold yielded. fold bA.
  destruct (state b) eqn:Hst; try done.
  erewrite bind_Done.
  2:{ apply upd_tcb_Done. apply lookup_insert_eq. }
  unfold mret, M_ret. f_equal. apply sched_eq; simpl; try done.
  by rewrite insert_insert_eq.
Qed.

(** X27. A [yield] that selects nothing.  With no deadline due and the
    top queue empty, whatever the queues below hold, [yield] gets null
    from the selection and the core goes on without a thread from the
    queues.  A current thread that was [RUNNING] or [READY] is [READY]
    and stays the current thread, linked to itself.  For a current
    thread that has stopped or exited, the core switches to its idle
    thread, which gets the thread that has yielded as its [prev].  The
    ready queues hold the same threads and the timeout list is the
    same. *)
Theorem yield_goes_on_without_selection (core : nat) (c : CCB) (b : TCB)
    (cause : SCHED_CAUSE) (curtime : Z) (s : sched) :
  cctx s !! core = Some c →
  tcbs s !! current_thread c = Some b →
  state b ≠ INIT →
  nothing_due curtime s →
  length (SCHED s) = PRIORITY_LISTS →
  queued_allocated s →
  SCHED s !! (PRIORITY_LISTS - 1)%nat = Some [] →
  (current_thread c ∉ concat (SCHED s)) →
  let cur := current_thread c in
  let idle := idle_thread c in
  let b1 := yielded cause b in
  (state b = RUNNING ∨ state b = READY →
   ∃ s', yield_switch core cause curtime s = Done tt s'
         ∧ cctx s' = cctx s
         ∧ tcbs s' !! cur
           = Some (with_prev (Some cur) (with_next (Some cur) b1))
         ∧ state b1 = READY
         ∧ concat (SCHED s') ≡ₚ concat (SCHED s)
         ∧ TIMEOUT_LIST s' = TIMEOUT_LIST s)
  ∧ (state b = STOPPED ∨ state b = EXITED →
     ∀ bi, tcbs s !! idle = Some bi → idle ≠ cur →
           (idle ∉ concat (SCHED s)) →
     ∃ s', yield_switch core cause curtime s = Done tt s'
           ∧ cctx s' = <[core := mkCCB idle idle]> (cctx s)
           ∧ tcbs s' !! cur = Some (with_next (Some idle) b1)
           ∧ state b1 = state b
           ∧ tcbs s' !! idle = Some (with_prev (Some cur) bi)
           ∧ concat (SCHED s') ≡ₚ concat (SCHED s)
           ∧ TIMEOUT_LIST s' = TIMEOUT_LIST s).
Proof.
  intros Hc Hb Hinit Hdue Hlen Hall Htop Hout cur idle b1.
  fold cur in Hb, Hout.
  set (sB := set_tcbs <[cur := b1]> s).
  assert (HwB : wakeup_time b1 = wakeup_time b).
  { unfold b1, yielded. destruct (yield_priority_quiet cause b) as [_ Hw].
    by destruct (state b). }
  assert (HstB : state b1
                 = if bool_decide (state b = RUNNING) then READY
                   else state b).
  { unfold b1, yielded. destruct (yield_priority_quiet cause b) as [Hst _].
    by destruct (state b) eqn:E. }
  destruct (select_top_empty curtime sB) as (s1 & Hsel & Hre & _ & _).
  { by eapply nothing_due_upd. }
  { done. }
  { by apply queued_allocated_upd. }
  { done. }
  pose proof Hre as (HTL & Hcc & _ & _ & _ & _ & Hperm & Hframe & _).
  simpl in Hframe, Hperm, Hcc, HTL.
  assert (Hcur1 : tcbs s1 !! cur = Some b1).
  { rewrite Hframe by done. apply lookup_insert_eq. }
  pose proof (yield_switch_enter core c b cause curtime s Hc Hb Hinit)
    as Hstart.
  cbv zeta in Hstart. fold cur b1 sB in Hstart.
  split.
  - intros Hready. rewrite Hstart.
    erewrite bind_Done; [|exact Hsel].
    rewrite (bool_decide_eq_true_2 _ Hready).
    erewrite bind_Done; [|reflexivity].
    erewrite (bind_Done (upd_tcb cur _)); [|by apply upd_tcb_Done].
    erewrite (bind_Done (upd_tcb cur _)).
    2:{ apply upd_tcb_Done. simpl. apply lookup_insert_eq. }
    rewrite (bool_decide_eq_false_2 (cur ≠ cur)) by (by intros ?).
    eexists. split; [reflexivity|]. simpl.
    split; [done|]. split; [apply lookup_insert_eq|].
    split; [|done].
    rewrite HstB. destruct Hready as [E|E]; rewrite E; by case_bool_decide.
  - intros Hstopped bi Hbi Hne Hidle_out.
    assert (Hnot : ¬ (state b = RUNNING ∨ state b = READY)).
    { intros [E|E]; destruct Hstopped; congruence. }
    assert (Hbi1 : tcbs s1 !! idle = Some bi).
    { rewrite Hframe by done. simpl. by rewrite lookup_insert_ne. }
    assert (Hc1 : cctx s1 !! core = Some c) by by rewrite Hcc.
    rewrite Hstart.
    erewrite bind_Done; [|exact Hsel].
    rewrite (bool_decide_eq_false_2 _ Hnot).
    erewrite bind_Done.
    2:{ erewrite (bind_Done (CURCORE core)); [reflexivity|].
        unfold CURCORE. by rewrite Hc1. }
    erewrite (bind_Done (upd_tcb cur _)); [|by apply upd_tcb_Done].
    erewrite (bind_Done (upd_tcb idle _)).
    2:{ apply upd_tcb_Done. simpl. by rewrite lookup_insert_ne. }
    rewrite (bool_decide_eq_true_2 (cur ≠ idle)) by done.
    unfold set_CURTHREAD.
    erewrite (bind_Done (CURCORE core)).
    2:{ unfold CURCORE. simpl. by rewrite Hc1. }
    eexists. split; [reflexivity|]. simpl.
    split; [by rewrite Hcc|].
    split; [rewrite lookup_insert_ne by done; apply lookup_insert_eq|].
    split.
    { rewrite HstB. rewrite bool_decide_eq_false_2; [done|].
      intros E. apply Hnot. by left. }
    split; [apply lookup_insert_eq|]. done.
Qed.

End yield_without_selection.

(** ** The properties at sample states *)

(** C2. When the thread 1 of the process 1 has exited and the thread 2 of
    the process 2 gains the core, [gain] marks the handle of the thread 1
    as exited, frees its block and takes one off [active_threads], but
    the [thread_count] it takes one off is the one of the process 2, the
    process of the current thread, not the one of the process 1. *)
Theorem gain_counts_down_current_process :
  ∃ s', gain 0 exiting = Done tt s'
        ∧ thread_exited s' !! 7%nat = Some 1
        ∧ tcbs s' !! 1%nat = None
        ∧ active_threads s' = active_threads exiting - 1
        ∧ thread_count exiting !! 1%nat = Some 3
        ∧ thread_count s' !! 1%nat = Some 3
        ∧ thread_count exiting !! 2%nat = Some 5
        ∧ thread_count s' !! 2%nat = Some 4.
Proof. eexists. vm_compute. split_and!; reflexivity. Qed.

(** C6. With the thread 1 ready at the lowest level, the two queues
    above it empty, no deadline due and the congestion counter at 2, the
    selection pops no thread and returns null, and the counter goes up
    to 3: the scan stops at the top queue, whose head it takes for a
    thread that was found, so the update looks at the queues below the
    top and counts the thread 1 as one that waits behind the
    selection. *)
Theorem congestion_grows_with_nothing_selected :
  ∃ s', sched_queue_select (H := three_levels) 0 starved = Done None s'
        ∧ SCHED starved = [[1%nat]; []; []]
        ∧ SCHED s' = [[1%nat]; []; []]
        ∧ counter_congestion starved = 2
        ∧ counter_congestion s' = 3.
Proof. eexists. vm_compute. split_and!; reflexivity. Qed.

(** C9. With the top queue empty, the threads 2 and 3 ready at the
    middle level and the thread 1 at the lowest, and the thread 5 due at
    10, the selection at the time 15 first makes the thread 5 ready,
    which puts it behind the thread 3, and then returns null: the scan
    stops at the top queue and the thread 2, the front of the first
    queue that is not empty, stays where it is. *)
Theorem select_passes_over_lower_queues :
  ∃ s', sched_queue_select (H := three_levels) 15 lower_ready = Done None s'
        ∧ SCHED lower_ready = [[1%nat]; [2%nat; 3%nat]; []]
        ∧ TIMEOUT_LIST lower_ready = [5%nat; 6%nat]
        ∧ SCHED s' = [[1%nat]; [2%nat; 3%nat; 5%nat]; []]
        ∧ TIMEOUT_LIST s' = [6%nat]
        ∧ counter_congestion s' = 1.
Proof. eexists. vm_compute. split_and!; reflexivity. Qed.

Lemma busy_queued_allocated : queued_allocated busy.
Proof.
  apply (bool_decide_unpack _). vm_compute. exact I.
Defined.

Lemma busy_NoDup : NoDup (concat (SCHED busy)).
Proof.
  apply (bool_decide_unpack _). vm_compute. exact I.
Defined.

Lemma ready_kernel_initial : initial (H := three_levels) ready_kernel.
Proof.
  apply (initial_boot cold_kernel); [by vm_compute|by vm_compute].
Defined.

Lemma ready_kernel_cold : cold_start (H := three_levels) ready_kernel.
Proof.
  split_and!.
  - exact ready_kernel_initial.
  - intros t b Hb.
    assert (Hin : (t, b) ∈ map_to_list (tcbs ready_kernel))
      by by apply elem_of_map_to_list.
    vm_compute in Hin. apply list_elem_of_singleton in Hin.
    injection Hin as -> ->. split_and!; try reflexivity. by exists 1.
  - intros [|core] c Hc; [|done]. injection Hc as <-.
    split; [reflexivity|]. by eexists.
  - intros [|core1] [|core2] c1 c2 Hc1 Hc2 _; done.
Defined.

Lemma dozing_disciplined :
  disciplined (H := three_levels) ready_kernel doze dozing.
Proof. apply conduct_disciplined. vm_compute. reflexivity. Defined.

Lemma idling_disciplined :
  disciplined (H := three_levels) ready_kernel doze_on idling.
Proof. apply conduct_disciplined. vm_compute. reflexivity. Defined.

Lemma select_nothing_ready_returns_null_witness :
  ∃ s', sched_queue_select (H := three_levels) 7 asleep = Done None s'
        ∧ TIMEOUT_LIST s' = [5%nat]
        ∧ fail_safe s' = 1.
Proof.
  destruct (select_nothing_ready_returns_null (H := three_levels) 7 asleep)
    as (s' & Hrun & _ & _ & HTL & _ & Hfs & _).
  - simpl. lia.
  - reflexivity.
  - repeat constructor.
  - exists (thread_block 1 None STOPPED CTX_CLEAN 10 2).
    split; reflexivity.
  - exists s'. split_and!; [exact Hrun|exact HTL|exact Hfs].
Defined.

Lemma boost_conserves_and_raises_witness :
  ∃ s', boost (H := three_levels) busy = Done tt s'
        ∧ counter_congestion s' = 0
        ∧ SCHED s' !! 0%nat = Some [].
Proof.
  destruct (boost_conserves_and_raises (H := three_levels) busy)
    as (s' & Hrun & Hcc & _ & Hlow & _).
  - reflexivity.
  - simpl. lia.
  - exact busy_queued_allocated.
  - exact busy_NoDup.
  - intros t b Hin Hb. simpl in Hin.
    repeat (apply elem_of_cons in Hin as [->|Hin]);
      try (vm_compute in Hb; injection Hb as <-; vm_compute;
           split; [discriminate|reflexivity]).
    by apply elem_of_nil in Hin.
  - exists s'. by split_and!.
Defined.

Lemma boost_keeps_fifo_order_witness :
  ∃ s', boost (H := three_levels) busy = Done tt s'
        ∧ SCHED s' !! 1%nat = Some [1%nat]
        ∧ SCHED s' !! 2%nat = Some [4%nat; 2%nat; 3%nat].
Proof.
  destruct (boost_keeps_fifo_order (H := three_levels) busy)
    as (s' & Hrun & Hup & Htop).
  - reflexivity.
  - exact busy_queued_allocated.
  - exists s'. split_and!; [done| |].
    + apply (Hup 0%nat); [vm_compute; reflexivity|reflexivity].
    + apply (Htop 1%nat [2%nat; 3%nat] [4%nat]); reflexivity.
Defined.


Lemma fail_safe_fires_once_witness :
  fail_safe (spun 501) = 501
  ∧ (1 ≤ boost_calls (spun 501))%nat.
Proof.
  destruct (fail_safe_fires_once (H := three_levels) ready_kernel
              (spun 501) (spin 501)) as (Hfs & _ & _ & _ & Hboost).
  - exact ready_kernel_initial.
  - apply conduct_disciplined. vm_compute. reflexivity.
  - vm_compute. reflexivity.
  - split.
    + rewrite Hfs. vm_compute. reflexivity.
    + apply Hboost. vm_compute. lia.
Defined.

Lemma busy_wakeable :
  Forall (wakeable (H := three_levels) busy) (TIMEOUT_LIST busy).
Proof.
  change (Forall (wakeable (H := three_levels) busy) [5%nat; 6%nat]).
  apply Forall_cons. split.
  - exists (thread_block 1 None STOPPED CTX_CLEAN 10 2).
    split_and!; [reflexivity|reflexivity|by vm_compute|].
    intros _. simpl. lia.
  - apply Forall_cons. split; [|by apply Forall_nil].
    exists (thread_block 1 None STOPPED CTX_CLEAN 20 1).
    split_and!; [reflexivity|reflexivity|by vm_compute|].
    intros _. simpl. lia.
Defined.


Lemma register_timeout_sorted_witness :
  (∃ s', sched_register_timeout (H := three_levels) 3 7 12 busy_with_runner
         = Done tt s'
         ∧ TIMEOUT_LIST s' = [5%nat; 7%nat; 6%nat]
         ∧ SCHED s' = SCHED busy_with_runner)
  ∧ timeouts_sorted dozing.
Proof.
  destruct (register_timeout_sorted (H := three_levels) 3 12 7
              fresh_block busy_with_runner)
    as (_ & Hreg & Hruns).
  - reflexivity.
  - apply (bool_decide_unpack _). by vm_compute.
  - apply (bool_decide_unpack _). by vm_compute.
  - apply (bool_decide_unpack _). by vm_compute.
  - split.
    + destruct Hreg as (l1 & l2 & s' & Hrun & _ & _ & _ & _ & _ & _ & HS & _);
        [by vm_compute|].
      exists s'. split; [exact Hrun|]. split; [|exact HS].
      vm_compute in Hrun. injection Hrun as <-. reflexivity.
    + apply (Hruns ready_kernel doze dozing).
      * simpl. lia.
      * vm_compute. discriminate.
      * exact ready_kernel_cold.
      * exact dozing_disciplined.
Defined.

(** ** The further properties at sample states *)

Lemma spawn_release_round_trip_witness :
  ∃ t s1, spawn_thread (H := three_levels) 1 stale busy = Done t s1
    ∧ tcbs busy !! t = None
    ∧ is_Some (tcbs s1 !! t)
    ∧ active_threads s1 = wrap_uint (active_threads busy + 1)
    ∧ release_TCB t s1 = Done tt busy.
Proof.
  apply (spawn_release_round_trip (H := three_levels) 1 stale busy).
  simpl. lia.
Defined.

Lemma spawned_thread_wakes_at_top_witness :
  ∃ t s1 s2,
    spawn_thread (H := three_levels) 1 stale busy = Done t s1
    ∧ wakeup (H := three_levels) t s1 = Done 1 s2
    ∧ SCHED s2 = [[1%nat]; [2%nat; 3%nat]; [4%nat; t]]
    ∧ tcbs s2 !! t
      = Some (mkTCB 1 (Some 3%nat) NORMAL_THREAD READY CTX_CLEAN never 2 0 2
                    (Some 8%nat) (Some 9%nat)).
Proof.
  destruct (spawned_thread_wakes_at_top (H := three_levels) 1 stale busy)
    as (t & s1 & s2 & q & Hspawn & _ & _ & _ & Hwake & Hq & HS & _ & Hb).
  - reflexivity.
  - simpl. lia.
  - exists t, s1, s2. split; [exact Hspawn|]. split; [exact Hwake|].
    split.
    + rewrite HS. vm_compute in Hq. injection Hq as <-. reflexivity.
    + rewrite Hb. apply lookup_insert_eq.
Defined.

Lemma wakeup_twice_witness :
  ∃ s1, wakeup (H := three_levels) 5 busy = Done 1 s1
        ∧ wakeup (H := three_levels) 5 s1 = Done 0 s1.
Proof.
  eexists. split; [vm_compute; reflexivity|].
  apply (wakeup_twice (H := three_levels) 5 1 busy).
  vm_compute. reflexivity.
Defined.

Lemma sleep_wakeup_round_trip_witness :
  ∃ s1,
    sleep_releasing_locked (H := three_levels) 0 STOPPED 4 3 working
      = Done tt s1
    ∧ TIMEOUT_LIST s1 = [1%nat; 5%nat]
    ∧ wakeup (H := three_levels) 1 s1
      = Done 1 (set_tcbs <[1%nat :=
                  mkTCB 1 None NORMAL_THREAD READY CTX_DIRTY never 1 0 1
                        (Some 0%nat) None]> working).
Proof.
  destruct (sleep_wakeup_round_trip (H := three_levels) 0 (mkCCB 1 0)
              (mkTCB 1 None NORMAL_THREAD RUNNING CTX_DIRTY never 1 0 1
                     (Some 0%nat) None) 4 3 working)
    as (s1 & b1 & Hsleep & _ & _ & _ & _ & Hwake).
  - reflexivity.
  - reflexivity.
  - reflexivity.
  - reflexivity.
  - apply (bool_decide_unpack _). by vm_compute.
  - apply (bool_decide_unpack _). by vm_compute.
  - apply (bool_decide_unpack _). by vm_compute.
  - intros _. by vm_compute.
  - exists s1. split; [exact Hsleep|]. split; [|exact Hwake].
    vm_compute in Hsleep. injection Hsleep as <-. reflexivity.
Defined.

Lemma sched_make_ready_rejects_witness :
  sched_make_ready (H := three_levels) 1 busy = Crash AssertFail busy.
Proof.
  apply (sched_make_ready_rejects (H := three_levels) 1
           (thread_block 1 None READY CTX_CLEAN never 0) busy).
  - reflexivity.
  - left. split; discriminate.
Defined.

Lemma yield_priority_feedback_witness :
  yield_priority (H := three_levels) SCHED_QUANTUM fresh_block
  = with_priority 1 fresh_block.
Proof.
  apply (yield_priority_feedback (H := three_levels) SCHED_QUANTUM
           fresh_block).
  - reflexivity.
  - vm_compute. split; discriminate.
  - reflexivity.
  - discriminate.
Defined.

Lemma yield_priority_in_range_witness :
  LOWEST_PRIORITY
  ≤ priority (yield_priority (H := three_levels) SCHED_MUTEX fresh_block)
  ≤ TOP_PRIORITY (H := three_levels).
Proof.
  refine (proj1 (yield_priority_in_range (H := three_levels) SCHED_MUTEX
                   fresh_block _ _ _ _)).
  - simpl. lia.
  - reflexivity.
  - vm_compute. split; discriminate.
  - vm_compute. split; discriminate.
Defined.


Lemma gain_edges_witness :
  ∃ s', gain 0 (set_tcbs <[2%nat :=
                  mkTCB 2 None NORMAL_THREAD READY CTX_CLEAN never 2 0 2
                        None None]> exiting) = Crash NullDeref s'.
Proof.
  eexists.
  refine (proj1 (proj2 (gain_edges 0 (mkCCB 2 0)
            (mkTCB 2 None NORMAL_THREAD READY CTX_CLEAN never 2 0 2 None None)
            _ _ _)) _).
  - reflexivity.
  - reflexivity.
  - reflexivity.
Defined.

Lemma congestion_stays_below_threshold_witness :
  0 ≤ counter_congestion idling
  ∧ (counter_congestion idling = 0
     ∨ counter_congestion idling < MAX_CONGESTION (Tunables := three_levels)).
Proof.
  apply (congestion_stays_below_threshold (H := three_levels)
           ready_kernel idling doze_on).
  - exact ready_kernel_cold.
  - exact idling_disciplined.
Defined.

Lemma timeout_list_holds_sleepers_witness :
  ∃ b, tcbs dozing !! 2%nat = Some b ∧ state b = STOPPED
       ∧ wakeup_time b ≠ NO_TIMEOUT (Tunables := three_levels).
Proof.
  apply (timeout_list_holds_sleepers (H := three_levels)
           ready_kernel doze dozing 2).
  - simpl. lia.
  - vm_compute. discriminate.
  - exact ready_kernel_cold.
  - exact dozing_disciplined.
  - apply (bool_decide_unpack _). by vm_compute.
Defined.

Lemma working_queued_allocated : queued_allocated working.
Proof. apply (bool_decide_unpack _). vm_compute. exact I. Defined.

Lemma working_NoDup : NoDup (concat (SCHED working)).
Proof. apply (bool_decide_unpack _). vm_compute. exact I. Defined.

Lemma working_nothing_due : nothing_due 3 working.
Proof.
  exists (thread_block 1 None STOPPED CTX_CLEAN 10 2).
  split; reflexivity.
Defined.


Lemma exit_releases_block_witness :
  ∃ s', sleep_releasing (H := three_levels) 0 EXITED SCHED_USER 0 3 3 working
        = Done tt s'
        ∧ tcbs s' !! 1%nat = None
        ∧ active_threads s' = wrap_uint (active_threads working - 1)
        ∧ TIMEOUT_LIST s' = [5%nat].
Proof.
  destruct (exit_releases_block (H := three_levels) 0 (mkCCB 1 0)
              (mkTCB 1 None NORMAL_THREAD RUNNING CTX_DIRTY never 1 0 1
                     (Some 0%nat) None)
              (thread_block 1 None READY CTX_CLEAN never 2)
              2 2 [] SCHED_USER 0 3 3 4 working)
    as (s' & Hrun & Hfree & Hact & _ & _ & _ & _ & _ & _ & HTL).
  - reflexivity.
  - reflexivity.
  - exact working_nothing_due.
  - reflexivity.
  - exact working_queued_allocated.
  - exact working_NoDup.
  - apply (bool_decide_unpack _). by vm_compute.
  - reflexivity.
  - reflexivity.
  - reflexivity.
  - intros p Hp. discriminate Hp.
  - reflexivity.
  - exists s'. split_and!; [exact Hrun|exact Hfree|exact Hact|exact HTL].
Defined.

Lemma busy_timeouts_sorted : timeouts_sorted busy.
Proof.
  unfold timeouts_sorted.
  change (TIMEOUT_LIST busy) with [5%nat; 6%nat].
  apply SSorted_cons.
  - apply SSorted_cons; [apply SSorted_nil|apply List.Forall_nil].
  - apply List.Forall_cons; [|apply List.Forall_nil].
    exists 10, 20. split_and!; [reflexivity|reflexivity|lia].
Defined.

Lemma select_wakes_all_due_witness :
  (5%nat ∉ TIMEOUT_LIST
             (final (sched_queue_select (H := three_levels) 15 busy)))
  ∧ ∃ b', tcbs (final (sched_queue_select (H := three_levels) 15 busy))
            !! 5%nat = Some b'
          ∧ state b' = READY
          ∧ wakeup_time b' = NO_TIMEOUT (Tunables := three_levels).
Proof.
  refine (proj1 (proj2 (select_wakes_all_due (H := three_levels) 15 busy
                          _ _ _ _ _ _)) 5%nat
            (thread_block 1 None STOPPED CTX_CLEAN 10 2) _ _ _).
  - simpl. lia.
  - exact busy_timeouts_sorted.
  - apply (bool_decide_unpack _). vm_compute. exact I.
  - exact busy_wakeable.
  - reflexivity.
  - exact busy_queued_allocated.
  - apply (bool_decide_unpack _). by vm_compute.
  - reflexivity.
  - simpl. lia.
Defined.

Lemma active_threads_accounting_witness :
  wrap_uint (active_threads dozing - Z.of_nat (size (tcbs dozing)))
  = wrap_uint (active_threads ready_kernel
               - Z.of_nat (size (tcbs ready_kernel))).
Proof.
  apply (active_threads_accounting (H := three_levels)
           ready_kernel dozing doze).
  exact dozing_disciplined.
Defined.

Lemma busy_queued_by_priority : queued_by_priority busy.
Proof.
  intros i q t Hi Ht.
  destruct i as [|[|[|i]]]; simpl in Hi; [| | |done];
    injection Hi as <-;
    repeat (apply elem_of_cons in Ht as [->|Ht]);
    try (by apply elem_of_nil in Ht);
    (eexists; split; reflexivity).
Defined.

Lemma boost_keeps_queue_of_priority_witness :
  ∃ s', boost (H := three_levels) busy = Done tt s'
        ∧ queued_by_priority s'
        ∧ NoDup (concat (SCHED s')).
Proof.
  apply (boost_keeps_queue_of_priority (H := three_levels) busy).
  - reflexivity.
  - vm_compute. discriminate.
  - exact busy_NoDup.
  - exact busy_queued_by_priority.
Defined.

Lemma boost_to_the_top_witness :
  ∃ s', boosts (H := three_levels) 2 busy = Done tt s'
        ∧ SCHED s' = [[]; []; [4%nat; 2%nat; 3%nat; 1%nat]].
Proof.
  destruct (boost_to_the_top (H := three_levels) busy)
    as (s' & Hrun & HS & _).
  - reflexivity.
  - simpl. lia.
  - vm_compute. discriminate.
  - exact busy_NoDup.
  - exact busy_queued_by_priority.
  - exists s'. split; [exact Hrun|exact HS].
Defined.

Lemma ready_queue_discipline_witness :
  (1 < PRIORITY_LISTS (Tunables := three_levels))%nat
  ∧ ∃ b, tcbs dozing !! 1%nat = Some b ∧ state b = READY
         ∧ phase b = CTX_CLEAN ∧ priority b = 1
         ∧ type b = NORMAL_THREAD.
Proof.
  apply (ready_queue_discipline (H := three_levels)
           ready_kernel doze dozing 1 [1%nat] 1).
  - simpl. lia.
  - vm_compute. discriminate.
  - exact ready_kernel_cold.
  - exact dozing_disciplined.
  - reflexivity.
  - apply list_elem_of_singleton. reflexivity.
Defined.

Lemma one_list_per_thread_witness :
  NoDup (concat (SCHED dozing) ++ TIMEOUT_LIST dozing).
Proof.
  apply (one_list_per_thread (H := three_levels) ready_kernel doze dozing).
  - simpl. lia.
  - vm_compute. discriminate.
  - exact ready_kernel_cold.
  - exact dozing_disciplined.
Defined.

Lemma deadline_iff_in_timeout_list_witness :
  (2%nat ∈ TIMEOUT_LIST dozing ↔ 7 ≠ NO_TIMEOUT (Tunables := three_levels))
  ∧ (7 ≠ NO_TIMEOUT (Tunables := three_levels) → STOPPED = STOPPED).
Proof.
  apply (deadline_iff_in_timeout_list (H := three_levels)
           ready_kernel doze dozing 2
           (mkTCB 1 (Some 7%nat) NORMAL_THREAD STOPPED CTX_DIRTY 7 2 0 2
                  (Some 1%nat) (Some 9%nat))).
  - simpl. lia.
  - vm_compute. discriminate.
  - exact ready_kernel_cold.
  - exact dozing_disciplined.
  - reflexivity.
Defined.

Lemma priorities_stay_in_range_witness :
  LOWEST_PRIORITY ≤ 1 ≤ TOP_PRIORITY (H := three_levels)
  ∧ LOWEST_PRIORITY ≤ 2 ≤ TOP_PRIORITY (H := three_levels).
Proof.
  apply (priorities_stay_in_range (H := three_levels)
           ready_kernel doze dozing 1
           (mkTCB 1 None NORMAL_THREAD READY CTX_CLEAN never 1 0 2
                  (Some 0%nat) (Some 2%nat))).
  - simpl. lia.
  - vm_compute. discriminate.
  - exact ready_kernel_cold.
  - exact dozing_disciplined.
  - reflexivity.
Defined.

Lemma current_thread_apart_witness :
  (∃ b, tcbs dozing !! 2%nat = Some b ∧ state b ≠ INIT)
  ∧ (2%nat ∉ concat (SCHED dozing))
  ∧ (2%nat = 2%nat → 0%nat = 0%nat).
Proof.
  apply (current_thread_apart (H := three_levels)
           ready_kernel doze dozing 0 0 (mkCCB 2 0) (mkCCB 2 0)).
  - simpl. lia.
  - vm_compute. discriminate.
  - exact ready_kernel_cold.
  - exact dozing_disciplined.
  - reflexivity.
  - reflexivity.
Defined.

Lemma dozing_yield_proper :
  proper (H := three_levels) (OpYield 0 SCHED_USER 3) dozing.
Proof. apply properb_spec. reflexivity. Defined.

Lemma proper_calls_return_witness :
  ∃ s', exec (H := three_levels) (OpYield 0 SCHED_USER 3) dozing
        = Done tt s'.
Proof.
  apply (proper_calls_return (H := three_levels) ready_kernel doze dozing).
  - simpl. lia.
  - vm_compute. discriminate.
  - exact ready_kernel_cold.
  - exact dozing_disciplined.
  - exact dozing_yield_proper.
Defined.


Lemma busy_one_list : NoDup (concat (SCHED busy) ++ TIMEOUT_LIST busy).
Proof. apply (bool_decide_unpack _). vm_compute. exact I. Qed.

Lemma select_serves_top_only_witness :
  ∃ s1 q s',
    wake_all (H := three_levels) [5%nat] busy = Done tt s1
    ∧ TIMEOUT_LIST s1 = [6%nat]
    ∧ SCHED s1 !! 2%nat = Some q
    ∧ sched_queue_select (H := three_levels) 15 busy = Done (head q) s'
    ∧ concat (SCHED s') ≡ₚ concat (<[2%nat := tail q]> (SCHED s1))
    ∧ TIMEOUT_LIST s' = TIMEOUT_LIST s1
    ∧ (boost_calls s' = boost_calls busy →
       SCHED s' = <[2%nat := tail q]> (SCHED s1)).
Proof.
  apply (select_serves_top_only (H := three_levels) 15 busy).
  - simpl. lia.
  - exact busy_one_list.
  - exact busy_wakeable.
  - reflexivity.
  - exact busy_queued_allocated.
Defined.

Lemma congestion_counts_lower_queues_witness :
  ∃ s1 r s',
    wake_all (H := three_levels) [5%nat] busy = Done tt s1
    ∧ sched_queue_select (H := three_levels) 15 busy = Done r s'
    ∧ counter_congestion s'
      = (if bool_decide
              (Z.max 0
                 (0 + (if bool_decide
                            (Exists (λ q, q ≠ []) (take 2 (SCHED s1)))
                       then 1 else -1)) >= 4
               ∨ wrap_int (0 + 1) = 500)
         then 0
         else Z.max 0
                (0 + (if bool_decide
                           (Exists (λ q, q ≠ []) (take 2 (SCHED s1)))
                      then 1 else -1)))
      ∧ 0 ≤ counter_congestion s'.
Proof.
  apply (congestion_counts_lower_queues (H := three_levels) 15 busy).
  - simpl. lia.
  - exact busy_one_list.
  - exact busy_wakeable.
  - reflexivity.
  - exact busy_queued_allocated.
  - by vm_compute.
Defined.

Lemma yield_goes_on_without_selection_witness :
  ∃ s', yield_switch (H := three_levels) 0 SCHED_USER 3 dozing = Done tt s'
        ∧ cctx s' = [mkCCB 0 0]
        ∧ (∃ b', tcbs s' !! 2%nat = Some b'
                 ∧ state b' = STOPPED ∧ next b' = Some 0%nat)
        ∧ (∃ b', tcbs s' !! 0%nat = Some b' ∧ prev b' = Some 2%nat)
        ∧ SCHED dozing = [[]; [1%nat]; []]
        ∧ concat (SCHED s') ≡ₚ [1%nat]
        ∧ TIMEOUT_LIST s' = [2%nat].
Proof.
  destruct (tcbs dozing !! 2%nat) as [b|] eqn:Hb; [|by vm_compute in Hb].
  destruct (tcbs dozing !! 0%nat) as [bi|] eqn:Hbi; [|by vm_compute in Hbi].
  assert (Hst : state b = STOPPED).
  { vm_compute in Hb. by injection Hb as <-. }
  destruct (proj2 (yield_goes_on_without_selection (H := three_levels)
                     0 (mkCCB 2 0) b SCHED_USER 3 dozing
                     eq_refl Hb
                     ltac:(by rewrite Hst)
                     ltac:(by vm_compute; eexists; split; [reflexivity|])
                     eq_refl
                     ltac:(apply (bool_decide_unpack _); by vm_compute)
                     eq_refl
                     ltac:(apply (bool_decide_unpack _); by vm_compute))
             (or_introl Hst) bi Hbi ltac:(done)
             ltac:(apply (bool_decide_unpack _); by vm_compute))
    as (s' & Hrun & Hcc & Hcur & Hsame & Hidle & Hperm & HTL).
  exists s'. split; [exact Hrun|]. split; [exact Hcc|].
  split.
  { eexists. split; [exact Hcur|]. split; [|reflexivity].
    simpl. rewrite <- Hst. exact Hsame. }
  split; [eexists; split; [exact Hidle|reflexivity]|].
  split; [reflexivity|]. split; [exact Hperm|exact HTL].
Defined.
